(** * Asynchronous file-copy pipeline (02_async_io)

    A shallow embedding of the copy drivers of [io-uring-cp.c],
    [linux-aio-cp.c] and [posix-aio-cp.c], together with the file
    life-cycle helper [close_src_dst_files] of [common.h], and the
    properties of the copy pipeline proved about them.

    C integers are embedded as [Z] with the wrap-around of their type
    written out ([uint16_t], [uint32_t], [size_t], [off_t]).  Arrays are
    lists read with [!!] and updated with [<[ i := x ]>].  The kernel side
    of an asynchronous I/O facility (the operations accepted but not yet
    finished, the two files and the transfer buffers) is explicit state,
    advanced by the actions of a schedule. *)

From Stdlib Require Import ZArith Lia.
From Stdlib.Strings Require Import Byte.
From stdpp Require Import base list relations.

Local Open Scope Z_scope.

(** ** Machine integers *)

Definition wrap_u16 (z : Z) : Z := z mod 2 ^ 16.
Definition wrap_u32 (z : Z) : Z := z mod 2 ^ 32.
Definition wrap_u64 (z : Z) : Z := z mod 2 ^ 64.
Definition wrap_s64 (z : Z) : Z := (z + 2 ^ 63) mod 2 ^ 64 - 2 ^ 63.

(** ** Process outcomes

    [exit(EXIT_FAILURE)] ends the process with status 1.  Indexing an
    array outside its bounds has no defined behaviour in C and is kept
    apart as [Undefined]. *)

Definition EXIT_SUCCESS : Z := 0.
Definition EXIT_FAILURE : Z := 1.

Inductive outcome (A : Type) : Type :=
| Running (a : A)
| Exited (code : Z)
| Undefined.
Arguments Running {A} a.
Arguments Exited {A} code.
Arguments Undefined {A}.

(** ** Files (the part of [common.h] after the descriptors are open)

    A file is the list of its bytes.  [pread] returns the bytes a
    positional read of [n] bytes at [off] transfers from a regular file;
    [pwrite] stores all of [data] at [off], filling a hole with zero bytes;
    [ftruncate] cuts or zero-extends to [n] bytes. *)

Abbreviation file := (list byte).

Definition pread (f : file) (off n : Z) : list byte :=
  take (Z.to_nat n) (drop (Z.to_nat off) f).

Definition pwrite (f : file) (off : Z) (data : list byte) : file :=
  take (Z.to_nat off) f
  ++ replicate (Z.to_nat off - length f)%nat x00
  ++ data
  ++ drop (Z.to_nat off + length data)%nat f.

Definition ftruncate (f : file) (n : Z) : file :=
  take (Z.to_nat n) f ++ replicate (Z.to_nat n - length f)%nat x00.

(** The destination once [open_dst_file] has returned: [O_TRUNC] has
    emptied it and [fallocate] with mode 0 has given it [src_size] bytes,
    all zero. *)
Definition allocated (src_size : Z) : file :=
  replicate (Z.to_nat src_size) x00.

(** [open_dst_file]: [fallocate] refuses a length that is not positive
    ([EINVAL]), and the process exits with [EXIT_FAILURE] when the call
    fails.  For a positive length the runs described are those in which
    the file is opened and the space is there. *)
Definition open_dst_file (src_size : Z) : outcome file :=
  if src_size <=? 0 then Exited EXIT_FAILURE
  else Running (allocated src_size).

(** [close_src_dst_files]: the destination is truncated to the size the
    caller passes; syncing and closing do not change its bytes. *)
Definition close_src_dst_files (src_size : Z) (dst : file) : file :=
  ftruncate dst src_size.

(** A transfer into a buffer overwrites a prefix of it. *)
Definition fill_buffer (buf data : list byte) : list byte :=
  data ++ drop (length data) buf.

(** ** The io_uring driver ([io-uring-cp.c]) *)

Module IoUring.

Inductive BlockStage : Type :=
| BLOCK_IDLE
| BLOCK_IN_READ
| BLOCK_IN_WRITE.

Record BlockStatus : Type := mkBlockStatus {
  stage : BlockStage;
  offset : Z;   (* off64_t *)
  size : Z      (* uint32_t *)
}.

Inductive io_uring_op : Type :=
| IORING_OP_READ_FIXED
| IORING_OP_WRITE_FIXED.

(** A submission queue entry as [io_uring_prep_read_fixed] and
    [io_uring_prep_write_fixed] fill it: the transfer starts at the base of
    the registered buffer [buf_index]. *)
Record io_uring_sqe : Type := mkSqe {
  opcode : io_uring_op;
  fd : Z;
  buf_index : nat;
  len : Z;          (* unsigned nbytes *)
  off : Z;          (* __u64 offset *)
  user_data : Z     (* __u64 *)
}.

Record io_uring_cqe : Type := mkCqe {
  cqe_user_data : Z;   (* __u64 *)
  res : Z              (* __s32 *)
}.

(** The ring: entries prepared and not yet submitted, and completions
    posted and not yet seen. *)
Record io_uring : Type := mkRing {
  sq : list io_uring_sqe;
  cq : list io_uring_cqe
}.

Record CopyStatus : Type := mkCopyStatus {
  src_fd : Z;
  dst_fd : Z;
  src_off : Z;                 (* off_t *)
  src_size : Z;                (* uint32_t *)
  num_block_in_progress : Z;   (* uint16_t *)
  block_statuses : list BlockStatus;
  io_ring : io_uring
}.

#[global] Instance BlockStage_eq_dec : EqDecision BlockStage.
Proof. solve_decision. Defined.

#[global] Instance io_uring_op_eq_dec : EqDecision io_uring_op.
Proof. solve_decision. Defined.

#[global] Instance BlockStatus_inhabited : Inhabited BlockStatus :=
  populate (mkBlockStatus BLOCK_IDLE 0 0).

(** The number of slots that are not idle. *)
Definition busy (b : BlockStatus) : Prop := stage b <> BLOCK_IDLE.

#[global] Instance busy_dec b : Decision (busy b).
Proof. unfold busy. apply _. Defined.

Definition in_flight (blocks : list BlockStatus) : nat :=
  length (filter busy blocks).

Definition io_uring_get_sqe (ring : io_uring) (e : io_uring_sqe) : io_uring :=
  mkRing (sq ring ++ [e]) (cq ring).

Section Driver.

Variable READ_BLOCK_SIZE : Z.
Variable QUEUE_SIZE : nat.

Definition init_copying_status (src_size0 src_fd0 dst_fd0 : Z) : CopyStatus :=
  {| src_fd := src_fd0;
     dst_fd := dst_fd0;
     src_off := 0;
     src_size := src_size0;
     num_block_in_progress := 0;
     block_statuses := replicate QUEUE_SIZE (mkBlockStatus BLOCK_IDLE 0 0);
     io_ring := mkRing [] [] |}.

Definition prepare_read_request (status : CopyStatus) (cell : nat) : CopyStatus :=
  let bytes_left := wrap_u32 (src_size status - src_off status) in
  if bytes_left =? 0 then status
  else
    let block :=
      {| stage := BLOCK_IN_READ;
         offset := src_off status;
         size := if bytes_left <? READ_BLOCK_SIZE then bytes_left
                 else READ_BLOCK_SIZE |} in
    let read_sqe :=
      {| opcode := IORING_OP_READ_FIXED;
         fd := src_fd status;
         buf_index := cell;
         len := READ_BLOCK_SIZE;
         off := wrap_u64 (offset block);
         user_data := Z.of_nat cell |} in
    {| src_fd := src_fd status;
       dst_fd := dst_fd status;
       src_off := wrap_s64 (src_off status + size block);
       src_size := src_size status;
       num_block_in_progress := wrap_u16 (num_block_in_progress status + 1);
       block_statuses := <[cell := block]> (block_statuses status);
       io_ring := io_uring_get_sqe (io_ring status) read_sqe |}.

Definition prepare_write_request (status : CopyStatus) (cell : nat) : CopyStatus :=
  let old := block_statuses status !!! cell in
  let block :=
    {| stage := BLOCK_IN_WRITE; offset := offset old; size := size old |} in
  let write_sqe :=
    {| opcode := IORING_OP_WRITE_FIXED;
       fd := dst_fd status;
       buf_index := cell;
       len := READ_BLOCK_SIZE;
       off := wrap_u64 (offset block);
       user_data := Z.of_nat cell |} in
  {| src_fd := src_fd status;
     dst_fd := dst_fd status;
     src_off := src_off status;
     src_size := src_size status;
     num_block_in_progress := num_block_in_progress status;
     block_statuses := <[cell := block]> (block_statuses status);
     io_ring := io_uring_get_sqe (io_ring status) write_sqe |}.

Definition finish_write_request (status : CopyStatus) (cell : nat) : CopyStatus :=
  let old := block_statuses status !!! cell in
  let block :=
    {| stage := BLOCK_IDLE; offset := offset old; size := size old |} in
  {| src_fd := src_fd status;
     dst_fd := dst_fd status;
     src_off := src_off status;
     src_size := src_size status;
     num_block_in_progress := wrap_u16 (num_block_in_progress status - 1);
     block_statuses := <[cell := block]> (block_statuses status);
     io_ring := io_ring status |}.

(** The body of the [do ... while] of [main] for a completion that
    [io_uring_peek_cqe] returned, up to and without [io_uring_cqe_seen]. *)
Definition handle_cqe (status : CopyStatus) (done_req : io_uring_cqe)
  : outcome CopyStatus :=
  let cell_i := wrap_s64 (cqe_user_data done_req) in
  if cell_i =? -1 then Running status
  else if cell_i <? 0 then Undefined
  else
    match block_statuses status !! Z.to_nat cell_i with
    | None => Undefined
    | Some block =>
        match stage block with
        | BLOCK_IN_READ =>
            if res done_req <? 0 then Exited EXIT_FAILURE
            else Running (prepare_write_request status (Z.to_nat cell_i))
        | BLOCK_IN_WRITE =>
            if res done_req <? 0 then Exited EXIT_FAILURE
            else Running (prepare_read_request
                            (finish_write_request status (Z.to_nat cell_i))
                            (Z.to_nat cell_i))
        | BLOCK_IDLE => Running status
        end
    end.

(** [io_uring_cqe_seen]: the completion at the head of the queue is
    consumed. *)
Definition io_uring_cqe_seen (status : CopyStatus) : CopyStatus :=
  {| src_fd := src_fd status;
     dst_fd := dst_fd status;
     src_off := src_off status;
     src_size := src_size status;
     num_block_in_progress := num_block_in_progress status;
     block_statuses := block_statuses status;
     io_ring := mkRing (sq (io_ring status)) (tail (cq (io_ring status))) |}.

(** The [do ... while (cell_i != -1)] of [main]: [io_uring_peek_cqe] yields the
    head of the completion queue, and fails on an empty queue, which sets
    [cell_i] to -1 and ends the loop.  Handling a completion adds to the
    submission queue only, so the completions still to be seen are the
    rest of the list. *)
Fixpoint reap_cqes (cqes : list io_uring_cqe) (status : CopyStatus)
  : outcome CopyStatus :=
  match cqes with
  | [] => Running status
  | done_req :: rest =>
      match handle_cqe status done_req with
      | Running status' =>
          if wrap_s64 (cqe_user_data done_req) =? -1
          then Running (io_uring_cqe_seen status')
          else reap_cqes rest (io_uring_cqe_seen status')
      | Exited code => Exited code
      | Undefined => Undefined
      end
  end.

(** The condition of the [while] of [main]. *)
Definition copy_in_progress (status : CopyStatus) : bool :=
  negb (src_off status =? src_size status)
  || negb (num_block_in_progress status =? 0).

(** *** The kernel side

    [submitted] holds the entries the kernel has accepted and not yet
    finished.  [rd_fd] is the descriptor [open_src_file] opened read-only on
    the source, [wr_fd] the one [open_dst_file] opened write-only on the
    destination.  [buffers] is the content of the registered buffers, one
    per cell. *)

Record machine : Type := mkMachine {
  status : CopyStatus;
  submitted : list io_uring_sqe;
  rd_fd : Z;
  wr_fd : Z;
  src_file : file;
  dst_file : file;
  buffers : list (list byte)
}.

Definition set_status (m : machine) (st : CopyStatus) : machine :=
  mkMachine st (submitted m) (rd_fd m) (wr_fd m)
            (src_file m) (dst_file m) (buffers m).

Definition EBADF : Z := 9.
Definition EFAULT : Z := 14.

(** What finishing the entry [e] does to the files and buffers, and the
    result it reports.  A transfer that does not fail is done in full: a
    read brings every byte the file has in the range asked for, a write
    stores every byte of the range. *)
Definition perform (m : machine) (e : io_uring_sqe) : machine * Z :=
  match buffers m !! buf_index e with
  | None => (m, - EFAULT)
  | Some buf =>
      if Z.of_nat (length buf) <? len e then (m, - EFAULT)
      else
        match opcode e with
        | IORING_OP_READ_FIXED =>
            if fd e =? rd_fd m then
              let data := pread (src_file m) (off e) (len e) in
              (mkMachine (status m) (submitted m) (rd_fd m) (wr_fd m)
                 (src_file m) (dst_file m)
                 (<[buf_index e := fill_buffer buf data]> (buffers m)),
               Z.of_nat (length data))
            else (m, - EBADF)
        | IORING_OP_WRITE_FIXED =>
            if fd e =? wr_fd m then
              let data := take (Z.to_nat (len e)) buf in
              (mkMachine (status m) (submitted m) (rd_fd m) (wr_fd m)
                 (src_file m) (pwrite (dst_file m) (off e) data)
                 (buffers m),
               Z.of_nat (length data))
            else (m, - EBADF)
        end
  end.

(** The kernel posts a completion: the entry leaves [submitted] and a
    completion carrying its [user_data] joins the completion queue. *)
Definition post_cqe (m : machine) (i : nat) (q : io_uring_cqe) : machine :=
  let st := status m in
  mkMachine
    {| src_fd := src_fd st;
       dst_fd := dst_fd st;
       src_off := src_off st;
       src_size := src_size st;
       num_block_in_progress := num_block_in_progress st;
       block_statuses := block_statuses st;
       io_ring := mkRing (sq (io_ring st)) (cq (io_ring st) ++ [q]) |}
    (delete i (submitted m)) (rd_fd m) (wr_fd m)
    (src_file m) (dst_file m) (buffers m).

(** The kernel finishes the [i]-th accepted entry, in any order it likes:
    it carries it out, or fails it with an error number. *)
Inductive kernel_action : Type :=
| Complete (i : nat)
| Fail (i : nat) (errno : Z).

Definition kernel_step (m : machine) (a : kernel_action) : option machine :=
  match a with
  | Complete i =>
      match submitted m !! i with
      | None => None
      | Some e =>
          let '(m', r) := perform m e in
          Some (post_cqe m' i (mkCqe (user_data e) r))
      end
  | Fail i errno =>
      match submitted m !! i with
      | None => None
      | Some e =>
          if 0 <? errno
          then Some (post_cqe m i (mkCqe (user_data e) (- errno)))
          else None
      end
  end.

Fixpoint kernel_run (m : machine) (acts : list kernel_action) : option machine :=
  match acts with
  | [] => Some m
  | a :: acts' =>
      match kernel_step m a with
      | None => None
      | Some m' => kernel_run m' acts'
      end
  end.

(** A transfer the kernel cuts short: of the [i]-th accepted entry it moves
    the first [n] bytes only, fewer than were asked for, and reports what
    it moved.  The schedules of [kernel_run] hold no such transfer. *)
Definition short_step (m : machine) (i : nat) (n : Z) : option machine :=
  match submitted m !! i with
  | None => None
  | Some e =>
      if (0 <? n) && (n <? len e) then
        let '(m', r) :=
          perform m (mkSqe (opcode e) (fd e) (buf_index e) n (off e)
                           (user_data e)) in
        Some (post_cqe m' i (mkCqe (user_data e) r))
      else None
  end.

(** [io_uring_submit]: the kernel accepts every prepared entry. *)
Definition io_uring_submit (m : machine) : machine :=
  let st := status m in
  mkMachine
    {| src_fd := src_fd st;
       dst_fd := dst_fd st;
       src_off := src_off st;
       src_size := src_size st;
       num_block_in_progress := num_block_in_progress st;
       block_statuses := block_statuses st;
       io_ring := mkRing [] (cq (io_ring st)) |}
    (submitted m ++ sq (io_ring st)) (rd_fd m) (wr_fd m)
    (src_file m) (dst_file m) (buffers m).

(** The steps of a run: the driver submits, the kernel finishes an entry,
    or the driver handles the completion at the head of the queue and
    marks it seen. *)
Inductive step : machine -> machine -> Prop :=
| step_submit m :
    step m (io_uring_submit m)
| step_kernel m a m' :
    kernel_step m a = Some m' ->
    step m m'
| step_reap m done_req rest status' :
    cq (io_ring (status m)) = done_req :: rest ->
    handle_cqe (status m) done_req = Running status' ->
    step m (set_status m (io_uring_cqe_seen status')).

(** *** [main]

    The [while] loop of [main].  Each round of the loop takes from the
    schedule the kernel actions that happen while
    [io_uring_submit_and_wait] blocks; the call returns once a completion
    is present.  [None] is a run that gets no further: the schedule is
    used up, names an entry that is not there, or leaves the driver waiting
    with nothing completed. *)
Fixpoint main_loop (schedule : list (list kernel_action)) (m : machine)
  : option (outcome machine) :=
  if copy_in_progress (status m) then
    match schedule with
    | [] => None
    | acts :: schedule' =>
        match kernel_run (io_uring_submit m) acts with
        | None => None
        | Some m1 =>
            match cq (io_ring (status m1)) with
            | [] => None
            | cqes =>
                match reap_cqes cqes (status m1) with
                | Running st => main_loop schedule' (set_status m1 st)
                | Exited code => Some (Exited code)
                | Undefined => Some Undefined
                end
            end
        end
    end
  else Some (Running m).

(** The cells are offered to [prepare_read_request] in index order. *)
Definition start_reads (status : CopyStatus) : CopyStatus :=
  foldl prepare_read_request status (seq 0 QUEUE_SIZE).

(** The state [main] enters its loop with: [src] is the source file,
    [src_size0] the size [open_src_file] reported, [mem] whatever the
    freshly allocated buffers hold. *)
Definition boot (src_fd0 dst_fd0 : Z) (src : file) (src_size0 : Z)
    (mem : list (list byte)) : machine :=
  {| status := start_reads (init_copying_status src_size0 src_fd0 dst_fd0);
     submitted := [];
     rd_fd := src_fd0;
     wr_fd := dst_fd0;
     src_file := src;
     dst_file := allocated src_size0;
     buffers := mem |}.

(** The states a run passes through. *)
Definition reachable (src_fd0 dst_fd0 : Z) (src : file) (src_size0 : Z)
    (mem : list (list byte)) (m : machine) : Prop :=
  rtc step (boot src_fd0 dst_fd0 src src_size0 mem) m.

(** [main] from the opening of the files on: [open_dst_file] may end the
    process; otherwise the loop is entered with the state of [boot], and
    the result is the destination file as [close_src_dst_files] leaves
    it. *)
Definition main (src_fd0 dst_fd0 : Z) (src : file) (src_size0 : Z)
    (mem : list (list byte)) (schedule : list (list kernel_action))
  : option (outcome file) :=
  match open_dst_file src_size0 with
  | Exited code => Some (Exited code)
  | Undefined => Some Undefined
  | Running _ =>
      match main_loop schedule (boot src_fd0 dst_fd0 src src_size0 mem) with
      | None => None
      | Some (Running m) =>
          Some (Running (close_src_dst_files src_size0 (dst_file m)))
      | Some (Exited code) => Some (Exited code)
      | Some Undefined => Some Undefined
      end
  end.

End Driver.

(** The parameters of [io-uring-cp.c]. *)
Definition READ_BLOCK_SIZE : Z := 8192.
Definition QUEUE_SIZE : nat := 64.

End IoUring.

(** ** The rounding of the block-aligned drivers

    [src_size = src_size + READ_BLOCK_SIZE - (src_size % READ_BLOCK_SIZE)]
    on [uint32_t], in [linux-aio-cp.c] and [posix-aio-cp.c]. *)

Definition wrap_s32 (z : Z) : Z := (z + 2 ^ 31) mod 2 ^ 32 - 2 ^ 31.

Definition round_file_size (READ_BLOCK_SIZE src_size : Z) : Z :=
  wrap_u32 (wrap_u32 (src_size + READ_BLOCK_SIZE) - src_size mod READ_BLOCK_SIZE).

(** ** The Linux AIO driver ([linux-aio-cp.c]) *)

Module LinuxAio.

Inductive io_iocb_cmd : Type :=
| IO_CMD_PREAD
| IO_CMD_PWRITE.

(** A control block.  [buf] is the cell whose part of [buffer] the
    transfer uses. *)
Record iocb : Type := mkIocb {
  aio_fildes : Z;
  aio_lio_opcode : io_iocb_cmd;
  aio_reqprio : Z;
  buf : nat;
  nbytes : Z;    (* size_t *)
  offset : Z     (* long long *)
}.

(** A completion: [obj] is the control block, given by its index in
    [iocbs]. *)
Record io_event : Type := mkEvent {
  obj : nat;
  res : Z
}.

Definition io_read_setup (fd offset0 : Z) (buf0 : nat) (size0 : Z) : iocb :=
  {| aio_fildes := fd;
     aio_lio_opcode := IO_CMD_PREAD;
     aio_reqprio := 0;
     buf := buf0;
     nbytes := size0;
     offset := offset0 |}.

Definition io_write_setup (fd offset0 : Z) (buf0 : nat) (size0 : Z) : iocb :=
  {| aio_fildes := fd;
     aio_lio_opcode := IO_CMD_PWRITE;
     aio_reqprio := 0;
     buf := buf0;
     nbytes := size0;
     offset := offset0 |}.

(** The locals of [main] the copy loop works on.  [submit_list] holds the
    first [num_to_submit] entries of the C array, the ones [io_submit]
    reads; [events] holds the completions of the current batch that the
    [for] loop has not handled yet. *)
Record state : Type := mkState {
  src_size : Z;        (* uint32_t, after the rounding *)
  src_off : Z;         (* off_t *)
  num_io_reqs : Z;     (* size_t *)
  iocbs : list iocb;
  submit_list : list nat;
  events : list io_event
}.

#[global] Instance io_iocb_cmd_eq_dec : EqDecision io_iocb_cmd.
Proof. solve_decision. Defined.

Section Driver.

Variable READ_BLOCK_SIZE : Z.
Variable QUEUE_SIZE : nat.
Variables src_fd dst_fd : Z.

(** The [for] loop that starts the first reads; [n] counts the cells
    still to visit and [aio_i] is the next one. *)
Fixpoint start_reads (n aio_i : nat) (s : state) : state :=
  match n with
  | O => s
  | S n' =>
      if src_off s <? src_size s then
        start_reads n' (S aio_i)
          {| src_size := src_size s;
             src_off := wrap_s64 (src_off s + READ_BLOCK_SIZE);
             num_io_reqs := wrap_u64 (num_io_reqs s + 1);
             iocbs := <[aio_i := io_read_setup src_fd (src_off s) aio_i
                                   READ_BLOCK_SIZE]> (iocbs s);
             submit_list := submit_list s ++ [aio_i];
             events := events s |}
      else s
  end.

(** The state the [while] loop is entered with; [iocbs0] is whatever the
    array of control blocks holds before it is set up. *)
Definition boot (src_size0 : Z) (iocbs0 : list iocb) : state :=
  start_reads QUEUE_SIZE 0
    {| src_size := round_file_size READ_BLOCK_SIZE src_size0;
       src_off := 0;
       num_io_reqs := 0;
       iocbs := iocbs0;
       submit_list := [];
       events := [] |}.

(** The body of the [for] loop over the events of a batch.  [None]: the
    event names no control block of the array. *)
Definition handle_event (s : state) (ev : io_event) : option state :=
  match iocbs s !! obj ev with
  | None => None
  | Some cb =>
      let io_ret := wrap_s32 (res ev) in
      match aio_lio_opcode cb with
      | IO_CMD_PREAD =>
          let bytes_read := io_ret in
          if negb (bytes_read =? 0) then
            Some {| src_size := src_size s;
                    src_off := src_off s;
                    num_io_reqs := num_io_reqs s;
                    iocbs := <[obj ev := io_write_setup dst_fd (offset cb) (buf cb)
                                           (wrap_u64 bytes_read)]> (iocbs s);
                    submit_list := submit_list s ++ [obj ev];
                    events := events s |}
          else
            Some {| src_size := src_size s;
                    src_off := src_off s;
                    num_io_reqs := wrap_u64 (num_io_reqs s - 1);
                    iocbs := iocbs s;
                    submit_list := submit_list s;
                    events := events s |}
      | IO_CMD_PWRITE =>
          let bytes_written := io_ret in
          if negb (bytes_written =? 0) && (src_off s <? src_size s) then
            Some {| src_size := src_size s;
                    src_off := wrap_s64 (src_off s + READ_BLOCK_SIZE);
                    num_io_reqs := num_io_reqs s;
                    iocbs := <[obj ev := io_read_setup src_fd (src_off s) (buf cb)
                                           READ_BLOCK_SIZE]> (iocbs s);
                    submit_list := submit_list s ++ [obj ev];
                    events := events s |}
          else
            Some {| src_size := src_size s;
                    src_off := src_off s;
                    num_io_reqs := wrap_u64 (num_io_reqs s - 1);
                    iocbs := iocbs s;
                    submit_list := submit_list s;
                    events := events s |}
      end
  end.

(** *** The kernel side

    [in_kernel] lists the control blocks the AIO context has accepted and
    not yet reported. *)
Record machine : Type := mkMachine {
  locals : state;
  in_kernel : list nat
}.

(** [io_submit] followed by [io_getevents] and [num_to_submit = 0]: the
    context accepts the listed control blocks and reports the batch [evs],
    which has at least one and at most [QUEUE_SIZE] events, each for a
    different control block the context holds. *)
Definition submit_and_get (m : machine) (evs : list io_event) : option machine :=
  let s := locals m in
  let held := in_kernel m ++ submit_list s in
  if bool_decide (evs ≠ [] ∧ (length evs ≤ QUEUE_SIZE)%nat
                  ∧ NoDup (obj <$> evs) ∧ (obj <$> evs) ⊆ held)
  then Some {| locals := {| src_size := src_size s;
                            src_off := src_off s;
                            num_io_reqs := num_io_reqs s;
                            iocbs := iocbs s;
                            submit_list := [];
                            events := evs |};
               in_kernel := list_difference held (obj <$> evs) |}
  else None.

(** One event of the batch is handled. *)
Definition handle_next (m : machine) : option machine :=
  match events (locals m) with
  | [] => None
  | ev :: rest =>
      let s := locals m in
      match handle_event {| src_size := src_size s;
                            src_off := src_off s;
                            num_io_reqs := num_io_reqs s;
                            iocbs := iocbs s;
                            submit_list := submit_list s;
                            events := rest |} ev with
      | None => None
      | Some s' => Some {| locals := s'; in_kernel := in_kernel m |}
      end
  end.

(** The steps of a run: at the head of the [while] loop, with work left, a
    batch is awaited; inside the [for] loop the next event is handled. *)
Inductive step : machine -> machine -> Prop :=
| step_wait m evs m' :
    events (locals m) = [] ->
    num_io_reqs (locals m) <> 0 ->
    submit_and_get m evs = Some m' ->
    step m m'
| step_handle m m' :
    handle_next m = Some m' ->
    step m m'.

(** The [for] loop over a batch. *)
Fixpoint handle_all (n : nat) (m : machine) : option machine :=
  match n with
  | O => Some m
  | S n' =>
      match handle_next m with
      | None => None
      | Some m' => handle_all n' m'
      end
  end.

(** The [while (num_io_reqs != 0U)] loop, the batches taken from the
    schedule.  [None] is a run that gets no further.  The runs described
    are those in which [io_submit] and [io_getevents] succeed; the exits
    on their failure are in [LinuxAioCp.main_loop]. *)
Fixpoint main_loop (schedule : list (list io_event)) (m : machine)
  : option machine :=
  if num_io_reqs (locals m) =? 0 then Some m
  else
    match schedule with
    | [] => None
    | evs :: schedule' =>
        match submit_and_get m evs with
        | None => None
        | Some m1 =>
            match handle_all (length evs) m1 with
            | None => None
            | Some m2 => main_loop schedule' m2
            end
        end
    end.

(** The states a run passes through. *)
Definition reachable (src_size0 : Z) (iocbs0 : list iocb) (m : machine) : Prop :=
  rtc step {| locals := boot src_size0 iocbs0; in_kernel := [] |} m.

(** The control blocks with an operation under way: held by the kernel,
    listed for the next [io_submit], or reported and not yet handled. *)
Definition outstanding (m : machine) : list nat :=
  in_kernel m ++ submit_list (locals m) ++ (obj <$> events (locals m)).

(** The end of [main]: [close_src_dst_files] gets the variable [src_size],
    which holds the rounded size by then; [dst] is the destination as the
    loop left it. *)
Definition finish (m : machine) (dst : file) : file :=
  close_src_dst_files (src_size (locals m)) dst.

End Driver.

(** The parameters of [linux-aio-cp.c]. *)
Definition READ_BLOCK_SIZE : Z := 8192.
Definition QUEUE_SIZE : nat := 64.

End LinuxAio.

(** ** The POSIX AIO driver ([posix-aio-cp.c]): its parameters; the
    rounding is [round_file_size]. *)

Module PosixAio.

Definition READ_BLOCK_SIZE : Z := 512.
Definition QUEUE_SIZE : nat := 16.

End PosixAio.

(** ** Blocking transfers

    What the kernel answers to a [read], [write], [pread] or [pwrite]: the
    call fails and returns -1, or it moves at most [cap] of the bytes asked
    for and returns their number. *)

Inductive reply : Type :=
| Fails
| Moves (cap : nat).

(** A reply under which a transfer of [count] bytes is not cut short. *)
Definition whole (count : Z) (r : reply) : Prop :=
  match r with
  | Fails => False
  | Moves cap => count <= Z.of_nat cap
  end.

#[global] Instance whole_dec count r : Decision (whole count r).
Proof. destruct r; cbn; apply _. Defined.

Definition sys_pread (f : file) (count off : Z) (r : reply) : option (list byte) :=
  match r with
  | Fails => None
  | Moves cap => Some (take cap (pread f off count))
  end.

Definition sys_pwrite (f : file) (data : list byte) (off : Z) (r : reply)
  : option (file * Z) :=
  match r with
  | Fails => None
  | Moves cap =>
      let out := take cap data in
      Some (pwrite f off out, Z.of_nat (length out))
  end.

(** [open_src_file]: the size [fstat] reports, stored in a [uint32_t]. *)
Definition open_src_file (src : file) : Z :=
  wrap_u32 (Z.of_nat (length src)).

(** ** The synchronous copy ([sync-cp.c]) *)

Module SyncCp.

(** The loop counter and the buffer of [main], and the two open files
    with the file offsets of their descriptors. *)
Record machine : Type := mkMachine {
  i : Z;                (* uint32_t *)
  buffer : list byte;
  src_file : file;
  src_pos : Z;
  dst_file : file;
  dst_pos : Z
}.

Section Driver.

Variable READ_BLOCK_SIZE : Z.

(** The [for] loop of [main]; every round takes the replies to its [read]
    and its [write] from the list.  [None]: the list is used up. *)
Fixpoint copy_loop (replies : list (reply * reply)) (src_size : Z) (m : machine)
  : option (outcome machine) :=
  if i m <? src_size then
    match replies with
    | [] => None
    | (rd, wr) :: replies' =>
        match sys_pread (src_file m) READ_BLOCK_SIZE (src_pos m) rd with
        | None => Some (Exited EXIT_FAILURE)
        | Some data =>
            let bytes_read := Z.of_nat (length data) in
            let buffer' := fill_buffer (buffer m) data in
            match sys_pwrite (dst_file m) (take (Z.to_nat bytes_read) buffer')
                    (dst_pos m) wr with
            | None => Some (Exited EXIT_FAILURE)
            | Some (dst', bytes_written) =>
                if negb (bytes_written =? bytes_read)
                then Some (Exited EXIT_FAILURE)
                else
                  let m' :=
                    {| i := wrap_u32 (i m + bytes_read);
                       buffer := buffer';
                       src_file := src_file m;
                       src_pos := src_pos m + bytes_read;
                       dst_file := dst';
                       dst_pos := dst_pos m + bytes_written |} in
                  if negb (bytes_read =? READ_BLOCK_SIZE)
                  then Some (Running m')
                  else copy_loop replies' src_size m'
            end
        end
    end
  else Some (Running m).

(** [main] from the opening of the files on; [mem] is what the freshly
    allocated buffer holds. *)
Definition main (src : file) (mem : list byte) (replies : list (reply * reply))
  : option (outcome file) :=
  let src_size := open_src_file src in
  match open_dst_file src_size with
  | Exited code => Some (Exited code)
  | Undefined => Some Undefined
  | Running dst =>
      match copy_loop replies src_size
              {| i := 0; buffer := mem; src_file := src; src_pos := 0;
                 dst_file := dst; dst_pos := 0 |} with
      | None => None
      | Some (Running m) =>
          Some (Running (close_src_dst_files src_size (dst_file m)))
      | Some (Exited code) => Some (Exited code)
      | Some Undefined => Some Undefined
      end
  end.

End Driver.

(** The parameter of [sync-cp.c]. *)
Definition READ_BLOCK_SIZE : Z := 512.

End SyncCp.

(** ** The thread pool ([thread-pool-cp.c]) *)

Module ThreadPoolCp.

(** Where a thread stands in [thread_func]: at the head of the loop,
    between its [pread] and its [pwrite], or returned. *)
Inductive stage : Type :=
| AT_LOOP_HEAD
| AFTER_PREAD (offset bytes_read : Z)
| RETURNED.

#[global] Instance stage_eq_dec : EqDecision stage.
Proof. solve_decision. Defined.

(** The arguments of a thread, its loop counter and where it stands. *)
Record thread : Type := mkThread {
  thread_i : Z;         (* size_t *)
  buffer : list byte;
  src_size : Z;         (* size_t *)
  i : Z;                (* uint32_t *)
  at_stage : stage
}.

Record machine : Type := mkMachine {
  threads : list thread;
  src_file : file;
  dst_file : file
}.

Section Driver.

Variable READ_BLOCK_SIZE : Z.
Variable NUM_THREADS : nat.

(** One step of [thread_func]: from the head of the loop up to and with the
    [pread], or from the [pwrite] to the end of the round.  [r] is the reply
    of the kernel to the call of the step, if the step makes one. *)
Definition thread_step (src dst : file) (t : thread) (r : reply)
  : outcome (thread * file) :=
  match at_stage t with
  | AT_LOOP_HEAD =>
      if i t <? src_size t then
        let offset := wrap_u64 (i t + wrap_u64 (thread_i t * READ_BLOCK_SIZE)) in
        if src_size t <? offset then
          Running (mkThread (thread_i t) (buffer t) (src_size t) (i t) RETURNED,
                   dst)
        else
          match sys_pread src READ_BLOCK_SIZE offset r with
          | None => Exited EXIT_FAILURE
          | Some data =>
              Running (mkThread (thread_i t) (fill_buffer (buffer t) data)
                         (src_size t) (i t)
                         (AFTER_PREAD offset (Z.of_nat (length data))),
                       dst)
          end
      else
        Running (mkThread (thread_i t) (buffer t) (src_size t) (i t) RETURNED,
                 dst)
  | AFTER_PREAD offset bytes_read =>
      match sys_pwrite dst (take (Z.to_nat bytes_read) (buffer t)) offset r with
      | None => Exited EXIT_FAILURE
      | Some (dst', bytes_written) =>
          if negb (bytes_written =? bytes_read) then Exited EXIT_FAILURE
          else
            let i' :=
              wrap_u32 (i t + wrap_u32 (READ_BLOCK_SIZE * Z.of_nat NUM_THREADS)) in
            Running (mkThread (thread_i t) (buffer t) (src_size t) i'
                       (if negb (bytes_read =? READ_BLOCK_SIZE)
                        then RETURNED else AT_LOOP_HEAD),
                     dst')
      end
  | RETURNED => Running (t, dst)
  end.

(** The scheduler lets thread [tid] make its next step.  [None]: there is
    no such thread, or it has returned. *)
Definition step (m : machine) (tid : nat) (r : reply) : option (outcome machine) :=
  match threads m !! tid with
  | None => None
  | Some t =>
      if decide (at_stage t = RETURNED) then None
      else
        match thread_step (src_file m) (dst_file m) t r with
        | Running (t', dst') =>
            Some (Running (mkMachine (<[tid := t']> (threads m)) (src_file m) dst'))
        | Exited code => Some (Exited code)
        | Undefined => Some Undefined
        end
  end.

Fixpoint run (schedule : list (nat * reply)) (m : machine)
  : option (outcome machine) :=
  match schedule with
  | [] => Some (Running m)
  | (tid, r) :: schedule' =>
      match step m tid r with
      | None => None
      | Some (Running m') => run schedule' m'
      | Some (Exited code) => Some (Exited code)
      | Some Undefined => Some Undefined
      end
  end.

(** The state once the threads are created: [mems] is what the parts of
    the freshly allocated buffer hold. *)
Definition boot (src : file) (mems : list (list byte)) : machine :=
  let src_size := open_src_file src in
  {| threads :=
       (fun k => mkThread (Z.of_nat k) (default [] (mems !! k)) src_size 0
                   AT_LOOP_HEAD) <$> seq 0 NUM_THREADS;
     src_file := src;
     dst_file := allocated src_size |}.

(** [main] from the opening of the files on: [open_dst_file] may end the
    process; otherwise the threads run as the schedule has it, and once
    all of them are joined the destination is closed.  [None]: the
    schedule ends with a thread still running. *)
Definition main (src : file) (mems : list (list byte))
    (schedule : list (nat * reply)) : option (outcome file) :=
  match open_dst_file (open_src_file src) with
  | Exited code => Some (Exited code)
  | Undefined => Some Undefined
  | Running _ =>
      match run schedule (boot src mems) with
      | None => None
      | Some (Running m) =>
          if bool_decide (Forall (fun t => at_stage t = RETURNED) (threads m))
          then Some (Running (close_src_dst_files (open_src_file src) (dst_file m)))
          else None
      | Some (Exited code) => Some (Exited code)
      | Some Undefined => Some Undefined
      end
  end.

End Driver.

(** The parameters of [thread-pool-cp.c]. *)
Definition NUM_THREADS : nat := 8.
Definition READ_BLOCK_SIZE : Z := 512.

End ThreadPoolCp.

(** ** The POSIX AIO driver ([posix-aio-cp.c]) *)

Module PosixAioCp.

Inductive lio_opcode : Type :=
| LIO_READ
| LIO_WRITE.

#[global] Instance lio_opcode_eq_dec : EqDecision lio_opcode.
Proof. solve_decision. Defined.

(** A control block.  [aio_buf] is the cell whose part of [buffer] the
    transfer uses.  [aio_read] and [aio_write] record the kind of the
    request in [aio_lio_opcode], which is what [main] tells a read from a
    write by. *)
Record aiocb : Type := mkAiocb {
  aio_fildes : Z;
  aio_lio_opcode : lio_opcode;
  aio_buf : nat;
  aio_nbytes : Z;       (* size_t *)
  aio_offset : Z        (* off_t *)
}.

(** What the library holds for a control block: no request, a request
    under way ([aio_error] gives [EINPROGRESS]), or a finished one whose
    result [aio_return] has still to fetch. *)
Inductive request : Type :=
| NO_REQUEST
| IN_PROGRESS
| FINISHED (ret : Z).

#[global] Instance request_eq_dec : EqDecision request.
Proof. solve_decision. Defined.

(** The locals of [main] the copy loop works on ([wait_list] holds [true]
    where the C array holds the address of the control block and [false]
    where it holds [NULL]), the requests the library holds, the two files
    with their descriptors, and the parts of [buffer]. *)
Record machine : Type := mkMachine {
  src_size : Z;        (* uint32_t, after the rounding *)
  src_off : Z;         (* off_t *)
  num_io_reqs : Z;     (* size_t *)
  aiocbs : list aiocb;
  wait_list : list bool;
  requests : list request;
  rd_fd : Z;
  wr_fd : Z;
  src_file : file;
  dst_file : file;
  buffers : list (list byte)
}.

(** The entries of [wait_list] that are not [NULL]. *)
Definition listed (wl : list bool) : nat := length (filter (fun b => b = true) wl).

Section Driver.

Variable READ_BLOCK_SIZE : Z.
Variable QUEUE_SIZE : nat.
Variables src_fd dst_fd : Z.

(** [aio_read_setup] and [aio_write_setup] on the control block of cell
    [aio_i]: the block is filled in and the library takes the request.
    The runs described are those in which [aio_read] and [aio_write]
    accept every request; the exit the two functions make when the
    library refuses one is left out. *)
Definition aio_read_setup (m : machine) (aio_i : nat) (fd offset size : Z)
  : machine :=
  mkMachine (src_size m) (src_off m) (num_io_reqs m)
    (<[aio_i := mkAiocb fd LIO_READ aio_i size offset]> (aiocbs m))
    (wait_list m)
    (<[aio_i := IN_PROGRESS]> (requests m))
    (rd_fd m) (wr_fd m) (src_file m) (dst_file m) (buffers m).

Definition aio_write_setup (m : machine) (aio_i : nat) (fd offset size : Z)
  : machine :=
  mkMachine (src_size m) (src_off m) (num_io_reqs m)
    (<[aio_i := mkAiocb fd LIO_WRITE aio_i size offset]> (aiocbs m))
    (wait_list m)
    (<[aio_i := IN_PROGRESS]> (requests m))
    (rd_fd m) (wr_fd m) (src_file m) (dst_file m) (buffers m).

(** The cell leaves the wait list. *)
Definition retire (m : machine) (aio_i : nat) : machine :=
  mkMachine (src_size m) (src_off m) (wrap_u64 (num_io_reqs m - 1))
    (aiocbs m)
    (<[aio_i := false]> (wait_list m))
    (<[aio_i := NO_REQUEST]> (requests m))
    (rd_fd m) (wr_fd m) (src_file m) (dst_file m) (buffers m).

(** The [for] loop that starts the first reads; [n] counts the cells
    still to visit and [aio_i] is the next one. *)
Fixpoint start_reads (n aio_i : nat) (m : machine) : machine :=
  match n with
  | O => m
  | S n' =>
      if src_off m <? src_size m then
        let m1 := aio_read_setup m aio_i src_fd (src_off m) READ_BLOCK_SIZE in
        start_reads n' (S aio_i)
          (mkMachine (src_size m1) (wrap_s64 (src_off m1 + READ_BLOCK_SIZE))
             (wrap_u64 (num_io_reqs m1 + 1))
             (aiocbs m1) (<[aio_i := true]> (wait_list m1)) (requests m1)
             (rd_fd m1) (wr_fd m1) (src_file m1) (dst_file m1) (buffers m1))
      else m
  end.

(** The state the [while] loop is entered with: [src] is the source,
    [src_size0] the size [open_src_file] reported, [aiocbs0] what [calloc]
    returned and [mem] what the parts of the freshly allocated buffer
    hold. *)
Definition boot (src : file) (src_size0 : Z) (aiocbs0 : list aiocb)
    (mem : list (list byte)) : machine :=
  start_reads QUEUE_SIZE 0
    {| src_size := round_file_size READ_BLOCK_SIZE src_size0;
       src_off := 0;
       num_io_reqs := 0;
       aiocbs := aiocbs0;
       wait_list := replicate QUEUE_SIZE false;
       requests := replicate QUEUE_SIZE NO_REQUEST;
       rd_fd := src_fd;
       wr_fd := dst_fd;
       src_file := src;
       dst_file := allocated src_size0;
       buffers := mem |}.

(** The body of the [for] loop over the cells, for cell [aio_i].
    [aio_error] on a control block the library holds no request for has
    no defined result. *)
Definition visit (m : machine) (aio_i : nat) : outcome machine :=
  match wait_list m !! aio_i, requests m !! aio_i, aiocbs m !! aio_i with
  | Some false, _, _ => Running m
  | Some true, Some IN_PROGRESS, _ => Running m
  | Some true, Some (FINISHED ret), Some cb =>
      match aio_lio_opcode cb with
      | LIO_READ =>
          let bytes_read := wrap_s32 ret in
          if negb (bytes_read =? 0) then
            Running (aio_write_setup m aio_i dst_fd (aio_offset cb)
                       (wrap_u64 bytes_read))
          else Running (retire m aio_i)
      | LIO_WRITE =>
          let bytes_written := wrap_s32 ret in
          if negb (bytes_written =? 0) && (src_off m <? src_size m) then
            let m1 := aio_read_setup m aio_i src_fd (src_off m) READ_BLOCK_SIZE in
            Running (mkMachine (src_size m1)
                       (wrap_s64 (src_off m1 + READ_BLOCK_SIZE))
                       (num_io_reqs m1) (aiocbs m1) (wait_list m1) (requests m1)
                       (rd_fd m1) (wr_fd m1) (src_file m1) (dst_file m1)
                       (buffers m1))
          else Running (retire m aio_i)
      end
  | _, _, _ => Undefined
  end.

(** The [for] loop over all the cells. *)
Fixpoint sweep (cells : list nat) (m : machine) : outcome machine :=
  match cells with
  | [] => Running m
  | aio_i :: cells' =>
      match visit m aio_i with
      | Running m' => sweep cells' m'
      | Exited code => Exited code
      | Undefined => Undefined
      end
  end.

(** *** The library side

    The library finishes the request of a control block, in any order it
    likes: it carries the transfer out, in full, or fails it. *)
Inductive kernel_action : Type :=
| Complete (i : nat)
| Fail (i : nat).

Definition set_request (m : machine) (i : nat) (r : request) : machine :=
  mkMachine (src_size m) (src_off m) (num_io_reqs m) (aiocbs m) (wait_list m)
    (<[i := r]> (requests m))
    (rd_fd m) (wr_fd m) (src_file m) (dst_file m) (buffers m).

(** The transfer of control block [cb] for the request of cell [i], with
    the result [aio_return] will give: the number of bytes moved, or -1
    when the descriptor is not open for the transfer or the buffer is
    shorter than the bytes asked for. *)
Definition perform (m : machine) (i : nat) (cb : aiocb) : machine :=
  match buffers m !! aio_buf cb with
  | None => set_request m i (FINISHED (-1))
  | Some buf =>
      if Z.of_nat (length buf) <? aio_nbytes cb
      then set_request m i (FINISHED (-1))
      else
        match aio_lio_opcode cb with
        | LIO_READ =>
            if aio_fildes cb =? rd_fd m then
              let data := pread (src_file m) (aio_offset cb) (aio_nbytes cb) in
              mkMachine (src_size m) (src_off m) (num_io_reqs m) (aiocbs m)
                (wait_list m)
                (<[i := FINISHED (Z.of_nat (length data))]> (requests m))
                (rd_fd m) (wr_fd m) (src_file m) (dst_file m)
                (<[aio_buf cb := fill_buffer buf data]> (buffers m))
            else set_request m i (FINISHED (-1))
        | LIO_WRITE =>
            if aio_fildes cb =? wr_fd m then
              let data := take (Z.to_nat (aio_nbytes cb)) buf in
              mkMachine (src_size m) (src_off m) (num_io_reqs m) (aiocbs m)
                (wait_list m)
                (<[i := FINISHED (Z.of_nat (length data))]> (requests m))
                (rd_fd m) (wr_fd m) (src_file m)
                (pwrite (dst_file m) (aio_offset cb) data)
                (buffers m)
            else set_request m i (FINISHED (-1))
        end
  end.

Definition kernel_step (m : machine) (a : kernel_action) : option machine :=
  match a with
  | Complete i =>
      match requests m !! i, aiocbs m !! i with
      | Some IN_PROGRESS, Some cb => Some (perform m i cb)
      | _, _ => None
      end
  | Fail i =>
      match requests m !! i with
      | Some IN_PROGRESS => Some (set_request m i (FINISHED (-1)))
      | _ => None
      end
  end.

Fixpoint kernel_run (m : machine) (acts : list kernel_action) : option machine :=
  match acts with
  | [] => Some m
  | a :: acts' =>
      match kernel_step m a with
      | None => None
      | Some m' => kernel_run m' acts'
      end
  end.

(** [aio_suspend] returns once a request of the wait list is finished. *)
Definition finished (r : request) : bool :=
  match r with
  | FINISHED _ => true
  | _ => false
  end.

Definition woken (m : machine) : bool :=
  existsb (fun p => p.1 && finished p.2) (zip (wait_list m) (requests m)).

(** The steps of a run: the library finishes a request, or the driver
    looks at a cell. *)
Inductive step : machine -> machine -> Prop :=
| step_kernel m a m' :
    kernel_step m a = Some m' ->
    step m m'
| step_visit m aio_i m' :
    visit m aio_i = Running m' ->
    step m m'.

(** What happens while [aio_suspend] blocks: the library finishes
    requests, and the call returns, or a signal interrupts it. *)
Inductive round : Type :=
| Wakes (acts : list kernel_action)
| Interrupted (acts : list kernel_action).

(** The [while (num_io_reqs != 0U)] loop.  [None] is a run that gets no
    further: the schedule is used up, names a request that is not under
    way, or leaves [aio_suspend] blocked. *)
Fixpoint main_loop (schedule : list round) (m : machine)
  : option (outcome machine) :=
  if num_io_reqs m =? 0 then Some (Running m)
  else
    match schedule with
    | [] => None
    | Interrupted acts :: _ =>
        match kernel_run m acts with
        | None => None
        | Some _ => Some (Exited EXIT_FAILURE)
        end
    | Wakes acts :: schedule' =>
        match kernel_run m acts with
        | None => None
        | Some m1 =>
            if woken m1 then
              match sweep (seq 0 QUEUE_SIZE) m1 with
              | Running m2 => main_loop schedule' m2
              | Exited code => Some (Exited code)
              | Undefined => Some Undefined
              end
            else None
        end
    end.

(** A schedule in which the library carries out every request it
    finishes, in full. *)
Definition completes (a : kernel_action) : bool :=
  match a with
  | Complete _ => true
  | Fail _ => false
  end.

Definition actions (r : round) : list kernel_action :=
  match r with
  | Wakes acts => acts
  | Interrupted acts => acts
  end.

Definition in_full (schedule : list round) : bool :=
  forallb (fun r => forallb completes (actions r)) schedule.

(** The states a run passes through. *)
Definition reachable (src : file) (src_size0 : Z) (aiocbs0 : list aiocb)
    (mem : list (list byte)) (m : machine) : Prop :=
  rtc step (boot src src_size0 aiocbs0 mem) m.

(** [main] from the opening of the files on: [open_dst_file] may end the
    process; [close_src_dst_files] gets the variable [src_size], which
    holds the rounded size by then. *)
Definition main (src : file) (aiocbs0 : list aiocb) (mem : list (list byte))
    (schedule : list round) : option (outcome file) :=
  match open_dst_file (open_src_file src) with
  | Exited code => Some (Exited code)
  | Undefined => Some Undefined
  | Running _ =>
      match main_loop schedule (boot src (open_src_file src) aiocbs0 mem) with
      | None => None
      | Some (Running m) =>
          Some (Running (close_src_dst_files (src_size m) (dst_file m)))
      | Some (Exited code) => Some (Exited code)
      | Some Undefined => Some Undefined
      end
  end.

End Driver.

End PosixAioCp.

(** ** The Linux AIO driver with the files ([linux-aio-cp.c])

    The locals of [main] and the control blocks the context holds are
    those of [LinuxAio]; here the two files and the parts of [buffer] are
    added, and the results the events report come from the transfers. *)

Module LinuxAioCp.
Import LinuxAio.

Definition EBADF : Z := 9.
Definition EFAULT : Z := 14.

Record machine : Type := mkMachine {
  control : LinuxAio.machine;
  rd_fd : Z;
  wr_fd : Z;
  src_file : file;
  dst_file : file;
  buffers : list (list byte)
}.

(** What the context does with a control block it holds before it
    reports it: it carries the transfer out, in full, or fails it. *)
Inductive completion : Type :=
| Done (i : nat)
| Failed (i : nat) (errno : Z).

Definition block (c : completion) : nat :=
  match c with
  | Done i => i
  | Failed i _ => i
  end.

Definition set_files (m : machine) (dst : file) (bufs : list (list byte))
  : machine :=
  mkMachine (control m) (rd_fd m) (wr_fd m) (src_file m) dst bufs.

Definition set_control (m : machine) (c : LinuxAio.machine) : machine :=
  mkMachine c (rd_fd m) (wr_fd m) (src_file m) (dst_file m) (buffers m).

(** The transfer of a control block and the event that reports it; [res]
    is the number of bytes moved, or the negated error.  A descriptor
    that is not open for the transfer gives [EBADF], a buffer shorter
    than the bytes asked for [EFAULT].  [None]: no such control block. *)
Definition transfer (m : machine) (c : completion)
  : option (machine * io_event) :=
  match c with
  | Failed i errno => Some (m, mkEvent i (- errno))
  | Done i =>
      match iocbs (locals (control m)) !! i with
      | None => None
      | Some cb =>
          match buffers m !! buf cb with
          | None => Some (m, mkEvent i (- EFAULT))
          | Some b =>
              if Z.of_nat (length b) <? nbytes cb
              then Some (m, mkEvent i (- EFAULT))
              else
                match aio_lio_opcode cb with
                | IO_CMD_PREAD =>
                    if aio_fildes cb =? rd_fd m then
                      let data := pread (src_file m) (offset cb) (nbytes cb) in
                      Some (set_files m (dst_file m)
                              (<[buf cb := fill_buffer b data]> (buffers m)),
                            mkEvent i (Z.of_nat (length data)))
                    else Some (m, mkEvent i (- EBADF))
                | IO_CMD_PWRITE =>
                    if aio_fildes cb =? wr_fd m then
                      let data := take (Z.to_nat (nbytes cb)) b in
                      Some (set_files m (pwrite (dst_file m) (offset cb) data)
                              (buffers m),
                            mkEvent i (Z.of_nat (length data)))
                    else Some (m, mkEvent i (- EBADF))
                end
          end
      end
  end.

(** What happens in one pass of the loop of [main]: [io_submit] accepts
    the listed control blocks and [io_getevents] reports a batch, or one
    of the two calls fails. *)
Inductive round : Type :=
| Batch (batch : list completion)
| SubmitFails
| GetEventsFails.

(** The transfers of a batch, in the order of their events. *)
Fixpoint transfers (m : machine) (batch : list completion)
  : option (machine * list io_event) :=
  match batch with
  | [] => Some (m, [])
  | c :: batch' =>
      match transfer m c with
      | None => None
      | Some (m1, ev) =>
          match transfers m1 batch' with
          | None => None
          | Some (m2, evs) => Some (m2, ev :: evs)
          end
      end
  end.

Section Driver.

Variable READ_BLOCK_SIZE : Z.
Variable QUEUE_SIZE : nat.
Variables src_fd dst_fd : Z.

(** The [while (num_io_reqs != 0U)] loop: [io_submit], the batch that
    [io_getevents] reports, and the [for] loop over its events; the
    process exits when one of the two calls fails.  [None] is a run that
    gets no further. *)
Fixpoint main_loop (schedule : list round) (m : machine)
  : option (outcome machine) :=
  if num_io_reqs (locals (control m)) =? 0 then Some (Running m)
  else
    match schedule with
    | [] => None
    | SubmitFails :: _ => Some (Exited EXIT_FAILURE)
    | GetEventsFails :: _ => Some (Exited EXIT_FAILURE)
    | Batch batch :: schedule' =>
        match transfers m batch with
        | None => None
        | Some (m1, evs) =>
            match submit_and_get QUEUE_SIZE (control m1) evs with
            | None => None
            | Some c1 =>
                match handle_all READ_BLOCK_SIZE src_fd dst_fd (length evs) c1 with
                | None => None
                | Some c2 => main_loop schedule' (set_control m1 c2)
                end
            end
        end
    end.

(** The state the [while] loop is entered with: [src] is the source,
    [iocbs0] what the array of control blocks holds before it is set up
    and [mem] what the parts of the freshly allocated buffer hold. *)
Definition boot (src : file) (iocbs0 : list iocb) (mem : list (list byte))
  : machine :=
  {| control :=
       {| locals := LinuxAio.boot READ_BLOCK_SIZE QUEUE_SIZE src_fd
                      (open_src_file src) iocbs0;
          in_kernel := [] |};
     rd_fd := src_fd;
     wr_fd := dst_fd;
     src_file := src;
     dst_file := allocated (open_src_file src);
     buffers := mem |}.

(** [main] from the opening of the files on: [open_dst_file] may end the
    process; [close_src_dst_files] gets the variable [src_size], which
    holds the rounded size by then. *)
Definition main (src : file) (iocbs0 : list iocb) (mem : list (list byte))
    (schedule : list round) : option (outcome file) :=
  match open_dst_file (open_src_file src) with
  | Exited code => Some (Exited code)
  | Undefined => Some Undefined
  | Running _ =>
      match main_loop schedule (boot src iocbs0 mem) with
      | None => None
      | Some (Running m) => Some (Running (finish (control m) (dst_file m)))
      | Some (Exited code) => Some (Exited code)
      | Some Undefined => Some Undefined
      end
  end.

End Driver.

(** A schedule in which neither call fails and the context carries out
    every request it reports, in full. *)
Definition completes (c : completion) : bool :=
  match c with
  | Done _ => true
  | Failed _ _ => false
  end.

Definition in_full (schedule : list round) : bool :=
  forallb (fun r => match r with
                    | Batch batch => forallb completes batch
                    | SubmitFails => false
                    | GetEventsFails => false
                    end) schedule.

End LinuxAioCp.

(** ** Sample inputs *)

Module Samples.

(** A source of ten bytes, copied with blocks of four bytes through two
    cells whose buffers hold stale bytes; the kernel finishes the entries
    out of order. *)
Definition src10 : file :=
  [x01; x02; x03; x04; x05; x06; x07; x08; x09; x0a].

Definition mem2x4 : list (list byte) :=
  [[xff; xff; xff; xff]; [xee; xee; xee; xee]].

Definition schedule10 : list (list IoUring.kernel_action) :=
  [[IoUring.Complete 1; IoUring.Complete 0];
   [IoUring.Complete 0];
   [IoUring.Complete 0; IoUring.Complete 0];
   [IoUring.Complete 0];
   [IoUring.Complete 0]].

(** The state [main] of [io-uring-cp.c] is in for a source of 8192 bytes
    once the only block has been read and its write is queued, and the
    completion of a write that stored 4096 of the 8192 bytes asked for. *)
Definition write_pending_8192 : IoUring.CopyStatus :=
  IoUring.prepare_write_request IoUring.READ_BLOCK_SIZE
    (IoUring.start_reads IoUring.READ_BLOCK_SIZE IoUring.QUEUE_SIZE
       (IoUring.init_copying_status IoUring.QUEUE_SIZE 8192 3 4))
    0.

Definition short_write : IoUring.io_uring_cqe :=
  {| IoUring.cqe_user_data := 0; IoUring.res := 4096 |}.

(** A source of four bytes, copied by [io-uring-cp.c] with blocks of four
    bytes through one cell: the state [main] enters its loop with. *)
Definition src4 : file := [x01; x02; x03; x04].

Definition boot4 : IoUring.machine :=
  IoUring.boot 4 1 3 4 src4 (open_src_file src4) [[xff; xff; xff; xff]].

(** What the array of control blocks of [linux-aio-cp.c] may hold before
    it is set up. *)
Definition stale_iocbs : list LinuxAio.iocb :=
  replicate LinuxAio.QUEUE_SIZE (LinuxAio.io_read_setup 0 0 0 0).

(** A source of 100 bytes under [linux-aio-cp.c]: the read of the only
    block reports 100 bytes, and so does the write that follows. *)
Definition aio_schedule100 : list (list LinuxAio.io_event) :=
  [[LinuxAio.mkEvent 0 100]; [LinuxAio.mkEvent 0 100]].

End Samples.

Module TpSamples.

(** A run of two threads over the source of ten bytes in blocks of four:
    thread 0 copies the blocks at 0 and 8, thread 1 the block at 4. *)
Definition pool_schedule10 : list (nat * reply) :=
  [(1%nat, Moves 4); (0%nat, Moves 4); (0%nat, Moves 4); (1%nat, Moves 4);
   (1%nat, Moves 4); (0%nat, Moves 4); (0%nat, Moves 4)].

End TpSamples.

Module IoSamples.

(** The state [main] of [io-uring-cp.c] enters its loop with for the
    source of ten bytes, blocks of four bytes and two cells. *)
Definition boot10 : IoUring.machine :=
  IoUring.boot 4 2 3 4 Samples.src10 10 Samples.mem2x4.

(** The same run once the entries are submitted and the kernel has failed
    the read of cell 0 with [EIO]. *)
Definition failed10 : IoUring.machine :=
  default boot10
    (IoUring.kernel_step (IoUring.io_uring_submit boot10) (IoUring.Fail 0 5)).

End IoSamples.

Module PosixSamples.
Import PosixAioCp.

(** The two control blocks [calloc] returns, all zero. *)
Definition zeroed2 : list aiocb :=
  replicate 2 (mkAiocb 0 LIO_READ 0 0 0).

(** A run of two cells over the source of ten bytes in blocks of four:
    both reads, both writes, then the read and the write of the last
    block in cell 0. *)
Definition posix_schedule10 : list round :=
  [Wakes [Complete 0; Complete 1]; Wakes [Complete 0; Complete 1];
   Wakes [Complete 0]; Wakes [Complete 0]].

(** The same run with the first read failed by the library. *)
Definition posix_failing10 : list round :=
  [Wakes [Fail 0; Complete 1]; Wakes [Complete 0; Complete 1];
   Wakes [Complete 0]; Wakes [Complete 0]].

End PosixSamples.

Module AioSamples.
Import LinuxAioCp.

(** What an array of two control blocks may hold before it is set up. *)
Definition stale2 : list LinuxAio.iocb :=
  replicate 2 (LinuxAio.io_read_setup 0 0 0 0).

(** A run of two cells over the source of ten bytes in blocks of four:
    both reads, both writes with that of cell 1 reported first, then the
    read and the write of the last block in cell 1. *)
Definition aio_batches10 : list round :=
  [Batch [Done 0; Done 1]; Batch [Done 1; Done 0]; Batch [Done 1];
   Batch [Done 1]].

End AioSamples.

(** * Properties *)

(** ** Machine integers *)

Lemma wrap_u16_small z : 0 <= z < 2 ^ 16 -> wrap_u16 z = z.
Proof. intros H. unfold wrap_u16. apply Z.mod_small. exact H. Qed.

Lemma wrap_u32_small z : 0 <= z < 2 ^ 32 -> wrap_u32 z = z.
Proof. intros H. unfold wrap_u32. apply Z.mod_small. exact H. Qed.

Lemma wrap_u64_small z : 0 <= z < 2 ^ 64 -> wrap_u64 z = z.
Proof. intros H. unfold wrap_u64. apply Z.mod_small. exact H. Qed.

Lemma wrap_s64_small z : - 2 ^ 63 <= z < 2 ^ 63 -> wrap_s64 z = z.
Proof.
  intros H. unfold wrap_s64.
  rewrite Z.mod_small; lia.
Qed.

Lemma wrap_s32_small z : - 2 ^ 31 <= z < 2 ^ 31 -> wrap_s32 z = z.
Proof.
  intros H. unfold wrap_s32.
  rewrite Z.mod_small; lia.
Qed.

Lemma open_dst_file_ok (n : Z) :
  0 < n -> open_dst_file n = Running (allocated n).
Proof.
  intros H. unfold open_dst_file.
  destruct (Z.leb_spec n 0); [lia|reflexivity].
Qed.


(** ** The io_uring driver: single transitions *)

Module IoUringSteps.
Import IoUring.

Section Transitions.

Variable READ_BLOCK_SIZE : Z.

#[local] Abbreviation prepare_read_request :=
  (prepare_read_request READ_BLOCK_SIZE).
#[local] Abbreviation prepare_write_request :=
  (prepare_write_request READ_BLOCK_SIZE).
#[local] Abbreviation handle_cqe := (handle_cqe READ_BLOCK_SIZE).

Lemma bytes_left_exact (status : CopyStatus) :
  0 <= src_off status <= src_size status -> src_size status < 2 ^ 32 ->
  wrap_u32 (src_size status - src_off status) = src_size status - src_off status.
Proof. intros Hoff Hsz. apply wrap_u32_small. lia. Qed.

Lemma prepare_read_request_idle (status : CopyStatus) (cell : nat) :
  wrap_u32 (src_size status - src_off status) = 0 ->
  prepare_read_request status cell = status.
Proof.
  intros H. unfold IoUring.prepare_read_request. rewrite H. reflexivity.
Qed.

Lemma prepare_read_request_busy (status : CopyStatus) (cell : nat) :
  let bytes_left := wrap_u32 (src_size status - src_off status) in
  let block :=
    {| stage := BLOCK_IN_READ;
       offset := src_off status;
       size := Z.min READ_BLOCK_SIZE bytes_left |} in
  bytes_left <> 0 ->
  prepare_read_request status cell =
  {| src_fd := src_fd status;
     dst_fd := dst_fd status;
     src_off := wrap_s64 (src_off status + size block);
     src_size := src_size status;
     num_block_in_progress := wrap_u16 (num_block_in_progress status + 1);
     block_statuses := <[cell := block]> (block_statuses status);
     io_ring :=
       io_uring_get_sqe (io_ring status)
         {| opcode := IORING_OP_READ_FIXED;
            fd := src_fd status;
            buf_index := cell;
            len := READ_BLOCK_SIZE;
            off := wrap_u64 (src_off status);
            user_data := Z.of_nat cell |} |}.
Proof.
  intros bytes_left block H. unfold IoUring.prepare_read_request.
  fold bytes_left.
  destruct (bytes_left =? 0) eqn:E; [apply Z.eqb_eq in E; contradiction|].
  assert (Hmin : (if bytes_left <? READ_BLOCK_SIZE then bytes_left
                  else READ_BLOCK_SIZE) = Z.min READ_BLOCK_SIZE bytes_left).
  { destruct (bytes_left <? READ_BLOCK_SIZE) eqn:E'; lia. }
  cbn [offset size]. rewrite Hmin. reflexivity.
Qed.

(** C2.  Submitting a read on an idle slot while bytes remain records on
    the slot the offset [read_cursor] and the length
    [min(block_size, total_size - read_cursor)], sets the slot to
    ReadPending and advances [read_cursor] by exactly that length. *)
Theorem submit_read_records_block
    (status : CopyStatus) (cell : nat) (block : BlockStatus) :
  0 <= READ_BLOCK_SIZE < 2 ^ 32 ->
  block_statuses status !! cell = Some block ->
  stage block = BLOCK_IDLE ->
  0 <= src_off status < src_size status ->
  src_size status < 2 ^ 32 ->
  let bytes := Z.min READ_BLOCK_SIZE (src_size status - src_off status) in
  let status' := prepare_read_request status cell in
  block_statuses status' !! cell
    = Some {| stage := BLOCK_IN_READ; offset := src_off status; size := bytes |}
  /\ src_off status' = src_off status + bytes.
Proof.
  intros HB Hcell Hidle Hoff Hsz bytes status'.
  assert (Hleft : wrap_u32 (src_size status - src_off status)
                  = src_size status - src_off status)
    by (apply bytes_left_exact; lia).
  subst status'. rewrite prepare_read_request_busy by lia.
  cbn [block_statuses src_off size]. rewrite Hleft. fold bytes. split.
  - apply list_lookup_insert_eq. eapply lookup_lt_Some; eassumption.
  - apply wrap_s64_small. subst bytes. lia.
Qed.

Lemma prepare_read_request_at_end (status : CopyStatus) (cell : nat) :
  src_off status = src_size status ->
  prepare_read_request status cell = status.
Proof.
  intros H. apply prepare_read_request_idle.
  rewrite H, Z.sub_diag. reflexivity.
Qed.

(** C9.  With [read_cursor] equal to [total_size], [prepare_read_request]
    returns the state it was given: no slot, cursor or counter changes and
    no entry joins the submission queue. *)
Theorem submit_read_at_end_is_noop (status : CopyStatus) (cell : nat) :
  src_off status = src_size status ->
  prepare_read_request status cell = status.
Proof.
  intros H. apply prepare_read_request_idle.
  rewrite H, Z.sub_diag. reflexivity.
Qed.

(** C10.  A completion that names an idle slot makes the driver apply no
    transition: the state is returned as it was, and consuming the
    completion leaves every slot, the cursor and the in-flight count as
    they were.  A completion changes the state only when the slot it names
    is ReadPending or WritePending. *)
Theorem idle_completion_is_ignored (status : CopyStatus) (done_req : io_uring_cqe) :
  (forall cell block,
      wrap_s64 (cqe_user_data done_req) = Z.of_nat cell ->
      block_statuses status !! cell = Some block ->
      stage block = BLOCK_IDLE ->
      handle_cqe status done_req = Running status
      /\ block_statuses (io_uring_cqe_seen status) = block_statuses status
      /\ src_off (io_uring_cqe_seen status) = src_off status
      /\ num_block_in_progress (io_uring_cqe_seen status)
         = num_block_in_progress status)
  /\ (forall status',
         handle_cqe status done_req = Running status' ->
         status' <> status ->
         exists cell block,
           wrap_s64 (cqe_user_data done_req) = Z.of_nat cell
           /\ block_statuses status !! cell = Some block
           /\ (stage block = BLOCK_IN_READ \/ stage block = BLOCK_IN_WRITE)).
Proof.
  split.
  - intros cell block Hcell Hblock Hidle. split; [|done].
    unfold IoUring.handle_cqe. rewrite Hcell.
    destruct (Z.of_nat cell =? -1) eqn:E1; [done|].
    destruct (Z.of_nat cell <? 0) eqn:E2; [lia|].
    rewrite Nat2Z.id, Hblock, Hidle. reflexivity.
  - intros status' Hrun Hne. unfold IoUring.handle_cqe in Hrun.
    destruct (wrap_s64 (cqe_user_data done_req) =? -1) eqn:E1;
      [injection Hrun as <-; done|].
    destruct (wrap_s64 (cqe_user_data done_req) <? 0) eqn:E2; [done|].
    destruct (block_statuses status !! Z.to_nat (wrap_s64 (cqe_user_data done_req)))
      as [block|] eqn:Hblock; [|done].
    exists (Z.to_nat (wrap_s64 (cqe_user_data done_req))), block.
    split; [lia|]. split; [done|].
    destruct (stage block); [injection Hrun as <-; done | by left | by right].
Qed.

(** C7.  A read completion with a negative result ends the run with a
    failure status.  Any other read completion moves the slot to
    WritePending and queues a write that has the file offset, the length
    and the buffer of the read that was queued for the slot. *)
Theorem read_completion_submits_write
    (status0 status : CopyStatus) (cell : nat) (done_req : io_uring_cqe) :
  (cell < length (block_statuses status0))%nat ->
  wrap_u32 (src_size status0 - src_off status0) <> 0 ->
  block_statuses status !! cell
    = block_statuses (prepare_read_request status0 cell) !! cell ->
  wrap_s64 (cqe_user_data done_req) = Z.of_nat cell ->
  exists read_sqe block,
    sq (io_ring (prepare_read_request status0 cell))
      = sq (io_ring status0) ++ [read_sqe]
    /\ opcode read_sqe = IORING_OP_READ_FIXED
    /\ block_statuses status !! cell = Some block
    /\ stage block = BLOCK_IN_READ
    /\ (res done_req < 0 ->
        handle_cqe status done_req = Exited EXIT_FAILURE
        /\ EXIT_FAILURE <> EXIT_SUCCESS)
    /\ (0 <= res done_req ->
        exists status' write_sqe,
          handle_cqe status done_req = Running status'
          /\ block_statuses status' !! cell
             = Some {| stage := BLOCK_IN_WRITE;
                       offset := offset block; size := size block |}
          /\ sq (io_ring status') = sq (io_ring status) ++ [write_sqe]
          /\ opcode write_sqe = IORING_OP_WRITE_FIXED
          /\ fd write_sqe = dst_fd status
          /\ off write_sqe = off read_sqe
          /\ len write_sqe = len read_sqe
          /\ buf_index write_sqe = buf_index read_sqe
          /\ user_data write_sqe = user_data read_sqe).
Proof.
  intros Hcell Hleft Hslot Hdone.
  rewrite prepare_read_request_busy in Hslot |- * by exact Hleft.
  cbn [block_statuses io_ring sq io_uring_get_sqe] in Hslot |- *.
  rewrite list_lookup_insert_eq in Hslot by exact Hcell.
  eexists _, _. split; [reflexivity|]. split; [reflexivity|].
  split; [exact Hslot|]. split; [reflexivity|].
  assert (Hlt : (cell < length (block_statuses status))%nat)
    by (eapply lookup_lt_Some; exact Hslot).
  assert (Hhandle : forall r,
             handle_cqe status (mkCqe (cqe_user_data done_req) r)
             = if r <? 0 then Exited EXIT_FAILURE
               else Running (prepare_write_request status cell)).
  { intros r. unfold IoUring.handle_cqe. cbn [cqe_user_data res].
    rewrite Hdone.
    destruct (Z.of_nat cell =? -1) eqn:E1; [lia|].
    destruct (Z.of_nat cell <? 0) eqn:E2; [lia|].
    rewrite Nat2Z.id, Hslot. reflexivity. }
  destruct done_req as [ud r]. cbn [cqe_user_data res] in *.
  split.
  - intros Hneg. rewrite Hhandle.
    destruct (r <? 0) eqn:E; [done | lia].
  - intros Hpos. eexists _, _. rewrite Hhandle.
    destruct (r <? 0) eqn:E; [lia|]. split; [reflexivity|].
    unfold IoUring.prepare_write_request.
    cbn [block_statuses io_ring sq io_uring_get_sqe].
    rewrite list_lookup_insert_eq by exact Hlt.
    rewrite (list_lookup_total_correct _ _ _ Hslot).
    cbn. done.
Qed.

End Transitions.

Lemma submit_read_records_block_witness :
  let status := init_copying_status QUEUE_SIZE 20000 3 4 in
  block_statuses (prepare_read_request READ_BLOCK_SIZE status 0) !! 0%nat
    = Some {| stage := BLOCK_IN_READ; offset := 0; size := 8192 |}
  /\ src_off (prepare_read_request READ_BLOCK_SIZE status 0) = 0 + 8192.
Proof.
  apply (submit_read_records_block READ_BLOCK_SIZE
           (init_copying_status QUEUE_SIZE 20000 3 4) 0
           (mkBlockStatus BLOCK_IDLE 0 0));
    [unfold READ_BLOCK_SIZE; lia|reflexivity|reflexivity|cbn; lia|cbn; lia].
Defined.

Lemma submit_read_at_end_is_noop_witness :
  prepare_read_request READ_BLOCK_SIZE (init_copying_status QUEUE_SIZE 0 3 4) 5
  = init_copying_status QUEUE_SIZE 0 3 4.
Proof.
  apply (submit_read_at_end_is_noop READ_BLOCK_SIZE
           (init_copying_status QUEUE_SIZE 0 3 4) 5).
  reflexivity.
Defined.

Lemma idle_completion_is_ignored_witness :
  handle_cqe READ_BLOCK_SIZE (init_copying_status QUEUE_SIZE 8192 3 4)
             {| cqe_user_data := 7; res := 8192 |}
  = Running (init_copying_status QUEUE_SIZE 8192 3 4).
Proof.
  apply (proj1 (idle_completion_is_ignored READ_BLOCK_SIZE
                  (init_copying_status QUEUE_SIZE 8192 3 4)
                  {| cqe_user_data := 7; res := 8192 |})
               7%nat (mkBlockStatus BLOCK_IDLE 0 0));
    reflexivity.
Defined.

Lemma read_completion_submits_write_witness :
  let status0 := init_copying_status QUEUE_SIZE 20000 3 4 in
  let status := prepare_read_request READ_BLOCK_SIZE status0 0 in
  let done_req := {| cqe_user_data := 0; res := 8192 |} in
  exists status' write_sqe,
    handle_cqe READ_BLOCK_SIZE status done_req = Running status'
    /\ sq (io_ring status') = sq (io_ring status) ++ [write_sqe]
    /\ opcode write_sqe = IORING_OP_WRITE_FIXED
    /\ off write_sqe = 0
    /\ len write_sqe = 8192.
Proof.
  intros status0 status done_req.
  destruct (read_completion_submits_write READ_BLOCK_SIZE status0 status 0 done_req)
    as (read_sqe & block & Hsq & _ & _ & _ & _ & Hok).
  - subst status0. cbn [init_copying_status block_statuses].
    rewrite length_replicate. unfold QUEUE_SIZE. lia.
  - vm_compute. discriminate.
  - reflexivity.
  - reflexivity.
  - destruct (Hok ltac:(cbn; lia))
      as (status' & write_sqe & Hh & _ & Hsq' & Hop & _ & Hoff & Hlen & _).
    exists status', write_sqe. split; [exact Hh|]. split; [exact Hsq'|].
    split; [exact Hop|].
    vm_compute in Hsq. injection Hsq as <-.
    rewrite Hoff, Hlen. split; reflexivity.
Defined.

End IoUringSteps.

(** ** Files *)

Lemma pread_lookup (f : file) (off n : Z) (j : nat) :
  Z.of_nat j < n -> pread f off n !! j = f !! (Z.to_nat off + j)%nat.
Proof.
  intros H. unfold pread. rewrite lookup_take_lt by lia. apply lookup_drop.
Qed.

Lemma pread_length (f : file) (off n : Z) :
  0 <= off -> 0 <= n ->
  Z.of_nat (length (pread f off n)) = Z.max 0 (Z.min n (Z.of_nat (length f) - off)).
Proof.
  intros Hoff Hn. unfold pread. rewrite length_take, length_drop. lia.
Qed.

Lemma fill_buffer_lookup (buf data : list byte) (j : nat) :
  (j < length data)%nat -> fill_buffer buf data !! j = data !! j.
Proof. intros H. unfold fill_buffer. apply lookup_app_l. exact H. Qed.

Lemma pwrite_length (f : file) (off : Z) (data : list byte) :
  (Z.to_nat off <= length f)%nat ->
  length (pwrite f off data) = (length f `max` (Z.to_nat off + length data))%nat.
Proof.
  intros H. unfold pwrite.
  rewrite !length_app, length_take, length_replicate, length_drop. lia.
Qed.

Lemma pwrite_lookup_in (f : file) (off : Z) (data : list byte) (i : nat) :
  (Z.to_nat off <= length f)%nat ->
  (Z.to_nat off <= i < Z.to_nat off + length data)%nat ->
  pwrite f off data !! i = data !! (i - Z.to_nat off)%nat.
Proof.
  intros Hf Hi. unfold pwrite.
  rewrite lookup_app_r by (rewrite length_take; lia).
  rewrite length_take.
  replace (Z.to_nat off - length f)%nat with 0%nat by lia. cbn [replicate app].
  rewrite lookup_app_l by lia. f_equal. lia.
Qed.

Lemma pwrite_lookup_out (f : file) (off : Z) (data : list byte) (i : nat) :
  (Z.to_nat off <= length f)%nat ->
  (i < Z.to_nat off \/ Z.to_nat off + length data <= i)%nat ->
  pwrite f off data !! i = f !! i.
Proof.
  intros Hf Hi. unfold pwrite.
  replace (Z.to_nat off - length f)%nat with 0%nat by lia. cbn [replicate app].
  destruct Hi as [Hi|Hi].
  - rewrite lookup_app_l by (rewrite length_take; lia).
    apply lookup_take_lt. exact Hi.
  - rewrite lookup_app_r by (rewrite length_take; lia).
    rewrite length_take.
    rewrite lookup_app_r by lia.
    rewrite lookup_drop. f_equal. lia.
Qed.

Lemma ftruncate_take (f : file) (n : Z) :
  (Z.to_nat n <= length f)%nat -> ftruncate f n = take (Z.to_nat n) f.
Proof.
  intros H. unfold ftruncate.
  replace (Z.to_nat n - length f)%nat with 0%nat by lia.
  cbn [replicate]. apply app_nil_r.
Qed.

Lemma ftruncate_length (f : file) (n : Z) : length (ftruncate f n) = Z.to_nat n.
Proof.
  unfold ftruncate. rewrite length_app, length_take, length_replicate. lia.
Qed.

(** ** The io_uring driver: the invariant of a run *)

Module IoUringRun.
Import IoUring IoUringSteps.

#[local] Arguments in_flight : simpl never.

Lemma in_flight_insert (blocks : list BlockStatus) (cell : nat) (old new : BlockStatus) :
  blocks !! cell = Some old ->
  (in_flight (<[cell := new]> blocks) + (if decide (busy old) then 1 else 0)
   = in_flight blocks + (if decide (busy new) then 1 else 0))%nat.
Proof.
  unfold in_flight. revert cell.
  induction blocks as [|b blocks IH]; intros cell Hold; [done|].
  destruct cell as [|cell]; cbn in Hold.
  - injection Hold as ->.
    change (<[0%nat := new]> (old :: blocks)) with (new :: blocks).
    rewrite !filter_cons.
    destruct (decide (busy old)), (decide (busy new)); cbn [length]; lia.
  - specialize (IH cell Hold).
    change (<[S cell := new]> (b :: blocks)) with (b :: <[cell := new]> blocks).
    rewrite !filter_cons.
    destruct (decide (busy b)); cbn [length]; lia.
Qed.

Lemma in_flight_le (blocks : list BlockStatus) :
  (in_flight blocks <= length blocks)%nat.
Proof. unfold in_flight. apply length_filter. Qed.

Lemma in_flight_zero (blocks : list BlockStatus) (cell : nat) (b : BlockStatus) :
  in_flight blocks = 0%nat -> blocks !! cell = Some b -> stage b = BLOCK_IDLE.
Proof.
  unfold in_flight. intros Hz Hb.
  destruct (decide (busy b)) as [Hbusy|Hidle].
  - assert (Hin : b ∈ filter busy blocks).
    { apply list_elem_of_filter. split; [exact Hbusy|].
      eapply list_elem_of_lookup_2. exact Hb. }
    apply length_zero_iff_nil in Hz. rewrite Hz in Hin. inversion Hin.
  - unfold busy in Hidle.
    destruct (stage b); [reflexivity | exfalso; apply Hidle; discriminate ..].
Qed.

Lemma in_flight_replicate_idle (n : nat) :
  in_flight (replicate n (mkBlockStatus BLOCK_IDLE 0 0)) = 0%nat.
Proof.
  unfold in_flight. induction n as [|n IH]; [done|].
  cbn [replicate]. rewrite filter_cons.
  destruct (decide (busy _)) as [H|H]; [|exact IH].
  exfalso. apply H. reflexivity.
Qed.

(** The kernel touches the buffers, the destination and the two queues
    it shares with the driver, and nothing else. *)
Lemma kernel_step_keeps (m m' : machine) (a : kernel_action) :
  kernel_step m a = Some m' ->
  src_file m' = src_file m
  /\ src_off (status m') = src_off (status m)
  /\ src_size (status m') = src_size (status m)
  /\ num_block_in_progress (status m') = num_block_in_progress (status m)
  /\ block_statuses (status m') = block_statuses (status m).
Proof.
  intros Hk. destruct a as [i|i errno]; cbn in Hk;
    destruct (submitted m !! i) as [e|]; try discriminate.
  - destruct (perform m e) as [m1 r] eqn:Hp. injection Hk as <-. cbn.
    unfold perform in Hp.
    destruct (buffers m !! buf_index e); [|injection Hp as <- _; done].
    destruct (_ <? _); [injection Hp as <- _; done|].
    destruct (opcode e); destruct (_ =? _); injection Hp as <- _; done.
  - destruct (0 <? errno); [|discriminate]. injection Hk as <-. done.
Qed.

Section Invariant.

Variable READ_BLOCK_SIZE : Z.
Variable QUEUE_SIZE : nat.
Variable S : Z.

Hypothesis block_size_bounds : 0 < READ_BLOCK_SIZE < 2 ^ 31.
Hypothesis queue_size_bound : Z.of_nat QUEUE_SIZE < 2 ^ 16.
Hypothesis source_size_bounds : 0 <= S < 2 ^ 32.

#[local] Abbreviation prepare_read_request :=
  (prepare_read_request READ_BLOCK_SIZE).
#[local] Abbreviation prepare_write_request :=
  (prepare_write_request READ_BLOCK_SIZE).
#[local] Abbreviation handle_cqe := (handle_cqe READ_BLOCK_SIZE).
#[local] Abbreviation step := (step READ_BLOCK_SIZE).

(** The buffer of cell [c] holds the bytes of the source that block [b]
    covers. *)
Definition buf_ok (bufs : list (list byte)) (src : file)
    (c : nat) (b : BlockStatus) : Prop :=
  exists buf, bufs !! c = Some buf
    /\ forall j : nat, Z.of_nat j < size b ->
         buf !! j = src !! (Z.to_nat (offset b) + j)%nat.

(** The destination agrees with the source on the bytes block [b]
    covers. *)
Definition dst_ok (dst src : file) (b : BlockStatus) : Prop :=
  forall i : nat, offset b <= Z.of_nat i < offset b + size b ->
    dst !! i = src !! i.

(** A queued or accepted entry belongs to the busy cell it names and
    describes that cell's block; a write is queued only once the buffer
    holds the block. *)
Definition sqe_ok (blocks : list BlockStatus) (bufs : list (list byte))
    (src : file) (e : io_uring_sqe) : Prop :=
  exists b, blocks !! buf_index e = Some b
    /\ user_data e = Z.of_nat (buf_index e)
    /\ len e = READ_BLOCK_SIZE
    /\ off e = offset b
    /\ match opcode e with
       | IORING_OP_READ_FIXED => stage b = BLOCK_IN_READ
       | IORING_OP_WRITE_FIXED =>
           stage b = BLOCK_IN_WRITE /\ buf_ok bufs src (buf_index e) b
       end.

(** A posted completion belongs to a busy cell; when it reports success
    the transfer it stands for has been done. *)
Definition cqe_ok (blocks : list BlockStatus) (bufs : list (list byte))
    (src dst : file) (q : io_uring_cqe) : Prop :=
  exists c b, cqe_user_data q = Z.of_nat c
    /\ blocks !! c = Some b
    /\ match stage b with
       | BLOCK_IDLE => False
       | BLOCK_IN_READ => 0 <= res q -> buf_ok bufs src c b
       | BLOCK_IN_WRITE => 0 <= res q -> dst_ok dst src b
       end.

(** The cells named by the operations under way, wherever they are. *)
Definition tokens (sub sqes : list io_uring_sqe) (cqes : list io_uring_cqe)
  : list Z :=
  (user_data <$> sub) ++ (user_data <$> sqes) ++ (cqe_user_data <$> cqes).

#[local] Arguments tokens : simpl never.

Definition blocks_ok (blocks : list BlockStatus) (cursor : Z) : Prop :=
  forall c b, blocks !! c = Some b -> busy b ->
    0 <= offset b < S
    /\ size b = Z.min READ_BLOCK_SIZE (S - offset b)
    /\ offset b + size b <= cursor.

Definition blocks_apart (blocks : list BlockStatus) : Prop :=
  forall c c' b b', blocks !! c = Some b -> blocks !! c' = Some b' ->
    c <> c' -> busy b -> busy b' ->
    offset b + READ_BLOCK_SIZE <= offset b'
    \/ offset b' + READ_BLOCK_SIZE <= offset b.

(** Every byte below the cursor is covered by a busy block or already
    copied. *)
Definition copied (blocks : list BlockStatus) (cursor : Z) (src dst : file)
  : Prop :=
  forall i : nat, Z.of_nat i < cursor ->
    (exists c b, blocks !! c = Some b /\ busy b
                 /\ offset b <= Z.of_nat i < offset b + size b)
    \/ dst !! i = src !! i.

Record Inv (m : machine) : Prop := {
  inv_size : src_size (status m) = S;
  inv_off : 0 <= src_off (status m) <= S;
  inv_cells : length (block_statuses (status m)) = QUEUE_SIZE;
  inv_src : Z.of_nat (length (src_file m)) = S;
  inv_dst : S <= Z.of_nat (length (dst_file m));
  inv_count :
    num_block_in_progress (status m)
    = Z.of_nat (in_flight (block_statuses (status m)));
  inv_blocks : blocks_ok (block_statuses (status m)) (src_off (status m));
  inv_apart : blocks_apart (block_statuses (status m));
  inv_copied :
    copied (block_statuses (status m)) (src_off (status m))
           (src_file m) (dst_file m);
  inv_sqes :
    forall e, e ∈ submitted m ++ sq (io_ring (status m)) ->
      sqe_ok (block_statuses (status m)) (buffers m) (src_file m) e;
  inv_cqes :
    forall q, q ∈ cq (io_ring (status m)) ->
      cqe_ok (block_statuses (status m)) (buffers m)
             (src_file m) (dst_file m) q;
  inv_tokens :
    NoDup (tokens (submitted m) (sq (io_ring (status m)))
                  (cq (io_ring (status m))))
}.

Lemma inv_in_flight_le (m : machine) :
  Inv m ->
  0 <= num_block_in_progress (status m) <= Z.of_nat QUEUE_SIZE.
Proof.
  intros H. rewrite (inv_count _ H), <- (inv_cells _ H).
  pose proof (in_flight_le (block_statuses (status m))). lia.
Qed.

(** *** Submission *)

Lemma inv_submit (m : machine) : Inv m -> Inv (io_uring_submit m).
Proof.
  intros H. destruct H. constructor; cbn; try assumption.
  - intros e He. apply inv_sqes0. rewrite app_nil_r in He. exact He.
  - unfold tokens in *. cbn [fmap list_fmap app]. rewrite fmap_app.
    rewrite <- app_assoc. exact inv_tokens0.
Qed.

(** *** The kernel finishes an entry *)

Lemma buf_ok_insert_ne (bufs : list (list byte)) (src : file)
    (c c' : nat) (b : BlockStatus) (x : list byte) :
  c <> c' -> buf_ok bufs src c' b -> buf_ok (<[c := x]> bufs) src c' b.
Proof.
  intros Hne (buf & Hbuf & Hok). exists buf. split; [|exact Hok].
  rewrite list_lookup_insert_ne by exact Hne. exact Hbuf.
Qed.

Lemma inv_read_done (m : machine) (e : io_uring_sqe) (buf : list byte) :
  Inv m ->
  e ∈ submitted m ++ sq (io_ring (status m)) ->
  opcode e = IORING_OP_READ_FIXED ->
  buffers m !! buf_index e = Some buf ->
  let data := pread (src_file m) (off e) (len e) in
  let m' := mkMachine (status m) (submitted m) (rd_fd m) (wr_fd m)
              (src_file m) (dst_file m)
              (<[buf_index e := fill_buffer buf data]> (buffers m)) in
  Inv m'
  /\ cqe_ok (block_statuses (status m')) (buffers m') (src_file m') (dst_file m')
            (mkCqe (user_data e) (Z.of_nat (length data))).
Proof.
  intros H He Hop Hbuf data m'.
  destruct (inv_sqes _ H e He) as (b & Hb & Hud & Hlen & Hoff & Hst).
  rewrite Hop in Hst.
  assert (Hbusy : busy b) by (unfold busy; rewrite Hst; discriminate).
  destruct (inv_blocks _ H _ _ Hb Hbusy) as (Hrange & Hsize & _).
  assert (Hdata : Z.of_nat (length data) = size b).
  { subst data. rewrite pread_length by lia.
    rewrite (inv_src _ H), Hlen, Hoff. lia. }
  assert (Hnew : buf_ok (buffers m') (src_file m') (buf_index e) b).
  { exists (fill_buffer buf data). cbn. split.
    - apply list_lookup_insert_eq. eapply lookup_lt_Some. exact Hbuf.
    - intros j Hj. rewrite fill_buffer_lookup by lia.
      subst data. rewrite pread_lookup by lia. rewrite Hoff. reflexivity. }
  split.
  - destruct H. constructor; cbn; try assumption.
    + intros e' He'. destruct (inv_sqes0 e' He')
        as (b' & Hb' & Hud' & Hlen' & Hoff' & Hst').
      exists b'. repeat (split; [assumption|]).
      destruct (opcode e'); [exact Hst'|].
      destruct Hst' as [Hst' Hok]. split; [exact Hst'|].
      destruct (decide (buf_index e = buf_index e')) as [Heq|Hne].
      * rewrite <- Heq in Hb'. congruence.
      * apply buf_ok_insert_ne; assumption.
    + intros q Hq. destruct (inv_cqes0 q Hq) as (c' & b' & Hud' & Hb' & Hst').
      exists c', b'. split; [exact Hud'|]. split; [exact Hb'|].
      destruct (stage b') eqn:Hstage; [exact Hst'| |exact Hst'].
      intros Hres. destruct (decide (buf_index e = c')) as [Heq|Hne].
      * subst c'. assert (b' = b) by congruence. subst b'. exact Hnew.
      * apply buf_ok_insert_ne; [exact Hne|]. apply Hst'. exact Hres.
  - exists (buf_index e), b. cbn [cqe_user_data res].
    split; [exact Hud|]. split; [exact Hb|]. rewrite Hst. intros _. exact Hnew.
Qed.

Lemma inv_write_done (m : machine) (e : io_uring_sqe) (buf : list byte) :
  Inv m ->
  e ∈ submitted m ++ sq (io_ring (status m)) ->
  opcode e = IORING_OP_WRITE_FIXED ->
  buffers m !! buf_index e = Some buf ->
  len e <= Z.of_nat (length buf) ->
  let data := take (Z.to_nat (len e)) buf in
  let m' := mkMachine (status m) (submitted m) (rd_fd m) (wr_fd m)
              (src_file m) (pwrite (dst_file m) (off e) data) (buffers m) in
  Inv m'
  /\ cqe_ok (block_statuses (status m')) (buffers m') (src_file m') (dst_file m')
            (mkCqe (user_data e) (Z.of_nat (length data))).
Proof.
  intros H He Hop Hbuf Hfit data m'.
  destruct (inv_sqes _ H e He) as (b & Hb & Hud & Hlen & Hoff & Hst).
  rewrite Hop in Hst. destruct Hst as [Hst (buf' & Hbuf' & Hok)].
  assert (buf' = buf) by congruence. subst buf'.
  assert (Hbusy : busy b) by (unfold busy; rewrite Hst; discriminate).
  destruct (inv_blocks _ H _ _ Hb Hbusy) as (Hrange & Hsize & Hbelow).
  pose proof (inv_dst _ H) as Hdst. pose proof (inv_off _ H) as Hcur.
  assert (Hdata : Z.of_nat (length data) = READ_BLOCK_SIZE).
  { subst data. rewrite length_take. lia. }
  assert (Hhole : (Z.to_nat (off e) <= length (dst_file m))%nat) by lia.
  assert (Hnew : dst_ok (dst_file m') (src_file m') b).
  { intros i Hi. cbn.
    rewrite pwrite_lookup_in by lia.
    subst data. rewrite lookup_take_lt by lia.
    rewrite Hok by lia. f_equal. lia. }
  split.
  - destruct H. constructor; cbn; try assumption.
    + rewrite pwrite_length by exact Hhole. lia.
    + intros i Hi. destruct (inv_copied0 i Hi) as [Hcov|Hsame]; [left; exact Hcov|].
      destruct (decide (offset b <= Z.of_nat i < offset b + READ_BLOCK_SIZE))
        as [Hin|Hout].
      * left. exists (buf_index e), b. split; [exact Hb|]. split; [exact Hbusy|]. lia.
      * right. rewrite pwrite_lookup_out by lia. exact Hsame.
    + intros q Hq. destruct (inv_cqes0 q Hq) as (c' & b' & Hud' & Hb' & Hst').
      exists c', b'. split; [exact Hud'|]. split; [exact Hb'|].
      destruct (stage b') eqn:Hstage; [exact Hst'|exact Hst'|].
      intros Hres. destruct (decide (buf_index e = c')) as [Heq|Hne].
      * subst c'. assert (b' = b) by congruence. subst b'. exact Hnew.
      * assert (Hbusy' : busy b') by (unfold busy; rewrite Hstage; discriminate).
        destruct (inv_blocks0 _ _ Hb' Hbusy') as (Hrange' & Hsize' & _).
        specialize (Hst' Hres).
        intros i Hi. rewrite <- (Hst' i Hi).
        apply pwrite_lookup_out; [exact Hhole|].
        destruct (inv_apart0 _ _ _ _ Hb Hb' Hne Hbusy Hbusy'); lia.
  - exists (buf_index e), b. cbn [cqe_user_data res].
    split; [exact Hud|]. split; [exact Hb|]. rewrite Hst. intros _. exact Hnew.
Qed.

(** The entry leaves the accepted ones and its completion is posted. *)
Lemma inv_post_cqe (m : machine) (i : nat) (e : io_uring_sqe) (r : Z) :
  Inv m ->
  submitted m !! i = Some e ->
  cqe_ok (block_statuses (status m)) (buffers m) (src_file m) (dst_file m)
         (mkCqe (user_data e) r) ->
  Inv (post_cqe m i (mkCqe (user_data e) r)).
Proof.
  intros H Hi Hq. destruct H. constructor; cbn; try assumption.
  - intros e' He'. apply inv_sqes0.
    apply elem_of_app in He'. apply elem_of_app.
    destruct He' as [He'|He']; [left|right; exact He'].
    eapply list_elem_of_delete_inv. exact He'.
  - intros q' Hq'. apply elem_of_app in Hq'.
    destruct Hq' as [Hq'|Hq']; [apply inv_cqes0; exact Hq'|].
    apply list_elem_of_singleton in Hq'. subst q'. exact Hq.
  - revert inv_tokens0. unfold tokens.
    rewrite (delete_Permutation _ _ _ Hi) at 1.
    rewrite !fmap_app, !fmap_cons. cbn [fmap list_fmap cqe_user_data].
    intros Hnd. eapply NoDup_Permutation_proper; [|exact Hnd].
    rewrite !app_assoc. rewrite <- Permutation_cons_append.
    rewrite <- !app_assoc. reflexivity.
Qed.

Lemma sqe_ok_failed (m : machine) (e : io_uring_sqe) (r : Z) :
  Inv m ->
  e ∈ submitted m ++ sq (io_ring (status m)) ->
  r < 0 ->
  cqe_ok (block_statuses (status m)) (buffers m) (src_file m) (dst_file m)
         (mkCqe (user_data e) r).
Proof.
  intros H He Hr.
  destruct (inv_sqes _ H e He) as (b & Hb & Hud & Hlen & Hoff & Hst).
  exists (buf_index e), b. cbn [cqe_user_data res].
  split; [exact Hud|]. split; [exact Hb|].
  destruct (opcode e).
  - rewrite Hst. lia.
  - destruct Hst as [-> _]. lia.
Qed.

Lemma inv_kernel_step (m m' : machine) (a : kernel_action) :
  Inv m -> kernel_step m a = Some m' -> Inv m'.
Proof.
  intros H Hstep. destruct a as [i|i errno]; cbn in Hstep.
  - destruct (submitted m !! i) as [e|] eqn:Hi; [|discriminate].
    assert (He : e ∈ submitted m ++ sq (io_ring (status m))).
    { apply elem_of_app. left. eapply list_elem_of_lookup_2. exact Hi. }
    assert (Hfail : forall r, r < 0 -> Inv (post_cqe m i (mkCqe (user_data e) r))).
    { intros r Hr. apply inv_post_cqe; [exact H|exact Hi|].
      apply sqe_ok_failed; assumption. }
    unfold perform in Hstep.
    destruct (buffers m !! buf_index e) as [buf|] eqn:Hbuf.
    2:{ injection Hstep as <-. apply Hfail. unfold EFAULT. lia. }
    destruct (Z.of_nat (length buf) <? len e) eqn:Hfit.
    { injection Hstep as <-. apply Hfail. unfold EFAULT. lia. }
    destruct (opcode e) eqn:Hop.
    + destruct (fd e =? rd_fd m).
      2:{ injection Hstep as <-. apply Hfail. unfold EBADF. lia. }
      injection Hstep as <-.
      destruct (inv_read_done m e buf H He Hop Hbuf) as [Hinv Hq].
      apply (inv_post_cqe _ i e _ Hinv Hi Hq).
    + destruct (fd e =? wr_fd m).
      2:{ injection Hstep as <-. apply Hfail. unfold EBADF. lia. }
      injection Hstep as <-.
      destruct (inv_write_done m e buf H He Hop Hbuf ltac:(lia)) as [Hinv Hq].
      apply (inv_post_cqe _ i e _ Hinv Hi Hq).
  - destruct (submitted m !! i) as [e|] eqn:Hi; [|discriminate].
    destruct (0 <? errno) eqn:Herr; [|discriminate].
    injection Hstep as <-. apply inv_post_cqe; [exact H|exact Hi|].
    apply sqe_ok_failed; [exact H| |lia].
    apply elem_of_app. left. eapply list_elem_of_lookup_2. exact Hi.
Qed.

(** *** The driver handles a completion *)

Lemma sqe_ok_insert_ne (blocks : list BlockStatus) (bufs : list (list byte))
    (src : file) (e : io_uring_sqe) (c : nat) (x : BlockStatus) :
  user_data e <> Z.of_nat c ->
  sqe_ok blocks bufs src e -> sqe_ok (<[c := x]> blocks) bufs src e.
Proof.
  intros Hne (b & Hb & Hud & Hrest). exists b.
  split; [|split; assumption].
  rewrite list_lookup_insert_ne; [exact Hb|]. intros ->. congruence.
Qed.

Lemma cqe_ok_insert_ne (blocks : list BlockStatus) (bufs : list (list byte))
    (src dst : file) (q : io_uring_cqe) (c : nat) (x : BlockStatus) :
  cqe_user_data q <> Z.of_nat c ->
  cqe_ok blocks bufs src dst q -> cqe_ok (<[c := x]> blocks) bufs src dst q.
Proof.
  intros Hne (c' & b & Hud & Hb & Hrest). exists c', b.
  split; [exact Hud|]. split; [|exact Hrest].
  rewrite list_lookup_insert_ne; [exact Hb|]. intros ->. congruence.
Qed.

Lemma tokens_split (sub sqes : list io_uring_sqe) (cqes : list io_uring_cqe) :
  tokens sub sqes cqes
  = (user_data <$> sub ++ sqes) ++ (cqe_user_data <$> cqes).
Proof. unfold tokens. rewrite fmap_app, app_assoc. reflexivity. Qed.

Lemma sqe_token_fresh (m : machine) (q : io_uring_cqe)
    (rest : list io_uring_cqe) (e : io_uring_sqe) :
  Inv m -> cq (io_ring (status m)) = q :: rest ->
  e ∈ submitted m ++ sq (io_ring (status m)) ->
  user_data e <> cqe_user_data q.
Proof.
  intros H Hcq He Heq. pose proof (inv_tokens _ H) as Hnd.
  rewrite tokens_split, Hcq in Hnd.
  apply NoDup_app in Hnd. destruct Hnd as (_ & Hdisj & _).
  apply (Hdisj (user_data e)).
  - apply list_elem_of_fmap_2. exact He.
  - rewrite Heq. rewrite fmap_cons. left.
Qed.

Lemma cqe_token_fresh (m : machine) (q q' : io_uring_cqe)
    (rest : list io_uring_cqe) :
  Inv m -> cq (io_ring (status m)) = q :: rest ->
  q' ∈ rest ->
  cqe_user_data q' <> cqe_user_data q.
Proof.
  intros H Hcq Hq' Heq. pose proof (inv_tokens _ H) as Hnd.
  rewrite tokens_split, Hcq in Hnd.
  apply NoDup_app in Hnd. destruct Hnd as (_ & _ & Hnd).
  rewrite fmap_cons in Hnd. apply NoDup_cons in Hnd. destruct Hnd as [Hnotin _].
  apply Hnotin. rewrite <- Heq. apply list_elem_of_fmap_2. exact Hq'.
Qed.

Lemma inv_cell_bound (m : machine) (c : nat) (b : BlockStatus) :
  Inv m -> block_statuses (status m) !! c = Some b ->
  wrap_s64 (Z.of_nat c) = Z.of_nat c /\ Z.of_nat c < 2 ^ 16.
Proof.
  intros H Hb. apply lookup_lt_Some in Hb. rewrite (inv_cells _ H) in Hb.
  split; [apply wrap_s64_small|]; lia.
Qed.

(** A read completion: the slot turns to WritePending and the write is
    queued. *)
Lemma inv_reap_read (m : machine) (q : io_uring_cqe) (rest : list io_uring_cqe)
    (c : nat) (b : BlockStatus) :
  Inv m -> cq (io_ring (status m)) = q :: rest ->
  cqe_user_data q = Z.of_nat c ->
  block_statuses (status m) !! c = Some b ->
  stage b = BLOCK_IN_READ ->
  0 <= res q ->
  Inv (set_status m (io_uring_cqe_seen (prepare_write_request (status m) c))).
Proof.
  intros H Hcq Hud Hb Hst Hres.
  assert (Hq : q ∈ cq (io_ring (status m))) by (rewrite Hcq; left).
  destruct (inv_cqes _ H q Hq) as (c0 & b0 & Hud0 & Hb0 & Hst0).
  assert (c0 = c) by lia. subst c0.
  assert (b0 = b) by congruence. subst b0.
  rewrite Hst in Hst0. specialize (Hst0 Hres).
  assert (Hbusy : busy b) by (unfold busy; rewrite Hst; discriminate).
  pose proof (lookup_lt_Some _ _ _ Hb) as Hlt.
  pose proof (fun e => sqe_token_fresh m q rest e H Hcq) as Hsq.
  pose proof (fun q' => cqe_token_fresh m q q' rest H Hcq) as Hcqf.
  pose proof (inv_blocks _ H _ _ Hb Hbusy) as (Hrange & Hsize & Hbelow).
  unfold IoUring.prepare_write_request.
  rewrite (list_lookup_total_correct _ _ _ Hb).
  set (b' := {| stage := BLOCK_IN_WRITE; offset := offset b; size := size b |}).
  assert (Hbusy' : busy b') by (unfold busy; discriminate).
  assert (Hlook : forall c1 b1,
             <[c := b']> (block_statuses (status m)) !! c1 = Some b1 ->
             busy b1 ->
             exists b2, block_statuses (status m) !! c1 = Some b2 /\ busy b2
                        /\ offset b2 = offset b1 /\ size b2 = size b1).
  { intros c1 b1 Hb1 Hbusy1. destruct (decide (c = c1)) as [<-|Hne].
    - rewrite list_lookup_insert_eq in Hb1 by exact Hlt.
      injection Hb1 as <-. exists b. done.
    - rewrite list_lookup_insert_ne in Hb1 by exact Hne. exists b1. done. }
  destruct H. cbn in Hcq. constructor; cbn.
  - assumption.
  - assumption.
  - rewrite length_insert. assumption.
  - assumption.
  - assumption.
  - pose proof (in_flight_insert _ c b b' Hb) as Hcount.
    destruct (decide (busy b)); [|contradiction].
    destruct (decide (busy b')); [|contradiction].
    rewrite inv_count0. f_equal. lia.
  - intros c1 b1 Hb1 Hbusy1.
    destruct (Hlook _ _ Hb1 Hbusy1) as (b2 & Hb2 & Hbusy2 & <- & <-).
    eapply inv_blocks0; eassumption.
  - intros c1 c2 b1 b2 Hb1 Hb2 Hne Hbusy1 Hbusy2.
    destruct (Hlook _ _ Hb1 Hbusy1) as (b3 & Hb3 & Hbusy3 & <- & _).
    destruct (Hlook _ _ Hb2 Hbusy2) as (b4 & Hb4 & Hbusy4 & <- & _).
    eapply inv_apart0; eassumption.
  - intros i Hi. destruct (inv_copied0 i Hi) as [(c1 & b1 & Hb1 & Hbusy1 & Hin)|Hsame];
      [left|right; exact Hsame].
    destruct (decide (c = c1)) as [<-|Hne].
    + exists c, b'. rewrite list_lookup_insert_eq by exact Hlt.
      assert (b1 = b) by congruence. subst b1. done.
    + exists c1, b1. rewrite list_lookup_insert_ne by exact Hne. done.
  - intros e He. rewrite app_assoc in He. apply elem_of_app in He.
    destruct He as [He|He].
    + apply sqe_ok_insert_ne; [|apply inv_sqes0; exact He].
      rewrite <- Hud. apply Hsq. exact He.
    + apply list_elem_of_singleton in He. subst e. exists b'. cbn.
      rewrite list_lookup_insert_eq by exact Hlt.
      split; [reflexivity|]. split; [reflexivity|]. split; [reflexivity|].
      split; [apply wrap_u64_small; lia|]. split; [reflexivity|].
      destruct Hst0 as (buf & Hbuf & Hok). exists buf. done.
  - intros q' Hq'. rewrite Hcq in Hq'. cbn in Hq'.
    apply cqe_ok_insert_ne.
    + rewrite <- Hud. apply Hcqf. exact Hq'.
    + apply inv_cqes0. rewrite Hcq. right. exact Hq'.
  - revert inv_tokens0. unfold tokens. rewrite Hcq. cbn [tail].
    rewrite !fmap_app, !fmap_cons. cbn [fmap list_fmap user_data].
    intros Hnd. eapply NoDup_Permutation_proper; [|exact Hnd].
    rewrite Hud. rewrite <- !app_assoc. cbn [app].
    reflexivity.
Qed.

(** A write completion, first half: the slot is retired. *)
Lemma inv_reap_write (m : machine) (q : io_uring_cqe) (rest : list io_uring_cqe)
    (c : nat) (b : BlockStatus) :
  Inv m -> cq (io_ring (status m)) = q :: rest ->
  cqe_user_data q = Z.of_nat c ->
  block_statuses (status m) !! c = Some b ->
  stage b = BLOCK_IN_WRITE ->
  0 <= res q ->
  Inv (set_status m (io_uring_cqe_seen (finish_write_request (status m) c))).
Proof.
  intros H Hcq Hud Hb Hst Hres.
  assert (Hq : q ∈ cq (io_ring (status m))) by (rewrite Hcq; left).
  destruct (inv_cqes _ H q Hq) as (c0 & b0 & Hud0 & Hb0 & Hst0).
  assert (c0 = c) by lia. subst c0.
  assert (b0 = b) by congruence. subst b0.
  rewrite Hst in Hst0. specialize (Hst0 Hres).
  assert (Hbusy : busy b) by (unfold busy; rewrite Hst; discriminate).
  pose proof (lookup_lt_Some _ _ _ Hb) as Hlt.
  pose proof (fun e => sqe_token_fresh m q rest e H Hcq) as Hsq.
  pose proof (fun q' => cqe_token_fresh m q q' rest H Hcq) as Hcqf.
  pose proof (inv_in_flight_le m H) as Hle.
  unfold IoUring.finish_write_request.
  rewrite (list_lookup_total_correct _ _ _ Hb).
  set (b' := {| stage := BLOCK_IDLE; offset := offset b; size := size b |}).
  assert (Hidle' : ~ busy b') by (unfold busy; cbn; congruence).
  assert (Hlook : forall c1 b1,
             <[c := b']> (block_statuses (status m)) !! c1 = Some b1 ->
             busy b1 ->
             c <> c1 /\ block_statuses (status m) !! c1 = Some b1).
  { intros c1 b1 Hb1 Hbusy1. destruct (decide (c = c1)) as [<-|Hne].
    - rewrite list_lookup_insert_eq in Hb1 by exact Hlt.
      injection Hb1 as <-. contradiction.
    - rewrite list_lookup_insert_ne in Hb1 by exact Hne. done. }
  destruct H. cbn in Hcq. constructor; cbn.
  - assumption.
  - assumption.
  - rewrite length_insert. assumption.
  - assumption.
  - assumption.
  - pose proof (in_flight_insert _ c b b' Hb) as Hcount.
    destruct (decide (busy b)); [|contradiction].
    destruct (decide (busy b')); [contradiction|].
    rewrite inv_count0 in Hle |- *. rewrite wrap_u16_small; lia.
  - intros c1 b1 Hb1 Hbusy1.
    destruct (Hlook _ _ Hb1 Hbusy1) as (_ & Hb2).
    eapply inv_blocks0; eassumption.
  - intros c1 c2 b1 b2 Hb1 Hb2 Hne Hbusy1 Hbusy2.
    destruct (Hlook _ _ Hb1 Hbusy1) as (_ & Hb3).
    destruct (Hlook _ _ Hb2 Hbusy2) as (_ & Hb4).
    eapply inv_apart0; eassumption.
  - intros i Hi. destruct (inv_copied0 i Hi) as [(c1 & b1 & Hb1 & Hbusy1 & Hin)|Hsame];
      [|right; exact Hsame].
    destruct (decide (c = c1)) as [<-|Hne].
    + right. assert (b1 = b) by congruence. subst b1. apply Hst0. exact Hin.
    + left. exists c1, b1. rewrite list_lookup_insert_ne by exact Hne. done.
  - intros e He. apply sqe_ok_insert_ne; [|apply inv_sqes0; exact He].
    rewrite <- Hud. apply Hsq. exact He.
  - intros q' Hq'. rewrite Hcq in Hq'. cbn in Hq'.
    apply cqe_ok_insert_ne.
    + rewrite <- Hud. apply Hcqf. exact Hq'.
    + apply inv_cqes0. rewrite Hcq. right. exact Hq'.
  - revert inv_tokens0. unfold tokens. rewrite Hcq. cbn [tail].
    rewrite fmap_cons. intros Hnd.
    apply NoDup_app in Hnd. destruct Hnd as (Hnd1 & Hdisj1 & Hnd).
    apply NoDup_app in Hnd. destruct Hnd as (Hnd2 & Hdisj2 & Hnd3).
    apply NoDup_cons in Hnd3. destruct Hnd3 as [_ Hnd3].
    apply NoDup_app. split; [exact Hnd1|]. split.
    + intros x Hx Hx'. apply (Hdisj1 x Hx).
      apply elem_of_app in Hx'. apply elem_of_app.
      destruct Hx' as [Hx'|Hx']; [left; exact Hx'|right; right; exact Hx'].
    + apply NoDup_app. split; [exact Hnd2|]. split; [|exact Hnd3].
      intros x Hx Hx'. apply (Hdisj2 x Hx). right. exact Hx'.
Qed.

(** A read is prepared on an idle slot. *)
Lemma inv_prepare_read (m : machine) (c : nat) (b : BlockStatus) :
  Inv m ->
  block_statuses (status m) !! c = Some b ->
  stage b = BLOCK_IDLE ->
  Inv (set_status m (prepare_read_request (status m) c)).
Proof.
  intros H Hb Hst.
  pose proof (inv_off _ H) as Hoff. pose proof (inv_size _ H) as Hsz.
  assert (Hleft : wrap_u32 (src_size (status m) - src_off (status m))
                  = S - src_off (status m)).
  { rewrite Hsz. apply wrap_u32_small. lia. }
  destruct (decide (S - src_off (status m) = 0)) as [Hend|Hmore].
  { rewrite prepare_read_request_idle by (rewrite Hleft; exact Hend).
    destruct m. exact H. }
  rewrite prepare_read_request_busy by (rewrite Hleft; exact Hmore).
  rewrite Hleft.
  set (b' := {| stage := BLOCK_IN_READ; offset := src_off (status m);
                size := Z.min READ_BLOCK_SIZE (S - src_off (status m)) |}).
  assert (Hidle : ~ busy b) by (unfold busy; rewrite Hst; congruence).
  assert (Hbusy' : busy b') by (unfold busy; discriminate).
  pose proof (lookup_lt_Some _ _ _ Hb) as Hlt.
  pose proof (inv_in_flight_le m H) as Hle.
  pose proof (in_flight_le (<[c := b']> (block_statuses (status m)))) as Hle'.
  rewrite length_insert, (inv_cells _ H) in Hle'.
  assert (Hfresh_sq : forall e, e ∈ submitted m ++ sq (io_ring (status m)) ->
                                user_data e <> Z.of_nat c).
  { intros e He Heq.
    destruct (inv_sqes _ H e He) as (b0 & Hb0 & Hud & _ & _ & Hop).
    assert (buf_index e = c) by lia. subst c.
    assert (b0 = b) by congruence. subst b0.
    destruct (opcode e); [|destruct Hop as [Hop _]]; congruence. }
  assert (Hfresh_cq : forall q, q ∈ cq (io_ring (status m)) ->
                                cqe_user_data q <> Z.of_nat c).
  { intros q Hq Heq.
    destruct (inv_cqes _ H q Hq) as (c0 & b0 & Hud & Hb0 & Hop).
    assert (c0 = c) by lia. subst c0.
    assert (b0 = b) by congruence. subst b0.
    rewrite Hst in Hop. exact Hop. }
  assert (Hlook : forall c1 b1,
             <[c := b']> (block_statuses (status m)) !! c1 = Some b1 ->
             (c1 = c /\ b1 = b')
             \/ (c1 <> c /\ block_statuses (status m) !! c1 = Some b1)).
  { intros c1 b1 Hb1. destruct (decide (c = c1)) as [<-|Hne].
    - rewrite list_lookup_insert_eq in Hb1 by exact Hlt.
      injection Hb1 as <-. left. done.
    - rewrite list_lookup_insert_ne in Hb1 by exact Hne. right. done. }
  assert (Hfull : forall c1 b1,
             block_statuses (status m) !! c1 = Some b1 -> busy b1 ->
             offset b1 + READ_BLOCK_SIZE <= src_off (status m)).
  { intros c1 b1 Hb1 Hbusy1.
    destruct (inv_blocks _ H _ _ Hb1 Hbusy1) as (? & ? & ?). lia. }
  destruct H. constructor; cbn.
  - assumption.
  - rewrite wrap_s64_small; lia.
  - rewrite length_insert. assumption.
  - assumption.
  - assumption.
  - pose proof (in_flight_insert _ c b b' Hb) as Hcount.
    destruct (decide (busy b)); [contradiction|].
    destruct (decide (busy b')); [|contradiction].
    rewrite inv_count0 in Hle |- *. rewrite wrap_u16_small; lia.
  - rewrite wrap_s64_small by lia. intros c1 b1 Hb1 Hbusy1.
    destruct (Hlook _ _ Hb1) as [[-> ->]|[Hne Hb2]].
    + cbn. lia.
    + destruct (inv_blocks0 _ _ Hb2 Hbusy1) as (? & ? & ?). lia.
  - intros c1 c2 b1 b2 Hb1 Hb2 Hne Hbusy1 Hbusy2.
    destruct (Hlook _ _ Hb1) as [[-> ->]|[Hne1 Hb3]];
      destruct (Hlook _ _ Hb2) as [[-> ->]|[Hne2 Hb4]].
    + contradiction.
    + right. cbn. eapply Hfull; eassumption.
    + left. cbn. eapply Hfull; eassumption.
    + eapply inv_apart0; eassumption.
  - rewrite wrap_s64_small by lia. intros i Hi.
    destruct (decide (Z.of_nat i < src_off (status m))) as [Hold|Hnew].
    + destruct (inv_copied0 i Hold) as [(c1 & b1 & Hb1 & Hbusy1 & Hin)|Hsame];
        [left|right; exact Hsame].
      exists c1, b1. rewrite list_lookup_insert_ne; [done|].
      intros <-. assert (b1 = b) by congruence. subst b1. contradiction.
    + left. exists c, b'. rewrite list_lookup_insert_eq by exact Hlt.
      split; [reflexivity|]. split; [exact Hbusy'|]. cbn. lia.
  - intros e He. rewrite app_assoc in He. apply elem_of_app in He.
    destruct He as [He|He].
    + apply sqe_ok_insert_ne; [|apply inv_sqes0; exact He].
      apply Hfresh_sq. exact He.
    + apply list_elem_of_singleton in He. subst e. exists b'. cbn.
      rewrite list_lookup_insert_eq by exact Hlt.
      split; [reflexivity|]. split; [reflexivity|]. split; [reflexivity|].
      split; [apply wrap_u64_small; lia|]. reflexivity.
  - intros q Hq. apply cqe_ok_insert_ne; [|apply inv_cqes0; exact Hq].
    apply Hfresh_cq. exact Hq.
  - revert inv_tokens0. unfold tokens.
    rewrite !fmap_app. cbn [fmap list_fmap user_data]. intros Hnd.
    assert (Hperm : (user_data <$> submitted m)
                    ++ ((user_data <$> sq (io_ring (status m))) ++ [Z.of_nat c])
                    ++ (cqe_user_data <$> cq (io_ring (status m)))
                    ≡ₚ Z.of_nat c
                       :: (user_data <$> submitted m)
                       ++ (user_data <$> sq (io_ring (status m)))
                       ++ (cqe_user_data <$> cq (io_ring (status m)))).
    { rewrite <- !app_assoc. cbn [app].
      rewrite (Permutation_middle _ _ (Z.of_nat c)).
      rewrite app_assoc. rewrite (Permutation_middle _ _ (Z.of_nat c)).
      rewrite <- app_assoc. reflexivity. }
    rewrite Hperm. apply NoDup_cons. split; [|exact Hnd].
    intros Hin. apply elem_of_app in Hin. destruct Hin as [Hin|Hin].
    + apply list_elem_of_fmap_1 in Hin. destruct Hin as (e & Heq & He).
      apply (Hfresh_sq e); [|congruence]. apply elem_of_app. left. exact He.
    + apply elem_of_app in Hin. destruct Hin as [Hin|Hin].
      * apply list_elem_of_fmap_1 in Hin. destruct Hin as (e & Heq & He).
        apply (Hfresh_sq e); [|congruence]. apply elem_of_app. right. exact He.
      * apply list_elem_of_fmap_1 in Hin. destruct Hin as (q & Heq & Hq).
        apply (Hfresh_cq q); [exact Hq|congruence].
Qed.

(** *** Steps *)

Lemma cqe_seen_prepare_read (st : CopyStatus) (c : nat) :
  io_uring_cqe_seen (prepare_read_request st c)
  = prepare_read_request (io_uring_cqe_seen st) c.
Proof.
  unfold IoUring.prepare_read_request. cbn [src_size src_off io_uring_cqe_seen].
  destruct (wrap_u32 (src_size st - src_off st) =? 0); reflexivity.
Qed.

Lemma set_status_id (m : machine) : set_status m (status m) = m.
Proof. destruct m. reflexivity. Qed.

(** What [handle_cqe] does to the completion at the head of the queue of
    a state that satisfies the invariant. *)
Lemma handle_cqe_inv (m : machine) (q : io_uring_cqe) (rest : list io_uring_cqe) :
  Inv m -> cq (io_ring (status m)) = q :: rest ->
  exists c b,
    cqe_user_data q = Z.of_nat c
    /\ block_statuses (status m) !! c = Some b
    /\ busy b
    /\ wrap_s64 (cqe_user_data q) <> -1
    /\ handle_cqe (status m) q
       = if res q <? 0 then Exited EXIT_FAILURE
         else match stage b with
              | BLOCK_IN_WRITE =>
                  Running (prepare_read_request
                             (finish_write_request (status m) c) c)
              | _ => Running (prepare_write_request (status m) c)
              end.
Proof.
  intros H Hcq.
  assert (Hq : q ∈ cq (io_ring (status m))) by (rewrite Hcq; left).
  destruct (inv_cqes _ H q Hq) as (c & b & Hud & Hb & Hst).
  destruct (inv_cell_bound _ _ _ H Hb) as [Hwrap _].
  exists c, b. split; [exact Hud|]. split; [exact Hb|].
  split; [unfold busy; destruct (stage b); [contradiction|discriminate..]|].
  rewrite Hud, Hwrap. split; [lia|].
  unfold IoUring.handle_cqe. rewrite Hud, Hwrap.
  destruct (Z.of_nat c =? -1) eqn:E1; [lia|].
  destruct (Z.of_nat c <? 0) eqn:E2; [lia|].
  rewrite Nat2Z.id, Hb.
  destruct (stage b); [contradiction| |]; destruct (res q <? 0); reflexivity.
Qed.

Lemma inv_step (m m' : machine) : Inv m -> step m m' -> Inv m'.
Proof.
  intros H Hstep. destruct Hstep as [m|m a m' Hk|m q rest st' Hcq Hhandle].
  - apply inv_submit. exact H.
  - eapply inv_kernel_step; eassumption.
  - destruct (handle_cqe_inv m q rest H Hcq)
      as (c & b & Hud & Hb & Hbusy & _ & Heq).
    rewrite Heq in Hhandle.
    destruct (res q <? 0) eqn:Hres; [discriminate|].
    destruct (stage b) eqn:Hst.
    + exfalso. apply Hbusy. exact Hst.
    + injection Hhandle as <-.
      apply (inv_reap_read m q rest c b); try assumption. lia.
    + injection Hhandle as <-. rewrite cqe_seen_prepare_read.
      assert (Hret : Inv (set_status m (io_uring_cqe_seen
                                          (finish_write_request (status m) c)))).
      { apply (inv_reap_write m q rest c b); try assumption. lia. }
      apply (inv_prepare_read _ c
               {| stage := BLOCK_IDLE; offset := offset b; size := size b |})
        in Hret; [exact Hret| |reflexivity].
      cbn. rewrite (list_lookup_total_correct _ _ _ Hb).
      apply list_lookup_insert_eq. eapply lookup_lt_Some. exact Hb.
Qed.

Lemma inv_steps (m m' : machine) : Inv m -> rtc step m m' -> Inv m'.
Proof.
  intros H Hsteps. induction Hsteps as [|m1 m2 m3 Hstep _ IH]; [exact H|].
  apply IH. eapply inv_step; eassumption.
Qed.

(** The cursor never moves back. *)
Lemma step_cursor_mono (m m' : machine) :
  Inv m -> step m m' -> src_off (status m) <= src_off (status m').
Proof.
  intros H Hstep. pose proof (inv_step _ _ H Hstep) as H'.
  destruct Hstep as [m|m a m' Hk|m q rest st' Hcq Hhandle].
  - reflexivity.
  - destruct (kernel_step_keeps _ _ _ Hk) as (_ & Heq & _). lia.
  - destruct (handle_cqe_inv m q rest H Hcq)
      as (c & b & Hud & Hb & Hbusy & _ & Heq).
    rewrite Heq in Hhandle.
    destruct (res q <? 0) eqn:Hres; [discriminate|].
    pose proof (inv_off _ H) as Hoff. pose proof (inv_size _ H) as Hsz.
    assert (Hwrite : src_off (prepare_write_request (status m) c)
                     = src_off (status m)) by reflexivity.
    destruct (stage b); injection Hhandle as <-; cbn [set_status status];
      [cbn; lia | cbn; lia |].
    rewrite cqe_seen_prepare_read.
    set (st1 := io_uring_cqe_seen (finish_write_request (status m) c)).
    assert (Hoff1 : src_off st1 = src_off (status m)) by reflexivity.
    assert (Hsz1 : src_size st1 = src_size (status m)) by reflexivity.
    destruct (decide (wrap_u32 (src_size st1 - src_off st1) = 0)) as [Hz|Hnz].
    + rewrite prepare_read_request_idle by exact Hz. lia.
    + rewrite prepare_read_request_busy by exact Hnz. cbn [src_off size].
      rewrite Hoff1, Hsz1, Hsz.
      rewrite (wrap_u32_small (S - src_off (status m))) by lia.
      rewrite wrap_s64_small; lia.
Qed.

(** *** The state the loop is entered with *)

Lemma prepare_read_request_other (st : CopyStatus) (k c : nat) :
  c <> k ->
  block_statuses (prepare_read_request st k) !! c = block_statuses st !! c.
Proof.
  intros Hne. unfold IoUring.prepare_read_request.
  destruct (wrap_u32 (src_size st - src_off st) =? 0); [reflexivity|].
  cbn [block_statuses]. apply list_lookup_insert_ne. congruence.
Qed.

Lemma inv_init (src_fd0 dst_fd0 : Z) (src : file) (mem : list (list byte)) :
  Z.of_nat (length src) = S ->
  Inv {| status := init_copying_status QUEUE_SIZE S src_fd0 dst_fd0;
         submitted := [];
         rd_fd := src_fd0;
         wr_fd := dst_fd0;
         src_file := src;
         dst_file := allocated S;
         buffers := mem |}.
Proof.
  intros Hsrc.
  assert (Hidle : forall c b,
             replicate QUEUE_SIZE (mkBlockStatus BLOCK_IDLE 0 0) !! c = Some b ->
             ~ busy b).
  { intros c b Hb Hbusy. apply lookup_replicate in Hb. destruct Hb as [-> _].
    apply Hbusy. reflexivity. }
  constructor; cbn.
  - reflexivity.
  - lia.
  - apply length_replicate.
  - exact Hsrc.
  - unfold allocated. rewrite length_replicate. lia.
  - rewrite in_flight_replicate_idle. reflexivity.
  - intros c b Hb Hbusy. exfalso. eapply Hidle; eassumption.
  - intros c c' b b' Hb _ _ Hbusy _. exfalso. eapply Hidle; eassumption.
  - intros i Hi. lia.
  - intros e He. inversion He.
  - intros q Hq. inversion Hq.
  - constructor.
Qed.

Lemma inv_start_reads (n k : nat) (m : machine) :
  Inv m ->
  (forall c, (k <= c < k + n)%nat ->
     exists b, block_statuses (status m) !! c = Some b /\ stage b = BLOCK_IDLE) ->
  Inv (set_status m (foldl prepare_read_request (status m) (seq k n))).
Proof.
  revert k m. induction n as [|n IH]; intros k m H Hidle.
  - cbn. rewrite set_status_id. exact H.
  - cbn [seq foldl].
    destruct (Hidle k ltac:(lia)) as (b & Hb & Hst).
    pose proof (inv_prepare_read m k b H Hb Hst) as H1.
    apply (IH (Datatypes.S k)) in H1; [exact H1|].
    intros c Hc. cbn [status set_status].
    rewrite prepare_read_request_other by lia. apply Hidle. lia.
Qed.

Lemma inv_boot (src_fd0 dst_fd0 : Z) (src : file) (mem : list (list byte)) :
  Z.of_nat (length src) = S ->
  Inv (boot READ_BLOCK_SIZE QUEUE_SIZE src_fd0 dst_fd0 src S mem).
Proof.
  intros Hsrc.
  pose proof (inv_init src_fd0 dst_fd0 src mem Hsrc) as H.
  apply (inv_start_reads QUEUE_SIZE 0) in H; [exact H|].
  intros c Hc. cbn. exists (mkBlockStatus BLOCK_IDLE 0 0). split; [|reflexivity].
  apply lookup_replicate. split; [reflexivity|lia].
Qed.

(** *** The loop of [main] runs by steps *)

Lemma kernel_run_steps (acts : list kernel_action) (m m' : machine) :
  kernel_run m acts = Some m' -> rtc step m m'.
Proof.
  revert m. induction acts as [|a acts IH]; intros m Hrun; cbn in Hrun.
  - injection Hrun as <-. constructor.
  - destruct (kernel_step m a) as [m1|] eqn:Hk; [|discriminate].
    eapply rtc_l; [eapply step_kernel; exact Hk|]. apply IH. exact Hrun.
Qed.

Lemma handle_cqe_cq (st st' : CopyStatus) (q : io_uring_cqe) :
  handle_cqe st q = Running st' -> cq (io_ring st') = cq (io_ring st).
Proof.
  unfold IoUring.handle_cqe.
  destruct (_ =? -1); [intros [= <-]; reflexivity|].
  destruct (_ <? 0); [discriminate|].
  destruct (block_statuses st !! _) as [b|]; [|discriminate].
  destruct (stage b).
  - intros [= <-]. reflexivity.
  - destruct (res q <? 0); [discriminate|]. intros [= <-]. reflexivity.
  - destruct (res q <? 0); [discriminate|]. intros [= <-].
    unfold IoUring.prepare_read_request.
    destruct (_ =? 0); reflexivity.
Qed.

Lemma reap_cqes_steps (cqes : list io_uring_cqe) (m : machine) (st' : CopyStatus) :
  cq (io_ring (status m)) = cqes ->
  reap_cqes READ_BLOCK_SIZE cqes (status m) = Running st' ->
  rtc step m (set_status m st').
Proof.
  revert m. induction cqes as [|q rest IH]; intros m Hcq Hreap; cbn in Hreap.
  - injection Hreap as <-. rewrite set_status_id. constructor.
  - destruct (handle_cqe (status m) q) as [st1| |] eqn:Hh; try discriminate.
    assert (Hstep : step m (set_status m (io_uring_cqe_seen st1)))
      by (eapply step_reap; eassumption).
    destruct (wrap_s64 (cqe_user_data q) =? -1).
    + injection Hreap as <-. apply rtc_once. exact Hstep.
    + eapply rtc_l; [exact Hstep|].
      apply (IH (set_status m (io_uring_cqe_seen st1))); [|exact Hreap].
      cbn. rewrite (handle_cqe_cq _ _ _ Hh), Hcq. reflexivity.
Qed.

Lemma main_loop_steps (schedule : list (list kernel_action)) (m m' : machine) :
  main_loop READ_BLOCK_SIZE schedule m = Some (Running m') ->
  rtc step m m' /\ copy_in_progress (status m') = false.
Proof.
  revert m. induction schedule as [|acts schedule IH]; intros m Hloop;
    cbn [main_loop] in Hloop;
    destruct (copy_in_progress (status m)) eqn:Hprog;
    try discriminate; try (injection Hloop as <-; split; [constructor|exact Hprog]).
  destruct (kernel_run (io_uring_submit m) acts) as [m1|] eqn:Hk; [|discriminate].
  destruct (cq (io_ring (status m1))) as [|q rest] eqn:Hcq; [discriminate|].
  destruct (reap_cqes READ_BLOCK_SIZE (q :: rest) (status m1)) as [st| |] eqn:Hr;
    try discriminate.
  destruct (IH _ Hloop) as [Hsteps Hdone]. split; [|exact Hdone].
  eapply rtc_l; [apply step_submit|].
  etrans; [eapply kernel_run_steps; exact Hk|].
  etrans; [apply (reap_cqes_steps _ _ _ Hcq Hr)|]. exact Hsteps.
Qed.

(** *** The destination at the end of a run *)

Lemma finished_all_copied (m : machine) :
  Inv m -> copy_in_progress (status m) = false ->
  src_off (status m) = S
  /\ forall i : nat, Z.of_nat i < S -> dst_file m !! i = src_file m !! i.
Proof.
  intros H Hdone. unfold copy_in_progress in Hdone.
  apply orb_false_elim in Hdone. destruct Hdone as [Hoff Hnum].
  apply negb_false_iff, Z.eqb_eq in Hoff, Hnum.
  rewrite (inv_size _ H) in Hoff. split; [exact Hoff|].
  rewrite (inv_count _ H) in Hnum.
  intros i Hi. rewrite <- Hoff in Hi.
  destruct (inv_copied _ H i Hi) as [(c & b & Hb & Hbusy & _)|Hsame];
    [|exact Hsame].
  exfalso. apply Hbusy. eapply in_flight_zero; [|exact Hb]. lia.
Qed.

Lemma closed_destination (m : machine) :
  Inv m -> copy_in_progress (status m) = false ->
  close_src_dst_files S (dst_file m) = src_file m.
Proof.
  intros H Hdone. destruct (finished_all_copied m H Hdone) as [_ Hsame].
  pose proof (inv_src _ H) as Hsrc. pose proof (inv_dst _ H) as Hdst.
  unfold close_src_dst_files. rewrite ftruncate_take by lia.
  apply list_eq. intros i.
  destruct (decide (Z.of_nat i < S)) as [Hlt|Hge].
  - rewrite lookup_take_lt by lia. apply Hsame. exact Hlt.
  - rewrite lookup_take_ge by lia. symmetry. apply lookup_ge_None. lia.
Qed.

(** *** A run can always be brought to its end

    What keeps the loop going: every busy cell has an operation under
    way, the entries name the descriptor of the right file, every cell
    has a buffer of a whole block ([Live]), and some cell is busy while
    bytes remain ([fed]). *)

Definition weight_of (st : BlockStage) : Z :=
  match st with
  | BLOCK_IDLE => 0
  | BLOCK_IN_READ => 2
  | BLOCK_IN_WRITE => 1
  end.

Definition pending_work (blocks : list BlockStatus) : Z :=
  foldr (fun b acc => weight_of (stage b) + acc) 0 blocks.

#[local] Arguments pending_work : simpl never.

(** The work left: twice the bytes not yet handed out, and for every busy
    cell the transfers it still has to see finished. *)
Definition work_left (m : machine) : Z :=
  2 * (S - src_off (status m)) + pending_work (block_statuses (status m)).

Record Live (m : machine) : Prop := {
  live_src_fd : src_fd (status m) = rd_fd m;
  live_dst_fd : dst_fd (status m) = wr_fd m;
  live_sqe_fd :
    forall e, e ∈ submitted m ++ sq (io_ring (status m)) ->
      fd e = match opcode e with
             | IORING_OP_READ_FIXED => rd_fd m
             | IORING_OP_WRITE_FIXED => wr_fd m
             end;
  live_bufs :
    forall c, (c < QUEUE_SIZE)%nat ->
      exists buf, buffers m !! c = Some buf
                  /\ READ_BLOCK_SIZE <= Z.of_nat (length buf);
  live_token :
    forall c b, block_statuses (status m) !! c = Some b -> busy b ->
      Z.of_nat c ∈ tokens (submitted m) (sq (io_ring (status m)))
                          (cq (io_ring (status m)))
}.

Definition fed (m : machine) : Prop :=
  src_off (status m) < S -> (0 < in_flight (block_statuses (status m)))%nat.

Lemma pending_work_insert (blocks : list BlockStatus) (c : nat)
    (old new : BlockStatus) :
  blocks !! c = Some old ->
  pending_work (<[c := new]> blocks) + weight_of (stage old)
  = pending_work blocks + weight_of (stage new).
Proof.
  revert c. induction blocks as [|b blocks IH]; intros c Hold; [done|].
  destruct c as [|c]; cbn in Hold.
  - injection Hold as ->.
    change (<[0%nat := new]> (old :: blocks)) with (new :: blocks).
    unfold pending_work. cbn [foldr]. lia.
  - specialize (IH c Hold).
    change (<[Datatypes.S c := new]> (b :: blocks))
      with (b :: <[c := new]> blocks).
    unfold pending_work in *. cbn [foldr]. lia.
Qed.

Lemma pending_work_nonneg (blocks : list BlockStatus) : 0 <= pending_work blocks.
Proof.
  unfold pending_work.
  induction blocks as [|b blocks IH]; cbn [foldr]; [lia|].
  destruct (stage b); cbn [weight_of]; lia.
Qed.

Lemma in_flight_pos (blocks : list BlockStatus) :
  (0 < in_flight blocks)%nat -> exists c b, blocks !! c = Some b /\ busy b.
Proof.
  unfold in_flight. intros Hpos.
  destruct (filter busy blocks) as [|b rest] eqn:Hf; [cbn in Hpos; lia|].
  assert (Hin : b ∈ filter busy blocks) by (rewrite Hf; left).
  apply list_elem_of_filter in Hin. destruct Hin as [Hbusy Hin].
  apply list_elem_of_lookup_1 in Hin. destruct Hin as [c Hc].
  exists c, b. done.
Qed.

Lemma in_flight_busy (blocks : list BlockStatus) (c : nat) (b : BlockStatus) :
  blocks !! c = Some b -> busy b -> (0 < in_flight blocks)%nat.
Proof.
  intros Hb Hbusy. unfold in_flight.
  assert (Hin : b ∈ filter busy blocks).
  { apply list_elem_of_filter. split; [exact Hbusy|].
    eapply list_elem_of_lookup_2. exact Hb. }
  destruct (filter busy blocks); [inversion Hin|cbn; lia].
Qed.

Lemma tokens_post_cqe (sub sqes : list io_uring_sqe) (cqes : list io_uring_cqe)
    (i : nat) (e : io_uring_sqe) (r : Z) :
  sub !! i = Some e ->
  tokens (delete i sub) sqes (cqes ++ [mkCqe (user_data e) r])
  ≡ₚ tokens sub sqes cqes.
Proof.
  intros Hi. unfold tokens.
  rewrite (delete_Permutation _ _ _ Hi) at 2.
  rewrite !fmap_app, !fmap_cons. cbn [fmap list_fmap cqe_user_data].
  rewrite !app_assoc. rewrite <- Permutation_cons_append.
  rewrite <- !app_assoc. reflexivity.
Qed.

Lemma live_submit (m : machine) : Live m -> Live (io_uring_submit m).
Proof.
  intros H. destruct H. constructor; cbn; try assumption.
  - intros e He. apply live_sqe_fd0. rewrite app_nil_r in He. exact He.
  - intros c b Hb Hbusy. specialize (live_token0 c b Hb Hbusy).
    unfold tokens in *. cbn [fmap list_fmap app]. rewrite fmap_app.
    rewrite <- app_assoc. exact live_token0.
Qed.

Lemma live_kernel_step (m m' : machine) (a : kernel_action) :
  Live m -> kernel_step m a = Some m' -> Live m'.
Proof.
  intros H Hk.
  assert (Hpost : forall m1 i e r,
             status m1 = status m -> submitted m1 = submitted m ->
             rd_fd m1 = rd_fd m -> wr_fd m1 = wr_fd m ->
             (forall c, (c < QUEUE_SIZE)%nat ->
                exists buf, buffers m1 !! c = Some buf
                            /\ READ_BLOCK_SIZE <= Z.of_nat (length buf)) ->
             submitted m !! i = Some e ->
             Live (post_cqe m1 i (mkCqe (user_data e) r))).
  { intros m1 i e r Hst Hsub Hrd Hwr Hbufs Hi.
    destruct H. constructor; cbn; rewrite ?Hst, ?Hsub, ?Hrd, ?Hwr; try assumption.
    - intros e' He'. apply live_sqe_fd0.
      apply elem_of_app in He'. apply elem_of_app.
      destruct He' as [He'|He']; [left|right; exact He'].
      eapply list_elem_of_delete_inv. exact He'.
    - intros c b Hb Hbusy. rewrite (tokens_post_cqe _ _ _ _ _ _ Hi).
      apply (live_token0 c b Hb Hbusy). }
  destruct a as [i|i errno]; cbn in Hk;
    destruct (submitted m !! i) as [e|] eqn:Hi; try discriminate.
  - destruct (perform m e) as [m1 r] eqn:Hp. injection Hk as <-.
    unfold perform in Hp.
    destruct (buffers m !! buf_index e) as [buf|] eqn:Hbuf.
    2:{ injection Hp as <- <-. apply Hpost; try done. apply (live_bufs _ H). }
    destruct (Z.of_nat (length buf) <? len e) eqn:Hfit.
    { injection Hp as <- <-. apply Hpost; try done. apply (live_bufs _ H). }
    destruct (opcode e); destruct (_ =? _); injection Hp as <- <-;
      apply Hpost; try done; try apply (live_bufs _ H).
    cbn. intros c Hc. destruct (live_bufs _ H c Hc) as (buf' & Hbuf' & Hlen').
    destruct (decide (buf_index e = c)) as [<-|Hne].
    + exists (fill_buffer buf (pread (src_file m) (off e) (len e))).
      split; [apply list_lookup_insert_eq; eapply lookup_lt_Some; exact Hbuf|].
      assert (buf' = buf) by congruence. subst buf'.
      unfold fill_buffer. rewrite length_app, length_drop. lia.
    + exists buf'. rewrite list_lookup_insert_ne by exact Hne. done.
  - destruct (0 <? errno); [|discriminate]. injection Hk as <-.
    apply Hpost; try done. apply (live_bufs _ H).
Qed.

Lemma token_kept (sub sqes extra : list io_uring_sqe) (q : io_uring_cqe)
    (rest : list io_uring_cqe) (x : Z) :
  x ∈ tokens sub sqes (q :: rest) -> x <> cqe_user_data q ->
  x ∈ tokens sub (sqes ++ extra) rest.
Proof.
  unfold tokens. rewrite fmap_cons, fmap_app, !elem_of_app, elem_of_cons.
  intros [H|[H|[H|H]]] Hne; tauto.
Qed.

Lemma token_new (sub sqes : list io_uring_sqe) (e : io_uring_sqe)
    (rest : list io_uring_cqe) :
  user_data e ∈ tokens sub (sqes ++ [e]) rest.
Proof.
  unfold tokens. rewrite fmap_app, !elem_of_app. right. left. right.
  cbn. left.
Qed.

(** Handling a read completion keeps the run going and uses up one unit
    of work. *)
Lemma live_reap_read (m : machine) (q : io_uring_cqe) (rest : list io_uring_cqe)
    (c : nat) (b : BlockStatus) :
  Inv m -> Live m -> cq (io_ring (status m)) = q :: rest ->
  cqe_user_data q = Z.of_nat c ->
  block_statuses (status m) !! c = Some b ->
  stage b = BLOCK_IN_READ ->
  let m' := set_status m (io_uring_cqe_seen (prepare_write_request (status m) c)) in
  Live m' /\ fed m' /\ work_left m' = work_left m - 1.
Proof.
  intros H HL Hcq Hud Hb Hst m'.
  pose proof (lookup_lt_Some _ _ _ Hb) as Hlt.
  subst m'. unfold IoUring.prepare_write_request.
  rewrite (list_lookup_total_correct _ _ _ Hb).
  set (b' := {| stage := BLOCK_IN_WRITE; offset := offset b; size := size b |}).
  assert (Hbusy' : busy b') by (unfold busy; discriminate).
  split; [|split].
  - destruct HL. constructor; cbn.
    + assumption.
    + assumption.
    + intros e He. rewrite app_assoc in He. apply elem_of_app in He.
      destruct He as [He|He]; [apply live_sqe_fd0; exact He|].
      apply list_elem_of_singleton in He. subst e. cbn. assumption.
    + assumption.
    + intros c1 b1 Hb1 Hbusy1. rewrite Hcq. cbn [tail].
      destruct (decide (c = c1)) as [<-|Hne].
      * apply (token_new _ _ {| user_data := Z.of_nat c |}).
      * rewrite list_lookup_insert_ne in Hb1 by exact Hne.
        apply (token_kept _ _ _ q); [|rewrite Hud; lia].
        rewrite <- Hcq. apply (live_token0 c1 b1 Hb1 Hbusy1).
  - intros _. cbn. apply (in_flight_busy _ c b'); [|exact Hbusy'].
    apply list_lookup_insert_eq. exact Hlt.
  - unfold work_left. cbn.
    pose proof (pending_work_insert _ c b b' Hb) as Hw.
    rewrite Hst in Hw. cbn [stage b' weight_of] in Hw. lia.
Qed.

(** Handling a write completion keeps the run going and uses up at least
    one unit of work. *)
Lemma live_reap_write (m : machine) (q : io_uring_cqe) (rest : list io_uring_cqe)
    (c : nat) (b : BlockStatus) :
  Inv m -> Live m -> cq (io_ring (status m)) = q :: rest ->
  cqe_user_data q = Z.of_nat c ->
  block_statuses (status m) !! c = Some b ->
  stage b = BLOCK_IN_WRITE ->
  let m' := set_status m (io_uring_cqe_seen
                            (prepare_read_request
                               (finish_write_request (status m) c) c)) in
  Live m' /\ fed m' /\ work_left m' <= work_left m - 1.
Proof.
  intros H HL Hcq Hud Hb Hst m'.
  pose proof (lookup_lt_Some _ _ _ Hb) as Hlt.
  pose proof (inv_off _ H) as Hoff. pose proof (inv_size _ H) as Hsz.
  set (st1 := finish_write_request (status m) c) in *.
  set (b1 := {| stage := BLOCK_IDLE; offset := offset b; size := size b |}).
  assert (Hbs1 : block_statuses st1 = <[c := b1]> (block_statuses (status m))).
  { subst st1. unfold IoUring.finish_write_request. cbn [block_statuses].
    rewrite (list_lookup_total_correct _ _ _ Hb). reflexivity. }
  assert (Hoff1 : src_off st1 = src_off (status m)) by reflexivity.
  assert (Hsz1 : src_size st1 = src_size (status m)) by reflexivity.
  assert (Hsfd1 : src_fd st1 = src_fd (status m)) by reflexivity.
  assert (Hdfd1 : dst_fd st1 = dst_fd (status m)) by reflexivity.
  assert (Hring1 : io_ring st1 = io_ring (status m)) by reflexivity.
  clearbody st1.
  assert (Hw1 : pending_work (block_statuses st1)
                = pending_work (block_statuses (status m)) - 1).
  { rewrite Hbs1. pose proof (pending_work_insert _ c b b1 Hb) as Hw.
    rewrite Hst in Hw. cbn [stage b1 weight_of] in Hw. lia. }
  assert (Hb1 : block_statuses st1 !! c = Some b1)
    by (rewrite Hbs1; apply list_lookup_insert_eq; exact Hlt).
  assert (Hother : forall c2 b2, c <> c2 ->
             block_statuses st1 !! c2 = Some b2 -> busy b2 ->
             forall extra,
               Z.of_nat c2 ∈ tokens (submitted m)
                                    (sq (io_ring (status m)) ++ extra) rest).
  { intros c2 b2 Hne Hb2 Hbusy2 extra.
    rewrite Hbs1, list_lookup_insert_ne in Hb2 by exact Hne.
    apply (token_kept _ _ _ q); [|rewrite Hud; lia].
    rewrite <- Hcq. apply (live_token _ HL c2 b2 Hb2 Hbusy2). }
  assert (Hleft : wrap_u32 (src_size st1 - src_off st1) = S - src_off (status m)).
  { rewrite Hsz1, Hoff1, Hsz. apply wrap_u32_small. lia. }
  subst m'.
  destruct (decide (S - src_off (status m) = 0)) as [Hend|Hmore].
  - rewrite prepare_read_request_idle by (rewrite Hleft; exact Hend).
    split; [|split].
    + destruct HL. constructor; cbn;
        rewrite ?Hoff1, ?Hsz1, ?Hsfd1, ?Hdfd1, ?Hring1.
      * assumption.
      * assumption.
      * assumption.
      * assumption.
      * intros c2 b2 Hb2 Hbusy2. rewrite Hcq. cbn [tail].
        destruct (decide (c = c2)) as [<-|Hne].
        { rewrite Hb1 in Hb2. injection Hb2 as <-.
          exfalso. apply Hbusy2. reflexivity. }
        rewrite <- (app_nil_r (sq (io_ring (status m)))).
        apply (Hother c2 b2 Hne Hb2 Hbusy2).
    + intros Hlt'. cbn in Hlt'. rewrite Hoff1 in Hlt'. lia.
    + unfold work_left. cbn. rewrite Hw1, Hoff1. lia.
  - rewrite prepare_read_request_busy by (rewrite Hleft; exact Hmore).
    rewrite Hleft.
    set (b2 := {| stage := BLOCK_IN_READ; offset := src_off st1;
                  size := Z.min READ_BLOCK_SIZE (S - src_off (status m)) |}).
    assert (Hbusy2 : busy b2) by (unfold busy; discriminate).
    assert (Hlt1 : (c < length (block_statuses st1))%nat)
      by (eapply lookup_lt_Some; exact Hb1).
    split; [|split].
    + destruct HL. constructor; cbn;
        rewrite ?Hoff1, ?Hsz1, ?Hsfd1, ?Hdfd1, ?Hring1.
      * assumption.
      * assumption.
      * intros e He. rewrite app_assoc in He. apply elem_of_app in He.
        destruct He as [He|He]; [apply live_sqe_fd0; exact He|].
        apply list_elem_of_singleton in He. subst e. cbn. assumption.
      * assumption.
      * intros c3 b3 Hb3 Hbusy3. rewrite Hcq. cbn [tail].
        destruct (decide (c = c3)) as [<-|Hne].
        { apply (token_new _ _ {| user_data := Z.of_nat c |}). }
        rewrite list_lookup_insert_ne in Hb3 by exact Hne.
        apply (Hother c3 b3 Hne Hb3 Hbusy3).
    + intros _. cbn. apply (in_flight_busy _ c b2); [|exact Hbusy2].
      apply list_lookup_insert_eq. exact Hlt1.
    + unfold work_left. cbn [status set_status io_uring_cqe_seen src_off
                             block_statuses size b2].
      pose proof (pending_work_insert _ c b1 b2 Hb1) as Hw.
      cbn [stage b1 b2 weight_of] in Hw.
      rewrite Hoff1, wrap_s64_small by lia. lia.
Qed.

Lemma perform_keeps (m m1 : machine) (e : io_uring_sqe) (r : Z) :
  perform m e = (m1, r) ->
  status m1 = status m /\ submitted m1 = submitted m.
Proof.
  unfold perform. intros Hp.
  destruct (buffers m !! buf_index e); [|injection Hp as <- _; done].
  destruct (_ <? _); [injection Hp as <- _; done|].
  destruct (opcode e); destruct (_ =? _); injection Hp as <- _; done.
Qed.

(** With the buffers in place and the descriptors right, the kernel can
    carry out every accepted entry. *)
Lemma perform_ok (m : machine) (e : io_uring_sqe) :
  Inv m -> Live m -> e ∈ submitted m ++ sq (io_ring (status m)) ->
  exists m1 r, perform m e = (m1, r) /\ 0 <= r.
Proof.
  intros H HL He.
  destruct (inv_sqes _ H e He) as (b & Hb & _ & Hlen & _).
  apply lookup_lt_Some in Hb. rewrite (inv_cells _ H) in Hb.
  destruct (live_bufs _ HL _ Hb) as (buf & Hbuf & Hfit).
  pose proof (live_sqe_fd _ HL e He) as Hfd.
  unfold perform. rewrite Hbuf.
  destruct (Z.of_nat (length buf) <? len e) eqn:E; [lia|].
  destruct (opcode e); rewrite Hfd, Z.eqb_refl; eexists _, _;
    (split; [reflexivity|lia]).
Qed.

(** One round of the loop in which the kernel finishes the oldest
    accepted entry. *)
Lemma round_progress (m : machine) :
  Inv m -> Live m -> fed m ->
  cq (io_ring (status m)) = [] ->
  copy_in_progress (status m) = true ->
  exists m',
    (forall schedule,
        main_loop READ_BLOCK_SIZE ([Complete 0] :: schedule) m
        = main_loop READ_BLOCK_SIZE schedule m')
    /\ Inv m' /\ Live m' /\ fed m'
    /\ cq (io_ring (status m')) = []
    /\ work_left m' < work_left m.
Proof.
  intros H HL Hfed Hcq Hprog.
  pose proof (inv_submit m H) as H1. pose proof (live_submit m HL) as HL1.
  set (m1 := io_uring_submit m) in *.
  assert (Hcq1 : cq (io_ring (status m1)) = []) by exact Hcq.
  assert (Hwork1 : work_left m1 = work_left m) by reflexivity.
  (* something is under way *)
  assert (Hsome : (0 < in_flight (block_statuses (status m)))%nat).
  { unfold copy_in_progress in Hprog. apply orb_true_iff in Hprog.
    destruct Hprog as [Hne|Hne]; apply negb_true_iff, Z.eqb_neq in Hne.
    - apply Hfed. pose proof (inv_off _ H). pose proof (inv_size _ H). lia.
    - rewrite (inv_count _ H) in Hne. lia. }
  destruct (in_flight_pos _ Hsome) as (c0 & b0 & Hb0 & Hbusy0).
  pose proof (live_token _ HL1 c0 b0 Hb0 Hbusy0) as Htok.
  destruct (submitted m1) as [|e sub] eqn:Hsub.
  { exfalso. unfold tokens in Htok. rewrite Hcq1 in Htok.
    replace (sq (io_ring (status m1))) with (@nil io_uring_sqe) in Htok
      by reflexivity.
    cbn in Htok. inversion Htok. }
  assert (Hi : submitted m1 !! 0%nat = Some e) by (rewrite Hsub; reflexivity).
  assert (He : e ∈ submitted m1 ++ sq (io_ring (status m1))).
  { apply elem_of_app. left. rewrite Hsub. left. }
  destruct (perform_ok m1 e H1 HL1 He) as (m1' & r & Hp & Hr).
  destruct (perform_keeps _ _ _ _ Hp) as [Hst1' Hsub1'].
  set (q := mkCqe (user_data e) r).
  set (m2 := post_cqe m1' 0 q).
  assert (Hk : kernel_step m1 (Complete 0) = Some m2).
  { cbn [kernel_step]. rewrite Hi, Hp. reflexivity. }
  pose proof (inv_kernel_step _ _ _ H1 Hk) as H2.
  pose proof (live_kernel_step _ _ _ HL1 Hk) as HL2.
  assert (Hcq2 : cq (io_ring (status m2)) = [q]).
  { subst m2. cbn. rewrite Hst1', Hcq1. reflexivity. }
  assert (Hwork2 : work_left m2 = work_left m).
  { rewrite <- Hwork1. unfold work_left.
    destruct (kernel_step_keeps _ _ _ Hk) as (_ & -> & _ & _ & ->). reflexivity. }
  destruct (handle_cqe_inv m2 q [] H2 Hcq2)
    as (c & b & Hud & Hb & Hbusy & Hnot & Hh).
  replace (res q <? 0) with false in Hh by (symmetry; apply Z.ltb_ge; exact Hr).
  assert (Hround : forall st',
             handle_cqe (status m2) q = Running st' ->
             forall schedule,
               main_loop READ_BLOCK_SIZE ([Complete 0] :: schedule) m
               = main_loop READ_BLOCK_SIZE schedule
                   (set_status m2 (io_uring_cqe_seen st'))).
  { intros st' Hst' schedule. cbn [main_loop]. rewrite Hprog.
    fold m1. cbn [kernel_run]. rewrite Hk, Hcq2.
    cbn [reap_cqes]. rewrite Hst'.
    destruct (wrap_s64 (cqe_user_data q) =? -1) eqn:E;
      [apply Z.eqb_eq in E; contradiction|].
    reflexivity. }
  assert (Hdone : forall st',
             handle_cqe (status m2) q = Running st' ->
             Inv (set_status m2 (io_uring_cqe_seen st'))
             /\ cq (io_ring (status (set_status m2 (io_uring_cqe_seen st')))) = []).
  { intros st' Hst'. split.
    - eapply inv_step; [exact H2|]. eapply step_reap; eassumption.
    - cbn. rewrite (handle_cqe_cq _ _ _ Hst'), Hcq2. reflexivity. }
  destruct (stage b) eqn:Hstage.
  - exfalso. apply Hbusy. exact Hstage.
  - destruct (live_reap_read m2 q [] c b H2 HL2 Hcq2 Hud Hb Hstage)
      as (HL' & Hfed' & Hwork').
    destruct (Hdone _ Hh) as [H' Hcq'].
    eexists. split; [apply (Hround _ Hh)|].
    split; [exact H'|]. split; [exact HL'|]. split; [exact Hfed'|].
    split; [exact Hcq'|]. lia.
  - destruct (live_reap_write m2 q [] c b H2 HL2 Hcq2 Hud Hb Hstage)
      as (HL' & Hfed' & Hwork').
    destruct (Hdone _ Hh) as [H' Hcq'].
    eexists. split; [apply (Hround _ Hh)|].
    split; [exact H'|]. split; [exact HL'|]. split; [exact Hfed'|].
    split; [exact Hcq'|]. lia.
Qed.

Lemma work_left_nonneg (m : machine) : Inv m -> 0 <= work_left m.
Proof.
  intros H. unfold work_left. pose proof (inv_off _ H).
  pose proof (pending_work_nonneg (block_statuses (status m))). lia.
Qed.

(** Rounds of that kind bring the loop to its end. *)
Lemma run_completes (n : nat) (m : machine) :
  Inv m -> Live m -> fed m ->
  cq (io_ring (status m)) = [] ->
  work_left m <= Z.of_nat n ->
  exists k m',
    main_loop READ_BLOCK_SIZE (replicate k [Complete 0]) m = Some (Running m').
Proof.
  revert m. induction n as [|n IH]; intros m H HL Hfed Hcq Hwork;
    destruct (copy_in_progress (status m)) eqn:Hprog.
  - destruct (round_progress m H HL Hfed Hcq Hprog)
      as (m' & _ & H' & _ & _ & _ & Hless).
    pose proof (work_left_nonneg m' H'). lia.
  - exists 0%nat, m. cbn. rewrite Hprog. reflexivity.
  - destruct (round_progress m H HL Hfed Hcq Hprog)
      as (m' & Hround & H' & HL' & Hfed' & Hcq' & Hless).
    destruct (IH m' H' HL' Hfed' Hcq' ltac:(lia)) as (k & m'' & Hrun).
    exists (Datatypes.S k), m''. cbn [replicate]. rewrite Hround. exact Hrun.
  - exists 0%nat, m. cbn. rewrite Hprog. reflexivity.
Qed.

(** The state the loop is entered with keeps the run going. *)

Lemma token_more (sub sqes extra : list io_uring_sqe)
    (cqes : list io_uring_cqe) (x : Z) :
  x ∈ tokens sub sqes cqes -> x ∈ tokens sub (sqes ++ extra) cqes.
Proof.
  unfold tokens. rewrite fmap_app, !elem_of_app. tauto.
Qed.

Lemma live_prepare_read (m : machine) (c : nat) (b : BlockStatus) :
  Inv m -> Live m ->
  block_statuses (status m) !! c = Some b ->
  stage b = BLOCK_IDLE ->
  Live (set_status m (prepare_read_request (status m) c)).
Proof.
  intros H HL Hb Hst.
  pose proof (inv_off _ H) as Hoff. pose proof (inv_size _ H) as Hsz.
  pose proof (lookup_lt_Some _ _ _ Hb) as Hlt.
  assert (Hleft : wrap_u32 (src_size (status m) - src_off (status m))
                  = S - src_off (status m)).
  { rewrite Hsz. apply wrap_u32_small. lia. }
  destruct (decide (S - src_off (status m) = 0)) as [Hend|Hmore].
  { rewrite prepare_read_request_idle by (rewrite Hleft; exact Hend).
    rewrite set_status_id. exact HL. }
  rewrite prepare_read_request_busy by (rewrite Hleft; exact Hmore).
  destruct HL. constructor; cbn.
  - assumption.
  - assumption.
  - intros e He. rewrite app_assoc in He. apply elem_of_app in He.
    destruct He as [He|He]; [apply live_sqe_fd0; exact He|].
    apply list_elem_of_singleton in He. subst e. cbn. assumption.
  - assumption.
  - intros c1 b1 Hb1 Hbusy1. destruct (decide (c = c1)) as [<-|Hne].
    + apply (token_new _ _ {| user_data := Z.of_nat c |}).
    + rewrite list_lookup_insert_ne in Hb1 by exact Hne.
      apply token_more. apply (live_token0 c1 b1 Hb1 Hbusy1).
Qed.

Lemma ready_start_reads (n k : nat) (m : machine) :
  Inv m -> Live m ->
  (forall c, (k <= c < k + n)%nat ->
     exists b, block_statuses (status m) !! c = Some b /\ stage b = BLOCK_IDLE) ->
  Live (set_status m (foldl prepare_read_request (status m) (seq k n))).
Proof.
  revert k m. induction n as [|n IH]; intros k m H HL Hidle.
  - cbn. rewrite set_status_id. exact HL.
  - cbn [seq foldl].
    destruct (Hidle k ltac:(lia)) as (b & Hb & Hst).
    pose proof (inv_prepare_read m k b H Hb Hst) as H1.
    pose proof (live_prepare_read m k b H HL Hb Hst) as HL1.
    apply (IH (Datatypes.S k) _ H1) in HL1; [exact HL1|].
    intros c Hc. cbn [status set_status].
    rewrite prepare_read_request_other by lia. apply Hidle. lia.
Qed.

Lemma start_reads_keeps (cells : list nat) (st : CopyStatus) (c : nat) :
  c ∉ cells ->
  block_statuses (foldl prepare_read_request st cells) !! c
  = block_statuses st !! c.
Proof.
  revert st. induction cells as [|k cells IH]; intros st Hc; [reflexivity|].
  apply not_elem_of_cons in Hc. destruct Hc as [Hne Hc].
  cbn [foldl]. rewrite IH by exact Hc.
  apply prepare_read_request_other. exact Hne.
Qed.

Lemma start_reads_cq (cells : list nat) (st : CopyStatus) :
  cq (io_ring (foldl prepare_read_request st cells)) = cq (io_ring st).
Proof.
  revert st. induction cells as [|k cells IH]; intros st; [reflexivity|].
  cbn [foldl]. rewrite IH. unfold IoUring.prepare_read_request.
  destruct (_ =? 0); reflexivity.
Qed.

Lemma boot_ready (src_fd0 dst_fd0 : Z) (src : file) (mem : list (list byte)) :
  (0 < QUEUE_SIZE)%nat ->
  Z.of_nat (length src) = S ->
  length mem = QUEUE_SIZE ->
  Forall (fun buf => READ_BLOCK_SIZE <= Z.of_nat (length buf)) mem ->
  let m := boot READ_BLOCK_SIZE QUEUE_SIZE src_fd0 dst_fd0 src S mem in
  Live m /\ fed m /\ cq (io_ring (status m)) = [].
Proof.
  intros HN Hsrc Hmem Hbufs m.
  pose proof (inv_init src_fd0 dst_fd0 src mem Hsrc) as H0.
  set (m0 := {| status := init_copying_status QUEUE_SIZE S src_fd0 dst_fd0;
                submitted := []; rd_fd := src_fd0; wr_fd := dst_fd0;
                src_file := src; dst_file := allocated S;
                buffers := mem |}) in *.
  assert (HL0 : Live m0).
  { constructor; cbn; try reflexivity.
    - intros e He. inversion He.
    - intros c Hc. rewrite <- Hmem in Hc.
      destruct (lookup_lt_is_Some_2 _ _ Hc) as [buf Hbuf].
      exists buf. split; [exact Hbuf|].
      apply (Forall_lookup_1 _ _ _ _ Hbufs Hbuf).
    - intros c b Hb Hbusy. apply lookup_replicate in Hb. destruct Hb as [-> _].
      exfalso. apply Hbusy. reflexivity. }
  assert (Hidle : forall c, (0 <= c < 0 + QUEUE_SIZE)%nat ->
             exists b, block_statuses (status m0) !! c = Some b
                       /\ stage b = BLOCK_IDLE).
  { intros c Hc. cbn. exists (mkBlockStatus BLOCK_IDLE 0 0).
    split; [|reflexivity]. apply lookup_replicate. split; [reflexivity|lia]. }
  split; [exact (ready_start_reads QUEUE_SIZE 0 m0 H0 HL0 Hidle)|].
  split; [|apply start_reads_cq].
  pose proof (inv_boot src_fd0 dst_fd0 src mem Hsrc) as Hboot.
  pose proof (inv_off _ Hboot) as Hoff.
  intros Hmore. subst m.
  assert (Hpos : 0 < S) by lia.
  clear Hmore Hoff Hboot. unfold boot, start_reads. cbn [status].
  assert (Hseq : seq 0 QUEUE_SIZE = 0%nat :: seq 1 (QUEUE_SIZE - 1)).
  { replace QUEUE_SIZE with (Datatypes.S (QUEUE_SIZE - 1)) at 1 by lia.
    reflexivity. }
  rewrite Hseq. cbn [foldl].
  set (st0 := init_copying_status QUEUE_SIZE S src_fd0 dst_fd0) in *.
  assert (Hleft : wrap_u32 (src_size st0 - src_off st0) <> 0).
  { subst st0. cbn. rewrite Z.sub_0_r, wrap_u32_small; lia. }
  eapply (in_flight_busy _ 0%nat).
  - rewrite start_reads_keeps.
    + rewrite (prepare_read_request_busy _ st0 0 Hleft). cbn [block_statuses].
      apply list_lookup_insert_eq. subst st0. cbn.
      rewrite length_replicate. lia.
    + intros Hin. apply elem_of_seq in Hin. lia.
  - unfold busy. discriminate.
Qed.

End Invariant.

Lemma steps_keep_source (B : Z) (m1 m2 : machine) :
  rtc (step B) m1 m2 -> src_file m2 = src_file m1.
Proof.
  intros Hrtc. induction Hrtc as [|m1 m2 m3 Hstep _ IH]; [reflexivity|].
  rewrite IH. destruct Hstep as [m1|m1 a m2 Hk|m1 q rest st' _ _];
    [reflexivity| |reflexivity].
  apply (kernel_step_keeps _ _ _ Hk).
Qed.

(** When the loop is left, truncating the destination gives the source. *)
Lemma main_loop_copies (B : Z) (N : nat) (S : Z)
    (schedule : list (list kernel_action)) (m m' : machine) :
  0 < B < 2 ^ 31 -> Z.of_nat N < 2 ^ 16 -> 0 <= S < 2 ^ 32 ->
  Inv B N S m ->
  main_loop B schedule m = Some (Running m') ->
  close_src_dst_files S (dst_file m') = src_file m.
Proof.
  intros HB HN HS Hinv Hloop.
  destruct (main_loop_steps _ _ _ _ Hloop) as [Hsteps Hdone].
  pose proof (inv_steps B N S HB HN HS _ _ Hinv Hsteps) as Hinv'.
  rewrite (closed_destination _ _ _ m' Hinv' Hdone).
  apply (steps_keep_source _ _ _ Hsteps).
Qed.

(** X24.  With a source shorter than 4 GiB and a kernel that carries out in
    full every transfer it does not fail: when the copy runs to its end,
    the destination as [close_src_dst_files] leaves it is the source, byte
    for byte, for every block size below 2 GiB, every number of cells
    below 65536 and every order in which the kernel finishes the
    transfers; a last block shorter than the block size is included.
    This holds of [main] on every schedule, and of every state in which
    the condition of the loop fails that the steps of the driver and of
    the kernel reach, interleaved in any way. *)
Theorem copy_is_exact (READ_BLOCK_SIZE : Z) (QUEUE_SIZE : nat)
    (src_fd0 dst_fd0 : Z) (src : file) (mem : list (list byte)) :
  0 < READ_BLOCK_SIZE < 2 ^ 31 ->
  Z.of_nat QUEUE_SIZE < 2 ^ 16 ->
  Z.of_nat (length src) < 2 ^ 32 ->
  (forall (schedule : list (list kernel_action)) (dst : file),
      main READ_BLOCK_SIZE QUEUE_SIZE src_fd0 dst_fd0 src
           (Z.of_nat (length src)) mem schedule = Some (Running dst) ->
      dst = src)
  /\ (forall m : machine,
         reachable READ_BLOCK_SIZE QUEUE_SIZE src_fd0 dst_fd0 src
                   (Z.of_nat (length src)) mem m ->
         copy_in_progress (status m) = false ->
         close_src_dst_files (Z.of_nat (length src)) (dst_file m) = src).
Proof.
  intros HB HN HS.
  assert (HS' : 0 <= Z.of_nat (length src) < 2 ^ 32) by lia.
  pose proof (inv_boot READ_BLOCK_SIZE QUEUE_SIZE _ HB HN HS'
                src_fd0 dst_fd0 src mem eq_refl) as Hboot.
  split.
  - intros schedule dst Hmain. unfold main in Hmain.
    destruct (open_dst_file _) as [dst0| |]; try discriminate.
    destruct (main_loop _ _ _) as [[m| |]|] eqn:Hloop; try discriminate.
    injection Hmain as <-.
    apply (main_loop_copies READ_BLOCK_SIZE QUEUE_SIZE (Z.of_nat (length src))
             schedule _ m HB HN HS' Hboot Hloop).
  - intros m Hreach Hdone.
    pose proof (inv_steps READ_BLOCK_SIZE QUEUE_SIZE _ HB HN HS' _ _ Hboot Hreach)
      as Hinv.
    rewrite (closed_destination _ _ _ m Hinv Hdone).
    apply (steps_keep_source _ _ _ Hreach).
Qed.

(** With a source that is not empty, at least one cell and a buffer of a
    whole block for each, the copy can always run to its end: a schedule
    exists that ends [main] with the destination equal to the source. *)
Lemma copy_completes (READ_BLOCK_SIZE : Z) (QUEUE_SIZE : nat)
    (src_fd0 dst_fd0 : Z) (src : file) (mem : list (list byte)) :
  0 < READ_BLOCK_SIZE < 2 ^ 31 ->
  (0 < QUEUE_SIZE)%nat ->
  Z.of_nat QUEUE_SIZE < 2 ^ 16 ->
  0 < Z.of_nat (length src) < 2 ^ 32 ->
  length mem = QUEUE_SIZE ->
  Forall (fun buf => READ_BLOCK_SIZE <= Z.of_nat (length buf)) mem ->
  exists schedule,
    main READ_BLOCK_SIZE QUEUE_SIZE src_fd0 dst_fd0 src (Z.of_nat (length src))
         mem schedule = Some (Running src).
Proof.
  intros HB HN0 HN HS Hmem Hbufs.
  assert (HS' : 0 <= Z.of_nat (length src) < 2 ^ 32) by lia.
  pose proof (inv_boot READ_BLOCK_SIZE QUEUE_SIZE _ HB HN HS'
                src_fd0 dst_fd0 src mem eq_refl) as Hinv.
  destruct (boot_ready READ_BLOCK_SIZE QUEUE_SIZE _ HB HN HS'
              src_fd0 dst_fd0 src mem HN0 eq_refl Hmem Hbufs)
    as (Hlive & Hfed & Hcq).
  pose proof (work_left_nonneg _ _ _ _ Hinv) as Hwork.
  destruct (run_completes READ_BLOCK_SIZE QUEUE_SIZE _ HB HN HS'
              (Z.to_nat (work_left (Z.of_nat (length src))
                           (boot READ_BLOCK_SIZE QUEUE_SIZE src_fd0 dst_fd0 src
                                 (Z.of_nat (length src)) mem)))
              _ Hinv Hlive Hfed Hcq ltac:(lia))
    as (k & m' & Hrun).
  exists (replicate k [Complete 0]).
  assert (Hmain : main READ_BLOCK_SIZE QUEUE_SIZE src_fd0 dst_fd0 src
                    (Z.of_nat (length src)) mem (replicate k [Complete 0])
                  = Some (Running (close_src_dst_files (Z.of_nat (length src))
                                     (dst_file m')))).
  { unfold main. rewrite open_dst_file_ok by lia. rewrite Hrun. reflexivity. }
  rewrite Hmain. do 2 f_equal.
  apply (main_loop_copies READ_BLOCK_SIZE QUEUE_SIZE (Z.of_nat (length src))
           _ (boot READ_BLOCK_SIZE QUEUE_SIZE src_fd0 dst_fd0 src
                   (Z.of_nat (length src)) mem)
           m' HB HN HS' Hinv Hrun).
Qed.

Lemma copy_is_exact_witness :
  exists dst,
    main 4 2 3 4 Samples.src10 10 Samples.mem2x4 Samples.schedule10
    = Some (Running dst)
    /\ dst = Samples.src10.
Proof.
  assert (Hrun : exists dst,
             main 4 2 3 4 Samples.src10 (Z.of_nat (length Samples.src10))
                  Samples.mem2x4 Samples.schedule10 = Some (Running dst))
    by (eexists; vm_compute; reflexivity).
  destruct Hrun as [dst Hrun]. exists dst. split; [exact Hrun|].
  apply (proj1 (copy_is_exact 4 2 3 4 Samples.src10 Samples.mem2x4
                  ltac:(lia) ltac:(cbn; lia) ltac:(cbn; lia))
               Samples.schedule10 dst Hrun).
Defined.

End IoUringRun.

(** ** The Linux AIO driver: the invariant of a run *)

Module LinuxAioRun.
Import LinuxAio.

Lemma aligned_next (B a t : Z) :
  0 < B -> (B | a) -> (B | t) -> a < t -> a + B <= t.
Proof.
  intros HB [k ->] [j ->] Hlt.
  assert (k < j) by nia. nia.
Qed.

Lemma round_file_size_exact (B S : Z) :
  0 < B -> 0 <= S -> S + B < 2 ^ 32 ->
  round_file_size B S = B * (S / B + 1).
Proof.
  intros HB HS Hfit. unfold round_file_size.
  pose proof (Z.mod_pos_bound S B HB) as Hmod.
  pose proof (Z.div_mod S B ltac:(lia)) as Hdiv.
  rewrite (wrap_u32_small (S + B)) by lia.
  rewrite wrap_u32_small by lia. lia.
Qed.

Lemma round_file_size_aligned (B S : Z) :
  0 < B -> (B | 2 ^ 32) -> (B | round_file_size B S).
Proof.
  intros HB Hpow. unfold round_file_size, wrap_u32.
  rewrite Zminus_mod_idemp_l.
  assert (Hd : (B | S + B - S mod B)).
  { exists (S / B + 1). pose proof (Z.div_mod S B ltac:(lia)). lia. }
  rewrite (Z.mod_eq _ (2 ^ 32)) by lia.
  apply Z.divide_sub_r; [exact Hd|].
  apply Z.divide_mul_l. exact Hpow.
Qed.

Lemma round_file_size_bounds (B S : Z) : 0 <= round_file_size B S < 2 ^ 32.
Proof. unfold round_file_size, wrap_u32. apply Z.mod_pos_bound. lia. Qed.

Section AioInvariant.

Variable READ_BLOCK_SIZE : Z.
Variable QUEUE_SIZE : nat.
Variables src_fd dst_fd : Z.
Variable T : Z.

Hypothesis block_size_pos : 0 < READ_BLOCK_SIZE.
Hypothesis tracked_aligned : (READ_BLOCK_SIZE | T).
Hypothesis tracked_bounds : 0 <= T < 2 ^ 32.
Hypothesis queue_size_bound : Z.of_nat QUEUE_SIZE < 2 ^ 64.

#[local] Abbreviation aio_step :=
  (LinuxAio.step READ_BLOCK_SIZE QUEUE_SIZE src_fd dst_fd).
#[local] Abbreviation handle_next :=
  (LinuxAio.handle_next READ_BLOCK_SIZE src_fd dst_fd).

Record AioInv (m : machine) : Prop := {
  aio_size : src_size (locals m) = T;
  aio_off : 0 <= src_off (locals m) <= T;
  aio_aligned : (READ_BLOCK_SIZE | src_off (locals m));
  aio_count : num_io_reqs (locals m) = Z.of_nat (length (outstanding m));
  aio_nodup : NoDup (outstanding m);
  aio_range : forall i, i ∈ outstanding m -> (i < QUEUE_SIZE)%nat
}.

Lemma aio_outstanding_le (m : machine) :
  AioInv m -> (length (outstanding m) <= QUEUE_SIZE)%nat.
Proof.
  intros H. transitivity (length (seq 0 QUEUE_SIZE)); [|by rewrite length_seq].
  apply submseteq_length, NoDup_submseteq; [apply (aio_nodup _ H)|].
  intros i Hi. apply elem_of_seq. pose proof (aio_range _ H i Hi). lia.
Qed.

Lemma aio_in_flight_le (m : machine) :
  AioInv m -> 0 <= num_io_reqs (locals m) <= Z.of_nat QUEUE_SIZE.
Proof.
  intros H. rewrite (aio_count _ H). pose proof (aio_outstanding_le m H). lia.
Qed.

Lemma aio_inv_wait (m m' : machine) (evs : list io_event) :
  AioInv m -> events (locals m) = [] ->
  submit_and_get QUEUE_SIZE m evs = Some m' ->
  AioInv m' /\ src_off (locals m') = src_off (locals m).
Proof.
  intros H Hev Hget. unfold submit_and_get in Hget.
  case_bool_decide as Hok; [|discriminate]. injection Hget as <-.
  destruct Hok as (_ & _ & Hnd & Hsub).
  split; [|reflexivity].
  assert (Hout : outstanding m = in_kernel m ++ submit_list (locals m)).
  { unfold outstanding. rewrite Hev. cbn. rewrite app_nil_r. reflexivity. }
  assert (Hperm :
            list_difference (in_kernel m ++ submit_list (locals m)) (obj <$> evs)
            ++ (obj <$> evs)
            ≡ₚ outstanding m).
  { rewrite Hout. apply NoDup_Permutation.
    - apply NoDup_app. split; [|split; [|exact Hnd]].
      + apply NoDup_list_difference. rewrite <- Hout. apply (aio_nodup _ H).
      + intros x Hx. apply list_elem_of_difference in Hx. tauto.
    - rewrite <- Hout. apply (aio_nodup _ H).
    - intros x. rewrite elem_of_app, list_elem_of_difference. split.
      + intros [[Hx _]|Hx]; [exact Hx|apply Hsub; exact Hx].
      + intros Hx. destruct (decide (x ∈ obj <$> evs)); tauto. }
  destruct H. constructor; unfold outstanding; cbn; try assumption.
  - rewrite Hperm. exact aio_count0.
  - rewrite Hperm. exact aio_nodup0.
  - intros i Hi. apply aio_range0. rewrite <- Hperm. exact Hi.
Qed.

Lemma aio_inv_handle (m m' : machine) :
  AioInv m -> handle_next m = Some m' ->
  AioInv m' /\ src_off (locals m) <= src_off (locals m').
Proof.
  intros H Hnext. unfold LinuxAio.handle_next in Hnext.
  destruct (events (locals m)) as [|ev rest] eqn:Hev; [discriminate|].
  pose proof (aio_in_flight_le m H) as Hle.
  pose proof (aio_off _ H) as Hoff. pose proof (aio_size _ H) as Hsz.
  assert (Hout : outstanding m
                 = in_kernel m ++ submit_list (locals m) ++ obj ev :: (obj <$> rest)).
  { unfold outstanding. rewrite Hev. reflexivity. }
  assert (Hpos : (0 < length (outstanding m))%nat).
  { rewrite Hout, !length_app. cbn. lia. }
  assert (Hkeep :
            in_kernel m ++ (submit_list (locals m) ++ [obj ev]) ++ (obj <$> rest)
            ≡ₚ outstanding m).
  { rewrite Hout, <- !app_assoc. reflexivity. }
  assert (Hdrop_len :
            (Datatypes.S (length (in_kernel m ++ submit_list (locals m)
                                  ++ (obj <$> rest)))
             = length (outstanding m))%nat).
  { rewrite Hout, !length_app. cbn. lia. }
  assert (Hdrop_sub : forall i,
             i ∈ in_kernel m ++ submit_list (locals m) ++ (obj <$> rest) ->
             i ∈ outstanding m).
  { intros i. rewrite Hout, !elem_of_app, elem_of_cons. tauto. }
  assert (Hdrop_nd : NoDup (in_kernel m ++ submit_list (locals m) ++ (obj <$> rest))).
  { pose proof (aio_nodup _ H) as Hnd. rewrite Hout in Hnd.
    rewrite app_assoc in Hnd |- *.
    apply NoDup_app in Hnd. destruct Hnd as (Hnd1 & Hdisj & Hnd2).
    apply NoDup_cons in Hnd2. destruct Hnd2 as [_ Hnd2].
    apply NoDup_app. split; [exact Hnd1|]. split; [|exact Hnd2].
    intros x Hx Hx'. apply (Hdisj x Hx). right. exact Hx'. }
  assert (Hretire :
            AioInv {| locals := {| src_size := src_size (locals m);
                                   src_off := src_off (locals m);
                                   num_io_reqs := wrap_u64 (num_io_reqs (locals m) - 1);
                                   iocbs := iocbs (locals m);
                                   submit_list := submit_list (locals m);
                                   events := rest |};
                      in_kernel := in_kernel m |}).
  { destruct H. constructor; unfold outstanding; cbn; try assumption.
    - rewrite aio_count0 in Hle |- *. rewrite wrap_u64_small; lia.
    - intros i Hi. apply aio_range0, Hdrop_sub. exact Hi. }
  unfold LinuxAio.handle_event in Hnext. cbn [iocbs] in Hnext.
  destruct (iocbs (locals m) !! obj ev) as [cb|]; [|discriminate].
  destruct (aio_lio_opcode cb).
  - destruct (negb (wrap_s32 (res ev) =? 0)); injection Hnext as <-;
      (split; [|cbn; lia]); [|exact Hretire].
    destruct H. constructor; unfold outstanding; cbn; try assumption.
    + rewrite Hkeep. exact aio_count0.
    + rewrite Hkeep. exact aio_nodup0.
    + intros i Hi. apply aio_range0. rewrite <- Hkeep. exact Hi.
  - cbn [src_off src_size] in Hnext.
    destruct (negb (wrap_s32 (res ev) =? 0) && (src_off (locals m) <? src_size (locals m)))
      eqn:Hcond; injection Hnext as <-; [|split; [exact Hretire|cbn; lia]].
    apply andb_true_iff in Hcond. destruct Hcond as [_ Hlt].
    apply Z.ltb_lt in Hlt. rewrite Hsz in Hlt.
    pose proof (aligned_next _ _ _ block_size_pos (aio_aligned _ H)
                  tracked_aligned Hlt) as Hnext.
    cbn [locals src_off]. rewrite wrap_s64_small by lia. split; [|lia].
    destruct H. constructor; unfold outstanding; cbn; try assumption.
    + lia.
    + apply Z.divide_add_r; [assumption|apply Z.divide_refl].
    + rewrite Hkeep. exact aio_count0.
    + rewrite Hkeep. exact aio_nodup0.
    + intros i Hi. apply aio_range0. rewrite <- Hkeep. exact Hi.
Qed.

Lemma aio_inv_step (m m' : machine) :
  AioInv m -> aio_step m m' ->
  AioInv m' /\ src_off (locals m) <= src_off (locals m').
Proof.
  intros H Hstep. destruct Hstep as [m evs m' Hev Hnum Hget|m m' Hnext].
  - destruct (aio_inv_wait m m' evs H Hev Hget) as [H' Heq]. split; [exact H'|lia].
  - apply aio_inv_handle; assumption.
Qed.

Lemma aio_inv_steps (m m' : machine) :
  AioInv m -> rtc aio_step m m' ->
  AioInv m' /\ src_off (locals m) <= src_off (locals m').
Proof.
  intros H Hsteps. induction Hsteps as [|m1 m2 m3 Hstep _ IH]; [split; [exact H|lia]|].
  destruct (aio_inv_step _ _ H Hstep) as [H2 Hle].
  destruct (IH H2) as [H3 Hle']. split; [exact H3|lia].
Qed.

(** *** The state the loop is entered with *)

Lemma aio_inv_ready (s : state) (k : nat) :
  src_size s = T -> 0 <= src_off s <= T -> (READ_BLOCK_SIZE | src_off s) ->
  num_io_reqs s = Z.of_nat k -> submit_list s = seq 0 k -> events s = [] ->
  (k <= QUEUE_SIZE)%nat ->
  AioInv {| locals := s; in_kernel := [] |}.
Proof.
  intros Hsz Hoff Hal Hnum Hlist Hev Hk.
  constructor; unfold outstanding; cbn; try assumption.
  - rewrite Hlist, Hev. cbn. rewrite app_nil_r, length_seq. exact Hnum.
  - rewrite Hlist, Hev. cbn. rewrite app_nil_r. apply NoDup_seq.
  - intros i. rewrite Hlist, Hev. cbn. rewrite app_nil_r.
    intros Hi. apply elem_of_seq in Hi. lia.
Qed.

Lemma aio_inv_start_reads (n k : nat) (s : state) :
  src_size s = T -> 0 <= src_off s <= T -> (READ_BLOCK_SIZE | src_off s) ->
  num_io_reqs s = Z.of_nat k -> submit_list s = seq 0 k -> events s = [] ->
  (k + n <= QUEUE_SIZE)%nat ->
  AioInv {| locals := start_reads READ_BLOCK_SIZE src_fd n k s; in_kernel := [] |}.
Proof.
  revert k s. induction n as [|n IH];
    intros k s Hsz Hoff Hal Hnum Hlist Hev Hk; cbn [start_reads].
  - apply (aio_inv_ready s k); try assumption. lia.
  - destruct (src_off s <? src_size s) eqn:Hlt.
    + apply Z.ltb_lt in Hlt. rewrite Hsz in Hlt.
      pose proof (aligned_next _ _ _ block_size_pos Hal tracked_aligned Hlt).
      apply (IH (Datatypes.S k));
        cbn [src_size src_off num_io_reqs submit_list events]; try assumption.
      * rewrite wrap_s64_small; lia.
      * rewrite wrap_s64_small by lia.
        apply Z.divide_add_r; [assumption|apply Z.divide_refl].
      * rewrite Hnum. rewrite wrap_u64_small; lia.
      * rewrite Hlist. rewrite seq_S. reflexivity.
      * lia.
    + apply (aio_inv_ready s k); try assumption. lia.
Qed.

(** *** The loop of [main] runs by steps *)

Lemma aio_handle_all_steps (n : nat) (m m' : machine) :
  handle_all READ_BLOCK_SIZE src_fd dst_fd n m = Some m' ->
  length (events (locals m)) = n ->
  rtc aio_step m m' /\ events (locals m') = [].
Proof.
  revert m. induction n as [|n IH]; intros m Hall Hlen; cbn in Hall.
  - injection Hall as <-. split; [constructor|].
    apply length_zero_iff_nil. exact Hlen.
  - destruct (handle_next m) as [m1|] eqn:Hnext; [|discriminate].
    assert (Hlen1 : length (events (locals m1)) = n).
    { unfold LinuxAio.handle_next in Hnext.
      destruct (events (locals m)) as [|ev rest]; [discriminate|].
      cbn in Hlen. unfold LinuxAio.handle_event in Hnext. cbn [iocbs] in Hnext.
      destruct (iocbs (locals m) !! obj ev) as [cb|]; [|discriminate].
      destruct (aio_lio_opcode cb);
        [destruct (negb _)|destruct (negb _ && _)];
        injection Hnext as <-; cbn; lia. }
    destruct (IH m1 Hall Hlen1) as [Hsteps Hev]. split; [|exact Hev].
    eapply rtc_l; [apply step_handle; exact Hnext|exact Hsteps].
Qed.

Lemma aio_main_loop_steps (schedule : list (list io_event)) (m m' : machine) :
  events (locals m) = [] ->
  main_loop READ_BLOCK_SIZE QUEUE_SIZE src_fd dst_fd schedule m = Some m' ->
  rtc aio_step m m' /\ num_io_reqs (locals m') = 0.
Proof.
  revert m. induction schedule as [|evs schedule IH]; intros m Hev Hloop;
    cbn [main_loop] in Hloop;
    destruct (num_io_reqs (locals m) =? 0) eqn:Hnum;
    try discriminate;
    try (injection Hloop as <-; split; [constructor|apply Z.eqb_eq; exact Hnum]).
  destruct (submit_and_get QUEUE_SIZE m evs) as [m1|] eqn:Hget; [|discriminate].
  destruct (handle_all READ_BLOCK_SIZE src_fd dst_fd (length evs) m1) as [m2|] eqn:Hall;
    [|discriminate].
  assert (Hev1 : events (locals m1) = evs).
  { unfold submit_and_get in Hget. case_bool_decide; [|discriminate].
    injection Hget as <-. reflexivity. }
  destruct (aio_handle_all_steps _ _ _ Hall ltac:(by rewrite Hev1)) as [Hsteps Hev2].
  destruct (IH m2 Hev2 Hloop) as [Hsteps' Hdone]. split; [|exact Hdone].
  eapply rtc_l; [eapply step_wait; [exact Hev| |exact Hget]|].
  - apply Z.eqb_neq. exact Hnum.
  - etrans; eassumption.
Qed.

End AioInvariant.

Lemma aio_inv_boot (B : Z) (N : nat) (src_fd0 S0 : Z) (iocbs0 : list iocb) :
  0 < B -> (B | 2 ^ 32) -> Z.of_nat N < 2 ^ 64 ->
  AioInv B N (round_file_size B S0)
         {| locals := boot B N src_fd0 S0 iocbs0; in_kernel := [] |}.
Proof.
  intros HB Hpow HN. unfold boot.
  pose proof (round_file_size_bounds B S0) as Hb.
  apply (aio_inv_start_reads B N src_fd0 (round_file_size B S0) HB
           (round_file_size_aligned B S0 HB Hpow) Hb HN N 0);
    cbn; try reflexivity; try lia.
  apply Z.divide_0_r.
Qed.

(** The destination is truncated to the tracked size. *)
Lemma aio_finish_length (m : machine) (dst : file) :
  length (finish m dst) = Z.to_nat (src_size (locals m)).
Proof. unfold finish, close_src_dst_files. apply ftruncate_length. Qed.

End LinuxAioRun.

(** ** Both drivers *)

Lemma io_reachable_inv (B : Z) (N : nat) (src_fd dst_fd : Z) (src : file)
    (mem : list (list byte)) (m : IoUring.machine) :
  0 < B < 2 ^ 31 -> Z.of_nat N < 2 ^ 16 -> Z.of_nat (length src) < 2 ^ 32 ->
  IoUring.reachable B N src_fd dst_fd src (Z.of_nat (length src)) mem m ->
  IoUringRun.Inv B N (Z.of_nat (length src)) m.
Proof.
  intros HB HN HS Hreach.
  eapply IoUringRun.inv_steps; [exact HB|exact HN|lia| |exact Hreach].
  apply IoUringRun.inv_boot; [exact HB|exact HN|lia|reflexivity].
Qed.

Lemma aio_reachable_inv (B : Z) (N : nat) (src_fd dst_fd S : Z)
    (iocbs0 : list LinuxAio.iocb) (m : LinuxAio.machine) :
  0 < B -> (B | 2 ^ 32) -> Z.of_nat N < 2 ^ 64 ->
  LinuxAio.reachable B N src_fd dst_fd S iocbs0 m ->
  LinuxAioRun.AioInv B N (round_file_size B S) m.
Proof.
  intros HB Hpow HN Hreach.
  pose proof (LinuxAioRun.round_file_size_bounds B S) as Hb.
  pose proof (LinuxAioRun.round_file_size_aligned B S HB Hpow) as Hal.
  apply (LinuxAioRun.aio_inv_steps B N src_fd dst_fd (round_file_size B S)
           HB Hal Hb HN _ _
           (LinuxAioRun.aio_inv_boot B N src_fd S iocbs0 HB Hpow HN) Hreach).
Qed.

(** C5.  In every state a run passes through, the in-flight count is the
    number of slots that are not idle (for Linux AIO: of control blocks with
    an operation under way), and it lies between 0 and the pool size. *)
Theorem in_flight_count_bounded :
  (forall (B : Z) (N : nat) (src_fd dst_fd : Z) (src : file)
          (mem : list (list byte)) (m : IoUring.machine),
      0 < B < 2 ^ 31 -> Z.of_nat N < 2 ^ 16 -> Z.of_nat (length src) < 2 ^ 32 ->
      IoUring.reachable B N src_fd dst_fd src (Z.of_nat (length src)) mem m ->
      IoUring.num_block_in_progress (IoUring.status m)
      = Z.of_nat (IoUring.in_flight (IoUring.block_statuses (IoUring.status m)))
      /\ 0 <= IoUring.num_block_in_progress (IoUring.status m) <= Z.of_nat N)
  /\ (forall (B : Z) (N : nat) (src_fd dst_fd S : Z)
             (iocbs0 : list LinuxAio.iocb) (m : LinuxAio.machine),
         0 < B -> (B | 2 ^ 32) -> Z.of_nat N < 2 ^ 64 ->
         LinuxAio.reachable B N src_fd dst_fd S iocbs0 m ->
         LinuxAio.num_io_reqs (LinuxAio.locals m)
         = Z.of_nat (length (LinuxAio.outstanding m))
         /\ 0 <= LinuxAio.num_io_reqs (LinuxAio.locals m) <= Z.of_nat N).
Proof.
  split.
  - intros B N src_fd dst_fd src mem m HB HN HS Hreach.
    pose proof (io_reachable_inv B N src_fd dst_fd src mem m HB HN HS Hreach)
      as Hinv.
    split; [apply (IoUringRun.inv_count _ _ _ _ Hinv)|].
    eapply IoUringRun.inv_in_flight_le. exact Hinv.
  - intros B N src_fd dst_fd S iocbs0 m HB Hpow HN Hreach.
    pose proof (aio_reachable_inv B N src_fd dst_fd S iocbs0 m HB Hpow HN Hreach)
      as Hinv.
    split; [apply (LinuxAioRun.aio_count _ _ _ _ Hinv)|].
    eapply LinuxAioRun.aio_in_flight_le. exact Hinv.
Qed.

(** A state in the middle of the sample run of [Samples.schedule10]: the
    first round of the loop is over. *)
Lemma sample_state_reachable :
  exists m,
    IoUring.reachable 4 2 3 4 Samples.src10 10 Samples.mem2x4 m
    /\ IoUring.num_block_in_progress (IoUring.status m) = 2.
Proof.
  pose (m0 := IoUring.boot 4 2 3 4 Samples.src10 10 Samples.mem2x4).
  assert (Hk : exists m1,
             IoUring.kernel_run (IoUring.io_uring_submit m0)
               [IoUring.Complete 1; IoUring.Complete 0] = Some m1
             /\ IoUring.num_block_in_progress (IoUring.status m1) = 2)
    by (eexists; split; vm_compute; reflexivity).
  destruct Hk as (m1 & Hk & Hnum). exists m1. split; [|exact Hnum].
  unfold IoUring.reachable. fold m0.
  eapply rtc_l; [apply IoUring.step_submit|].
  eapply IoUringRun.kernel_run_steps. exact Hk.
Qed.

Lemma in_flight_count_bounded_witness :
  exists m,
    IoUring.reachable 4 2 3 4 Samples.src10 10 Samples.mem2x4 m
    /\ IoUring.num_block_in_progress (IoUring.status m) = 2
    /\ 0 <= IoUring.num_block_in_progress (IoUring.status m) <= 2.
Proof.
  destruct sample_state_reachable as (m & Hreach & Hnum).
  exists m. split; [exact Hreach|]. split; [exact Hnum|].
  apply (proj1 in_flight_count_bounded 4 2%nat 3 4 Samples.src10 Samples.mem2x4 m);
    [lia|cbn; lia|cbn; lia|exact Hreach].
Defined.

(** C6, as amended.  In every state a run passes through the read cursor
    lies between 0 and the tracked size, and no step moves it back.  When
    the io_uring run on a source shorter than 4 GiB ends, the cursor is
    the source size exactly.  Under Linux AIO the tracked size is the
    rounded one and the cursor is a multiple of the block size bounded by
    it. *)
Theorem read_cursor_bounded_monotone :
  (forall (B : Z) (N : nat) (src_fd dst_fd : Z) (src : file)
          (mem : list (list byte)) (m : IoUring.machine),
      0 < B < 2 ^ 31 -> Z.of_nat N < 2 ^ 16 -> Z.of_nat (length src) < 2 ^ 32 ->
      IoUring.reachable B N src_fd dst_fd src (Z.of_nat (length src)) mem m ->
      IoUring.src_size (IoUring.status m) = Z.of_nat (length src)
      /\ 0 <= IoUring.src_off (IoUring.status m)
           <= IoUring.src_size (IoUring.status m)
      /\ (forall m', IoUring.step B m m' ->
            IoUring.src_off (IoUring.status m)
            <= IoUring.src_off (IoUring.status m'))
      /\ (IoUring.copy_in_progress (IoUring.status m) = false ->
            IoUring.src_off (IoUring.status m) = Z.of_nat (length src)))
  /\ (forall (B : Z) (N : nat) (src_fd dst_fd S : Z)
             (iocbs0 : list LinuxAio.iocb) (m : LinuxAio.machine),
         0 < B -> (B | 2 ^ 32) -> Z.of_nat N < 2 ^ 64 ->
         LinuxAio.reachable B N src_fd dst_fd S iocbs0 m ->
         LinuxAio.src_size (LinuxAio.locals m) = round_file_size B S
         /\ 0 <= LinuxAio.src_off (LinuxAio.locals m)
              <= LinuxAio.src_size (LinuxAio.locals m)
         /\ (B | LinuxAio.src_off (LinuxAio.locals m))
         /\ (forall m', LinuxAio.step B N src_fd dst_fd m m' ->
               LinuxAio.src_off (LinuxAio.locals m)
               <= LinuxAio.src_off (LinuxAio.locals m'))).
Proof.
  split.
  - intros B N src_fd dst_fd src mem m HB HN HS Hreach.
    pose proof (io_reachable_inv B N src_fd dst_fd src mem m HB HN HS Hreach)
      as Hinv.
    pose proof (IoUringRun.inv_size _ _ _ _ Hinv) as Hsz.
    pose proof (IoUringRun.inv_off _ _ _ _ Hinv) as Hoff.
    split; [exact Hsz|]. split; [lia|]. split.
    + intros m' Hstep.
      apply (IoUringRun.step_cursor_mono B N (Z.of_nat (length src)) HB HN
               ltac:(lia) m m' Hinv Hstep).
    + intros Hdone.
      apply (IoUringRun.finished_all_copied _ _ _ m Hinv Hdone).
  - intros B N src_fd dst_fd S iocbs0 m HB Hpow HN Hreach.
    pose proof (aio_reachable_inv B N src_fd dst_fd S iocbs0 m HB Hpow HN Hreach)
      as Hinv.
    pose proof (LinuxAioRun.aio_size _ _ _ _ Hinv) as Hsz.
    pose proof (LinuxAioRun.aio_off _ _ _ _ Hinv) as Hoff.
    split; [exact Hsz|]. split; [lia|].
    split; [apply (LinuxAioRun.aio_aligned _ _ _ _ Hinv)|].
    intros m' Hstep.
    apply (LinuxAioRun.aio_inv_step B N src_fd dst_fd (round_file_size B S) HB
             (LinuxAioRun.round_file_size_aligned B S HB Hpow)
             (LinuxAioRun.round_file_size_bounds B S) HN m m' Hinv Hstep).
Qed.

Lemma read_cursor_bounded_monotone_witness :
  exists m,
    IoUring.reachable 4 2 3 4 Samples.src10 10 Samples.mem2x4 m
    /\ 0 <= IoUring.src_off (IoUring.status m)
         <= IoUring.src_size (IoUring.status m).
Proof.
  destruct sample_state_reachable as (m & Hreach & _).
  exists m. split; [exact Hreach|].
  apply (proj1 read_cursor_bounded_monotone 4 2%nat 3 4 Samples.src10
           Samples.mem2x4 m);
    [lia|cbn; lia|cbn; lia|exact Hreach].
Defined.

(** C6 as first stated fails: the Linux AIO run on a source of 100 bytes
    ends with the cursor at 8192, the rounded size, and not at 100. *)
Lemma aio_cursor_ends_past_source :
  exists m,
    LinuxAio.main_loop LinuxAio.READ_BLOCK_SIZE LinuxAio.QUEUE_SIZE 3 4
      Samples.aio_schedule100
      {| LinuxAio.locals :=
           LinuxAio.boot LinuxAio.READ_BLOCK_SIZE LinuxAio.QUEUE_SIZE 3 100
             Samples.stale_iocbs;
         LinuxAio.in_kernel := [] |}
    = Some m
    /\ LinuxAio.num_io_reqs (LinuxAio.locals m) = 0
    /\ LinuxAio.src_off (LinuxAio.locals m) = 8192
    /\ LinuxAio.src_off (LinuxAio.locals m) <> 100.
Proof.
  eexists. split; [vm_compute; reflexivity|].
  split; [reflexivity|]. split; [reflexivity|]. cbn. lia.
Qed.

(** C8.  An empty source is refused.  [open_dst_file] asks [fallocate] for
    a length of zero, the call fails, and the io_uring and the Linux AIO
    driver both exit with [EXIT_FAILURE] before a read is prepared or the
    loop is entered, whatever the block size, the queue size and the
    schedule: the run does not come to a successful end. *)
Theorem empty_source_is_refused :
  open_src_file [] = 0
  /\ open_dst_file (open_src_file []) = Exited EXIT_FAILURE
  /\ (forall (B : Z) (N : nat) (src_fd dst_fd : Z) (mem : list (list byte))
             (schedule : list (list IoUring.kernel_action)),
         IoUring.main B N src_fd dst_fd [] (open_src_file []) mem schedule
         = Some (Exited EXIT_FAILURE))
  /\ (forall (B : Z) (N : nat) (src_fd dst_fd : Z)
             (iocbs0 : list LinuxAio.iocb) (mem : list (list byte))
             (schedule : list LinuxAioCp.round),
         LinuxAioCp.main B N src_fd dst_fd [] iocbs0 mem schedule
         = Some (Exited EXIT_FAILURE)).
Proof.
  split; [reflexivity|]. split; [reflexivity|]. split.
  - intros. reflexivity.
  - intros. reflexivity.
Qed.

(** C4, as amended.  The block-aligned drivers track
    [S + B - S mod B]: the least multiple of the block size that is
    greater than the source size, which is [S + B] when [S] is a multiple
    of the block size already.  A read that reports zero bytes retires its
    control block without a write. *)
Theorem tracked_size_rounds_past_source (B S : Z) :
  0 < B -> 0 <= S -> S + B < 2 ^ 32 ->
  let T := round_file_size B S in
  T = S + B - S mod B
  /\ (B | T)
  /\ S < T <= S + B
  /\ (forall T', (B | T') -> S < T' -> T <= T')
  /\ (S mod B = 0 -> T = S + B)
  /\ (forall (src_fd dst_fd : Z) (s : LinuxAio.state) (ev : LinuxAio.io_event)
             (cb : LinuxAio.iocb),
         LinuxAio.iocbs s !! LinuxAio.obj ev = Some cb ->
         LinuxAio.aio_lio_opcode cb = LinuxAio.IO_CMD_PREAD ->
         LinuxAio.res ev = 0 ->
         LinuxAio.handle_event B src_fd dst_fd s ev
         = Some {| LinuxAio.src_size := LinuxAio.src_size s;
                   LinuxAio.src_off := LinuxAio.src_off s;
                   LinuxAio.num_io_reqs := wrap_u64 (LinuxAio.num_io_reqs s - 1);
                   LinuxAio.iocbs := LinuxAio.iocbs s;
                   LinuxAio.submit_list := LinuxAio.submit_list s;
                   LinuxAio.events := LinuxAio.events s |}).
Proof.
  intros HB HS Hfit T.
  pose proof (LinuxAioRun.round_file_size_exact B S HB HS Hfit) as Hexact.
  fold T in Hexact.
  pose proof (Z.mod_pos_bound S B HB) as Hmod.
  pose proof (Z.div_mod S B ltac:(lia)) as Hdiv.
  split; [lia|]. split; [exists (S / B + 1); lia|]. split; [lia|]. split.
  - intros T' [j ->] Hgt. rewrite Hexact.
    assert (S / B < j) by nia. nia.
  - split; [intros Hz; lia|].
    intros src_fd dst_fd s ev cb Hcb Hop Hres.
    unfold LinuxAio.handle_event. rewrite Hcb, Hop, Hres. reflexivity.
Qed.

Lemma tracked_size_rounds_past_source_witness :
  round_file_size LinuxAio.READ_BLOCK_SIZE 20000 = 24576
  /\ round_file_size PosixAio.READ_BLOCK_SIZE 20000 = 20480.
Proof.
  split.
  - rewrite (proj1 (tracked_size_rounds_past_source LinuxAio.READ_BLOCK_SIZE 20000
                      ltac:(unfold LinuxAio.READ_BLOCK_SIZE; lia) ltac:(lia)
                      ltac:(unfold LinuxAio.READ_BLOCK_SIZE; lia))).
    reflexivity.
  - rewrite (proj1 (tracked_size_rounds_past_source PosixAio.READ_BLOCK_SIZE 20000
                      ltac:(unfold PosixAio.READ_BLOCK_SIZE; lia) ltac:(lia)
                      ltac:(unfold PosixAio.READ_BLOCK_SIZE; lia))).
    reflexivity.
Defined.

(** C4 as first stated fails: a source whose size is a multiple of the
    block size is not tracked at its own size, but one block above. *)
Lemma aligned_size_grows_by_a_block :
  8192 mod LinuxAio.READ_BLOCK_SIZE = 0
  /\ round_file_size LinuxAio.READ_BLOCK_SIZE 8192 = 16384
  /\ 512 mod PosixAio.READ_BLOCK_SIZE = 0
  /\ round_file_size PosixAio.READ_BLOCK_SIZE 512 = 1024.
Proof. repeat split; vm_compute; reflexivity. Qed.

Lemma write_completion_unchecked (B : Z) (status : IoUring.CopyStatus)
    (cell : nat) (block : IoUring.BlockStatus) (done_req : IoUring.io_uring_cqe) :
  wrap_s64 (IoUring.cqe_user_data done_req) = Z.of_nat cell ->
  IoUring.block_statuses status !! cell = Some block ->
  IoUring.stage block = IoUring.BLOCK_IN_WRITE ->
  0 <= IoUring.res done_req ->
  IoUring.handle_cqe B status done_req
  = Running (IoUring.prepare_read_request B
               (IoUring.finish_write_request status cell) cell).
Proof.
  intros Hud Hb Hst Hres. unfold IoUring.handle_cqe. rewrite Hud.
  destruct (Z.of_nat cell =? -1) eqn:E1; [lia|].
  destruct (Z.of_nat cell <? 0) eqn:E2; [lia|].
  rewrite Nat2Z.id, Hb, Hst.
  destruct (IoUring.res done_req <? 0) eqn:E3; [lia|]. reflexivity.
Qed.

(** What a write completion without error leads to: the slot is used
    again for a read while bytes remain, with the in-flight count as it
    was; otherwise it turns idle and the count goes down by one. *)
Lemma write_completion_reuses_or_retires (B : Z) (status : IoUring.CopyStatus)
    (cell : nat) (block : IoUring.BlockStatus) (done_req : IoUring.io_uring_cqe) :
  wrap_s64 (IoUring.cqe_user_data done_req) = Z.of_nat cell ->
  IoUring.block_statuses status !! cell = Some block ->
  IoUring.stage block = IoUring.BLOCK_IN_WRITE ->
  0 <= IoUring.res done_req ->
  0 <= B < 2 ^ 32 ->
  0 <= IoUring.src_off status <= IoUring.src_size status ->
  IoUring.src_size status < 2 ^ 32 ->
  1 <= IoUring.num_block_in_progress status < 2 ^ 16 ->
  exists status' block',
    IoUring.handle_cqe B status done_req = Running status'
    /\ IoUring.block_statuses status' !! cell = Some block'
    /\ (IoUring.src_off status < IoUring.src_size status ->
        IoUring.stage block' = IoUring.BLOCK_IN_READ
        /\ IoUring.num_block_in_progress status'
           = IoUring.num_block_in_progress status)
    /\ (IoUring.src_off status = IoUring.src_size status ->
        IoUring.stage block' = IoUring.BLOCK_IDLE
        /\ IoUring.num_block_in_progress status'
           = IoUring.num_block_in_progress status - 1).
Proof.
  intros Hud Hb Hst Hres HB Hoff Hsz Hnum.
  rewrite (write_completion_unchecked B status cell block done_req Hud Hb Hst Hres).
  pose proof (lookup_lt_Some _ _ _ Hb) as Hlt.
  set (st1 := IoUring.finish_write_request status cell).
  assert (Hlt1 : (cell < length (IoUring.block_statuses st1))%nat)
    by (subst st1; cbn; rewrite length_insert; exact Hlt).
  assert (Hnum1 : IoUring.num_block_in_progress st1
                  = IoUring.num_block_in_progress status - 1)
    by (subst st1; cbn; apply wrap_u16_small; lia).
  destruct (decide (IoUring.src_off status = IoUring.src_size status)) as [Heq|Hne].
  - rewrite IoUringSteps.prepare_read_request_at_end by exact Heq.
    eexists _, _. split; [reflexivity|]. split.
    + subst st1. cbn. apply list_lookup_insert_eq. exact Hlt.
    + split; [lia|]. intros _. split; [reflexivity|exact Hnum1].
  - assert (Hleft : wrap_u32 (IoUring.src_size st1 - IoUring.src_off st1) <> 0).
    { subst st1. cbn. rewrite wrap_u32_small; lia. }
    rewrite (IoUringSteps.prepare_read_request_busy B st1 cell Hleft).
    eexists _, _. split; [reflexivity|]. split.
    + cbn [IoUring.block_statuses]. apply list_lookup_insert_eq. exact Hlt1.
    + split; [|lia]. intros _. split; [reflexivity|].
      cbn [IoUring.num_block_in_progress]. rewrite Hnum1.
      rewrite wrap_u16_small by lia. lia.
Qed.

(** C3.  The io_uring driver asked for a write of 8192 bytes; the
    completion reports 4096.  The driver does not end the run: it retires
    the slot and, nothing being left to read, leaves its loop as after a
    complete copy.  Under Linux AIO a write that reports an error is
    handled like one that succeeded, and the loop ends as well. *)
Theorem short_write_goes_unnoticed :
  IoUring.len <$> last (IoUring.sq (IoUring.io_ring Samples.write_pending_8192))
    = Some 8192
  /\ IoUring.res Samples.short_write = 4096
  /\ (exists status',
        IoUring.handle_cqe IoUring.READ_BLOCK_SIZE Samples.write_pending_8192
          Samples.short_write = Running status'
        /\ IoUring.copy_in_progress status' = false)
  /\ (exists m,
        LinuxAio.main_loop LinuxAio.READ_BLOCK_SIZE LinuxAio.QUEUE_SIZE 3 4
          [[LinuxAio.mkEvent 0 100]; [LinuxAio.mkEvent 0 (-5)]]
          {| LinuxAio.locals :=
               LinuxAio.boot LinuxAio.READ_BLOCK_SIZE LinuxAio.QUEUE_SIZE 3 100
                 Samples.stale_iocbs;
             LinuxAio.in_kernel := [] |}
        = Some m
        /\ LinuxAio.num_io_reqs (LinuxAio.locals m) = 0).
Proof.
  split; [vm_compute; reflexivity|]. split; [reflexivity|]. split.
  - eexists. split; [|shelve].
    apply (write_completion_unchecked IoUring.READ_BLOCK_SIZE
             Samples.write_pending_8192 0
             {| IoUring.stage := IoUring.BLOCK_IN_WRITE;
                IoUring.offset := 0; IoUring.size := 8192 |});
      [reflexivity|vm_compute; reflexivity|reflexivity|cbn; lia].
    Unshelve. vm_compute. reflexivity.
  - eexists. split; [vm_compute; reflexivity|]. reflexivity.
Qed.

(** C1.  A run of the io_uring driver that ends as a successful one with a
    destination that differs from the source.  The source has four bytes
    and is copied in one block through one cell.  In the first pass of the
    loop the kernel reads the block in full and the driver queues the
    write of four bytes.  In the second pass the kernel stores two of the
    four bytes and reports 2; the driver, which tests the result for
    [res < 0] only, retires the slot, and the condition of the loop fails
    as after a complete copy.  [close_src_dst_files] leaves a destination
    whose last two bytes are the zero bytes of the allocation. *)
Theorem short_write_breaks_copy :
  open_dst_file (open_src_file Samples.src4) = Running (allocated 4)
  /\ IoUring.copy_in_progress (IoUring.status Samples.boot4) = true
  /\ exists m1 st1 m2 st2,
       IoUring.kernel_run (IoUring.io_uring_submit Samples.boot4)
         [IoUring.Complete 0] = Some m1
       /\ IoUring.reap_cqes 4 (IoUring.cq (IoUring.io_ring (IoUring.status m1)))
            (IoUring.status m1) = Running st1
       /\ IoUring.copy_in_progress st1 = true
       /\ IoUring.len <$> IoUring.sq (IoUring.io_ring st1) = [4]
       /\ IoUring.short_step
            (IoUring.io_uring_submit (IoUring.set_status m1 st1)) 0 2 = Some m2
       /\ IoUring.cq (IoUring.io_ring (IoUring.status m2)) = [IoUring.mkCqe 0 2]
       /\ IoUring.reap_cqes 4 (IoUring.cq (IoUring.io_ring (IoUring.status m2)))
            (IoUring.status m2) = Running st2
       /\ IoUring.copy_in_progress st2 = false
       /\ close_src_dst_files (open_src_file Samples.src4) (IoUring.dst_file m2)
          = [x01; x02; x00; x00]
       /\ close_src_dst_files (open_src_file Samples.src4) (IoUring.dst_file m2)
          <> Samples.src4.
Proof.
  split; [reflexivity|]. split; [vm_compute; reflexivity|].
  eexists _, _, _, _.
  split; [vm_compute; reflexivity|].
  split; [vm_compute; reflexivity|].
  split; [vm_compute; reflexivity|].
  split; [vm_compute; reflexivity|].
  split; [vm_compute; reflexivity|].
  split; [vm_compute; reflexivity|].
  split; [vm_compute; reflexivity|].
  split; [vm_compute; reflexivity|].
  split; [vm_compute; reflexivity|].
  vm_compute. discriminate.
Qed.

Lemma take_fill_buffer (buf data : list byte) :
  take (length data) (fill_buffer buf data) = data.
Proof. unfold fill_buffer. apply take_app_length. Qed.

Lemma wrap_u32_add_l (a b : Z) : wrap_u32 (wrap_u32 a + b) = wrap_u32 (a + b).
Proof. unfold wrap_u32. apply Zplus_mod_idemp_l. Qed.

Lemma allocated_length (n : Z) : length (allocated n) = Z.to_nat n.
Proof. unfold allocated. apply length_replicate. Qed.

Lemma allocated_lookup (n : Z) (j : nat) (b : byte) :
  allocated n !! j = Some b -> b = x00.
Proof.
  unfold allocated. intros H. apply lookup_replicate in H. tauto.
Qed.

Module SyncCpRun.
Import SyncCp.

Section Loop.

Variable READ_BLOCK_SIZE : Z.
Variable src : file.

Hypothesis block_size_pos : 0 < READ_BLOCK_SIZE.

#[local] Abbreviation L := (Z.of_nat (length src)).
#[local] Abbreviation copy_loop := (copy_loop READ_BLOCK_SIZE).

(** Both descriptors stand at the same offset; below it the destination
    holds the bytes of the source, from it on the zero bytes it was
    allocated with. *)
Record SyncInv (m : machine) : Prop := {
  si_src : src_file m = src;
  si_pos : dst_pos m = src_pos m;
  si_range : 0 <= src_pos m <= L;
  si_i : i m = wrap_u32 (src_pos m);
  si_len : src_pos m <= Z.of_nat (length (dst_file m));
  si_copied :
    forall j : nat, Z.of_nat j < src_pos m -> dst_file m !! j = src !! j;
  si_zero :
    forall j : nat, src_pos m <= Z.of_nat j ->
      (j < length (dst_file m))%nat -> dst_file m !! j = Some x00
}.

(** One round in which neither call fails and the write is complete. *)
Definition round (m : machine) (cap : nat) : machine :=
  let data := take cap (pread (src_file m) (src_pos m) READ_BLOCK_SIZE) in
  {| i := wrap_u32 (i m + Z.of_nat (length data));
     buffer := fill_buffer (buffer m) data;
     src_file := src_file m;
     src_pos := src_pos m + Z.of_nat (length data);
     dst_file := pwrite (dst_file m) (dst_pos m) data;
     dst_pos := dst_pos m + Z.of_nat (length data) |}.

Lemma copy_loop_round (replies : list (reply * reply)) (src_size : Z)
    (m : machine) (rd wr : reply) :
  (i m <? src_size) = true ->
  copy_loop ((rd, wr) :: replies) src_size m
  = match rd, wr with
    | Moves cap, Moves cap' =>
        let data := take cap (pread (src_file m) (src_pos m) READ_BLOCK_SIZE) in
        if (length data <=? cap')%nat then
          if Z.of_nat (length data) =? READ_BLOCK_SIZE
          then copy_loop replies src_size (round m cap)
          else Some (Running (round m cap))
        else Some (Exited EXIT_FAILURE)
    | _, _ => Some (Exited EXIT_FAILURE)
    end.
Proof.
  intros Hlt. cbn [SyncCp.copy_loop]. rewrite Hlt.
  destruct rd as [|cap]; [reflexivity|]. cbn [sys_pread].
  set (data := take cap (pread (src_file m) (src_pos m) READ_BLOCK_SIZE)).
  rewrite Nat2Z.id, take_fill_buffer.
  destruct wr as [|cap']; [reflexivity|]. cbn [sys_pwrite].
  cbv zeta.
  destruct (Nat.leb (length data) cap') eqn:Hcap.
  - apply Nat.leb_le in Hcap. rewrite take_ge by exact Hcap.
    rewrite Z.eqb_refl. cbn [negb].
    unfold round. fold data.
    destruct (Z.of_nat (length data) =? READ_BLOCK_SIZE); reflexivity.
  - apply Nat.leb_gt in Hcap. rewrite length_take.
    replace (cap' `min` length data)%nat with cap' by lia.
    destruct (Z.of_nat cap' =? Z.of_nat (length data)) eqn:E;
      [apply Z.eqb_eq in E; lia|reflexivity].
Qed.

Lemma round_data_length (m : machine) (cap : nat) :
  SyncInv m ->
  Z.of_nat (length (take cap (pread (src_file m) (src_pos m) READ_BLOCK_SIZE)))
  = Z.min (Z.of_nat cap) (Z.min READ_BLOCK_SIZE (L - src_pos m)).
Proof.
  intros H. pose proof (si_range _ H) as Hr.
  rewrite length_take. rewrite Nat2Z.inj_min.
  rewrite pread_length by lia. rewrite (si_src _ H). lia.
Qed.

Lemma inv_round (m : machine) (cap : nat) :
  SyncInv m -> SyncInv (round m cap).
Proof.
  intros H.
  pose proof (round_data_length m cap H) as Hlen.
  pose proof (si_range _ H) as Hr. pose proof (si_len _ H) as Hl.
  pose proof (si_pos _ H) as Hp.
  unfold round.
  set (data := take cap (pread (src_file m) (src_pos m) READ_BLOCK_SIZE)) in *.
  assert (Hw : (Z.to_nat (dst_pos m) <= length (dst_file m))%nat) by lia.
  constructor; cbn.
  - apply (si_src _ H).
  - lia.
  - lia.
  - rewrite (si_i _ H). apply wrap_u32_add_l.
  - rewrite pwrite_length by exact Hw. lia.
  - intros j Hj.
    destruct (decide (Z.of_nat j < src_pos m)) as [Hlow|Hhigh].
    + rewrite pwrite_lookup_out by (try exact Hw; lia).
      apply (si_copied _ H). exact Hlow.
    + rewrite pwrite_lookup_in by (try exact Hw; lia).
      subst data. rewrite lookup_take_lt by lia.
      rewrite pread_lookup by lia. rewrite (si_src _ H). f_equal. lia.
  - intros j Hj Hjl. rewrite pwrite_length in Hjl by exact Hw.
    rewrite pwrite_lookup_out by (try exact Hw; lia).
    apply (si_zero _ H); lia.
Qed.

(** Whatever the kernel answers, a loop that is left keeps the
    invariant. *)
Lemma copy_loop_inv (replies : list (reply * reply)) (src_size : Z)
    (m m' : machine) :
  SyncInv m ->
  src_size <= Z.of_nat (length (dst_file m)) ->
  copy_loop replies src_size m = Some (Running m') ->
  SyncInv m' /\ src_size <= Z.of_nat (length (dst_file m')).
Proof.
  revert m. induction replies as [|[rd wr] replies IH]; intros m H Hlen Hloop.
  - cbn in Hloop. destruct (i m <? src_size); [discriminate|].
    injection Hloop as <-. split; assumption.
  - destruct (i m <? src_size) eqn:Hlt.
    2:{ cbn [SyncCp.copy_loop] in Hloop. rewrite Hlt in Hloop.
        injection Hloop as <-. split; assumption. }
    rewrite (copy_loop_round _ _ _ _ _ Hlt) in Hloop.
    destruct rd as [|cap]; [discriminate|].
    destruct wr as [|cap']; [discriminate|]. cbv zeta in Hloop.
    destruct (Nat.leb _ cap'); [|discriminate].
    assert (Hlen' : src_size <= Z.of_nat (length (dst_file (round m cap)))).
    { unfold round. cbn [dst_file].
      rewrite pwrite_length.
      - lia.
      - pose proof (si_len _ H). pose proof (si_pos _ H).
        pose proof (si_range _ H). lia. }
    destruct (_ =? READ_BLOCK_SIZE).
    + apply (IH (round m cap)); [apply inv_round; exact H|exact Hlen'|exact Hloop].
    + injection Hloop as <-. split; [apply inv_round; exact H|exact Hlen'].
Qed.

(** What [close_src_dst_files] leaves of the destination. *)
Lemma sync_closed_destination (m : machine) (src_size : Z) :
  SyncInv m -> 0 <= src_size <= Z.of_nat (length (dst_file m)) ->
  close_src_dst_files src_size (dst_file m)
  = take (Z.to_nat (Z.min (src_pos m) src_size)) src
    ++ replicate (Z.to_nat src_size - Z.to_nat (Z.min (src_pos m) src_size)) x00.
Proof.
  intros H Hsz. pose proof (si_range _ H) as Hr.
  unfold close_src_dst_files. rewrite ftruncate_take by lia.
  apply list_eq. intros j.
  destruct (decide (Z.of_nat j < Z.min (src_pos m) src_size)) as [Hlow|Hhigh].
  - rewrite lookup_take_lt by lia.
    rewrite lookup_app_l by (rewrite length_take; lia).
    rewrite lookup_take_lt by lia.
    apply (si_copied _ H). lia.
  - rewrite lookup_app_r by (rewrite length_take; lia).
    rewrite length_take.
    destruct (decide (Z.of_nat j < src_size)) as [Hin|Hout].
    + rewrite lookup_take_lt by lia.
      rewrite (si_zero _ H) by lia.
      symmetry. apply lookup_replicate. split; [reflexivity|lia].
    + rewrite lookup_take_ge by lia.
      symmetry. apply lookup_replicate_None. lia.
Qed.

Definition whole_pair (p : reply * reply) : Prop :=
  whole READ_BLOCK_SIZE p.1 /\ whole READ_BLOCK_SIZE p.2.


(** A round that fails: one of the calls fails, or the write stores fewer
    bytes than the read brought. *)
Lemma copy_loop_fault (pre post : list (reply * reply)) (rd wr : reply)
    (src_size : Z) (m : machine) :
  Forall whole_pair pre ->
  0 <= src_size < 2 ^ 32 -> src_size <= L ->
  SyncInv m ->
  src_pos m + Z.of_nat (length pre) * READ_BLOCK_SIZE < src_size ->
  match rd, wr with
  | Moves cap, Moves cap' =>
      Z.of_nat cap'
      < Z.min (Z.of_nat cap)
          (Z.min READ_BLOCK_SIZE
             (L - (src_pos m + Z.of_nat (length pre) * READ_BLOCK_SIZE)))
  | _, _ => True
  end ->
  copy_loop (pre ++ (rd, wr) :: post) src_size m = Some (Exited EXIT_FAILURE).
Proof.
  intros Hwhole Hsz HszL. revert m.
  induction Hwhole as [|[rd1 wr1] pre [Hrd Hwr] _ IH]; intros m H Hpos Hbad.
  - cbn [length app] in *. pose proof (si_range _ H) as Hr.
    assert (Hlt : (i m <? src_size) = true).
    { apply Z.ltb_lt. rewrite (si_i _ H), wrap_u32_small; lia. }
    rewrite (copy_loop_round _ _ _ _ _ Hlt).
    destruct rd as [|cap]; [reflexivity|].
    destruct wr as [|cap']; [reflexivity|]. cbv zeta.
    pose proof (round_data_length m cap H) as Hdata.
    destruct (Nat.leb _ cap') eqn:Hleb; [|reflexivity].
    apply Nat.leb_le in Hleb. lia.
  - cbn [length] in Hpos, Hbad. pose proof (si_range _ H) as Hr.
    assert (Hlt : (i m <? src_size) = true).
    { apply Z.ltb_lt. rewrite (si_i _ H), wrap_u32_small; nia. }
    rewrite <- app_comm_cons, (copy_loop_round _ _ _ _ _ Hlt).
    destruct rd1 as [|cap1]; [destruct Hrd|].
    destruct wr1 as [|cap1']; [destruct Hwr|]. cbn in Hrd, Hwr. cbv zeta.
    pose proof (round_data_length m cap1 H) as Hdata.
    assert (Hfull : Z.of_nat (length (take cap1
                      (pread (src_file m) (src_pos m) READ_BLOCK_SIZE)))
                    = READ_BLOCK_SIZE) by nia.
    rewrite Hfull, Z.eqb_refl.
    assert (Hleb : Nat.leb (length (take cap1
                      (pread (src_file m) (src_pos m) READ_BLOCK_SIZE))) cap1'
                   = true) by (apply Nat.leb_le; lia).
    rewrite Hleb.
    assert (Hnext : src_pos (round m cap1) = src_pos m + READ_BLOCK_SIZE)
      by (unfold round; cbn [src_pos]; lia).
    apply IH; [apply inv_round; exact H|rewrite Hnext; lia|].
    rewrite Hnext.
    replace (src_pos m + READ_BLOCK_SIZE + Z.of_nat (length pre) * READ_BLOCK_SIZE)
      with (src_pos m + Z.of_nat (Datatypes.S (length pre)) * READ_BLOCK_SIZE)
      by lia.
    exact Hbad.
Qed.

Lemma sync_inv_boot (mem : list byte) (src_size : Z) :
  SyncInv {| i := 0; buffer := mem; src_file := src; src_pos := 0;
             dst_file := allocated src_size; dst_pos := 0 |}.
Proof.
  constructor; cbn; try reflexivity; try lia.
  intros j _ Hj. rewrite allocated_length in Hj.
  unfold allocated. apply lookup_replicate_2. exact Hj.
Qed.

End Loop.

Lemma open_src_file_bounds (src : file) :
  0 <= open_src_file src < 2 ^ 32
  /\ open_src_file src <= Z.of_nat (length src).
Proof.
  unfold open_src_file, wrap_u32. split.
  - apply Z.mod_pos_bound. lia.
  - apply Z.mod_le; lia.
Qed.

End SyncCpRun.



(** X2.  Whatever the kernel answers, a synchronous copy that reports success
    has put no wrong byte into the destination: it has the size
    [open_src_file] reported and holds a prefix of the source, followed by
    the zero bytes it was allocated with where a short read ended the
    loop early. *)
Theorem sync_copy_never_miscopies (B : Z) (src : file) (mem : list byte)
    (replies : list (reply * reply)) (dst : file) :
  0 < B ->
  SyncCp.main B src mem replies = Some (Running dst) ->
  exists n : nat,
    (n <= Z.to_nat (open_src_file src))%nat
    /\ dst = take n src ++ replicate (Z.to_nat (open_src_file src) - n) x00.
Proof.
  intros HB Hmain. unfold SyncCp.main in Hmain. cbv zeta in Hmain.
  destruct (SyncCpRun.open_src_file_bounds src) as [Hsz HszL].
  pose proof (SyncCpRun.sync_inv_boot src mem (open_src_file src)) as H0.
  assert (Halloc : open_src_file src
                   <= Z.of_nat (length (allocated (open_src_file src))))
    by (rewrite allocated_length; lia).
  unfold open_dst_file in Hmain.
  destruct (open_src_file src <=? 0); [discriminate|].
  destruct (SyncCp.copy_loop _ _ _ _) as [[m'| |]|] eqn:Hloop; try discriminate.
  injection Hmain as <-.
  destruct (SyncCpRun.copy_loop_inv B src HB replies _ _ m' H0 Halloc Hloop)
    as [H' Hlen].
  eexists. split; [|apply (SyncCpRun.sync_closed_destination src m' _ H'); lia]. lia.
Qed.

Lemma sync_copy_never_miscopies_witness :
  exists n : nat,
    (n <= 10)%nat
    /\ Samples.src10 = take n Samples.src10 ++ replicate (10 - n) x00.
Proof.
  apply (sync_copy_never_miscopies 4 Samples.src10 [xff; xff; xff; xff]
           (replicate 3 (Moves 4, Moves 4)) Samples.src10);
    [lia|reflexivity].
Defined.

(** X3.  After any number of complete rounds of the synchronous copy, with
    bytes still to copy, a [read] that fails, a [write] that fails and a
    [write] that stores fewer bytes than were read each end the process
    with [EXIT_FAILURE]. *)
Theorem sync_copy_stops_on_failure (B : Z) (src : file) (mem : list byte)
    (pre post : list (reply * reply)) (rd wr : reply) :
  0 < B ->
  Forall (fun p => whole B p.1 /\ whole B p.2) pre ->
  Z.of_nat (length pre) * B < open_src_file src ->
  rd = Fails \/ wr = Fails
  \/ (exists cap cap', rd = Moves cap /\ wr = Moves cap'
        /\ Z.of_nat cap'
           < Z.min (Z.of_nat cap)
               (Z.min B (Z.of_nat (length src) - Z.of_nat (length pre) * B))) ->
  SyncCp.main B src mem (pre ++ (rd, wr) :: post) = Some (Exited EXIT_FAILURE).
Proof.
  intros HB Hwhole Hreach Hbad.
  destruct (SyncCpRun.open_src_file_bounds src) as [Hsz HszL].
  pose proof (SyncCpRun.sync_inv_boot src mem (open_src_file src)) as H0.
  assert (Halloc : open_src_file src
                   <= Z.of_nat (length (allocated (open_src_file src))))
    by (rewrite allocated_length; lia).
  unfold SyncCp.main. cbv zeta. rewrite open_dst_file_ok by nia.
  rewrite (SyncCpRun.copy_loop_fault B src HB pre post rd wr _ _ Hwhole Hsz HszL H0);
    [reflexivity|cbn [SyncCp.src_pos]; lia|].
  cbn [SyncCp.src_pos]. rewrite Z.add_0_l.
  destruct Hbad as [->|[->|(cap & cap' & -> & -> & Hshort)]];
    [exact I|destruct rd; exact I|exact Hshort].
Qed.

Lemma sync_copy_stops_on_failure_witness :
  SyncCp.main 4 Samples.src10 [xff; xff; xff; xff]
    ([(Moves 4, Moves 4)] ++ (Moves 4, Moves 3) :: [])
  = Some (Exited EXIT_FAILURE).
Proof.
  apply (sync_copy_stops_on_failure 4 Samples.src10 [xff; xff; xff; xff]
           [(Moves 4, Moves 4)] [] (Moves 4) (Moves 3));
    [lia|repeat (apply Forall_cons_2; [cbn; lia|]); apply Forall_nil_2
    |vm_compute; reflexivity|].
  right. right. exists 4%nat, 3%nat. cbn. split; [reflexivity|]. split; [reflexivity|lia].
Defined.

Module ThreadPoolRun.
Import ThreadPoolCp.

(** A write of bytes of the source at their own offset leaves in place
    every byte that was already right. *)
Lemma good_write_keeps (src dst : file) (off : Z) (out : list byte) (x : nat) :
  0 <= off <= Z.of_nat (length dst) ->
  (forall j : nat, (j < length out)%nat ->
     out !! j = src !! (Z.to_nat off + j)%nat) ->
  dst !! x = src !! x ->
  pwrite dst off out !! x = src !! x.
Proof.
  intros Hoff Hout Hx.
  destruct (decide (Z.to_nat off <= x < Z.to_nat off + length out)%nat) as [Hin|Hno].
  - rewrite pwrite_lookup_in by lia. rewrite Hout by lia. f_equal. lia.
  - rewrite pwrite_lookup_out by lia. exact Hx.
Qed.

Lemma good_write_new (src dst : file) (off : Z) (out : list byte) (x : nat) :
  0 <= off <= Z.of_nat (length dst) ->
  (forall j : nat, (j < length out)%nat ->
     out !! j = src !! (Z.to_nat off + j)%nat) ->
  off <= Z.of_nat x < off + Z.of_nat (length out) ->
  pwrite dst off out !! x = src !! x.
Proof.
  intros Hoff Hout Hx.
  rewrite pwrite_lookup_in by lia. rewrite Hout by lia. f_equal. lia.
Qed.

Section Run.

Variable READ_BLOCK_SIZE : Z.
Variable NUM_THREADS : nat.
Variable src : file.

#[local] Abbreviation B := READ_BLOCK_SIZE.
#[local] Abbreviation N := (Z.of_nat NUM_THREADS).
#[local] Abbreviation L := (Z.of_nat (length src)).

Hypothesis block_size_pos : 0 < B.
Hypothesis some_thread : (0 < NUM_THREADS)%nat.
Hypothesis counter_fits : L + B * N <= 2 ^ 32.

#[local] Abbreviation thread_step := (thread_step READ_BLOCK_SIZE NUM_THREADS).
#[local] Abbreviation step := (step READ_BLOCK_SIZE NUM_THREADS).
#[local] Abbreviation run := (run READ_BLOCK_SIZE NUM_THREADS).

Lemma stride_pos : 0 < B * N.
Proof. nia. Qed.

(** *** How far a thread can still go *)

(** The rounds a thread can make at most. *)
Definition rounds : Z := L / (B * N) + 1.

Definition steps_left (t : thread) : Z :=
  match at_stage t with
  | AT_LOOP_HEAD => 2 * (rounds - i t / (B * N)) + 1
  | AFTER_PREAD _ _ => 2 * (rounds - i t / (B * N))
  | RETURNED => 0
  end.

Definition total_left (ts : list thread) : Z :=
  foldr (fun t acc => steps_left t + acc) 0 ts.

#[local] Arguments total_left : simpl never.

(** The counter of a thread is a multiple of the stride and stays within
    reach of the size of the source. *)
Record Prog (tid : nat) (t : thread) : Prop := {
  pg_id : thread_i t = Z.of_nat tid;
  pg_size : src_size t = L;
  pg_stride : (B * N | i t);
  pg_range : 0 <= i t <= rounds * (B * N);
  pg_busy :
    match at_stage t with
    | AFTER_PREAD offset _ => i t < L /\ offset = i t + Z.of_nat tid * B /\ offset <= L
    | _ => True
    end
}.

Lemma rounds_reach (a : Z) : (B * N | a) -> 0 <= a < L -> a / (B * N) + 1 <= rounds.
Proof.
  intros _ Ha. unfold rounds.
  pose proof stride_pos as Hs.
  assert (a / (B * N) <= L / (B * N)) by (apply Z.div_le_mono; lia). lia.
Qed.

Lemma rounds_bound (a : Z) : (B * N | a) -> 0 <= a <= rounds * (B * N) ->
  0 <= a / (B * N) <= rounds.
Proof.
  intros _ Ha. pose proof stride_pos as Hs. split.
  - apply Z.div_pos; lia.
  - apply Z.div_le_upper_bound; nia.
Qed.

Lemma steps_left_nonneg (tid : nat) (t : thread) : Prog tid t -> 0 <= steps_left t.
Proof.
  intros H. pose proof (rounds_bound _ (pg_stride _ _ H) (pg_range _ _ H)).
  unfold steps_left. destruct (at_stage t); lia.
Qed.

Lemma total_left_insert (ts : list thread) (tid : nat) (old new : thread) :
  ts !! tid = Some old ->
  total_left (<[tid := new]> ts) = total_left ts - steps_left old + steps_left new.
Proof.
  revert tid. induction ts as [|t ts IH]; intros tid Hold; [done|].
  destruct tid as [|tid]; cbn in Hold.
  - injection Hold as ->.
    change (<[0%nat := new]> (old :: ts)) with (new :: ts).
    unfold total_left. cbn [foldr]. lia.
  - specialize (IH tid Hold).
    change (<[S tid := new]> (t :: ts)) with (t :: <[tid := new]> ts).
    unfold total_left in *. cbn [foldr]. lia.
Qed.

Lemma thread_offset (tid : nat) (t : thread) :
  Prog tid t -> (tid < NUM_THREADS)%nat -> i t < L ->
  wrap_u64 (i t + wrap_u64 (thread_i t * B)) = i t + Z.of_nat tid * B.
Proof.
  intros H Htid Hlt. pose proof (pg_range _ _ H) as Hr.
  rewrite (pg_id _ _ H).
  assert (0 <= Z.of_nat tid * B < B * N) by nia.
  assert (2 ^ 32 < 2 ^ 64) by (apply Z.pow_lt_mono_r; lia).
  rewrite (wrap_u64_small (Z.of_nat tid * B)) by lia.
  apply wrap_u64_small. lia.
Qed.

Lemma next_counter (tid : nat) (t : thread) :
  Prog tid t -> i t < L ->
  wrap_u32 (i t + wrap_u32 (B * N)) = i t + B * N.
Proof.
  intros H Hlt. pose proof (pg_range _ _ H) as Hr. pose proof stride_pos.
  rewrite (wrap_u32_small (B * N)) by lia.
  apply wrap_u32_small. lia.
Qed.

(** Whatever the kernel answers, a step that does not end the process
    brings the thread nearer to its return. *)
Lemma thread_step_prog (dst : file) (tid : nat) (t t' : thread) (dst' : file)
    (r : reply) :
  Prog tid t -> (tid < NUM_THREADS)%nat ->
  at_stage t <> RETURNED ->
  thread_step src dst t r = Running (t', dst') ->
  Prog tid t' /\ steps_left t' < steps_left t.
Proof.
  intros H Htid Hrun Hstep.
  pose proof (pg_range _ _ H) as Hr. pose proof stride_pos as Hs.
  pose proof (rounds_bound _ (pg_stride _ _ H) (pg_range _ _ H)) as Hc.
  unfold ThreadPoolCp.thread_step in Hstep.
  destruct (at_stage t) as [|offset bytes_read|] eqn:Hat; [| |done].
  - rewrite (pg_size _ _ H) in Hstep.
    destruct (i t <? L) eqn:Hlt.
    + apply Z.ltb_lt in Hlt.
      rewrite (thread_offset tid t H Htid Hlt) in Hstep.
      pose proof (rounds_reach _ (pg_stride _ _ H) ltac:(lia)) as Hreach.
      destruct (L <? _) eqn:Hpast.
      * injection Hstep as <- <-. split.
        -- destruct H. constructor; cbn; first [assumption|reflexivity|exact I].
        -- unfold steps_left. rewrite Hat. cbn. lia.
      * apply Z.ltb_ge in Hpast.
        destruct r as [|cap]; [discriminate|]. cbn in Hstep.
        injection Hstep as <- <-. split.
        -- destruct H. constructor; cbn; first [assumption|reflexivity|lia].
        -- unfold steps_left. rewrite Hat. cbn. lia.
    + injection Hstep as <- <-. split.
      * destruct H. constructor; cbn; first [assumption|reflexivity|exact I].
      * unfold steps_left. rewrite Hat. cbn. lia.
  - pose proof (pg_busy _ _ H) as Hbusy. rewrite Hat in Hbusy.
    destruct Hbusy as (Hlt & Hoff & HoffL).
    destruct r as [|cap]; [discriminate|]. cbn in Hstep.
    destruct (negb _); [discriminate|].
    rewrite (next_counter tid t H Hlt) in Hstep.
    pose proof (rounds_reach _ (pg_stride _ _ H) ltac:(lia)) as Hreach.
    assert (Hdiv : (i t + B * N) / (B * N) = i t / (B * N) + 1).
    { replace (i t + B * N) with (i t + 1 * (B * N)) by lia.
      apply Z.div_add. lia. }
    injection Hstep as <- <-. split.
    + destruct H. constructor; cbn; try assumption.
      * apply Z.divide_add_r; [assumption|apply Z.divide_refl].
      * destruct pg_stride0 as [c Hci]. rewrite Hci in *.
        rewrite Z.div_mul in Hreach by lia. nia.
      * destruct (negb _); exact I.
    + unfold steps_left. rewrite Hat. cbn [at_stage i].
      rewrite Hdiv. destruct (negb _); lia.
Qed.

(** *** What the destination holds *)

(** Block [j] of the source is in place in the destination. *)
Definition block_copied (dst : file) (j : Z) : Prop :=
  forall x : nat, j * B <= Z.of_nat x < (j + 1) * B -> Z.of_nat x < L ->
    dst !! x = src !! x.

(** Thread [tid] has copied its blocks below its counter; between its two
    calls its buffer holds the block at hand; once returned it has copied
    all its blocks. *)
Record Data (dst : file) (tid : nat) (t : thread) : Prop := {
  dt_done :
    forall k, 0 <= k -> k * (B * N) < i t ->
      block_copied dst (k * N + Z.of_nat tid);
  dt_stage :
    match at_stage t with
    | AT_LOOP_HEAD => True
    | AFTER_PREAD offset bytes_read =>
        bytes_read = Z.min B (L - offset)
        /\ forall j : nat, Z.of_nat j < bytes_read ->
             buffer t !! j = src !! (Z.to_nat offset + j)%nat
    | RETURNED =>
        forall k, 0 <= k -> block_copied dst (k * N + Z.of_nat tid)
    end
}.

Lemma data_mono (dst dst' : file) (tid : nat) (t : thread) :
  (forall x : nat, dst !! x = src !! x -> dst' !! x = src !! x) ->
  Data dst tid t -> Data dst' tid t.
Proof.
  intros Hmono [Hdone Hstage]. constructor.
  - intros k Hk Hlt x Hx HxL. apply Hmono, (Hdone k Hk Hlt x Hx HxL).
  - destruct (at_stage t); [exact I|exact Hstage|].
    intros k Hk x Hx HxL. apply Hmono, (Hstage k Hk x Hx HxL).
Qed.

Lemma block_past_end (dst : file) (j : Z) : L <= j * B -> block_copied dst j.
Proof. intros Hj x Hx HxL. lia. Qed.

(** A step of a thread under a kernel that cuts no transfer short. *)
Lemma thread_step_whole (dst : file) (tid : nat) (t : thread) (r : reply) :
  Prog tid t -> Data dst tid t -> (tid < NUM_THREADS)%nat ->
  at_stage t <> RETURNED ->
  whole B r ->
  L <= Z.of_nat (length dst) ->
  exists t' dst',
    thread_step src dst t r = Running (t', dst')
    /\ Data dst' tid t'
    /\ L <= Z.of_nat (length dst')
    /\ forall x : nat, dst !! x = src !! x -> dst' !! x = src !! x.
Proof.
  intros H HD Htid Hrun Hwhole Hlen.
  pose proof (pg_range _ _ H) as Hr. pose proof stride_pos as Hs.
  destruct r as [|cap]; [destruct Hwhole|]. cbn in Hwhole.
  unfold ThreadPoolCp.thread_step.
  destruct (at_stage t) as [|offset bytes_read|] eqn:Hat; [| |done].
  - rewrite (pg_size _ _ H).
    destruct (i t <? L) eqn:Hlt.
    + apply Z.ltb_lt in Hlt.
      rewrite (thread_offset tid t H Htid Hlt).
      destruct (L <? _) eqn:Hpast.
      * apply Z.ltb_lt in Hpast.
        eexists _, dst. split; [reflexivity|]. split; [|split; [exact Hlen|auto]].
        constructor; cbn; [apply (dt_done _ _ _ HD)|].
        intros k Hk.
        destruct (decide (k * (B * N) < i t)) as [Hlow|Hhigh];
          [apply (dt_done _ _ _ HD k Hk Hlow)|].
        apply block_past_end. nia.
      * apply Z.ltb_ge in Hpast. cbn [sys_pread].
        set (offset := i t + Z.of_nat tid * B) in *.
        assert (Hoff : 0 <= offset) by (subst offset; nia).
        assert (Hdata : take cap (pread src offset B) = pread src offset B).
        { apply take_ge. pose proof (pread_length src offset B Hoff ltac:(lia)). lia. }
        rewrite Hdata.
        eexists _, dst. split; [reflexivity|]. split; [|split; [exact Hlen|auto]].
        constructor; cbn; [apply (dt_done _ _ _ HD)|].
        rewrite pread_length by lia. split; [lia|].
        intros j Hj. rewrite fill_buffer_lookup.
        -- apply pread_lookup. lia.
        -- pose proof (pread_length src offset B Hoff ltac:(lia)). lia.
    + apply Z.ltb_ge in Hlt.
      eexists _, dst. split; [reflexivity|]. split; [|split; [exact Hlen|auto]].
      constructor; cbn; [apply (dt_done _ _ _ HD)|].
      intros k Hk.
      destruct (decide (k * (B * N) < i t)) as [Hlow|Hhigh];
        [apply (dt_done _ _ _ HD k Hk Hlow)|].
      apply block_past_end. nia.
  - pose proof (pg_busy _ _ H) as Hbusy. rewrite Hat in Hbusy.
    destruct Hbusy as (Hlt & Hoff & HoffL).
    pose proof (dt_stage _ _ _ HD) as Hbuf. rewrite Hat in Hbuf.
    destruct Hbuf as [Hn Hbuf].
    assert (Hoff0 : 0 <= offset) by (rewrite Hoff; nia).
    assert (Hn0 : 0 <= bytes_read <= B) by lia.
    assert (Hbuflen : bytes_read <= Z.of_nat (length (buffer t))).
    { destruct (decide (bytes_read = 0)) as [->|Hpos]; [lia|].
      assert (Hlast : is_Some (buffer t !! Z.to_nat (bytes_read - 1))).
      { rewrite Hbuf by lia. apply lookup_lt_is_Some. lia. }
      apply lookup_lt_is_Some in Hlast. lia. }
    cbn [sys_pwrite].
    set (out := take cap (take (Z.to_nat bytes_read) (buffer t))).
    assert (Hout : out = take (Z.to_nat bytes_read) (buffer t)).
    { subst out. apply take_ge. rewrite length_take. lia. }
    assert (Houtlen : Z.of_nat (length out) = bytes_read).
    { rewrite Hout, length_take. lia. }
    assert (Hgood : forall j : nat, (j < length out)%nat ->
               out !! j = src !! (Z.to_nat offset + j)%nat).
    { intros j Hj. rewrite Hout, lookup_take_lt by lia. apply Hbuf. lia. }
    rewrite Houtlen, Z.eqb_refl. cbn [negb].
    rewrite (next_counter tid t H Hlt).
    eexists _, _. split; [reflexivity|].
    assert (Hmono : forall x : nat, dst !! x = src !! x ->
               pwrite dst offset out !! x = src !! x).
    { intros x Hx. apply good_write_keeps; [lia|exact Hgood|exact Hx]. }
    assert (Hnew : forall k, 0 <= k -> k * (B * N) < i t + B * N ->
               block_copied (pwrite dst offset out) (k * N + Z.of_nat tid)).
    { intros k Hk Hnext.
      destruct (decide (k * (B * N) < i t)) as [Hlow|Hhigh].
      - intros x Hx HxL. apply Hmono, (dt_done _ _ _ HD k Hk Hlow x Hx HxL).
      - destruct (pg_stride _ _ H) as [c Hc].
        assert (k = c) by nia. subst k.
        intros x Hx HxL. apply good_write_new; [lia|exact Hgood|]. nia. }
    split; [|split; [|exact Hmono]].
    + constructor; cbn [i at_stage]; [exact Hnew|].
      destruct (negb (bytes_read =? B)) eqn:Hshort; [|exact I].
      apply negb_true_iff, Z.eqb_neq in Hshort.
      intros k Hk.
      destruct (decide (k * (B * N) < i t + B * N)) as [Hlow|Hhigh];
        [apply (Hnew k Hk Hlow)|].
      apply block_past_end. nia.
    + rewrite pwrite_length by lia. lia.
Qed.

(** *** The pool as a whole *)

Record Ready (m : machine) : Prop := {
  rd_src : src_file m = src;
  rd_count : length (threads m) = NUM_THREADS;
  rd_prog : forall tid t, threads m !! tid = Some t -> Prog tid t
}.

Record Copied (m : machine) : Prop := {
  cp_len : L <= Z.of_nat (length (dst_file m));
  cp_data : forall tid t, threads m !! tid = Some t -> Data (dst_file m) tid t
}.

Definition returned (t : thread) : Prop := at_stage t = RETURNED.

Lemma step_ready (m m' : machine) (tid : nat) (r : reply) :
  Ready m -> step m tid r = Some (Running m') ->
  Ready m' /\ total_left (threads m') < total_left (threads m).
Proof.
  intros H Hstep. unfold ThreadPoolCp.step in Hstep.
  destruct (threads m !! tid) as [t|] eqn:Ht; [|discriminate].
  destruct (decide (at_stage t = RETURNED)) as [|Hrun]; [discriminate|].
  pose proof (lookup_lt_Some _ _ _ Ht) as Htid. rewrite (rd_count _ H) in Htid.
  rewrite (rd_src _ H) in Hstep.
  destruct (thread_step src (dst_file m) t r) as [[t' dst']| |] eqn:Hts;
    try discriminate.
  injection Hstep as <-.
  destruct (thread_step_prog _ tid t t' dst' r (rd_prog _ H tid t Ht) Htid Hrun Hts)
    as [Hprog Hless].
  split.
  - constructor; cbn.
    + reflexivity.
    + rewrite length_insert. apply (rd_count _ H).
    + intros tid2 t2 Ht2. destruct (decide (tid = tid2)) as [<-|Hne].
      * rewrite list_lookup_insert_eq in Ht2 by (rewrite (rd_count _ H); exact Htid).
        injection Ht2 as <-. exact Hprog.
      * rewrite list_lookup_insert_ne in Ht2 by exact Hne.
        apply (rd_prog _ H tid2 t2 Ht2).
  - cbn. rewrite (total_left_insert _ _ _ _ Ht). lia.
Qed.

Lemma total_left_nonneg (m : machine) : Ready m -> 0 <= total_left (threads m).
Proof.
  intros H.
  assert (Hall : Forall (fun t => 0 <= steps_left t) (threads m)).
  { apply Forall_lookup. intros tid t Ht.
    apply (steps_left_nonneg tid), (rd_prog _ H tid t Ht). }
  unfold total_left. induction Hall as [|t ts Ht _ IH]; cbn [foldr]; lia.
Qed.

(** Whatever the kernel answers, every step of a run uses up one of the
    steps the pool has left. *)
Lemma run_ready (schedule : list (nat * reply)) (m m' : machine) :
  Ready m -> run schedule m = Some (Running m') ->
  Ready m'
  /\ total_left (threads m') + Z.of_nat (length schedule)
     <= total_left (threads m).
Proof.
  revert m. induction schedule as [|[tid r] schedule IH]; intros m H Hrun;
    cbn [ThreadPoolCp.run] in Hrun.
  - injection Hrun as <-. split; [exact H|cbn; lia].
  - destruct (step m tid r) as [[m1| |]|] eqn:Hstep; try discriminate.
    destruct (step_ready _ _ _ _ H Hstep) as [H1 Hless].
    destruct (IH m1 H1 Hrun) as [H' Hle]. split; [exact H'|].
    cbn [length]. lia.
Qed.

Lemma step_whole (m : machine) (tid : nat) (t : thread) (r : reply) :
  Ready m -> Copied m ->
  threads m !! tid = Some t -> at_stage t <> RETURNED ->
  whole B r ->
  exists m', step m tid r = Some (Running m') /\ Copied m'.
Proof.
  intros H HC Ht Hrun Hwhole.
  pose proof (lookup_lt_Some _ _ _ Ht) as Htid.
  destruct (thread_step_whole (dst_file m) tid t r (rd_prog _ H tid t Ht)
              (cp_data _ HC tid t Ht) ltac:(rewrite <- (rd_count _ H); exact Htid)
              Hrun Hwhole (cp_len _ HC))
    as (t' & dst' & Hts & HD & Hlen & Hmono).
  unfold ThreadPoolCp.step. rewrite Ht.
  destruct (decide (at_stage t = RETURNED)) as [Hret|_]; [contradiction|].
  rewrite (rd_src _ H), Hts.
  eexists. split; [reflexivity|].
  constructor; cbn; [exact Hlen|].
  intros tid2 t2 Ht2. destruct (decide (tid = tid2)) as [<-|Hne].
  - rewrite list_lookup_insert_eq in Ht2 by exact Htid.
    injection Ht2 as <-. exact HD.
  - rewrite list_lookup_insert_ne in Ht2 by exact Hne.
    apply (data_mono _ _ _ _ Hmono), (cp_data _ HC tid2 t2 Ht2).
Qed.

(** With a kernel that cuts no transfer short a run does not end the
    process, and keeps the blocks in place. *)
Lemma run_whole (schedule : list (nat * reply)) (m : machine)
    (o : outcome machine) :
  Ready m -> Copied m ->
  Forall (fun p => whole B p.2) schedule ->
  run schedule m = Some o ->
  exists m', o = Running m' /\ Ready m' /\ Copied m'.
Proof.
  intros H HC Hwhole. revert m H HC.
  induction Hwhole as [|[tid r] schedule Hr _ IH]; intros m H HC Hrun;
    cbn [ThreadPoolCp.run] in Hrun.
  - injection Hrun as <-. exists m. auto.
  - cbn in Hr.
    destruct (threads m !! tid) as [t|] eqn:Ht.
    2:{ unfold ThreadPoolCp.step in Hrun. rewrite Ht in Hrun. discriminate. }
    destruct (decide (at_stage t = RETURNED)) as [Hret|Hgo].
    { unfold ThreadPoolCp.step in Hrun. rewrite Ht in Hrun.
      destruct (decide (at_stage t = RETURNED)); [discriminate|contradiction]. }
    destruct (step_whole m tid t r H HC Ht Hgo Hr) as (m1 & Hstep & HC1).
    rewrite Hstep in Hrun.
    destruct (step_ready _ _ _ _ H Hstep) as [H1 _].
    apply (IH m1 H1 HC1 Hrun).
Qed.

(** Once every thread has returned the destination holds the source. *)
Lemma joined_destination (m : machine) :
  Ready m -> Copied m -> Forall returned (threads m) ->
  close_src_dst_files L (dst_file m) = src.
Proof.
  intros H HC Hall. pose proof (cp_len _ HC) as Hlen. pose proof stride_pos as Hs.
  unfold close_src_dst_files. rewrite ftruncate_take by lia.
  apply list_eq. intros x.
  destruct (decide (Z.of_nat x < L)) as [Hin|Hout].
  2:{ rewrite lookup_take_ge by lia. symmetry. apply lookup_ge_None. lia. }
  rewrite lookup_take_lt by lia.
  set (j := Z.of_nat x / B).
  assert (Hj : 0 <= j) by (apply Z.div_pos; lia).
  assert (HN : 0 < N) by lia.
  pose proof (Z.mod_pos_bound j N HN) as Hmod.
  pose proof (Z.div_mod j N ltac:(lia)) as Hdm.
  pose proof (Z.div_mod (Z.of_nat x) B ltac:(lia)) as Hxdm.
  pose proof (Z.mod_pos_bound (Z.of_nat x) B block_size_pos) as Hxmod.
  fold j in Hxdm.
  assert (Htid : (Z.to_nat (j mod N) < length (threads m))%nat)
    by (rewrite (rd_count _ H); lia).
  destruct (lookup_lt_is_Some_2 _ _ Htid) as [t Ht].
  pose proof (Forall_lookup_1 _ _ _ _ Hall Ht) as Hret.
  pose proof (dt_stage _ _ _ (cp_data _ HC _ t Ht)) as Hst.
  unfold returned in Hret. rewrite Hret in Hst.
  apply (Hst (j / N)).
  - apply Z.div_pos; lia.
  - rewrite Z2Nat.id by lia. nia.
  - exact Hin.
Qed.

(** From every state the pool can be brought to the return of all its
    threads. *)
Lemma pool_run_completes (n : nat) (m : machine) :
  Ready m -> Copied m ->
  total_left (threads m) <= Z.of_nat n ->
  exists schedule m',
    Forall (fun p => whole B p.2) schedule
    /\ run schedule m = Some (Running m')
    /\ Forall returned (threads m').
Proof.
  revert m. induction n as [|n IH]; intros m H HC Hleft;
    destruct (decide (Forall returned (threads m))) as [Hall|Hsome];
    try (exists [], m; split; [constructor|split; [reflexivity|exact Hall]]).
  - exfalso. apply not_Forall_Exists in Hsome; [|intros t; unfold returned; apply _].
    apply Exists_exists in Hsome. destruct Hsome as (t & Hin & Hgo).
    apply list_elem_of_lookup in Hin. destruct Hin as [tid Ht].
    destruct (step_whole m tid t (Moves (Z.to_nat B)) H HC Ht Hgo
                ltac:(cbn; lia)) as (m1 & Hstep & _).
    destruct (step_ready _ _ _ _ H Hstep) as [H1 Hless].
    pose proof (total_left_nonneg m1 H1). lia.
  - apply not_Forall_Exists in Hsome; [|intros t; unfold returned; apply _].
    apply Exists_exists in Hsome. destruct Hsome as (t & Hin & Hgo).
    apply list_elem_of_lookup in Hin. destruct Hin as [tid Ht].
    destruct (step_whole m tid t (Moves (Z.to_nat B)) H HC Ht Hgo
                ltac:(cbn; lia)) as (m1 & Hstep & HC1).
    destruct (step_ready _ _ _ _ H Hstep) as [H1 Hless].
    destruct (IH m1 H1 HC1 ltac:(lia)) as (schedule & m' & Hwhole & Hrun & Hall).
    exists ((tid, Moves (Z.to_nat B)) :: schedule), m'.
    split; [constructor; [cbn; lia|exact Hwhole]|].
    split; [|exact Hall]. cbn [ThreadPoolCp.run]. rewrite Hstep. exact Hrun.
Qed.

(** *** The state the threads start in *)

Lemma source_size : open_src_file src = L.
Proof.
  pose proof stride_pos. unfold open_src_file. apply wrap_u32_small. lia.
Qed.

Lemma boot_thread (mems : list (list byte)) (tid : nat) (t : thread) :
  threads (boot NUM_THREADS src mems) !! tid = Some t ->
  t = mkThread (Z.of_nat tid) (default [] (mems !! tid)) L 0 AT_LOOP_HEAD.
Proof.
  unfold boot. cbn [threads]. rewrite source_size.
  rewrite list_lookup_fmap. intros Ht.
  destruct (seq 0 NUM_THREADS !! tid) as [k|] eqn:Hk; [|discriminate].
  apply lookup_seq in Hk. destruct Hk as [-> _]. cbn in Ht.
  injection Ht as <-. reflexivity.
Qed.

Lemma pool_boot_ready (mems : list (list byte)) : Ready (boot NUM_THREADS src mems).
Proof.
  pose proof stride_pos as Hs.
  constructor.
  - reflexivity.
  - unfold boot. cbn [threads]. rewrite length_fmap, length_seq. reflexivity.
  - intros tid t Ht. apply boot_thread in Ht. subst t.
    assert (0 <= rounds * (B * N)).
    { unfold rounds. assert (0 <= L / (B * N)) by (apply Z.div_pos; lia). nia. }
    constructor; cbn;
      first [reflexivity|apply Z.divide_0_r|exact I|lia].
Qed.

Lemma boot_copied (mems : list (list byte)) : Copied (boot NUM_THREADS src mems).
Proof.
  pose proof stride_pos as Hs.
  constructor.
  - unfold boot. cbn [dst_file]. rewrite source_size, allocated_length. lia.
  - intros tid t Ht. apply boot_thread in Ht. subst t.
    constructor; cbn; [|exact I]. intros k Hk Hlt. nia.
Qed.

Lemma fresh_total (mems : list (list byte)) (k n : nat) :
  total_left ((fun k => mkThread (Z.of_nat k) (default [] (mems !! k)) L 0
                          AT_LOOP_HEAD) <$> seq k n)
  = Z.of_nat n * (2 * rounds + 1).
Proof.
  pose proof stride_pos as Hs. unfold total_left.
  revert k. induction n as [|n IH]; intros k; cbn [seq fmap list_fmap foldr];
    [lia|].
  rewrite IH. unfold steps_left at 1. cbn [at_stage i].
  rewrite Z.div_0_l by lia. lia.
Qed.

Lemma boot_total (mems : list (list byte)) :
  total_left (threads (boot NUM_THREADS src mems)) = N * (2 * rounds + 1).
Proof.
  unfold boot. cbn [threads]. rewrite source_size. apply fresh_total.
Qed.

End Run.
End ThreadPoolRun.



(** X5.  Whatever the kernel answers and however the threads are interleaved,
    the threads of the pool make at most
    [N * (2 * (length src / (B * N)) + 3)] steps between them: no thread
    loops for ever. *)
Theorem thread_pool_run_is_bounded (B : Z) (N : nat) (src : file)
    (mems : list (list byte)) (schedule : list (nat * reply))
    (m : ThreadPoolCp.machine) :
  0 < B -> (0 < N)%nat ->
  Z.of_nat (length src) + B * Z.of_nat N <= 2 ^ 32 ->
  ThreadPoolCp.run B N schedule (ThreadPoolCp.boot N src mems)
  = Some (Running m) ->
  Z.of_nat (length schedule)
  <= Z.of_nat N * (2 * (Z.of_nat (length src) / (B * Z.of_nat N)) + 3).
Proof.
  intros HB HN Hfit Hrun.
  destruct (ThreadPoolRun.run_ready B N src HB HN Hfit schedule _ m
              (ThreadPoolRun.pool_boot_ready B N src HB HN Hfit mems) Hrun)
    as [H' Hle].
  pose proof (ThreadPoolRun.total_left_nonneg B N src HB HN Hfit m H') as Hpos.
  rewrite (ThreadPoolRun.boot_total B N src HB HN Hfit) in Hle.
  unfold ThreadPoolRun.rounds in Hle. lia.
Qed.

Lemma thread_pool_run_is_bounded_witness :
  Z.of_nat (length TpSamples.pool_schedule10)
  <= Z.of_nat 2 * (2 * (Z.of_nat (length Samples.src10) / (4 * Z.of_nat 2)) + 3).
Proof.
  assert (Hrun : exists m,
             ThreadPoolCp.run 4 2 TpSamples.pool_schedule10
               (ThreadPoolCp.boot 2 Samples.src10 Samples.mem2x4)
             = Some (Running m))
    by (eexists; vm_compute; reflexivity).
  destruct Hrun as [m Hrun].
  apply (thread_pool_run_is_bounded 4 2 Samples.src10 Samples.mem2x4
           TpSamples.pool_schedule10 m);
    [lia|lia|vm_compute; discriminate|exact Hrun].
Defined.

(** X6.  On a source that is not empty the thread pool can always run to its
    end: a schedule exists on which every thread returns and [main] ends
    with the destination equal to the source.  The size of the source
    leaves room for one more stride of the 32-bit loop counter. *)
Theorem thread_pool_copy_completes (B : Z) (N : nat) (src : file)
    (mems : list (list byte)) :
  0 < B -> (0 < N)%nat ->
  (0 < length src)%nat ->
  Z.of_nat (length src) + B * Z.of_nat N <= 2 ^ 32 ->
  exists schedule,
    ThreadPoolCp.main B N src mems schedule = Some (Running src).
Proof.
  intros HB HN Hsome Hfit.
  pose proof (ThreadPoolRun.pool_boot_ready B N src HB HN Hfit mems) as H0.
  pose proof (ThreadPoolRun.boot_copied B N src HB HN Hfit mems) as HC0.
  pose proof (ThreadPoolRun.total_left_nonneg B N src HB HN Hfit _ H0) as Hpos.
  pose proof (ThreadPoolRun.source_size B N src HB HN Hfit) as Hsize.
  destruct (ThreadPoolRun.pool_run_completes B N src HB HN Hfit
              (Z.to_nat (ThreadPoolRun.total_left B N src
                           (ThreadPoolCp.threads (ThreadPoolCp.boot N src mems))))
              _ H0 HC0 ltac:(lia))
    as (schedule & m' & Hwhole & Hrun & Hall).
  exists schedule. unfold ThreadPoolCp.main.
  rewrite open_dst_file_ok by lia. rewrite Hrun.
  destruct (ThreadPoolRun.run_whole B N src HB HN Hfit schedule _ _ H0 HC0
              Hwhole Hrun) as (m2 & Heq & H' & HC').
  injection Heq as <-.
  rewrite bool_decide_eq_true_2 by exact Hall.
  do 2 f_equal.
  rewrite Hsize.
  apply (ThreadPoolRun.joined_destination B N src HB HN Hfit m' H' HC' Hall).
Qed.

Lemma thread_pool_copy_completes_witness :
  exists schedule,
    ThreadPoolCp.main 4 2 Samples.src10 Samples.mem2x4 schedule
    = Some (Running Samples.src10).
Proof.
  apply (thread_pool_copy_completes 4 2 Samples.src10 Samples.mem2x4);
    [lia|lia|cbn; lia|vm_compute; discriminate].
Defined.

Module ThreadPoolWrap.
Import ThreadPoolCp.

Section Wrap.

Variable READ_BLOCK_SIZE : Z.
Variable NUM_THREADS : nat.
Variable src : file.

#[local] Abbreviation B := READ_BLOCK_SIZE.
#[local] Abbreviation N := (Z.of_nat NUM_THREADS).
#[local] Abbreviation L := (Z.of_nat (length src)).

Hypothesis block_size_pos : 0 < B.
Hypothesis some_thread : (0 < NUM_THREADS)%nat.
Hypothesis stride_divides : (B * N | 2 ^ 32).
Hypothesis near_the_top : 2 ^ 32 - B * N + B <= L < 2 ^ 32.

#[local] Abbreviation thread_step := (thread_step READ_BLOCK_SIZE NUM_THREADS).
#[local] Abbreviation step := (step READ_BLOCK_SIZE NUM_THREADS).
#[local] Abbreviation run := (run READ_BLOCK_SIZE NUM_THREADS).

(** Between its calls a thread holds in its buffer as many bytes as its
    [pread] returned. *)
Definition sound (t : thread) : Prop :=
  match at_stage t with
  | AFTER_PREAD _ bytes_read =>
      0 <= bytes_read <= B /\ bytes_read <= Z.of_nat (length (buffer t))
  | _ => True
  end.

(** Thread 0 is at the head of the loop or has read a whole block, its
    counter a multiple of the stride. *)
Record Spinning (t : thread) : Prop := {
  sp_id : thread_i t = 0;
  sp_size : src_size t = L;
  sp_stride : (B * N | i t);
  sp_range : 0 <= i t < 2 ^ 32;
  sp_stage :
    match at_stage t with
    | AT_LOOP_HEAD => True
    | AFTER_PREAD offset bytes_read => offset = i t /\ bytes_read = B
    | RETURNED => False
    end
}.

Lemma wrap_stride_pos : 0 < B * N.
Proof. nia. Qed.

Lemma below_top (a : Z) : (B * N | a) -> 0 <= a < 2 ^ 32 -> a + B * N <= 2 ^ 32.
Proof.
  intros [c ->] Ha. destruct stride_divides as [d Hd]. pose proof wrap_stride_pos.
  rewrite Hd in *. assert (c < d) by nia. nia.
Qed.

Lemma wrap_stride (a : Z) : (B * N | a) -> (B * N | wrap_u32 a).
Proof.
  intros Ha. unfold wrap_u32. rewrite Z.mod_eq by lia.
  apply Z.divide_sub_r; [exact Ha|].
  apply Z.divide_mul_l. exact stride_divides.
Qed.

Lemma thread_step_sound (dst : file) (t : thread) (r : reply) :
  sound t -> whole B r ->
  exists t' dst', thread_step src dst t r = Running (t', dst') /\ sound t'.
Proof.
  intros Hs Hwhole. destruct r as [|cap]; [destruct Hwhole|]. cbn in Hwhole.
  unfold ThreadPoolCp.thread_step, sound in *.
  destruct (at_stage t) as [|offset bytes_read|] eqn:Hat.
  - destruct (i t <? src_size t); [|eexists _, _; split; [reflexivity|exact I]].
    destruct (src_size t <? _); [eexists _, _; split; [reflexivity|exact I]|].
    cbn [sys_pread]. eexists _, _. split; [reflexivity|]. cbn.
    unfold fill_buffer. rewrite length_app.
    split; [|lia]. split; [lia|].
    rewrite length_take. unfold pread. rewrite length_take. lia.
  - cbn [sys_pwrite]. destruct Hs as [Hn Hbuf].
    assert (Hout : Z.of_nat (length (take cap (take (Z.to_nat bytes_read) (buffer t))))
                   = bytes_read) by (rewrite !length_take; lia).
    rewrite Hout, Z.eqb_refl. cbn [negb].
    eexists _, _. split; [reflexivity|]. cbn. destruct (negb _); exact I.
  - eexists _, _. split; [reflexivity|]. rewrite Hat. exact I.
Qed.

Lemma thread_step_spins (dst dst' : file) (t t' : thread) (r : reply) :
  Spinning t -> whole B r ->
  thread_step src dst t r = Running (t', dst') ->
  Spinning t'.
Proof.
  intros H Hwhole Hstep. destruct r as [|cap]; [destruct Hwhole|]. cbn in Hwhole.
  pose proof (sp_range _ H) as Hr. pose proof wrap_stride_pos as Hs.
  pose proof (below_top _ (sp_stride _ H) Hr) as Htop.
  pose proof (sp_stage _ H) as Hst.
  unfold ThreadPoolCp.thread_step in Hstep.
  rewrite (sp_id _ H), (sp_size _ H) in Hstep.
  destruct (at_stage t) as [|offset bytes_read|] eqn:Hat; [| |destruct Hst].
  - assert (Hlt : (i t <? L) = true) by (apply Z.ltb_lt; lia).
    rewrite Hlt in Hstep.
    assert (Hoff : wrap_u64 (i t + wrap_u64 (0 * B)) = i t).
    { rewrite Z.mul_0_l. change (wrap_u64 0) with 0. rewrite Z.add_0_r.
      apply wrap_u64_small.
      assert (2 ^ 32 < 2 ^ 64) by (apply Z.pow_lt_mono_r; lia). lia. }
    rewrite Hoff in Hstep.
    assert (Hin : (L <? i t) = false) by (apply Z.ltb_ge; lia).
    rewrite Hin in Hstep. cbn [sys_pread] in Hstep.
    injection Hstep as <- <-.
    destruct H. constructor; cbn; try assumption; try reflexivity.
    split; [reflexivity|].
    rewrite length_take, Nat2Z.inj_min, pread_length by lia. lia.
  - destruct Hst as [-> ->]. cbn [sys_pwrite] in Hstep.
    destruct (negb (_ =? B)); [discriminate|].
    rewrite Z.eqb_refl in Hstep. cbn [negb] in Hstep.
    injection Hstep as <- <-.
    destruct H. constructor; cbn; try assumption; try reflexivity.
    + replace (wrap_u32 (i t + wrap_u32 (B * N))) with (wrap_u32 (i t + B * N))
        by (unfold wrap_u32; symmetry; apply Zplus_mod_idemp_r).
      apply wrap_stride. apply Z.divide_add_r; [assumption|apply Z.divide_refl].
    + unfold wrap_u32. apply Z.mod_pos_bound. lia.
Qed.

(** What a run keeps: the source, every thread sound, thread 0
    spinning. *)
Record Stuck (m : machine) : Prop := {
  st_src : src_file m = src;
  st_sound : Forall sound (threads m);
  st_first : exists t, threads m !! 0%nat = Some t /\ Spinning t
}.

Lemma step_stuck (m : machine) (tid : nat) (r : reply) (o : outcome machine) :
  Stuck m -> whole B r ->
  step m tid r = Some o ->
  exists m', o = Running m' /\ Stuck m'.
Proof.
  intros H Hwhole Hstep. unfold ThreadPoolCp.step in Hstep.
  destruct (threads m !! tid) as [t|] eqn:Ht; [|discriminate].
  destruct (decide (at_stage t = RETURNED)); [discriminate|].
  rewrite (st_src _ H) in Hstep.
  pose proof (Forall_lookup_1 _ _ _ _ (st_sound _ H) Ht) as Hs.
  destruct (thread_step_sound (dst_file m) t r Hs Hwhole)
    as (t' & dst' & Hts & Hs').
  rewrite Hts in Hstep. injection Hstep as <-.
  eexists. split; [reflexivity|].
  pose proof (lookup_lt_Some _ _ _ Ht) as Htid.
  constructor; cbn.
  - reflexivity.
  - apply Forall_insert; [apply (st_sound _ H)|exact Hs'].
  - destruct (st_first _ H) as (t0 & Ht0 & Hspin).
    destruct (decide (tid = 0%nat)) as [->|Hne].
    + rewrite Ht in Ht0. injection Ht0 as ->.
      exists t'. split; [apply list_lookup_insert_eq; exact Htid|].
      apply (thread_step_spins _ _ _ _ _ Hspin Hwhole Hts).
    + exists t0. split; [|exact Hspin].
      rewrite list_lookup_insert_ne by exact Hne. exact Ht0.
Qed.

Lemma run_stuck (schedule : list (nat * reply)) (m : machine)
    (o : outcome machine) :
  Stuck m -> Forall (fun p => whole B p.2) schedule ->
  run schedule m = Some o ->
  exists m', o = Running m' /\ Stuck m'.
Proof.
  intros H Hwhole. revert m H.
  induction Hwhole as [|[tid r] schedule Hr _ IH]; intros m H Hrun;
    cbn [ThreadPoolCp.run] in Hrun.
  - injection Hrun as <-. exists m. auto.
  - destruct (step m tid r) as [o1|] eqn:Hstep; [|discriminate].
    destruct (step_stuck m tid r o1 H Hr Hstep) as (m1 & -> & H1).
    apply (IH m1 H1 Hrun).
Qed.

Lemma boot_stuck (mems : list (list byte)) : Stuck (boot NUM_THREADS src mems).
Proof.
  assert (Hsize : open_src_file src = L)
    by (unfold open_src_file; apply wrap_u32_small; lia).
  constructor.
  - reflexivity.
  - unfold boot. cbn [threads]. apply Forall_fmap, Forall_forall.
    intros k _. exact I.
  - unfold boot. cbn [threads]. rewrite Hsize.
    eexists. split.
    + rewrite list_lookup_fmap.
      replace (seq 0 NUM_THREADS !! 0%nat) with (Some 0%nat); [reflexivity|].
      symmetry. apply lookup_seq. lia.
    + constructor; cbn;
        first [reflexivity|lia|apply Z.divide_0_r|exact I].
Qed.

End Wrap.
End ThreadPoolWrap.

(** X7.  A source whose size lies in the last stride below 4 GiB, past the
    first block of that stride: after the block at [2 ^ 32 - B * N] the
    32-bit loop counter of thread 0 is back at 0 and the thread starts
    over.  The thread never returns, so [main] never gets past joining
    it, whatever the schedule. *)
Theorem thread_pool_hangs_at_the_top (B : Z) (N : nat) (src : file)
    (mems : list (list byte)) (schedule : list (nat * reply)) :
  0 < B -> (0 < N)%nat ->
  (B * Z.of_nat N | 2 ^ 32) ->
  2 ^ 32 - B * Z.of_nat N + B <= Z.of_nat (length src) < 2 ^ 32 ->
  Forall (fun p => whole B p.2) schedule ->
  ThreadPoolCp.main B N src mems schedule = None.
Proof.
  intros HB HN Hdiv Htop Hwhole. unfold ThreadPoolCp.main.
  assert (Hpos : 0 < open_src_file src).
  { unfold open_src_file. rewrite wrap_u32_small by lia.
    assert (Htwo : 0 < 2 ^ 32) by lia.
    pose proof (Z.divide_pos_le _ _ Htwo Hdiv). lia. }
  rewrite open_dst_file_ok by exact Hpos.
  destruct (ThreadPoolCp.run B N schedule _) as [o|] eqn:Hrun; [|reflexivity].
  destruct (ThreadPoolWrap.run_stuck B N src HB HN Hdiv Htop schedule _ o
              (ThreadPoolWrap.boot_stuck B N src HN Htop mems) Hwhole Hrun)
    as (m' & -> & H').
  case_bool_decide as Hall; [|reflexivity]. exfalso.
  destruct (ThreadPoolWrap.st_first _ _ _ _ H') as (t0 & Ht0 & Hspin).
  pose proof (Forall_lookup_1 _ _ _ _ Hall Ht0) as Hret. cbn in Hret.
  pose proof (ThreadPoolWrap.sp_stage _ _ _ _ Hspin) as Hst.
  rewrite Hret in Hst. exact Hst.
Qed.

Lemma thread_pool_hangs_at_the_top_witness :
  ThreadPoolCp.main 512 8 (replicate (Z.to_nat (2 ^ 32 - 3584)) x00) []
    [(0%nat, Moves 512); (0%nat, Moves 512); (7%nat, Moves 512)]
  = None.
Proof.
  apply (thread_pool_hangs_at_the_top 512 8);
    [lia|lia|exists (2 ^ 20); reflexivity|
    |repeat (apply Forall_cons_2; [cbn; lia|]); apply Forall_nil_2].
  rewrite length_replicate, Z2Nat.id by lia. lia.
Defined.

(** ** The io_uring driver: what a run never does *)

Module IoUringSafety.
Import IoUring IoUringSteps IoUringRun.

#[local] Arguments in_flight : simpl never.
#[local] Arguments tokens : simpl never.

(** The operations under way that name cell [c]: entries queued or
    accepted, and completions posted and not yet seen. *)
Definition operations_on (m : machine) (c : nat) : nat :=
  (length (filter (fun e => user_data e = Z.of_nat c)
             (submitted m ++ sq (io_ring (status m))))
   + length (filter (fun q => cqe_user_data q = Z.of_nat c)
               (cq (io_ring (status m)))))%nat.

Lemma count_never (l : list Z) (x : Z) :
  x ∉ l -> length (filter (fun y => y = x) l) = 0%nat.
Proof.
  induction l as [|y l IH]; intros Hx; [reflexivity|].
  apply not_elem_of_cons in Hx. destruct Hx as [Hne Hx].
  rewrite filter_cons. destruct (decide (y = x)) as [->|_]; [contradiction|].
  apply IH. exact Hx.
Qed.

Lemma count_once (l : list Z) (x : Z) :
  NoDup l -> x ∈ l -> length (filter (fun y => y = x) l) = 1%nat.
Proof.
  intros Hnd. induction Hnd as [|y l Hy Hnd IH]; intros Hx; [inversion Hx|].
  rewrite filter_cons. destruct (decide (y = x)) as [->|Hne].
  - cbn [length]. f_equal. apply count_never. exact Hy.
  - apply elem_of_cons in Hx. destruct Hx as [->|Hx]; [contradiction|].
    apply IH. exact Hx.
Qed.

Lemma count_fmap {A : Type} (f : A -> Z) (l : list A) (x : Z) :
  length (filter (fun a => f a = x) l)
  = length (filter (fun y => y = x) (f <$> l)).
Proof.
  induction l as [|a l IH]; [reflexivity|].
  rewrite fmap_cons, !filter_cons.
  destruct (decide (f a = x)); cbn [length]; rewrite IH; reflexivity.
Qed.

Lemma operations_on_tokens (m : machine) (c : nat) :
  operations_on m c
  = length (filter (fun y => y = Z.of_nat c)
              (tokens (submitted m) (sq (io_ring (status m)))
                      (cq (io_ring (status m))))).
Proof.
  unfold operations_on.
  rewrite (count_fmap user_data), (count_fmap cqe_user_data), tokens_split.
  rewrite (filter_app _ (user_data <$> _)), length_app. reflexivity.
Qed.

Lemma token_stays (sub sqes extra : list io_uring_sqe) (q : io_uring_cqe)
    (rest : list io_uring_cqe) (x : Z) :
  x ∈ tokens sub sqes (q :: rest) -> x <> cqe_user_data q ->
  x ∈ tokens sub (sqes ++ extra) rest.
Proof.
  unfold tokens. rewrite fmap_cons, fmap_app, !elem_of_app, elem_of_cons.
  intros [H|[H|[H|H]]] Hne;
    [left; exact H|right; left; left; exact H|contradiction|right; right; exact H].
Qed.

Section Safety.

Variable READ_BLOCK_SIZE : Z.
Variable QUEUE_SIZE : nat.
Variable S : Z.

Hypothesis block_size_bounds : 0 < READ_BLOCK_SIZE < 2 ^ 31.
Hypothesis queue_size_bound : Z.of_nat QUEUE_SIZE < 2 ^ 16.
Hypothesis source_size_bounds : 0 <= S < 2 ^ 32.

#[local] Abbreviation Inv := (Inv READ_BLOCK_SIZE QUEUE_SIZE S).
#[local] Abbreviation step := (step READ_BLOCK_SIZE).
#[local] Abbreviation handle_cqe := (handle_cqe READ_BLOCK_SIZE).
#[local] Abbreviation reap_cqes := (reap_cqes READ_BLOCK_SIZE).

(** Every busy cell has an operation under way. *)
Definition tracked (m : machine) : Prop :=
  forall c b, block_statuses (status m) !! c = Some b -> busy b ->
    Z.of_nat c ∈ tokens (submitted m) (sq (io_ring (status m)))
                        (cq (io_ring (status m))).

(** An operation under way names a busy cell. *)
Lemma token_busy (m : machine) (x : Z) :
  Inv m ->
  x ∈ tokens (submitted m) (sq (io_ring (status m))) (cq (io_ring (status m))) ->
  exists c b, x = Z.of_nat c /\ block_statuses (status m) !! c = Some b /\ busy b.
Proof.
  intros H Hx. rewrite tokens_split in Hx. apply elem_of_app in Hx.
  destruct Hx as [Hx|Hx]; apply list_elem_of_fmap in Hx.
  - destruct Hx as (e & -> & He).
    destruct (inv_sqes _ _ _ _ H e He) as (b & Hb & Hud & _ & _ & Hst).
    exists (buf_index e), b. split; [exact Hud|]. split; [exact Hb|].
    unfold busy. destruct (opcode e); [rewrite Hst|destruct Hst as [-> _]];
      discriminate.
  - destruct Hx as (q & -> & Hq).
    destruct (inv_cqes _ _ _ _ H q Hq) as (c & b & Hud & Hb & Hst).
    exists c, b. split; [exact Hud|]. split; [exact Hb|].
    unfold busy. destruct (stage b); [contradiction|discriminate..].
Qed.

Lemma tracked_step (m m' : machine) :
  Inv m -> tracked m -> step m m' -> tracked m'.
Proof.
  intros H HT Hstep. destruct Hstep as [m|m a m' Hk|m q rest st' Hcq Hhandle].
  - intros c b Hb Hbusy. specialize (HT c b Hb Hbusy).
    unfold tokens in *. cbn [io_uring_submit submitted status io_ring sq cq].
    cbn [fmap list_fmap app]. rewrite fmap_app, <- app_assoc. exact HT.
  - assert (Hpost : forall m1 i e r,
               status m1 = status m -> submitted m1 = submitted m ->
               submitted m !! i = Some e ->
               tracked (post_cqe m1 i (mkCqe (user_data e) r))).
    { intros m1 i e r Hst Hsub Hi c b Hb Hbusy. cbn in Hb |- *.
      rewrite Hst in Hb |- *. rewrite Hsub.
      rewrite (tokens_post_cqe _ _ _ _ _ _ Hi). apply (HT c b Hb Hbusy). }
    destruct a as [i|i errno]; cbn in Hk;
      destruct (submitted m !! i) as [e|] eqn:Hi; try discriminate.
    + destruct (perform m e) as [m1 r] eqn:Hp. injection Hk as <-.
      destruct (perform_keeps _ _ _ _ Hp) as [Hst Hsub].
      apply Hpost; assumption.
    + destruct (0 <? errno); [|discriminate]. injection Hk as <-.
      apply Hpost; done.
  - destruct (handle_cqe_inv READ_BLOCK_SIZE QUEUE_SIZE S queue_size_bound
                m q rest H Hcq)
      as (c & b & Hud & Hb & Hbusy & _ & Heq).
    rewrite Heq in Hhandle.
    destruct (res q <? 0) eqn:Hres; [discriminate|].
    pose proof (lookup_lt_Some _ _ _ Hb) as Hlt.
    assert (Hother : forall c2 b2, c <> c2 ->
               block_statuses (status m) !! c2 = Some b2 -> busy b2 ->
               forall extra,
                 Z.of_nat c2 ∈ tokens (submitted m)
                                      (sq (io_ring (status m)) ++ extra) rest).
    { intros c2 b2 Hne Hb2 Hbusy2 extra.
      apply (token_stays _ _ _ q); [|rewrite Hud; lia].
      rewrite <- Hcq. apply (HT c2 b2 Hb2 Hbusy2). }
    destruct (stage b) eqn:Hst.
    + exfalso. apply Hbusy. exact Hst.
    + injection Hhandle as <-. intros c1 b1 Hb1 Hbusy1.
      cbn in Hb1 |- *. rewrite Hcq. cbn [tail].
      destruct (decide (c = c1)) as [<-|Hne].
      * apply (token_new _ _ {| user_data := Z.of_nat c |}).
      * rewrite list_lookup_insert_ne in Hb1 by exact Hne.
        apply (Hother c1 b1 Hne Hb1 Hbusy1).
    + injection Hhandle as <-.
      set (st1 := finish_write_request (status m) c) in *.
      set (b0 := {| stage := BLOCK_IDLE; offset := offset b; size := size b |}).
      assert (Hbs1 : block_statuses st1 = <[c := b0]> (block_statuses (status m))).
      { subst st1. unfold IoUring.finish_write_request. cbn [block_statuses].
        rewrite (list_lookup_total_correct _ _ _ Hb). reflexivity. }
      assert (Hring1 : io_ring st1 = io_ring (status m)) by reflexivity.
      clearbody st1.
      destruct (decide (wrap_u32 (src_size st1 - src_off st1) = 0)) as [Hend|Hmore].
      * rewrite (prepare_read_request_idle _ _ _ Hend).
        intros c1 b1 Hb1 Hbusy1. cbn in Hb1 |- *.
        rewrite Hring1, Hcq. cbn [tail]. rewrite Hbs1 in Hb1.
        destruct (decide (c = c1)) as [<-|Hne].
        { rewrite list_lookup_insert_eq in Hb1 by exact Hlt.
          injection Hb1 as <-. exfalso. apply Hbusy1. reflexivity. }
        rewrite list_lookup_insert_ne in Hb1 by exact Hne.
        rewrite <- (app_nil_r (sq (io_ring (status m)))).
        apply (Hother c1 b1 Hne Hb1 Hbusy1).
      * rewrite (prepare_read_request_busy _ _ _ Hmore).
        intros c1 b1 Hb1 Hbusy1. cbn in Hb1 |- *.
        rewrite Hring1, Hcq. cbn [tail]. rewrite Hbs1 in Hb1.
        destruct (decide (c = c1)) as [<-|Hne].
        { apply (token_new _ _ {| user_data := Z.of_nat c |}). }
        rewrite !list_lookup_insert_ne in Hb1 by exact Hne.
        apply (Hother c1 b1 Hne Hb1 Hbusy1).
Qed.

Lemma tracked_steps (m m' : machine) :
  Inv m -> tracked m -> rtc step m m' -> tracked m'.
Proof.
  intros H HT Hsteps. induction Hsteps as [|m1 m2 m3 Hstep _ IH]; [exact HT|].
  apply IH.
  - apply (inv_step _ _ _ block_size_bounds queue_size_bound source_size_bounds
             _ _ H Hstep).
  - eapply tracked_step; eassumption.
Qed.

Lemma token_after (sub sqes extra : list io_uring_sqe)
    (cqes : list io_uring_cqe) (x : Z) :
  x ∈ tokens sub sqes cqes -> x ∈ tokens sub (sqes ++ extra) cqes.
Proof.
  unfold tokens. rewrite fmap_app, !elem_of_app.
  intros [H|[H|H]]; [left; exact H|right; left; left; exact H|right; right; exact H].
Qed.

Lemma tracked_prepare_read (m : machine) (c : nat) (b : BlockStatus) :
  tracked m ->
  block_statuses (status m) !! c = Some b ->
  tracked (set_status m (prepare_read_request READ_BLOCK_SIZE (status m) c)).
Proof.
  intros HT Hb.
  destruct (decide (wrap_u32 (src_size (status m) - src_off (status m)) = 0))
    as [Hend|Hmore].
  - rewrite (prepare_read_request_idle _ _ _ Hend), set_status_id. exact HT.
  - rewrite (prepare_read_request_busy _ _ _ Hmore).
    intros c1 b1 Hb1 Hbusy1. cbn in Hb1 |- *.
    destruct (decide (c = c1)) as [<-|Hne].
    + apply (token_new _ _ {| user_data := Z.of_nat c |}).
    + rewrite list_lookup_insert_ne in Hb1 by exact Hne.
      apply token_after, (HT c1 b1 Hb1 Hbusy1).
Qed.

Lemma tracked_start_reads (cells : list nat) (m : machine) :
  tracked m ->
  Forall (fun c => (c < length (block_statuses (status m)))%nat) cells ->
  tracked (set_status m
             (foldl (prepare_read_request READ_BLOCK_SIZE) (status m) cells)).
Proof.
  revert m. induction cells as [|c cells IH]; intros m HT Hcells.
  - cbn. rewrite set_status_id. exact HT.
  - apply Forall_cons in Hcells. destruct Hcells as [Hc Hcells].
    destruct (lookup_lt_is_Some_2 _ _ Hc) as [b Hb].
    pose proof (tracked_prepare_read m c b HT Hb) as H1.
    cbn [foldl].
    apply (IH (set_status m (prepare_read_request READ_BLOCK_SIZE (status m) c)))
      in H1; [exact H1|].
    cbn [status set_status].
    assert (Hlen : length (block_statuses
                             (prepare_read_request READ_BLOCK_SIZE (status m) c))
                   = length (block_statuses (status m))).
    { unfold IoUring.prepare_read_request. destruct (_ =? 0); [reflexivity|].
      cbn. apply length_insert. }
    rewrite Hlen. exact Hcells.
Qed.

Lemma tracked_boot (src_fd0 dst_fd0 : Z) (src : file) (mem : list (list byte)) :
  tracked (boot READ_BLOCK_SIZE QUEUE_SIZE src_fd0 dst_fd0 src S mem).
Proof.
  set (m0 := {| status := init_copying_status QUEUE_SIZE S src_fd0 dst_fd0;
                submitted := []; rd_fd := src_fd0; wr_fd := dst_fd0;
                src_file := src; dst_file := allocated S;
                buffers := mem |}).
  assert (HT0 : tracked m0).
  { intros c b Hb Hbusy. cbn in Hb. apply lookup_replicate in Hb.
    destruct Hb as [-> _]. exfalso. apply Hbusy. reflexivity. }
  apply (tracked_start_reads (seq 0 QUEUE_SIZE) m0 HT0).
  apply Forall_forall. intros c Hc. apply elem_of_seq in Hc.
  cbn. rewrite length_replicate. lia.
Qed.

(** The completions a state holds are reaped one after the other: the
    first that reports an error ends the process, and when none does the
    queue is drained. *)
Lemma reap_cqes_inv (cqes : list io_uring_cqe) (m : machine) :
  Inv m -> cq (io_ring (status m)) = cqes ->
  (Exists (fun q => res q < 0) cqes ->
   reap_cqes cqes (status m) = Exited EXIT_FAILURE)
  /\ (Forall (fun q => 0 <= res q) cqes ->
      exists st', reap_cqes cqes (status m) = Running st'
                  /\ cq (io_ring st') = []).
Proof.
  revert m. induction cqes as [|q rest IH]; intros m H Hcq.
  - split; [intros Hbad; inversion Hbad|].
    intros _. exists (status m). split; [reflexivity|exact Hcq].
  - destruct (handle_cqe_inv READ_BLOCK_SIZE QUEUE_SIZE S queue_size_bound
                m q rest H Hcq)
      as (c & b & Hud & Hb & Hbusy & Hnot & Heq).
    cbn [IoUring.reap_cqes]. rewrite Heq.
    destruct (res q <? 0) eqn:Hres.
    { apply Z.ltb_lt in Hres. split; [reflexivity|].
      intros Hall. apply Forall_cons in Hall. lia. }
    apply Z.ltb_ge in Hres.
    assert (Hnext : forall st1,
               handle_cqe (status m) q = Running st1 ->
               Inv (set_status m (io_uring_cqe_seen st1))
               /\ cq (io_ring (status (set_status m (io_uring_cqe_seen st1))))
                  = rest).
    { intros st1 Hh. split.
      - apply (inv_step _ _ _ block_size_bounds queue_size_bound
                 source_size_bounds m); [exact H|].
        eapply step_reap; eassumption.
      - cbn. rewrite (handle_cqe_cq _ _ _ _ Hh), Hcq. reflexivity. }
    assert (Hnot' : (wrap_s64 (cqe_user_data q) =? -1) = false)
      by (apply Z.eqb_neq; exact Hnot).
    replace (res q <? 0) with false in Heq by (symmetry; apply Z.ltb_ge; exact Hres).
    destruct (stage b); rewrite Hnot';
      destruct (Hnext _ Heq) as [H1 Hcq1];
      destruct (IH _ H1 Hcq1) as [IHbad IHgood];
      (split;
       [intros Hbad; apply Exists_cons in Hbad;
        destruct Hbad as [Hbad|Hbad]; [lia|exact (IHbad Hbad)]
       |intros Hall; apply Forall_cons in Hall; exact (IHgood (proj2 Hall))]).
Qed.

(** The loop of [main] ends, when it ends, by leaving the loop or with
    [EXIT_FAILURE]. *)
Lemma main_loop_outcome (schedule : list (list kernel_action)) (m : machine)
    (o : outcome machine) :
  Inv m -> main_loop READ_BLOCK_SIZE schedule m = Some o ->
  (exists m', o = Running m') \/ o = Exited EXIT_FAILURE.
Proof.
  revert m. induction schedule as [|acts schedule IH]; intros m H Hloop;
    cbn [main_loop] in Hloop;
    destruct (copy_in_progress (status m));
    try discriminate; try (injection Hloop as <-; left; eexists; reflexivity).
  destruct (kernel_run (io_uring_submit m) acts) as [m1|] eqn:Hk; [|discriminate].
  assert (H1 : Inv m1).
  { apply (inv_steps _ _ _ block_size_bounds queue_size_bound source_size_bounds
             m); [exact H|].
    eapply rtc_l; [apply step_submit|]. eapply kernel_run_steps. exact Hk. }
  destruct (cq (io_ring (status m1))) as [|q rest] eqn:Hcq; [discriminate|].
  destruct (reap_cqes_inv (q :: rest) m1 H1 Hcq) as [Hbad Hgood].
  destruct (decide (Forall (fun q => 0 <= res q) (q :: rest))) as [Hall|Hsome].
  - destruct (Hgood Hall) as (st' & Hr & _). rewrite Hr in Hloop.
    apply (IH (set_status m1 st')); [|exact Hloop].
    apply (inv_steps _ _ _ block_size_bounds queue_size_bound source_size_bounds
             m1); [exact H1|].
    apply (reap_cqes_steps _ _ _ _ Hcq Hr).
  - apply not_Forall_Exists in Hsome; [|intros x; apply _].
    rewrite Hbad in Hloop.
    + injection Hloop as <-. right. reflexivity.
    + eapply Exists_impl; [exact Hsome|]. intros x Hx. cbn in Hx. lia.
Qed.

End Safety.
End IoUringSafety.

Lemma failed10_reachable :
  IoUring.reachable 4 2 3 4 Samples.src10 10 Samples.mem2x4 IoSamples.failed10.
Proof.
  unfold IoUring.reachable.
  eapply rtc_l; [apply IoUring.step_submit|].
  eapply rtc_l; [|apply rtc_refl].
  apply (IoUring.step_kernel 4 _ (IoUring.Fail 0 5)). reflexivity.
Qed.

(** X8.  In every state a run of the io_uring driver passes through, a busy
    slot has exactly one operation under way (an entry queued or accepted,
    or a completion not yet seen) and an idle slot has none. *)
Theorem one_operation_per_busy_slot (B : Z) (N : nat) (src_fd dst_fd : Z)
    (src : file) (mem : list (list byte)) (m : IoUring.machine)
    (c : nat) (b : IoUring.BlockStatus) :
  0 < B < 2 ^ 31 -> Z.of_nat N < 2 ^ 16 -> Z.of_nat (length src) < 2 ^ 32 ->
  IoUring.reachable B N src_fd dst_fd src (Z.of_nat (length src)) mem m ->
  IoUring.block_statuses (IoUring.status m) !! c = Some b ->
  IoUringSafety.operations_on m c
  = if decide (IoUring.busy b) then 1%nat else 0%nat.
Proof.
  intros HB HN HS Hreach Hb.
  assert (HS' : 0 <= Z.of_nat (length src) < 2 ^ 32) by lia.
  pose proof (IoUringRun.inv_boot B N _ HB HN HS' src_fd dst_fd src mem eq_refl)
    as Hboot.
  pose proof (IoUringRun.inv_steps B N _ HB HN HS' _ _ Hboot Hreach) as Hinv.
  pose proof (IoUringSafety.tracked_steps B N _ HB HN HS' _ _ Hboot
                (IoUringSafety.tracked_boot B N _ src_fd dst_fd src mem) Hreach)
    as Htr.
  rewrite IoUringSafety.operations_on_tokens.
  destruct (decide (IoUring.busy b)) as [Hbusy|Hidle].
  - apply IoUringSafety.count_once; [apply (IoUringRun.inv_tokens _ _ _ _ Hinv)|].
    apply (Htr c b Hb Hbusy).
  - apply IoUringSafety.count_never. intros Hin.
    destruct (IoUringSafety.token_busy B N _ m _ Hinv Hin)
      as (c' & b' & Heq & Hb' & Hbusy').
    apply Nat2Z.inj in Heq. subst c'.
    rewrite Hb in Hb'. injection Hb' as <-. contradiction.
Qed.

Lemma one_operation_per_busy_slot_witness :
  IoUringSafety.operations_on IoSamples.boot10 0 = 1%nat.
Proof.
  exact (one_operation_per_busy_slot 4 2 3 4 Samples.src10 Samples.mem2x4
           IoSamples.boot10 0
           {| IoUring.stage := IoUring.BLOCK_IN_READ;
              IoUring.offset := 0; IoUring.size := 4 |}
           ltac:(lia) ltac:(cbn; lia) ltac:(cbn; lia)
           (rtc_refl _ _) eq_refl).
Defined.

(** X9.  The operations under way never outnumber the cells: the submission
    queue and the completion queue of the ring, set up for [QUEUE_SIZE]
    entries, never overflow. *)
Theorem rings_never_overflow (B : Z) (N : nat) (src_fd dst_fd : Z)
    (src : file) (mem : list (list byte)) (m : IoUring.machine) :
  0 < B < 2 ^ 31 -> Z.of_nat N < 2 ^ 16 -> Z.of_nat (length src) < 2 ^ 32 ->
  IoUring.reachable B N src_fd dst_fd src (Z.of_nat (length src)) mem m ->
  (length (IoUring.submitted m)
   + length (IoUring.sq (IoUring.io_ring (IoUring.status m)))
   + length (IoUring.cq (IoUring.io_ring (IoUring.status m))) <= N)%nat.
Proof.
  intros HB HN HS Hreach.
  assert (HS' : 0 <= Z.of_nat (length src) < 2 ^ 32) by lia.
  pose proof (IoUringRun.inv_boot B N _ HB HN HS' src_fd dst_fd src mem eq_refl)
    as Hboot.
  pose proof (IoUringRun.inv_steps B N _ HB HN HS' _ _ Hboot Hreach) as Hinv.
  pose proof (IoUringRun.inv_tokens _ _ _ _ Hinv) as Hnd.
  assert (Hlen : length (IoUringRun.tokens (IoUring.submitted m)
                           (IoUring.sq (IoUring.io_ring (IoUring.status m)))
                           (IoUring.cq (IoUring.io_ring (IoUring.status m))))
                 = (length (IoUring.submitted m)
                    + length (IoUring.sq (IoUring.io_ring (IoUring.status m)))
                    + length (IoUring.cq (IoUring.io_ring (IoUring.status m))))%nat).
  { unfold IoUringRun.tokens. rewrite !length_app, !length_fmap. lia. }
  rewrite <- Hlen.
  transitivity (length (Z.of_nat <$> seq 0 N));
    [|by rewrite length_fmap, length_seq].
  apply submseteq_length, NoDup_submseteq; [exact Hnd|].
  intros x Hx.
  destruct (IoUringSafety.token_busy B N _ m x Hinv Hx) as (c & b & -> & Hb & _).
  apply list_elem_of_fmap_2, elem_of_seq.
  apply lookup_lt_Some in Hb. rewrite (IoUringRun.inv_cells _ _ _ _ Hinv) in Hb.
  lia.
Qed.

Lemma rings_never_overflow_witness :
  (length (IoUring.submitted IoSamples.failed10)
   + length (IoUring.sq (IoUring.io_ring (IoUring.status IoSamples.failed10)))
   + length (IoUring.cq (IoUring.io_ring (IoUring.status IoSamples.failed10)))
   <= 2)%nat.
Proof.
  apply (rings_never_overflow 4 2 3 4 Samples.src10 Samples.mem2x4);
    [lia|cbn; lia|cbn; lia|exact failed10_reachable].
Defined.

(** X10.  In every state a run of the io_uring driver passes through, the loop
    that reaps the completions ends the process with [EXIT_FAILURE] as soon
    as one of the completions posted reports an error, whichever transfer
    it belongs to; when none does, it handles them all and leaves the
    completion queue empty. *)
Theorem failed_completion_ends_run (B : Z) (N : nat) (src_fd dst_fd : Z)
    (src : file) (mem : list (list byte)) (m : IoUring.machine) :
  0 < B < 2 ^ 31 -> Z.of_nat N < 2 ^ 16 -> Z.of_nat (length src) < 2 ^ 32 ->
  IoUring.reachable B N src_fd dst_fd src (Z.of_nat (length src)) mem m ->
  (Exists (fun q => IoUring.res q < 0)
          (IoUring.cq (IoUring.io_ring (IoUring.status m))) ->
   IoUring.reap_cqes B (IoUring.cq (IoUring.io_ring (IoUring.status m)))
     (IoUring.status m) = Exited EXIT_FAILURE)
  /\ (Forall (fun q => 0 <= IoUring.res q)
             (IoUring.cq (IoUring.io_ring (IoUring.status m))) ->
      exists st',
        IoUring.reap_cqes B (IoUring.cq (IoUring.io_ring (IoUring.status m)))
          (IoUring.status m) = Running st'
        /\ IoUring.cq (IoUring.io_ring st') = []).
Proof.
  intros HB HN HS Hreach.
  assert (HS' : 0 <= Z.of_nat (length src) < 2 ^ 32) by lia.
  pose proof (IoUringRun.inv_boot B N _ HB HN HS' src_fd dst_fd src mem eq_refl)
    as Hboot.
  pose proof (IoUringRun.inv_steps B N _ HB HN HS' _ _ Hboot Hreach) as Hinv.
  apply (IoUringSafety.reap_cqes_inv B N _ HB HN HS' _ m Hinv eq_refl).
Qed.

Lemma failed_completion_ends_run_witness :
  IoUring.reap_cqes 4
    (IoUring.cq (IoUring.io_ring (IoUring.status IoSamples.failed10)))
    (IoUring.status IoSamples.failed10)
  = Exited EXIT_FAILURE.
Proof.
  apply (proj1 (failed_completion_ends_run 4 2 3 4 Samples.src10 Samples.mem2x4
                  IoSamples.failed10 ltac:(lia) ltac:(cbn; lia) ltac:(cbn; lia)
                  failed10_reachable)).
  apply Exists_cons_hd. cbn. lia.
Defined.

(** X11.  With a source shorter than 4 GiB and a kernel that carries out in
    full every transfer it does not fail, [main] of the io_uring driver
    ends in one of two ways only, whatever the order in which the kernel
    finishes the transfers and whichever of them it fails: with the
    destination equal to the source, or with [EXIT_FAILURE]; it never
    indexes [block_statuses] out of bounds. *)
Theorem io_uring_main_outcomes (B : Z) (N : nat) (src_fd dst_fd : Z)
    (src : file) (mem : list (list byte))
    (schedule : list (list IoUring.kernel_action)) :
  0 < B < 2 ^ 31 -> Z.of_nat N < 2 ^ 16 -> Z.of_nat (length src) < 2 ^ 32 ->
  match IoUring.main B N src_fd dst_fd src (Z.of_nat (length src)) mem schedule with
  | Some (Running dst) => dst = src
  | Some (Exited code) => code = EXIT_FAILURE
  | Some Undefined => False
  | None => True
  end.
Proof.
  intros HB HN HS.
  assert (HS' : 0 <= Z.of_nat (length src) < 2 ^ 32) by lia.
  pose proof (IoUringRun.inv_boot B N _ HB HN HS' src_fd dst_fd src mem eq_refl)
    as Hboot.
  unfold IoUring.main, open_dst_file.
  destruct (Z.of_nat (length src) <=? 0); [reflexivity|].
  destruct (IoUring.main_loop B schedule _) as [o|] eqn:Hloop; [|exact I].
  destruct (IoUringSafety.main_loop_outcome B N _ HB HN HS' schedule _ o Hboot Hloop)
    as [[m' ->]| ->]; [|reflexivity].
  apply (IoUringRun.main_loop_copies B N _ schedule _ m' HB HN HS' Hboot Hloop).
Qed.

Lemma io_uring_main_outcomes_witness :
  match IoUring.main 4 2 3 4 Samples.src10 10 Samples.mem2x4
          [[IoUring.Complete 1; IoUring.Fail 0 5]] with
  | Some (Running dst) => dst = Samples.src10
  | Some (Exited code) => code = EXIT_FAILURE
  | Some Undefined => False
  | None => True
  end.
Proof.
  apply (io_uring_main_outcomes 4 2 3 4 Samples.src10 Samples.mem2x4
           [[IoUring.Complete 1; IoUring.Fail 0 5]]);
    [lia|cbn; lia|cbn; lia].
Defined.

(** X12.  In every state a run of the io_uring driver passes through, a busy
    slot holds a block of the source that is not empty, at most a block
    long and below the read cursor, and the blocks of two busy slots do
    not overlap. *)
Theorem busy_blocks_are_disjoint (B : Z) (N : nat) (src_fd dst_fd : Z)
    (src : file) (mem : list (list byte)) (m : IoUring.machine) :
  0 < B < 2 ^ 31 -> Z.of_nat N < 2 ^ 16 -> Z.of_nat (length src) < 2 ^ 32 ->
  IoUring.reachable B N src_fd dst_fd src (Z.of_nat (length src)) mem m ->
  (forall c b,
      IoUring.block_statuses (IoUring.status m) !! c = Some b ->
      IoUring.busy b ->
      0 <= IoUring.offset b
      /\ 0 < IoUring.size b <= B
      /\ IoUring.offset b + IoUring.size b <= IoUring.src_off (IoUring.status m)
      /\ IoUring.src_off (IoUring.status m) <= Z.of_nat (length src))
  /\ (forall c c' b b',
         IoUring.block_statuses (IoUring.status m) !! c = Some b ->
         IoUring.block_statuses (IoUring.status m) !! c' = Some b' ->
         c <> c' -> IoUring.busy b -> IoUring.busy b' ->
         IoUring.offset b + IoUring.size b <= IoUring.offset b'
         \/ IoUring.offset b' + IoUring.size b' <= IoUring.offset b).
Proof.
  intros HB HN HS Hreach.
  assert (HS' : 0 <= Z.of_nat (length src) < 2 ^ 32) by lia.
  pose proof (IoUringRun.inv_boot B N _ HB HN HS' src_fd dst_fd src mem eq_refl)
    as Hboot.
  pose proof (IoUringRun.inv_steps B N _ HB HN HS' _ _ Hboot Hreach) as Hinv.
  pose proof (IoUringRun.inv_off _ _ _ _ Hinv) as Hoff.
  split.
  - intros c b Hb Hbusy.
    destruct (IoUringRun.inv_blocks _ _ _ _ Hinv c b Hb Hbusy)
      as (Hrange & Hsize & Hbelow). lia.
  - intros c c' b b' Hb Hb' Hne Hbusy Hbusy'.
    destruct (IoUringRun.inv_blocks _ _ _ _ Hinv c b Hb Hbusy) as (_ & Hsize & _).
    destruct (IoUringRun.inv_blocks _ _ _ _ Hinv c' b' Hb' Hbusy')
      as (_ & Hsize' & _).
    destruct (IoUringRun.inv_apart _ _ _ _ Hinv c c' b b' Hb Hb' Hne Hbusy Hbusy');
      [left|right]; lia.
Qed.

Lemma busy_blocks_are_disjoint_witness :
  IoUring.offset {| IoUring.stage := IoUring.BLOCK_IN_READ;
                    IoUring.offset := 0; IoUring.size := 4 |}
  + IoUring.size {| IoUring.stage := IoUring.BLOCK_IN_READ;
                    IoUring.offset := 0; IoUring.size := 4 |}
  <= IoUring.offset {| IoUring.stage := IoUring.BLOCK_IN_READ;
                       IoUring.offset := 4; IoUring.size := 4 |}
  \/ IoUring.offset {| IoUring.stage := IoUring.BLOCK_IN_READ;
                       IoUring.offset := 4; IoUring.size := 4 |}
     + IoUring.size {| IoUring.stage := IoUring.BLOCK_IN_READ;
                       IoUring.offset := 4; IoUring.size := 4 |}
     <= IoUring.offset {| IoUring.stage := IoUring.BLOCK_IN_READ;
                          IoUring.offset := 0; IoUring.size := 4 |}.
Proof.
  apply (proj2 (busy_blocks_are_disjoint 4 2 3 4 Samples.src10 Samples.mem2x4
                  IoSamples.boot10 ltac:(lia) ltac:(cbn; lia) ltac:(cbn; lia)
                  (rtc_refl _ _)) 0%nat 1%nat);
    [reflexivity|reflexivity|lia|discriminate|discriminate].
Defined.

Module IoUringStart.
Import IoUring IoUringSteps.

Section Start.

Variable READ_BLOCK_SIZE : Z.
Variable QUEUE_SIZE : nat.
Variable S : Z.
Variables src_fd0 dst_fd0 : Z.

Hypothesis block_size_bounds : 0 < READ_BLOCK_SIZE < 2 ^ 31.
Hypothesis queue_size_bound : Z.of_nat QUEUE_SIZE < 2 ^ 16.
Hypothesis source_size_bounds : 0 <= S < 2 ^ 32.

#[local] Abbreviation B := READ_BLOCK_SIZE.

(** What cell [k] holds once the first reads are prepared, and the entry
    queued for it. *)
Definition first_block (k : nat) : BlockStatus :=
  if Z.of_nat k * B <? S
  then mkBlockStatus BLOCK_IN_READ (Z.of_nat k * B) (Z.min B (S - Z.of_nat k * B))
  else mkBlockStatus BLOCK_IDLE 0 0.

Definition first_read (k : nat) : io_uring_sqe :=
  mkSqe IORING_OP_READ_FIXED src_fd0 k B (Z.of_nat k * B) (Z.of_nat k).

Record Started (n : nat) (st : CopyStatus) : Prop := {
  sd_fd : src_fd st = src_fd0;
  sd_size : src_size st = S;
  sd_off : src_off st = Z.min S (Z.of_nat n * B);
  sd_cells : length (block_statuses st) = QUEUE_SIZE;
  sd_done : forall k, (k < n)%nat -> block_statuses st !! k = Some (first_block k);
  sd_rest :
    forall k, (n <= k < QUEUE_SIZE)%nat ->
      block_statuses st !! k = Some (mkBlockStatus BLOCK_IDLE 0 0);
  sd_sq :
    sq (io_ring st)
    = first_read <$> filter (fun k => Z.of_nat k * B < S) (seq 0 n)
}.

Lemma started_next (n : nat) (st : CopyStatus) :
  (n < QUEUE_SIZE)%nat -> Started n st ->
  Started (Datatypes.S n) (prepare_read_request B st n).
Proof.
  intros Hn H.
  pose proof (sd_off _ _ H) as Hoff. pose proof (sd_size _ _ H) as Hsz.
  assert (Hleft : wrap_u32 (src_size st - src_off st) = S - src_off st).
  { rewrite Hsz. apply wrap_u32_small. lia. }
  assert (Hseq : filter (fun k => Z.of_nat k * B < S) (seq 0 (Datatypes.S n))
                 = filter (fun k => Z.of_nat k * B < S) (seq 0 n)
                   ++ (if decide (Z.of_nat n * B < S) then [n] else [])).
  { rewrite seq_S, filter_app. f_equal. }
  destruct (decide (Z.of_nat n * B < S)) as [Hmore|Hend].
  - rewrite prepare_read_request_busy by (rewrite Hleft; lia).
    rewrite Hleft.
    assert (Hcur : src_off st = Z.of_nat n * B) by lia.
    destruct H.
    constructor;
      cbn [src_fd src_size src_off block_statuses io_ring sq io_uring_get_sqe
           size];
      try assumption.
    + rewrite Hcur, wrap_s64_small by lia. lia.
    + rewrite length_insert. assumption.
    + intros k Hk. destruct (decide (k = n)) as [->|Hne].
      * rewrite list_lookup_insert_eq by lia.
        unfold first_block.
        replace (Z.of_nat n * B <? S) with true by (symmetry; apply Z.ltb_lt; lia).
        rewrite Hcur. reflexivity.
      * rewrite list_lookup_insert_ne by lia. apply sd_done0. lia.
    + intros k Hk. rewrite list_lookup_insert_ne by lia. apply sd_rest0. lia.
    + rewrite Hseq, fmap_app, <- sd_sq0. cbn [fmap list_fmap]. f_equal. f_equal.
      unfold first_read. rewrite sd_fd0, Hcur. f_equal.
      apply wrap_u64_small.
      assert (2 ^ 32 < 2 ^ 64) by (apply Z.pow_lt_mono_r; lia). lia.
  - rewrite prepare_read_request_idle by (rewrite Hleft; lia).
    destruct H. constructor; try assumption.
    + lia.
    + intros k Hk. destruct (decide (k = n)) as [->|Hne].
      * rewrite sd_rest0 by lia. unfold first_block.
        replace (Z.of_nat n * B <? S) with false by (symmetry; apply Z.ltb_ge; lia).
        reflexivity.
      * apply sd_done0. lia.
    + intros k Hk. apply sd_rest0. lia.
    + rewrite Hseq, app_nil_r. assumption.
Qed.

Lemma started_all (n : nat) :
  (n <= QUEUE_SIZE)%nat ->
  Started n (foldl (prepare_read_request B)
               (init_copying_status QUEUE_SIZE S src_fd0 dst_fd0) (seq 0 n)).
Proof.
  induction n as [|n IH]; intros Hn.
  - constructor; cbn; try reflexivity.
    + lia.
    + apply length_replicate.
    + intros k Hk. lia.
    + intros k Hk. apply lookup_replicate. split; [reflexivity|lia].
  - rewrite seq_S, foldl_app. cbn [foldl].
    apply started_next; [lia|]. apply IH. lia.
Qed.

End Start.
End IoUringStart.

(** X13.  The loop that starts the first reads gives the cells the blocks of
    the source in index order: cell [k] gets the block at [k * B] when the
    source reaches that far and stays idle otherwise, the read entries are
    queued in that order, and the cursor ends at the size of the source or
    after [N] blocks. *)
Theorem first_reads_in_slot_order (B : Z) (N : nat) (S src_fd dst_fd : Z) :
  0 < B < 2 ^ 31 -> Z.of_nat N < 2 ^ 16 -> 0 <= S < 2 ^ 32 ->
  IoUring.src_off
    (IoUring.start_reads B N (IoUring.init_copying_status N S src_fd dst_fd))
  = Z.min S (Z.of_nat N * B)
  /\ (forall k, (k < N)%nat ->
        IoUring.block_statuses
          (IoUring.start_reads B N (IoUring.init_copying_status N S src_fd dst_fd))
          !! k
        = Some (if Z.of_nat k * B <? S
                then IoUring.mkBlockStatus IoUring.BLOCK_IN_READ (Z.of_nat k * B)
                       (Z.min B (S - Z.of_nat k * B))
                else IoUring.mkBlockStatus IoUring.BLOCK_IDLE 0 0))
  /\ IoUring.sq (IoUring.io_ring
       (IoUring.start_reads B N (IoUring.init_copying_status N S src_fd dst_fd)))
     = (fun k => IoUring.mkSqe IoUring.IORING_OP_READ_FIXED src_fd k B
                   (Z.of_nat k * B) (Z.of_nat k))
       <$> filter (fun k => Z.of_nat k * B < S) (seq 0 N).
Proof.
  intros HB HN HS.
  pose proof (IoUringStart.started_all B N S src_fd dst_fd HB HS N ltac:(lia)) as H.
  unfold IoUring.start_reads.
  split; [apply (IoUringStart.sd_off _ _ _ _ _ _ H)|].
  split; [apply (IoUringStart.sd_done _ _ _ _ _ _ H)|].
  apply (IoUringStart.sd_sq _ _ _ _ _ _ H).
Qed.

Lemma first_reads_in_slot_order_witness :
  IoUring.src_off
    (IoUring.start_reads 4 2 (IoUring.init_copying_status 2 10 3 4))
  = Z.min 10 (Z.of_nat 2 * 4).
Proof.
  apply (proj1 (first_reads_in_slot_order 4 2 10 3 4
                  ltac:(lia) ltac:(cbn; lia) ltac:(lia))).
Defined.

(** ** The POSIX AIO driver: the invariant of a run *)

Module PosixAioRun.
Import PosixAioCp.

#[local] Arguments listed : simpl never.

Lemma listed_insert (wl : list bool) (i : nat) (old new : bool) :
  wl !! i = Some old ->
  (listed (<[i := new]> wl) + (if old then 1 else 0)
   = listed wl + (if new then 1 else 0))%nat.
Proof.
  unfold listed. revert i.
  induction wl as [|b wl IH]; intros i Hold; [done|].
  destruct i as [|i]; cbn in Hold.
  - injection Hold as ->.
    change (<[0%nat := new]> (old :: wl)) with (new :: wl).
    rewrite !filter_cons.
    destruct old, new; cbn [length];
      repeat (destruct (decide _) as [?|?]; try congruence); cbn [length]; lia.
  - specialize (IH i Hold).
    change (<[S i := new]> (b :: wl)) with (b :: <[i := new]> wl).
    rewrite !filter_cons.
    destruct (decide (b = true)); cbn [length]; lia.
Qed.

Lemma listed_le (wl : list bool) : (listed wl <= length wl)%nat.
Proof. unfold listed. apply length_filter. Qed.

Lemma listed_none (n : nat) : listed (replicate n false) = 0%nat.
Proof.
  unfold listed. induction n as [|n IH]; [done|].
  cbn [replicate]. rewrite filter_cons.
  destruct (decide (false = true)); [discriminate|exact IH].
Qed.

Lemma listed_zero (wl : list bool) (i : nat) :
  listed wl = 0%nat -> wl !! i <> Some true.
Proof.
  unfold listed. intros Hz Hi.
  assert (Hin : true ∈ filter (fun b => b = true) wl).
  { apply list_elem_of_filter. split; [reflexivity|].
    eapply list_elem_of_lookup_2. exact Hi. }
  apply length_zero_iff_nil in Hz. rewrite Hz in Hin. inversion Hin.
Qed.

Lemma sum_list_same (f g : nat -> nat) (s n : nat) :
  (forall j, (s <= j < s + n)%nat -> f j = g j) ->
  sum_list (f <$> seq s n) = sum_list (g <$> seq s n).
Proof.
  revert s. induction n as [|n IH]; intros s Hfg; [reflexivity|].
  cbn. rewrite (Hfg s) by lia. f_equal. apply IH. intros j Hj. apply Hfg. lia.
Qed.

Lemma sum_list_change (f g : nat -> nat) (s n i : nat) :
  (s <= i < s + n)%nat ->
  (forall j, j <> i -> f j = g j) ->
  (sum_list (f <$> seq s n) + g i = sum_list (g <$> seq s n) + f i)%nat.
Proof.
  revert s. induction n as [|n IH]; intros s Hi Hfg; [lia|].
  cbn. destruct (decide (s = i)) as [->|Hne].
  - rewrite (sum_list_same f g (Datatypes.S i) n); [lia|].
    intros j Hj. apply Hfg. lia.
  - rewrite (Hfg s Hne). specialize (IH (Datatypes.S s) ltac:(lia) Hfg). lia.
Qed.

Lemma sum_list_ge (f : nat -> nat) (s n i : nat) :
  (s <= i < s + n)%nat -> (f i <= sum_list (f <$> seq s n))%nat.
Proof.
  revert s. induction n as [|n IH]; intros s Hi; [lia|].
  cbn. destruct (decide (s = i)) as [->|Hne]; [lia|].
  specialize (IH (Datatypes.S s) ltac:(lia)). lia.
Qed.

Lemma kernel_step_frame (m m' : machine) (a : kernel_action) :
  kernel_step m a = Some m' ->
  src_off m' = src_off m /\ wait_list m' = wait_list m /\ aiocbs m' = aiocbs m.
Proof.
  intros Hk. destruct a as [i|i]; cbn in Hk.
  - destruct (requests m !! i) as [[| |ret]|]; try discriminate.
    destruct (aiocbs m !! i) as [cb|]; [|discriminate].
    injection Hk as <-. unfold perform.
    destruct (buffers m !! aio_buf cb) as [buf|]; [|done].
    destruct (_ <? _); [done|].
    destruct (aio_lio_opcode cb); destruct (_ =? _); done.
  - destruct (requests m !! i) as [[| |ret]|]; try discriminate.
    injection Hk as <-. done.
Qed.

Lemma woken_cell (wl : list bool) (rqs : list request) :
  existsb (fun p => p.1 && finished p.2) (zip wl rqs) = true <->
  exists i ret, wl !! i = Some true /\ rqs !! i = Some (FINISHED ret).
Proof.
  revert rqs. induction wl as [|b wl IH]; intros rqs.
  - cbn. split; [discriminate|]. intros (i & ret & Hw & _). discriminate.
  - destruct rqs as [|rq rqs].
    { cbn. split; [discriminate|]. intros (i & ret & _ & Hrq). discriminate. }
    cbn [zip zip_with existsb fst snd]. rewrite orb_true_iff, IH. split.
    + intros [Hhd|(i & ret & Hw & Hrq)].
      * apply andb_true_iff in Hhd. destruct Hhd as [-> Hfin].
        destruct rq as [| |ret]; try discriminate. exists 0%nat, ret. done.
      * exists (Datatypes.S i), ret. done.
    + intros (i & ret & Hw & Hrq). destruct i as [|i].
      * cbn in Hw, Hrq. injection Hw as ->. injection Hrq as ->. left. done.
      * right. exists i, ret. done.
Qed.

Lemma listed_some (wl : list bool) :
  (0 < listed wl)%nat -> exists i, wl !! i = Some true.
Proof.
  unfold listed. intros Hpos.
  destruct (filter (fun b => b = true) wl) as [|b l] eqn:Hf; [cbn in Hpos; lia|].
  assert (Hin : b ∈ filter (fun b => b = true) wl) by (rewrite Hf; left).
  apply list_elem_of_filter in Hin. destruct Hin as [-> Hin].
  apply list_elem_of_lookup_1 in Hin. exact Hin.
Qed.

Section Counting.

Variable READ_BLOCK_SIZE : Z.
Variable QUEUE_SIZE : nat.
Variables src_fd dst_fd : Z.
Variable T : Z.

Hypothesis block_size_pos : 0 < READ_BLOCK_SIZE.
Hypothesis tracked_aligned : (READ_BLOCK_SIZE | T).
Hypothesis tracked_bounds : 0 <= T < 2 ^ 32.
Hypothesis queue_size_bound : Z.of_nat QUEUE_SIZE < 2 ^ 64.

#[local] Abbreviation B := READ_BLOCK_SIZE.
#[local] Abbreviation visit := (visit READ_BLOCK_SIZE src_fd dst_fd).
#[local] Abbreviation step := (step READ_BLOCK_SIZE src_fd dst_fd).

(** The counter is the number of entries of the wait list that are not
    [NULL], and these are the cells the library holds a request for. *)
Record PInv (m : machine) : Prop := {
  pi_size : src_size m = T;
  pi_off : 0 <= src_off m <= T;
  pi_aligned : (B | src_off m);
  pi_cbs : length (aiocbs m) = QUEUE_SIZE;
  pi_cells : length (wait_list m) = QUEUE_SIZE;
  pi_reqs : length (requests m) = QUEUE_SIZE;
  pi_count : num_io_reqs m = Z.of_nat (listed (wait_list m));
  pi_listed :
    forall i b rq, wait_list m !! i = Some b -> requests m !! i = Some rq ->
      (b = false <-> rq = NO_REQUEST)
}.

Lemma pinv_count_le (m : machine) :
  PInv m -> 0 <= num_io_reqs m <= Z.of_nat QUEUE_SIZE.
Proof.
  intros H. rewrite (pi_count _ H), <- (pi_cells _ H).
  pose proof (listed_le (wait_list m)). lia.
Qed.

Lemma pinv_set_request (m : machine) (i : nat) (ret : Z) :
  PInv m -> requests m !! i = Some IN_PROGRESS ->
  PInv (set_request m i (FINISHED ret)).
Proof.
  intros H Hi. destruct H. constructor; cbn; try assumption.
  - rewrite length_insert. assumption.
  - intros j b rq Hb Hrq. destruct (decide (i = j)) as [<-|Hne].
    + rewrite list_lookup_insert_eq in Hrq by (eapply lookup_lt_Some; exact Hi).
      injection Hrq as <-.
      pose proof (pi_listed0 i b IN_PROGRESS Hb Hi) as Hiff.
      split; [intros Hf; apply Hiff in Hf; discriminate|discriminate].
    + rewrite list_lookup_insert_ne in Hrq by exact Hne.
      apply (pi_listed0 j b rq Hb Hrq).
Qed.

Lemma pinv_kernel_step (m m' : machine) (a : kernel_action) :
  PInv m -> kernel_step m a = Some m' ->
  PInv m' /\ src_off m' = src_off m /\ wait_list m' = wait_list m
  /\ num_io_reqs m' = num_io_reqs m.
Proof.
  intros H Hk. destruct a as [i|i]; cbn in Hk.
  - destruct (requests m !! i) as [[| |ret]|] eqn:Hi; try discriminate.
    destruct (aiocbs m !! i) as [cb|]; [|discriminate].
    injection Hk as <-. unfold perform.
    assert (Hfail : forall ret,
               PInv (set_request m i (FINISHED ret))
               /\ src_off (set_request m i (FINISHED ret)) = src_off m
               /\ wait_list (set_request m i (FINISHED ret)) = wait_list m
               /\ num_io_reqs (set_request m i (FINISHED ret)) = num_io_reqs m).
    { intros ret. split; [apply pinv_set_request; assumption|done]. }
    destruct (buffers m !! aio_buf cb) as [buf|]; [|apply Hfail].
    destruct (_ <? _); [apply Hfail|].
    destruct (aio_lio_opcode cb); (destruct (_ =? _); [|apply Hfail]).
    + split; [|done].
      pose proof (pinv_set_request m i
                    (Z.of_nat (length (pread (src_file m) (aio_offset cb)
                                         (aio_nbytes cb)))) H Hi) as H'.
      destruct H'. constructor; cbn in *; assumption.
    + split; [|done].
      pose proof (pinv_set_request m i
                    (Z.of_nat (length (take (Z.to_nat (aio_nbytes cb)) buf))) H Hi)
        as H'.
      destruct H'. constructor; cbn in *; assumption.
  - destruct (requests m !! i) as [[| |ret]|] eqn:Hi; try discriminate.
    injection Hk as <-. split; [apply pinv_set_request; assumption|done].
Qed.

(** A setup on a listed cell whose result has been fetched. *)
Lemma pinv_setup (m : machine) (i : nat) (cb : aiocb) (ret : Z) :
  PInv m -> wait_list m !! i = Some true ->
  requests m !! i = Some (FINISHED ret) ->
  PInv (mkMachine (src_size m) (src_off m) (num_io_reqs m)
          (<[i := cb]> (aiocbs m)) (wait_list m)
          (<[i := IN_PROGRESS]> (requests m))
          (rd_fd m) (wr_fd m) (src_file m) (dst_file m) (buffers m)).
Proof.
  intros H Hw Hi. destruct H. constructor; cbn; try assumption.
  - rewrite length_insert. assumption.
  - rewrite length_insert. assumption.
  - intros j b rq Hb Hrq. destruct (decide (i = j)) as [<-|Hne].
    + rewrite list_lookup_insert_eq in Hrq by (eapply lookup_lt_Some; exact Hi).
      injection Hrq as <-. rewrite Hw in Hb. injection Hb as <-.
      split; discriminate.
    + rewrite list_lookup_insert_ne in Hrq by exact Hne.
      apply (pi_listed0 j b rq Hb Hrq).
Qed.

Lemma pinv_retire (m : machine) (i : nat) (ret : Z) :
  PInv m -> wait_list m !! i = Some true ->
  requests m !! i = Some (FINISHED ret) ->
  PInv (retire m i).
Proof.
  intros H Hw Hi. pose proof (pinv_count_le m H) as Hle.
  pose proof (listed_insert _ i true false Hw) as Hins. cbn in Hins.
  destruct H. constructor; cbn; try assumption.
  - rewrite length_insert. assumption.
  - rewrite length_insert. assumption.
  - rewrite pi_count0 in Hle |- *. rewrite wrap_u64_small; lia.
  - intros j b rq Hb Hrq. destruct (decide (i = j)) as [<-|Hne].
    + rewrite list_lookup_insert_eq in Hrq by (eapply lookup_lt_Some; exact Hi).
      rewrite list_lookup_insert_eq in Hb by (eapply lookup_lt_Some; exact Hw).
      injection Hrq as <-. injection Hb as <-. done.
    + rewrite list_lookup_insert_ne in Hrq by exact Hne.
      rewrite list_lookup_insert_ne in Hb by exact Hne.
      apply (pi_listed0 j b rq Hb Hrq).
Qed.

(** What [visit] does in a state that satisfies the invariant. *)
Lemma visit_cases (m : machine) (aio_i : nat) :
  PInv m -> (aio_i < QUEUE_SIZE)%nat ->
  (visit m aio_i = Running m
   /\ (wait_list m !! aio_i = Some false
       \/ (wait_list m !! aio_i = Some true
           /\ requests m !! aio_i = Some IN_PROGRESS)))
  \/ exists ret cb,
       wait_list m !! aio_i = Some true
       /\ requests m !! aio_i = Some (FINISHED ret)
       /\ aiocbs m !! aio_i = Some cb
       /\ visit m aio_i
          = match aio_lio_opcode cb with
            | LIO_READ =>
                if negb (wrap_s32 ret =? 0) then
                  Running (aio_write_setup m aio_i dst_fd (aio_offset cb)
                             (wrap_u64 (wrap_s32 ret)))
                else Running (retire m aio_i)
            | LIO_WRITE =>
                if negb (wrap_s32 ret =? 0) && (src_off m <? src_size m) then
                  let m1 := aio_read_setup m aio_i src_fd (src_off m) B in
                  Running (mkMachine (src_size m1) (wrap_s64 (src_off m1 + B))
                             (num_io_reqs m1) (aiocbs m1) (wait_list m1)
                             (requests m1) (rd_fd m1) (wr_fd m1) (src_file m1)
                             (dst_file m1) (buffers m1))
                else Running (retire m aio_i)
            end.
Proof.
  intros H Hi.
  destruct (lookup_lt_is_Some_2 (wait_list m) aio_i
              ltac:(rewrite (pi_cells _ H); exact Hi)) as [b Hb].
  destruct (lookup_lt_is_Some_2 (requests m) aio_i
              ltac:(rewrite (pi_reqs _ H); exact Hi)) as [rq Hrq].
  destruct (lookup_lt_is_Some_2 (aiocbs m) aio_i
              ltac:(rewrite (pi_cbs _ H); exact Hi)) as [cb Hcb].
  pose proof (pi_listed _ H aio_i b rq Hb Hrq) as Hiff.
  unfold PosixAioCp.visit. rewrite Hb, Hrq, Hcb.
  destruct b.
  - destruct rq as [| |ret].
    + destruct Hiff as [_ Hf]. specialize (Hf eq_refl). discriminate.
    + left. split; [reflexivity|]. right. done.
    + right. exists ret, cb. done.
  - left. split; [reflexivity|]. left. reflexivity.
Qed.

Lemma pinv_visit (m m' : machine) (aio_i : nat) :
  PInv m -> visit m aio_i = Running m' ->
  PInv m' /\ src_off m <= src_off m'.
Proof.
  intros H Hv.
  destruct (decide (aio_i < QUEUE_SIZE)%nat) as [Hi|Hout].
  2:{ unfold PosixAioCp.visit in Hv.
      rewrite (proj2 (lookup_ge_None (wait_list m) aio_i)) in Hv
        by (rewrite (pi_cells _ H); lia).
      discriminate. }
  destruct (visit_cases m aio_i H Hi)
    as [[Heq _]|(ret & cb & Hw & Hrq & Hcb & Heq)];
    rewrite Heq in Hv; [injection Hv as <-; split; [exact H|lia]|].
  pose proof (pi_off _ H) as Hoff. pose proof (pi_size _ H) as Hsz.
  destruct (aio_lio_opcode cb).
  - destruct (negb _); injection Hv as <-; (split; [|cbn; lia]).
    + apply (pinv_setup m aio_i _ ret H Hw Hrq).
    + apply (pinv_retire m aio_i ret H Hw Hrq).
  - destruct (negb _ && _) eqn:Hcond; injection Hv as <-.
    + apply andb_true_iff in Hcond. destruct Hcond as [_ Hlt].
      apply Z.ltb_lt in Hlt. rewrite Hsz in Hlt.
      pose proof (LinuxAioRun.aligned_next _ _ _ block_size_pos
                    (pi_aligned _ H) tracked_aligned Hlt) as Hnext.
      cbn [aio_read_setup src_off src_size num_io_reqs aiocbs wait_list
           requests rd_fd wr_fd src_file dst_file buffers].
      rewrite wrap_s64_small by lia. split; [|lia].
      pose proof (pinv_setup m aio_i (mkAiocb src_fd LIO_READ aio_i B (src_off m))
                    ret H Hw Hrq) as H'.
      destruct H'. constructor; cbn in *; try assumption.
      * lia.
      * apply Z.divide_add_r; [apply (pi_aligned _ H)|apply Z.divide_refl].
    + split; [|cbn; lia]. apply (pinv_retire m aio_i ret H Hw Hrq).
Qed.

Lemma pinv_step (m m' : machine) :
  PInv m -> step m m' -> PInv m' /\ src_off m <= src_off m'.
Proof.
  intros H Hstep. destruct Hstep as [m a m' Hk|m aio_i m' Hv].
  - destruct (pinv_kernel_step m m' a H Hk) as (H' & Hoff & _). split; [exact H'|lia].
  - apply (pinv_visit m m' aio_i H Hv).
Qed.

Lemma pinv_steps (m m' : machine) :
  PInv m -> rtc step m m' -> PInv m' /\ src_off m <= src_off m'.
Proof.
  intros H Hsteps. induction Hsteps as [|m1 m2 m3 Hstep _ IH]; [split; [exact H|lia]|].
  destruct (pinv_step _ _ H Hstep) as [H2 Hle].
  destruct (IH H2) as [H3 Hle']. split; [exact H3|lia].
Qed.

(** *** The state the loop is entered with *)

Definition started (m : machine) (aio_i : nat) : machine :=
  let m1 := aio_read_setup m aio_i src_fd (src_off m) B in
  mkMachine (src_size m1) (wrap_s64 (src_off m1 + B))
    (wrap_u64 (num_io_reqs m1 + 1))
    (aiocbs m1) (<[aio_i := true]> (wait_list m1)) (requests m1)
    (rd_fd m1) (wr_fd m1) (src_file m1) (dst_file m1) (buffers m1).

Lemma pinv_started (m : machine) (aio_i : nat) :
  PInv m -> wait_list m !! aio_i = Some false -> src_off m < T ->
  PInv (started m aio_i) /\ src_off (started m aio_i) = src_off m + B.
Proof.
  intros H Hw Hlt. pose proof (pinv_count_le m H) as Hle.
  pose proof (pi_off _ H) as Hoff.
  pose proof (listed_insert _ aio_i false true Hw) as Hins. cbn in Hins.
  pose proof (listed_le (<[aio_i := true]> (wait_list m))) as Hmax.
  rewrite length_insert, (pi_cells _ H) in Hmax.
  pose proof (LinuxAioRun.aligned_next _ _ _ block_size_pos
                (pi_aligned _ H) tracked_aligned Hlt) as Hnext.
  pose proof (lookup_lt_Some _ _ _ Hw) as Hi. rewrite (pi_cells _ H) in Hi.
  unfold started. cbn. rewrite wrap_s64_small by lia. split; [|reflexivity].
  destruct H. constructor; cbn; try assumption.
  - lia.
  - apply Z.divide_add_r; [assumption|apply Z.divide_refl].
  - rewrite length_insert. assumption.
  - rewrite length_insert. assumption.
  - rewrite length_insert. assumption.
  - rewrite pi_count0. rewrite wrap_u64_small; lia.
  - intros j b rq Hb Hrq. destruct (decide (aio_i = j)) as [<-|Hne].
    + rewrite list_lookup_insert_eq in Hrq by lia.
      rewrite list_lookup_insert_eq in Hb by lia.
      injection Hrq as <-. injection Hb as <-. split; discriminate.
    + rewrite list_lookup_insert_ne in Hrq by exact Hne.
      rewrite list_lookup_insert_ne in Hb by exact Hne.
      apply (pi_listed0 j b rq Hb Hrq).
Qed.

Lemma start_reads_unfold (n aio_i : nat) (m : machine) :
  start_reads READ_BLOCK_SIZE src_fd (Datatypes.S n) aio_i m
  = if src_off m <? src_size m
    then start_reads READ_BLOCK_SIZE src_fd n (Datatypes.S aio_i) (started m aio_i)
    else m.
Proof. reflexivity. Qed.

Lemma pinv_start_reads (n k : nat) (m : machine) :
  PInv m ->
  (forall i, (k <= i < k + n)%nat -> wait_list m !! i = Some false) ->
  PInv (start_reads READ_BLOCK_SIZE src_fd n k m).
Proof.
  revert k m. induction n as [|n IH]; intros k m H Hfree; [exact H|].
  rewrite start_reads_unfold.
  destruct (src_off m <? src_size m) eqn:Hlt; [|exact H].
  apply Z.ltb_lt in Hlt. rewrite (pi_size _ H) in Hlt.
  destruct (pinv_started m k H (Hfree k ltac:(lia)) Hlt) as [H1 _].
  apply (IH (Datatypes.S k) _ H1).
  intros i Hi. unfold started. cbn.
  rewrite list_lookup_insert_ne by lia. apply Hfree. lia.
Qed.

(** *** How long the loop runs

    A listed read is two looks of the driver away from leaving the wait
    list or starting the next block, a listed write one. *)

Definition weight (m : machine) (i : nat) : nat :=
  match wait_list m !! i, aiocbs m !! i with
  | Some true, Some cb =>
      match aio_lio_opcode cb with
      | LIO_READ => 2
      | LIO_WRITE => 1
      end
  | _, _ => 0
  end.

Definition rounds_left (m : machine) : nat :=
  2 * Z.to_nat ((T - src_off m) / B)
  + sum_list (weight m <$> seq 0 QUEUE_SIZE).

Lemma rounds_kernel_step (m m' : machine) (a : kernel_action) :
  kernel_step m a = Some m' -> rounds_left m' = rounds_left m.
Proof.
  intros Hk. destruct (kernel_step_frame m m' a Hk) as (Hoff & Hwl & Hcbs).
  unfold rounds_left, weight. rewrite Hoff, Hwl, Hcbs. reflexivity.
Qed.

Lemma rounds_kernel_run (acts : list kernel_action) (m m' : machine) :
  PInv m -> kernel_run m acts = Some m' ->
  PInv m' /\ rounds_left m' = rounds_left m.
Proof.
  revert m. induction acts as [|a acts IH]; intros m H Hrun; cbn in Hrun.
  - injection Hrun as <-. done.
  - destruct (kernel_step m a) as [m1|] eqn:Hk; [|discriminate].
    destruct (pinv_kernel_step m m1 a H Hk) as [H1 _].
    destruct (IH m1 H1 Hrun) as [H' Heq]. split; [exact H'|].
    rewrite Heq. apply (rounds_kernel_step m m1 a Hk).
Qed.

(** A look at a cell whose request is finished brings the end nearer. *)
Lemma rounds_visit (m m' : machine) (aio_i : nat) :
  PInv m -> visit m aio_i = Running m' ->
  (rounds_left m' <= rounds_left m)%nat
  /\ (forall ret, wait_list m !! aio_i = Some true ->
        requests m !! aio_i = Some (FINISHED ret) ->
        (rounds_left m' < rounds_left m)%nat).
Proof.
  intros H Hv.
  destruct (decide (aio_i < QUEUE_SIZE)%nat) as [Hi|Hout].
  2:{ unfold PosixAioCp.visit in Hv.
      rewrite (proj2 (lookup_ge_None (wait_list m) aio_i)) in Hv
        by (rewrite (pi_cells _ H); lia).
      discriminate. }
  destruct (visit_cases m aio_i H Hi)
    as [[Heq Hcell]|(ret & cb & Hw & Hrq & Hcb & Heq)]; rewrite Heq in Hv.
  { injection Hv as <-. split; [lia|]. intros ret Hw Hrq.
    destruct Hcell as [Hcell|[_ Hcell]]; congruence. }
  pose proof (pi_off _ H) as Hoff. pose proof (pi_size _ H) as Hsz.
  pose proof (lookup_lt_Some _ _ _ Hcb) as Hicb.
  pose proof (lookup_lt_Some _ _ _ Hw) as Hiw.
  assert (Hless : (rounds_left m' < rounds_left m)%nat); [|split; [lia|auto]].
  assert (Hlast : (rounds_left (retire m aio_i) < rounds_left m)%nat).
  { unfold rounds_left. cbn [src_off retire].
    pose proof (sum_list_change (weight (retire m aio_i)) (weight m)
                  0 QUEUE_SIZE aio_i ltac:(lia)) as Hsum.
    assert (Hnew : weight (retire m aio_i) aio_i = 0%nat).
    { unfold weight. cbn. rewrite list_lookup_insert_eq by exact Hiw. reflexivity. }
    assert (Hold : (1 <= weight m aio_i)%nat).
    { unfold weight. rewrite Hw, Hcb. destruct (aio_lio_opcode cb); lia. }
    rewrite Hnew in Hsum. cut (forall j, j <> aio_i ->
                                 weight (retire m aio_i) j = weight m j).
    { intros Hsame. specialize (Hsum Hsame). lia. }
    intros j Hne. unfold weight. cbn.
    rewrite list_lookup_insert_ne by (intros ->; apply Hne; reflexivity).
    reflexivity. }
  destruct (aio_lio_opcode cb) eqn:Hkind.
  - destruct (negb _); injection Hv as <-; [|exact Hlast].
    unfold rounds_left. cbn [src_off aio_write_setup].
    set (m1 := aio_write_setup _ _ _ _ _).
    pose proof (sum_list_change (weight m1) (weight m)
                  0 QUEUE_SIZE aio_i ltac:(lia)) as Hsum.
    assert (Hnew : weight m1 aio_i = 1%nat).
    { unfold weight, m1. cbn. rewrite Hw, list_lookup_insert_eq by exact Hicb.
      reflexivity. }
    assert (Hold : weight m aio_i = 2%nat).
    { unfold weight. rewrite Hw, Hcb, Hkind. reflexivity. }
    rewrite Hnew, Hold in Hsum.
    cut (forall j, j <> aio_i -> weight m1 j = weight m j).
    { intros Hsame. specialize (Hsum Hsame). lia. }
    intros j Hne. unfold weight, m1. cbn.
    rewrite list_lookup_insert_ne by (intros ->; apply Hne; reflexivity).
    reflexivity.
  - destruct (negb _ && _) eqn:Hcond; injection Hv as <-; [|exact Hlast].
    apply andb_true_iff in Hcond. destruct Hcond as [_ Hlt].
    apply Z.ltb_lt in Hlt. rewrite Hsz in Hlt.
    pose proof (LinuxAioRun.aligned_next _ _ _ block_size_pos
                  (pi_aligned _ H) tracked_aligned Hlt) as Hnext.
    cbn [aio_read_setup src_off src_size num_io_reqs aiocbs wait_list
         requests rd_fd wr_fd src_file dst_file buffers].
    rewrite wrap_s64_small by lia.
    set (m1 := mkMachine _ _ _ _ _ _ _ _ _ _ _).
    unfold rounds_left. replace (src_off m1) with (src_off m + B) by reflexivity.
    pose proof (sum_list_change (weight m1) (weight m)
                  0 QUEUE_SIZE aio_i ltac:(lia)) as Hsum.
    assert (Hnew : weight m1 aio_i = 2%nat).
    { unfold weight, m1. cbn. rewrite Hw, list_lookup_insert_eq by exact Hicb.
      reflexivity. }
    assert (Hold : weight m aio_i = 1%nat).
    { unfold weight. rewrite Hw, Hcb, Hkind. reflexivity. }
    rewrite Hnew, Hold in Hsum.
    assert (Hsame : forall j, j <> aio_i -> weight m1 j = weight m j).
    { intros j Hne. unfold weight, m1. cbn.
      rewrite list_lookup_insert_ne by (intros ->; apply Hne; reflexivity).
      reflexivity. }
    specialize (Hsum Hsame).
    replace (T - (src_off m + B)) with (T - src_off m + (-1) * B) by lia.
    rewrite Z.div_add by lia.
    assert (1 <= (T - src_off m) / B) by (apply Z.div_le_lower_bound; lia).
    lia.
Qed.

Lemma visit_frame (m m' : machine) (aio_i j : nat) :
  visit m aio_i = Running m' -> j <> aio_i ->
  wait_list m' !! j = wait_list m !! j /\ requests m' !! j = requests m !! j.
Proof.
  intros Hv Hne. unfold PosixAioCp.visit in Hv.
  assert (Hne' : aio_i <> j) by (intros ->; apply Hne; reflexivity).
  destruct (wait_list m !! aio_i) as [[|]|]; try discriminate.
  2:{ injection Hv as <-. done. }
  destruct (requests m !! aio_i) as [[| |ret]|]; try discriminate.
  { injection Hv as <-. done. }
  destruct (aiocbs m !! aio_i) as [cb|]; [|discriminate].
  destruct (aio_lio_opcode cb).
  - destruct (negb _); injection Hv as <-; cbn;
      rewrite ?list_lookup_insert_ne by exact Hne'; done.
  - destruct (negb _ && _); injection Hv as <-; cbn;
      rewrite ?list_lookup_insert_ne by exact Hne'; done.
Qed.

Lemma rounds_sweep (cells : list nat) (m m' : machine) :
  NoDup cells -> PInv m ->
  sweep READ_BLOCK_SIZE src_fd dst_fd cells m = Running m' ->
  PInv m'
  /\ (rounds_left m' <= rounds_left m)%nat
  /\ (forall i ret, i ∈ cells -> wait_list m !! i = Some true ->
        requests m !! i = Some (FINISHED ret) ->
        (rounds_left m' < rounds_left m)%nat).
Proof.
  intros Hnd. revert m.
  induction Hnd as [|c cells Hfresh Hnd IH]; intros m H Hs; cbn in Hs.
  - injection Hs as <-. split; [exact H|]. split; [lia|].
    intros i ret Hin. inversion Hin.
  - destruct (visit m c) as [m1| |] eqn:Hv; try discriminate.
    destruct (pinv_visit m m1 c H Hv) as [H1 _].
    destruct (rounds_visit m m1 c H Hv) as [Hle Hlt].
    destruct (IH m1 H1 Hs) as (H' & Hle' & Hlt').
    split; [exact H'|]. split; [lia|].
    intros i ret Hin Hw Hrq. apply elem_of_cons in Hin.
    destruct Hin as [->|Hin].
    + specialize (Hlt ret Hw Hrq). lia.
    + assert (Hne : i <> c) by (intros ->; contradiction).
      destruct (visit_frame m m1 c i Hv Hne) as [Hw1 Hrq1].
      rewrite <- Hw1 in Hw. rewrite <- Hrq1 in Hrq.
      specialize (Hlt' i ret Hin Hw Hrq). lia.
Qed.

(** The driver never looks at a control block the library holds no
    request for, so the look has a defined result. *)
Lemma sweep_runs (cells : list nat) (m : machine) :
  PInv m -> Forall (fun c => (c < QUEUE_SIZE)%nat) cells ->
  exists m', sweep READ_BLOCK_SIZE src_fd dst_fd cells m = Running m'.
Proof.
  intros H Hcells. revert m H.
  induction Hcells as [|c cells Hc _ IH]; intros m H; cbn.
  - exists m. reflexivity.
  - assert (Hv : exists m1, visit m c = Running m1).
    { destruct (visit_cases m c H Hc)
        as [[Heq _]|(ret & cb & _ & _ & _ & Heq)]; rewrite Heq; [eauto|].
      destruct (aio_lio_opcode cb);
        [destruct (negb _)|destruct (negb _ && _)]; eauto. }
    destruct Hv as [m1 Hv]. rewrite Hv.
    destruct (pinv_visit m m1 c H Hv) as [H1 _]. apply (IH m1 H1).
Qed.

(** While the counter is not zero something is left to do. *)
Lemma rounds_left_pos (m : machine) :
  PInv m -> num_io_reqs m <> 0 -> (0 < rounds_left m)%nat.
Proof.
  intros H Hnz.
  destruct (listed_some (wait_list m)) as [i Hw].
  { pose proof (pi_count _ H). lia. }
  pose proof (lookup_lt_Some _ _ _ Hw) as Hi. rewrite (pi_cells _ H) in Hi.
  destruct (lookup_lt_is_Some_2 (aiocbs m) i
              ltac:(rewrite (pi_cbs _ H); exact Hi)) as [cb Hcb].
  pose proof (sum_list_ge (weight m) 0 QUEUE_SIZE i ltac:(lia)) as Hge.
  assert (1 <= weight m i)%nat.
  { unfold weight. rewrite Hw, Hcb. destruct (aio_lio_opcode cb); lia. }
  unfold rounds_left. lia.
Qed.

(** One pass of the loop. *)
Lemma rounds_pass (m1 : machine) :
  PInv m1 -> woken m1 = true ->
  exists m2, sweep READ_BLOCK_SIZE src_fd dst_fd (seq 0 QUEUE_SIZE) m1 = Running m2
    /\ PInv m2 /\ (rounds_left m2 < rounds_left m1)%nat.
Proof.
  intros H Hwoken.
  destruct (sweep_runs (seq 0 QUEUE_SIZE) m1 H) as [m2 Hs].
  { apply Forall_forall. intros c Hc. apply elem_of_seq in Hc. lia. }
  exists m2. split; [exact Hs|].
  destruct (rounds_sweep _ m1 m2 (NoDup_seq 0 QUEUE_SIZE) H Hs) as (H2 & _ & Hlt).
  split; [exact H2|].
  apply woken_cell in Hwoken. destruct Hwoken as (i & ret & Hw & Hrq).
  apply (Hlt i ret); [|exact Hw|exact Hrq].
  apply elem_of_seq. pose proof (lookup_lt_Some _ _ _ Hw) as Hi.
  rewrite (pi_cells _ H) in Hi. lia.
Qed.

Lemma main_loop_bounded (k : nat) (schedule : list round) (m : machine) :
  PInv m -> (rounds_left m <= k)%nat ->
  main_loop READ_BLOCK_SIZE QUEUE_SIZE src_fd dst_fd schedule m
  = main_loop READ_BLOCK_SIZE QUEUE_SIZE src_fd dst_fd (take k schedule) m.
Proof.
  revert schedule m. induction k as [|k IH]; intros schedule m H Hle.
  - destruct (Z.eqb_spec (num_io_reqs m) 0) as [Hz|Hnz].
    + destruct schedule; cbn; rewrite (proj2 (Z.eqb_eq _ _) Hz); reflexivity.
    + pose proof (rounds_left_pos m H Hnz). lia.
  - destruct schedule as [|r schedule]; [reflexivity|].
    cbn [take main_loop].
    destruct (num_io_reqs m =? 0); [reflexivity|].
    destruct r as [acts|acts]; [|reflexivity].
    destruct (kernel_run m acts) as [m1|] eqn:Hrun; [|reflexivity].
    destruct (rounds_kernel_run acts m m1 H Hrun) as [H1 Heq].
    destruct (woken m1) eqn:Hwoken; [|reflexivity].
    destruct (rounds_pass m1 H1 Hwoken) as (m2 & Hs & H2 & Hlt).
    rewrite Hs. apply IH; [exact H2|lia].
Qed.

Lemma rounds_started (m : machine) (k : nat) :
  PInv m -> wait_list m !! k = Some false -> src_off m < T ->
  rounds_left (started m k) = rounds_left m.
Proof.
  intros H Hw Hlt.
  pose proof (pi_off _ H) as Hoff.
  pose proof (LinuxAioRun.aligned_next _ _ _ block_size_pos
                (pi_aligned _ H) tracked_aligned Hlt) as Hnext.
  pose proof (lookup_lt_Some _ _ _ Hw) as Hiw.
  assert (Hi : (k < QUEUE_SIZE)%nat) by (rewrite <- (pi_cells _ H); exact Hiw).
  assert (Hicb : (k < length (aiocbs m))%nat) by (rewrite (pi_cbs _ H); exact Hi).
  unfold rounds_left.
  replace (src_off (started m k)) with (src_off m + B)
    by (unfold started; cbn; rewrite wrap_s64_small by lia; reflexivity).
  pose proof (sum_list_change (weight (started m k)) (weight m)
                0 QUEUE_SIZE k ltac:(lia)) as Hsum.
  assert (Hnew : weight (started m k) k = 2%nat).
  { unfold weight, started. cbn.
    rewrite list_lookup_insert_eq by exact Hiw.
    rewrite list_lookup_insert_eq by exact Hicb. reflexivity. }
  assert (Hold : weight m k = 0%nat).
  { unfold weight. rewrite Hw. reflexivity. }
  rewrite Hnew, Hold in Hsum.
  assert (Hsame : forall j, j <> k -> weight (started m k) j = weight m j).
  { intros j Hne. unfold weight, started. cbn.
    rewrite !list_lookup_insert_ne by (intros ->; apply Hne; reflexivity).
    reflexivity. }
  specialize (Hsum Hsame).
  replace (T - (src_off m + B)) with (T - src_off m + (-1) * B) by lia.
  rewrite Z.div_add by lia.
  assert (1 <= (T - src_off m) / B) by (apply Z.div_le_lower_bound; lia).
  lia.
Qed.

Lemma rounds_start_reads (n k : nat) (m : machine) :
  PInv m ->
  (forall i, (k <= i < k + n)%nat -> wait_list m !! i = Some false) ->
  rounds_left (start_reads READ_BLOCK_SIZE src_fd n k m) = rounds_left m.
Proof.
  revert k m. induction n as [|n IH]; intros k m H Hfree; [reflexivity|].
  rewrite start_reads_unfold.
  destruct (src_off m <? src_size m) eqn:Hlt; [|reflexivity].
  apply Z.ltb_lt in Hlt. rewrite (pi_size _ H) in Hlt.
  destruct (pinv_started m k H (Hfree k ltac:(lia)) Hlt) as [H1 _].
  rewrite (IH (Datatypes.S k) _ H1).
  - apply rounds_started; [exact H|apply Hfree; lia|exact Hlt].
  - intros i Hi. unfold started. cbn.
    rewrite list_lookup_insert_ne by lia. apply Hfree. lia.
Qed.

(** The loop has no error path of its own: only an interrupted
    [aio_suspend] ends the run early. *)
Lemma posix_loop_outcome (schedule : list round) (m : machine) :
  PInv m ->
  match main_loop READ_BLOCK_SIZE QUEUE_SIZE src_fd dst_fd schedule m with
  | Some Undefined => False
  | Some (Exited code) =>
      code = EXIT_FAILURE /\ exists acts, Interrupted acts ∈ schedule
  | _ => True
  end.
Proof.
  revert m. induction schedule as [|r schedule IH]; intros m H; cbn;
    destruct (num_io_reqs m =? 0); try exact I.
  destruct r as [acts|acts].
  - destruct (kernel_run m acts) as [m1|] eqn:Hrun; [|exact I].
    destruct (rounds_kernel_run acts m m1 H Hrun) as [H1 _].
    destruct (woken m1) eqn:Hwoken; [|exact I].
    destruct (rounds_pass m1 H1 Hwoken) as (m2 & Hs & H2 & _).
    rewrite Hs. specialize (IH m2 H2).
    destruct (main_loop _ _ _ _ schedule m2) as [[m3|code|]|]; try exact I.
    + destruct IH as [Hcode [acts' Hin]].
      split; [exact Hcode|]. exists acts'. right. exact Hin.
    + exact IH.
  - destruct (kernel_run m acts); [|exact I].
    split; [reflexivity|]. exists acts. left.
Qed.

End Counting.

Lemma pinv_boot (B : Z) (N : nat) (src_fd dst_fd : Z) (src : file) (S0 : Z)
    (aiocbs0 : list aiocb) (mem : list (list byte)) :
  0 < B -> (B | 2 ^ 32) -> Z.of_nat N < 2 ^ 64 ->
  length aiocbs0 = N ->
  PInv B N (round_file_size B S0) (boot B N src_fd dst_fd src S0 aiocbs0 mem).
Proof.
  intros HB Hpow HN Hcbs. unfold boot.
  pose proof (LinuxAioRun.round_file_size_bounds B S0) as Hb.
  pose proof (LinuxAioRun.round_file_size_aligned B S0 HB Hpow) as Hal.
  apply (pinv_start_reads B N src_fd (round_file_size B S0) HB Hal Hb HN N 0).
  - constructor; cbn;
      first [reflexivity|lia|apply Z.divide_0_r|apply length_replicate
            |rewrite listed_none; reflexivity|idtac].
    intros i b rq Hb' Hrq. apply lookup_replicate in Hb', Hrq.
    destruct Hb' as [-> _], Hrq as [-> _]. done.
  - intros i Hi. cbn. apply lookup_replicate. split; [reflexivity|lia].
Qed.

Lemma sum_list_zero (f : nat -> nat) (s n : nat) :
  (forall j, f j = 0%nat) -> sum_list (f <$> seq s n) = 0%nat.
Proof.
  intros Hf. revert s. induction n as [|n IH]; intros s; [reflexivity|].
  cbn. rewrite Hf, IH. reflexivity.
Qed.

Lemma rounds_boot (B : Z) (N : nat) (src_fd dst_fd : Z) (src : file) (S0 : Z)
    (aiocbs0 : list aiocb) (mem : list (list byte)) :
  0 < B -> (B | 2 ^ 32) -> Z.of_nat N < 2 ^ 64 ->
  length aiocbs0 = N ->
  rounds_left B N (round_file_size B S0)
    (boot B N src_fd dst_fd src S0 aiocbs0 mem)
  = (2 * Z.to_nat (round_file_size B S0 / B))%nat.
Proof.
  intros HB Hpow HN Hcbs. unfold boot.
  pose proof (LinuxAioRun.round_file_size_bounds B S0) as Hb.
  pose proof (LinuxAioRun.round_file_size_aligned B S0 HB Hpow) as Hal.
  rewrite (rounds_start_reads B N src_fd (round_file_size B S0) HB Hal Hb HN N 0).
  - unfold rounds_left. cbn [src_off]. rewrite sum_list_zero.
    + rewrite Z.sub_0_r. lia.
    + intros j. unfold weight. cbn.
      destruct (replicate N false !! j) as [[|]|] eqn:Hj; try reflexivity.
      apply lookup_replicate in Hj. destruct Hj. discriminate.
  - constructor; cbn;
      first [reflexivity|lia|apply Z.divide_0_r|apply length_replicate
            |rewrite listed_none; reflexivity|idtac].
    intros i b rq Hb' Hrq. apply lookup_replicate in Hb', Hrq.
    destruct Hb' as [-> _], Hrq as [-> _]. done.
  - intros i Hi. cbn. apply lookup_replicate. split; [reflexivity|lia].
Qed.

(** *** What the destination holds

    The library carries out every request in full: none is failed or cut
    short. *)

Section Copying.

Variable READ_BLOCK_SIZE : Z.
Variable QUEUE_SIZE : nat.
Variables src_fd dst_fd : Z.
Variable src : file.

#[local] Abbreviation B := READ_BLOCK_SIZE.
#[local] Abbreviation S := (Z.of_nat (length src)).
#[local] Abbreviation T := (round_file_size READ_BLOCK_SIZE (Z.of_nat (length src))).

Hypothesis block_size_bounds : 0 < B < 2 ^ 31.
Hypothesis rounding_fits : S + B < 2 ^ 32.
Hypothesis queue_size_bound : Z.of_nat QUEUE_SIZE < 2 ^ 64.

#[local] Abbreviation visit := (visit READ_BLOCK_SIZE src_fd dst_fd).
#[local] Abbreviation step := (step READ_BLOCK_SIZE src_fd dst_fd).
#[local] Abbreviation PInv := (PInv READ_BLOCK_SIZE QUEUE_SIZE T).

Lemma tracked_exact : T = B * (S / B + 1).
Proof. apply LinuxAioRun.round_file_size_exact; lia. Qed.

Lemma tracked_past : S < T <= S + B /\ (B | T) /\ 0 <= T < 2 ^ 32.
Proof.
  rewrite tracked_exact.
  pose proof (Z.div_mod S B ltac:(lia)) as Hdm.
  pose proof (Z.mod_pos_bound S B ltac:(lia)) as Hmod.
  split; [lia|]. split; [exists (S / B + 1); lia|lia].
Qed.

(** The bytes of the source in the block at [o]. *)
Definition block_len (o : Z) : Z := Z.max 0 (Z.min B (S - o)).

Definition block_done (dst : file) (o : Z) : Prop :=
  forall x : nat, o <= Z.of_nat x < o + B -> Z.of_nat x < S ->
    dst !! x = src !! x.

Definition buf_holds (bufs : list (list byte)) (i : nat) (o n : Z) : Prop :=
  exists buf, bufs !! i = Some buf
    /\ forall j : nat, Z.of_nat j < n -> buf !! j = src !! (Z.to_nat o + j)%nat.

(** A listed cell: its control block names a block below the cursor; a
    read that is finished has filled the buffer, a write is set up from a
    filled buffer and, once finished, has put the block in place. *)
Definition slot_ok (cursor : Z) (bufs : list (list byte)) (dst : file)
    (i : nat) (cb : aiocb) (rq : request) : Prop :=
  aio_buf cb = i
  /\ 0 <= aio_offset cb /\ (B | aio_offset cb)
  /\ aio_offset cb + B <= cursor
  /\ match aio_lio_opcode cb with
     | LIO_READ =>
         aio_fildes cb = src_fd /\ aio_nbytes cb = B
         /\ (rq = IN_PROGRESS
             \/ (rq = FINISHED (block_len (aio_offset cb))
                 /\ buf_holds bufs i (aio_offset cb) (block_len (aio_offset cb))))
     | LIO_WRITE =>
         aio_fildes cb = dst_fd
         /\ aio_nbytes cb = block_len (aio_offset cb)
         /\ 0 < block_len (aio_offset cb)
         /\ buf_holds bufs i (aio_offset cb) (block_len (aio_offset cb))
         /\ (rq = IN_PROGRESS
             \/ (rq = FINISHED (block_len (aio_offset cb))
                 /\ block_done dst (aio_offset cb)))
     end.

Record PData (m : machine) : Prop := {
  pd_src : src_file m = src;
  pd_rd : rd_fd m = src_fd;
  pd_wr : wr_fd m = dst_fd;
  pd_dst : Z.of_nat (length (dst_file m)) = S;
  pd_bufs :
    forall i, (i < QUEUE_SIZE)%nat ->
      exists buf, buffers m !! i = Some buf /\ B <= Z.of_nat (length buf);
  pd_slots :
    forall i cb rq,
      wait_list m !! i = Some true -> aiocbs m !! i = Some cb ->
      requests m !! i = Some rq ->
      slot_ok (src_off m) (buffers m) (dst_file m) i cb rq;
  pd_covered :
    forall o, (B | o) -> 0 <= o < src_off m ->
      block_done (dst_file m) o
      \/ exists i cb, wait_list m !! i = Some true
                      /\ aiocbs m !! i = Some cb /\ aio_offset cb = o
}.

(** While blocks remain to be read every cell is listed. *)
Definition full (m : machine) : Prop :=
  src_off m < T -> forall i, (i < QUEUE_SIZE)%nat -> wait_list m !! i = Some true.

Lemma slot_ok_mono (cursor cursor' : Z) (bufs bufs' : list (list byte))
    (dst dst' : file) (i : nat) (cb : aiocb) (rq : request) :
  cursor <= cursor' ->
  bufs' !! i = bufs !! i ->
  (forall x : nat, dst !! x = src !! x -> dst' !! x = src !! x) ->
  slot_ok cursor bufs dst i cb rq -> slot_ok cursor' bufs' dst' i cb rq.
Proof.
  intros Hcur Hbuf Hdst (Hi & Ho & Hal & Hbelow & Hop).
  assert (Hholds : forall o n, buf_holds bufs i o n -> buf_holds bufs' i o n).
  { intros o n (buf & Hb & Hok). exists buf. rewrite Hbuf. done. }
  split; [exact Hi|]. split; [exact Ho|]. split; [exact Hal|]. split; [lia|].
  destruct (aio_lio_opcode cb).
  - destruct Hop as (Hfd & Hn & [Hrq|[Hrq Hh]]); (split; [exact Hfd|]);
      (split; [exact Hn|]); [left; exact Hrq|right; auto].
  - destruct Hop as (Hfd & Hn & Hpos & Hh & Hrq).
    split; [exact Hfd|]. split; [exact Hn|]. split; [exact Hpos|].
    split; [auto|]. destruct Hrq as [Hrq|[Hrq Hd]]; [left; exact Hrq|].
    right. split; [exact Hrq|]. intros x Hx HxS. apply Hdst, (Hd x Hx HxS).
Qed.

Lemma block_len_range (o : Z) : 0 <= block_len o <= B.
Proof. unfold block_len. lia. Qed.

Lemma block_empty_done (dst : file) (o : Z) : block_len o = 0 -> block_done dst o.
Proof. unfold block_len. intros Hz x Hx HxS. lia. Qed.

(** A block that holds no byte of the source is the last one the rounded
    size leaves room for. *)
Lemma block_empty_last (o cursor : Z) :
  block_len o = 0 -> 0 <= o -> (B | o) -> o + B <= cursor -> cursor <= T ->
  cursor = T.
Proof.
  unfold block_len. intros Hz Ho [k ->] Hbelow Hle.
  rewrite tracked_exact in *.
  pose proof (Z.div_mod S B ltac:(lia)) as Hdm.
  pose proof (Z.mod_pos_bound S B ltac:(lia)) as Hmod.
  assert (k <= S / B) by nia.
  assert (S / B <= k) by nia. nia.
Qed.

Lemma listed_cell (m : machine) (i : nat) (rq : request) :
  PInv m -> requests m !! i = Some rq -> rq <> NO_REQUEST ->
  wait_list m !! i = Some true /\ (i < QUEUE_SIZE)%nat.
Proof.
  intros H Hrq Hne.
  pose proof (lookup_lt_Some _ _ _ Hrq) as Hi. rewrite (pi_reqs _ _ _ _ H) in Hi.
  destruct (lookup_lt_is_Some_2 (wait_list m) i
              ltac:(rewrite (pi_cells _ _ _ _ H); exact Hi)) as [b Hb].
  pose proof (pi_listed _ _ _ _ H i b rq Hb Hrq) as Hiff.
  destruct b; [done|]. destruct Hiff as [Hf _]. specialize (Hf eq_refl). done.
Qed.

(** The library carries out the request of cell [i]. *)
Lemma pdata_complete (m m' : machine) (i : nat) :
  PInv m -> PData m -> kernel_step m (Complete i) = Some m' -> PData m'.
Proof.
  intros H D Hk. cbn in Hk.
  destruct (requests m !! i) as [[| |ret]|] eqn:Hrq; try discriminate.
  destruct (aiocbs m !! i) as [cb|] eqn:Hcb; [|discriminate].
  injection Hk as <-.
  destruct (listed_cell m i IN_PROGRESS H Hrq ltac:(discriminate)) as [Hw Hi].
  pose proof (pd_slots _ D i cb IN_PROGRESS Hw Hcb Hrq)
    as (Hbuf & Ho & Hal & Hbelow & Hop).
  destruct (pd_bufs _ D i Hi) as (buf & Hb & Hlen).
  pose proof (block_len_range (aio_offset cb)) as Hrange.
  pose proof (lookup_lt_Some _ _ _ Hrq) as Hireq.
  pose proof (lookup_lt_Some _ _ _ Hb) as Hibuf.
  unfold perform. rewrite Hbuf, Hb.
  destruct (aio_lio_opcode cb) eqn:Hkind.
  - destruct Hop as (Hfd & Hn & _).
    rewrite Hn, Hfd, (pd_rd _ D), (pd_src _ D), Z.eqb_refl.
    destruct (Z.ltb_spec (Z.of_nat (length buf)) B) as [Hshort|_]; [lia|].
    pose proof (pread_length src (aio_offset cb) B Ho ltac:(lia)) as Hgot.
    fold (block_len (aio_offset cb)) in Hgot.
    destruct D. constructor; cbn; first [assumption|reflexivity|idtac].
    + intros j Hj. destruct (decide (i = j)) as [<-|Hne].
      * rewrite list_lookup_insert_eq by exact Hibuf.
        eexists. split; [reflexivity|].
        unfold fill_buffer. rewrite length_app, length_drop. lia.
      * rewrite list_lookup_insert_ne by exact Hne. apply pd_bufs0. exact Hj.
    + intros j cb' rq' Hwj Hcbj Hrqj. destruct (decide (i = j)) as [<-|Hne].
      * rewrite list_lookup_insert_eq in Hrqj by exact Hireq.
        injection Hrqj as <-. rewrite Hcb in Hcbj. injection Hcbj as <-.
        split; [exact Hbuf|]. split; [exact Ho|]. split; [exact Hal|].
        split; [exact Hbelow|]. rewrite Hkind.
        split; [exact Hfd|]. split; [exact Hn|]. right.
        split; [rewrite Hgot; reflexivity|].
        eexists. split; [apply list_lookup_insert_eq; exact Hibuf|].
        intros k Hk. rewrite fill_buffer_lookup by lia.
        apply pread_lookup. lia.
      * rewrite list_lookup_insert_ne in Hrqj by exact Hne.
        apply (slot_ok_mono (src_off m) _ (buffers m) _ (dst_file m));
          [lia|apply list_lookup_insert_ne; exact Hne|auto|].
        apply pd_slots0; assumption.
  - destruct Hop as (Hfd & Hn & Hpos & (buf' & Hb' & Hheld) & _).
    rewrite Hb in Hb'. injection Hb' as <-.
    rewrite Hn, Hfd, (pd_wr _ D), Z.eqb_refl.
    destruct (Z.ltb_spec (Z.of_nat (length buf)) (block_len (aio_offset cb)))
      as [Hshort|_]; [lia|].
    set (out := take (Z.to_nat (block_len (aio_offset cb))) buf).
    assert (Hout : Z.of_nat (length out) = block_len (aio_offset cb)).
    { unfold out. rewrite length_take. lia. }
    assert (Hin : aio_offset cb + block_len (aio_offset cb) <= S).
    { unfold block_len in *. lia. }
    assert (Hsrc : forall k : nat, (k < length out)%nat ->
               out !! k = src !! (Z.to_nat (aio_offset cb) + k)%nat).
    { intros k Hk. unfold out. rewrite lookup_take_lt by lia.
      apply Hheld. lia. }
    assert (Hkeep : forall x : nat, dst_file m !! x = src !! x ->
               pwrite (dst_file m) (aio_offset cb) out !! x = src !! x).
    { intros x Hx. apply ThreadPoolRun.good_write_keeps;
        [rewrite (pd_dst _ D); lia|exact Hsrc|exact Hx]. }
    destruct D. constructor; cbn; first [assumption|reflexivity|idtac].
    + rewrite pwrite_length by lia. lia.
    + intros j cb' rq' Hwj Hcbj Hrqj. destruct (decide (i = j)) as [<-|Hne].
      * rewrite list_lookup_insert_eq in Hrqj by exact Hireq.
        injection Hrqj as <-. rewrite Hcb in Hcbj. injection Hcbj as <-.
        split; [exact Hbuf|]. split; [exact Ho|]. split; [exact Hal|].
        split; [exact Hbelow|]. rewrite Hkind.
        split; [exact Hfd|]. split; [exact Hn|]. split; [exact Hpos|].
        split; [exists buf; split; assumption|]. right.
        split; [rewrite Hout; reflexivity|].
        intros x Hx HxS. apply ThreadPoolRun.good_write_new;
          [lia|exact Hsrc|]. unfold block_len in *. lia.
      * rewrite list_lookup_insert_ne in Hrqj by exact Hne.
        apply (slot_ok_mono (src_off m) _ (buffers m) _ (dst_file m));
          [lia|reflexivity|exact Hkeep|].
        apply pd_slots0; assumption.
    + intros o Hdiv Hlt. destruct (pd_covered0 o Hdiv Hlt) as [Hdone|Hheld'].
      * left. intros x Hx HxS. apply Hkeep, (Hdone x Hx HxS).
      * right. exact Hheld'.
Qed.

Lemma aligned_between (a o : Z) :
  (B | a) -> (B | o) -> a <= o < a + B -> o = a.
Proof.
  intros [k ->] [j ->] Hr.
  assert (k <= j) by nia. assert (j < k + 1) by nia. f_equal. lia.
Qed.

(** The driver looks at a cell. *)
Lemma pdata_visit (m m' : machine) (aio_i : nat) :
  PInv m -> PData m -> full m -> visit m aio_i = Running m' ->
  PData m' /\ full m'.
Proof.
  intros H D F Hv.
  destruct tracked_past as (_ & Hdiv & HT).
  destruct (decide (aio_i < QUEUE_SIZE)%nat) as [Hi|Hout].
  2:{ unfold PosixAioCp.visit in Hv.
      rewrite (proj2 (lookup_ge_None (wait_list m) aio_i)) in Hv
        by (rewrite (pi_cells _ _ _ _ H); lia).
      discriminate. }
  destruct (visit_cases _ _ src_fd dst_fd _ m aio_i H Hi)
    as [[Heq _]|(ret & cb & Hw & Hrq & Hcb & Heq)];
    rewrite Heq in Hv; [injection Hv as <-; split; assumption|].
  pose proof (pi_off _ _ _ _ H) as Hoff. pose proof (pi_size _ _ _ _ H) as Hsz.
  pose proof (pd_slots _ D aio_i cb (FINISHED ret) Hw Hcb Hrq)
    as (Hbuf & Ho & Hal & Hbelow & Hop).
  pose proof (block_len_range (aio_offset cb)) as Hrange.
  pose proof (lookup_lt_Some _ _ _ Hrq) as Hireq.
  pose proof (lookup_lt_Some _ _ _ Hcb) as Hicb.
  pose proof (lookup_lt_Some _ _ _ Hw) as Hiw.
  assert (Hretired : block_done (dst_file m) (aio_offset cb) ->
            src_off m = T -> PData (retire m aio_i) /\ full (retire m aio_i)).
  { intros Hdone Hend. split; [|intros Hlt; cbn in Hlt; lia].
    destruct D. constructor; cbn; try assumption.
    - intros j cb' rq' Hwj Hcbj Hrqj. destruct (decide (aio_i = j)) as [<-|Hne].
      + rewrite list_lookup_insert_eq in Hwj by exact Hiw. discriminate.
      + rewrite list_lookup_insert_ne in Hwj by exact Hne.
        rewrite list_lookup_insert_ne in Hrqj by exact Hne.
        apply pd_slots0; assumption.
    - intros o Hdo Hlt. destruct (pd_covered0 o Hdo Hlt)
        as [Hd|(j & cb' & Hwj & Hcbj & Hoj)]; [left; exact Hd|].
      destruct (decide (aio_i = j)) as [<-|Hne].
      + rewrite Hcb in Hcbj. injection Hcbj as <-. subst o. left. exact Hdone.
      + right. exists j, cb'. rewrite list_lookup_insert_ne by exact Hne. done. }
  destruct (aio_lio_opcode cb) eqn:Hkind.
  - destruct Hop as (Hfd & Hn & [Hin|[Hfin Hheld]]); [discriminate|].
    injection Hfin as ->.
    rewrite wrap_s32_small in Hv by lia.
    destruct (Z.eqb_spec (block_len (aio_offset cb)) 0) as [Hz|Hnz];
      cbn [negb] in Hv; injection Hv as <-.
    + apply Hretired; [apply block_empty_done; exact Hz|].
      apply (block_empty_last (aio_offset cb)); [assumption..|lia].
    + rewrite wrap_u64_small by lia. split; [|exact F].
      destruct D. constructor; cbn; try assumption.
      * intros j cb' rq' Hwj Hcbj Hrqj. destruct (decide (aio_i = j)) as [<-|Hne].
        -- rewrite list_lookup_insert_eq in Hcbj by exact Hicb.
           rewrite list_lookup_insert_eq in Hrqj by exact Hireq.
           injection Hcbj as <-. injection Hrqj as <-. unfold slot_ok. cbn.
           repeat (split; [first [assumption|reflexivity|lia]|]).
           left. reflexivity.
        -- rewrite list_lookup_insert_ne in Hcbj by exact Hne.
           rewrite list_lookup_insert_ne in Hrqj by exact Hne.
           apply pd_slots0; assumption.
      * intros o Hdo Hlt. destruct (pd_covered0 o Hdo Hlt)
          as [Hd|(j & cb' & Hwj & Hcbj & Hoj)]; [left; exact Hd|].
        right. destruct (decide (aio_i = j)) as [<-|Hne].
        -- rewrite Hcb in Hcbj. injection Hcbj as <-.
           eexists aio_i, _. split; [exact Hwj|].
           split; [apply list_lookup_insert_eq; exact Hicb|exact Hoj].
        -- exists j, cb'. rewrite list_lookup_insert_ne by exact Hne. done.
  - destruct Hop as (Hfd & Hn & Hpos & Hheld & [Hin|[Hfin Hdone]]); [discriminate|].
    injection Hfin as ->.
    rewrite wrap_s32_small in Hv by lia.
    destruct (Z.eqb_spec (block_len (aio_offset cb)) 0) as [Hz|_]; [lia|].
    cbn [negb andb] in Hv. rewrite Hsz in Hv.
    destruct (Z.ltb_spec (src_off m) T) as [Hlt|Hge]; injection Hv as <-.
    2:{ apply Hretired; [exact Hdone|lia]. }
    pose proof (LinuxAioRun.aligned_next B (src_off m) T
                  (proj1 block_size_bounds) (pi_aligned _ _ _ _ H) Hdiv Hlt)
      as Hnext.
    cbn [aio_read_setup src_off src_size num_io_reqs aiocbs wait_list
         requests rd_fd wr_fd src_file dst_file buffers].
    rewrite wrap_s64_small by lia.
    split; [|intros _ j Hj; cbn; apply F; assumption].
    destruct D. constructor; cbn; try assumption.
    + intros j cb' rq' Hwj Hcbj Hrqj. destruct (decide (aio_i = j)) as [<-|Hne].
      * rewrite list_lookup_insert_eq in Hcbj by exact Hicb.
        rewrite list_lookup_insert_eq in Hrqj by exact Hireq.
        injection Hcbj as <-. injection Hrqj as <-. unfold slot_ok. cbn.
        split; [reflexivity|]. split; [lia|].
        split; [apply (pi_aligned _ _ _ _ H)|]. split; [lia|].
        split; [reflexivity|]. split; [reflexivity|]. left. reflexivity.
      * rewrite list_lookup_insert_ne in Hcbj by exact Hne.
        rewrite list_lookup_insert_ne in Hrqj by exact Hne.
        apply (slot_ok_mono (src_off m) _ (buffers m) _ (dst_file m));
          [lia|reflexivity|auto|].
        apply pd_slots0; assumption.
    + intros o Hdo Hr.
      destruct (decide (o < src_off m)) as [Hold|Hnew].
      * destruct (pd_covered0 o Hdo ltac:(lia))
          as [Hd|(j & cb' & Hwj & Hcbj & Hoj)]; [left; exact Hd|].
        destruct (decide (aio_i = j)) as [<-|Hne].
        -- rewrite Hcb in Hcbj. injection Hcbj as <-. subst o. left. exact Hdone.
        -- right. exists j, cb'. rewrite list_lookup_insert_ne by exact Hne. done.
      * right. eexists aio_i, _. split; [exact Hw|].
        split; [apply list_lookup_insert_eq; exact Hicb|]. cbn.
        symmetry. apply aligned_between;
          [apply (pi_aligned _ _ _ _ H)|exact Hdo|lia].
Qed.

(** *** The first reads *)

Lemma pdata_started (m : machine) (k : nat) :
  PInv m -> PData m -> wait_list m !! k = Some false -> src_off m < T ->
  PData (started READ_BLOCK_SIZE src_fd m k).
Proof.
  intros H D Hw Hlt.
  destruct tracked_past as (_ & Hdiv & HT).
  pose proof (pi_off _ _ _ _ H) as Hoff.
  pose proof (LinuxAioRun.aligned_next B (src_off m) T
                (proj1 block_size_bounds) (pi_aligned _ _ _ _ H) Hdiv Hlt)
    as Hnext.
  pose proof (lookup_lt_Some _ _ _ Hw) as Hiw.
  assert (Hicb : (k < length (aiocbs m))%nat).
  { rewrite (pi_cbs _ _ _ _ H), <- (pi_cells _ _ _ _ H). exact Hiw. }
  assert (Hireq : (k < length (requests m))%nat).
  { rewrite (pi_reqs _ _ _ _ H), <- (pi_cells _ _ _ _ H). exact Hiw. }
  unfold started.
  cbn [aio_read_setup src_off src_size num_io_reqs aiocbs wait_list
       requests rd_fd wr_fd src_file dst_file buffers].
  rewrite wrap_s64_small by lia.
  destruct D. constructor; cbn; try assumption.
  - intros j cb' rq' Hwj Hcbj Hrqj. destruct (decide (k = j)) as [<-|Hne].
    + rewrite list_lookup_insert_eq in Hcbj by exact Hicb.
      rewrite list_lookup_insert_eq in Hrqj by exact Hireq.
      injection Hcbj as <-. injection Hrqj as <-. unfold slot_ok. cbn.
      split; [reflexivity|]. split; [lia|].
      split; [apply (pi_aligned _ _ _ _ H)|]. split; [lia|].
      split; [reflexivity|]. split; [reflexivity|]. left. reflexivity.
    + rewrite list_lookup_insert_ne in Hcbj by exact Hne.
      rewrite list_lookup_insert_ne in Hrqj by exact Hne.
      rewrite list_lookup_insert_ne in Hwj by exact Hne.
      apply (slot_ok_mono (src_off m) _ (buffers m) _ (dst_file m));
        [lia|reflexivity|auto|].
      apply pd_slots0; assumption.
  - intros o Hdo Hr.
    destruct (decide (o < src_off m)) as [Hold|Hnew].
    + destruct (pd_covered0 o Hdo ltac:(lia))
        as [Hd|(j & cb' & Hwj & Hcbj & Hoj)]; [left; exact Hd|].
      destruct (decide (k = j)) as [<-|Hne]; [congruence|].
      right. exists j, cb'. rewrite !list_lookup_insert_ne by exact Hne. done.
    + right. eexists k, _.
      split; [apply list_lookup_insert_eq; exact Hiw|].
      split; [apply list_lookup_insert_eq; exact Hicb|]. cbn.
      symmetry. apply aligned_between;
        [apply (pi_aligned _ _ _ _ H)|exact Hdo|lia].
Qed.

Lemma pdata_start_reads (n k : nat) (m : machine) :
  PInv m -> PData m ->
  (forall i, (k <= i < k + n)%nat -> wait_list m !! i = Some false) ->
  (forall i, (i < k)%nat -> wait_list m !! i = Some true) ->
  (k + n)%nat = QUEUE_SIZE ->
  PData (start_reads READ_BLOCK_SIZE src_fd n k m)
  /\ full (start_reads READ_BLOCK_SIZE src_fd n k m).
Proof.
  destruct tracked_past as (_ & Hdiv & HT).
  revert k m. induction n as [|n IH]; intros k m H D Hfree Hbusy Hsum.
  - split; [exact D|]. intros _ i Hi. apply Hbusy. cbn in *. lia.
  - rewrite start_reads_unfold.
    destruct (src_off m <? src_size m) eqn:Hlt.
    2:{ split; [exact D|]. apply Z.ltb_ge in Hlt.
        rewrite (pi_size _ _ _ _ H) in Hlt. intros Hlt'. lia. }
    apply Z.ltb_lt in Hlt. rewrite (pi_size _ _ _ _ H) in Hlt.
    pose proof (Hfree k ltac:(lia)) as Hk.
    destruct (pinv_started B QUEUE_SIZE src_fd T (proj1 block_size_bounds)
                Hdiv HT queue_size_bound m k H Hk Hlt) as [H1 _].
    apply (IH (Datatypes.S k) _ H1 (pdata_started m k H D Hk Hlt)).
    + intros i Hi. unfold started. cbn.
      rewrite list_lookup_insert_ne by lia. apply Hfree. lia.
    + intros i Hi. unfold started. cbn.
      destruct (decide (k = i)) as [<-|Hne].
      * apply list_lookup_insert_eq. eapply lookup_lt_Some. exact Hk.
      * rewrite list_lookup_insert_ne by exact Hne. apply Hbusy. lia.
    + lia.
Qed.

Lemma source_size_read : open_src_file src = S.
Proof. unfold open_src_file. apply wrap_u32_small. lia. Qed.

Lemma pdata_boot (aiocbs0 : list aiocb) (mem : list (list byte)) :
  length aiocbs0 = QUEUE_SIZE ->
  length mem = QUEUE_SIZE ->
  Forall (fun buf => B <= Z.of_nat (length buf)) mem ->
  let m := boot READ_BLOCK_SIZE QUEUE_SIZE src_fd dst_fd src
             (open_src_file src) aiocbs0 mem in
  PInv m /\ PData m /\ full m.
Proof.
  intros Hcbs Hmem Hbig. cbn zeta. rewrite source_size_read.
  destruct tracked_past as (_ & Hdiv & HT). unfold boot.
  set (m0 := mkMachine _ _ _ _ _ _ _ _ _ _ _).
  assert (H0 : PInv m0).
  { constructor; cbn;
      first [reflexivity|lia|apply Z.divide_0_r|apply length_replicate
            |rewrite listed_none; reflexivity|idtac].
    intros i b rq Hb' Hrq. apply lookup_replicate in Hb', Hrq.
    destruct Hb' as [-> _], Hrq as [-> _]. done. }
  assert (D0 : PData m0).
  { constructor; cbn; first [reflexivity|idtac].
    - rewrite allocated_length. lia.
    - intros i Hi. destruct (lookup_lt_is_Some_2 mem i ltac:(lia)) as [buf Hb].
      exists buf. split; [exact Hb|].
      apply (proj1 (Forall_lookup _ mem) Hbig i buf Hb).
    - intros i cb rq Hw. apply lookup_replicate in Hw. destruct Hw. discriminate.
    - intros o _ Ho. lia. }
  assert (Hfree : forall i, (0 <= i < 0 + QUEUE_SIZE)%nat ->
            wait_list m0 !! i = Some false).
  { intros i Hi. cbn. apply lookup_replicate. split; [reflexivity|lia]. }
  split.
  - apply (pinv_start_reads B QUEUE_SIZE src_fd T (proj1 block_size_bounds)
             Hdiv HT queue_size_bound QUEUE_SIZE 0 m0 H0 Hfree).
  - apply (pdata_start_reads QUEUE_SIZE 0 m0 H0 D0 Hfree); [intros i Hi; lia|lia].
Qed.

(** *** The loop *)

Definition Clean (m : machine) : Prop := PInv m /\ PData m /\ full m.

Lemma clean_kernel_run (acts : list kernel_action) (m m' : machine) :
  Clean m -> forallb completes acts = true -> kernel_run m acts = Some m' ->
  Clean m'.
Proof.
  revert m. induction acts as [|a acts IH]; intros m C Hacts Hrun; cbn in Hrun.
  - injection Hrun as <-. exact C.
  - cbn in Hacts. apply andb_true_iff in Hacts. destruct Hacts as [Ha Hacts].
    destruct (kernel_step m a) as [m1|] eqn:Hk; [|discriminate].
    apply (IH m1); [|exact Hacts|exact Hrun].
    destruct C as (H & D & F).
    destruct (pinv_kernel_step _ _ _ m m1 a H Hk) as (H1 & Hoff & Hwl & _).
    destruct a as [i|i]; [|discriminate].
    split; [exact H1|]. split; [apply (pdata_complete m m1 i H D Hk)|].
    unfold full. rewrite Hoff, Hwl. exact F.
Qed.

Lemma clean_sweep (cells : list nat) (m m' : machine) :
  Clean m -> sweep READ_BLOCK_SIZE src_fd dst_fd cells m = Running m' ->
  Clean m'.
Proof.
  destruct tracked_past as (_ & Hdiv & HT).
  revert m. induction cells as [|c cells IH]; intros m C Hs; cbn in Hs.
  - injection Hs as <-. exact C.
  - destruct (visit m c) as [m1| |] eqn:Hv; try discriminate.
    apply (IH m1); [|exact Hs]. destruct C as (H & D & F).
    destruct (pinv_visit B QUEUE_SIZE src_fd dst_fd T (proj1 block_size_bounds)
                Hdiv HT queue_size_bound m m1 c H Hv) as [H1 _].
    destruct (pdata_visit m m1 c H D F Hv) as [D1 F1]. done.
Qed.

Lemma clean_main_loop (schedule : list round) (m m' : machine) :
  Clean m -> in_full schedule = true ->
  main_loop READ_BLOCK_SIZE QUEUE_SIZE src_fd dst_fd schedule m
  = Some (Running m') ->
  Clean m' /\ num_io_reqs m' = 0.
Proof.
  revert m. induction schedule as [|r schedule IH]; intros m C Hclean Hloop;
    cbn in Hloop; destruct (Z.eqb_spec (num_io_reqs m) 0) as [Hz|Hnz];
    try (injection Hloop as <-; split; assumption); [discriminate|].
  cbn in Hclean. apply andb_true_iff in Hclean. destruct Hclean as [Hr Hclean].
  destruct r as [acts|acts]; cbn in Hr.
  - destruct (kernel_run m acts) as [m1|] eqn:Hrun; [|discriminate].
    destruct (woken m1); [|discriminate].
    destruct (sweep _ _ _ _ m1) as [m2| |] eqn:Hs; try discriminate.
    apply (IH m2); [|exact Hclean|exact Hloop].
    apply (clean_sweep (seq 0 QUEUE_SIZE) m1 m2); [|exact Hs].
    apply (clean_kernel_run acts m m1 C Hr Hrun).
  - destruct (kernel_run m acts); discriminate.
Qed.

(** When no cell is listed any more every block is in place. *)
Lemma clean_end (m : machine) :
  (0 < QUEUE_SIZE)%nat -> Clean m -> num_io_reqs m = 0 ->
  dst_file m = src /\ src_size m = T.
Proof.
  intros HN (H & D & F) Hz. split; [|apply (pi_size _ _ _ _ H)].
  destruct tracked_past as (Hpast & Hdiv & HT).
  pose proof (pi_off _ _ _ _ H) as Hoff.
  assert (Hnone : listed (wait_list m) = 0%nat).
  { pose proof (pi_count _ _ _ _ H). lia. }
  assert (Hend : src_off m = T).
  { destruct (decide (src_off m < T)) as [Hlt|?]; [|lia].
    destruct (listed_zero _ 0%nat Hnone (F Hlt 0%nat HN)). }
  apply list_eq. intros x.
  destruct (decide (x < length src)%nat) as [Hx|Hx].
  2:{ rewrite !(proj2 (lookup_ge_None _ _)); [reflexivity|lia|].
      pose proof (pd_dst _ D). lia. }
  pose proof (Z.div_mod (Z.of_nat x) B ltac:(lia)) as Hdm.
  pose proof (Z.mod_pos_bound (Z.of_nat x) B ltac:(lia)) as Hmod.
  assert (0 <= Z.of_nat x / B) by (apply Z.div_pos; lia).
  destruct (pd_covered _ D (B * (Z.of_nat x / B)))
    as [Hdone|(j & cb & Hw & _)].
  - exists (Z.of_nat x / B). lia.
  - nia.
  - apply Hdone; lia.
  - destruct (listed_zero _ j Hnone Hw).
Qed.

(** *** A run to the end *)

Lemma perform_finishes (m : machine) (i : nat) (cb : aiocb) :
  (i < length (requests m))%nat ->
  wait_list (perform m i cb) = wait_list m
  /\ exists ret, requests (perform m i cb) !! i = Some (FINISHED ret).
Proof.
  intros Hi. unfold perform.
  destruct (buffers m !! aio_buf cb) as [buf|].
  2:{ split; [reflexivity|]. eexists. apply list_lookup_insert_eq. exact Hi. }
  destruct (_ <? _).
  { split; [reflexivity|]. eexists. apply list_lookup_insert_eq. exact Hi. }
  destruct (aio_lio_opcode cb); destruct (_ =? _);
    (split; [reflexivity|]); eexists; apply list_lookup_insert_eq; exact Hi.
Qed.

(** While a cell is listed the library can let [aio_suspend] return. *)
Lemma next_round (m : machine) :
  PInv m -> num_io_reqs m <> 0 ->
  exists acts m1, forallb completes acts = true
    /\ kernel_run m acts = Some m1 /\ woken m1 = true.
Proof.
  intros H Hnz.
  destruct (listed_some (wait_list m)) as [i Hw].
  { pose proof (pi_count _ _ _ _ H). lia. }
  pose proof (lookup_lt_Some _ _ _ Hw) as Hi. rewrite (pi_cells _ _ _ _ H) in Hi.
  destruct (lookup_lt_is_Some_2 (requests m) i
              ltac:(rewrite (pi_reqs _ _ _ _ H); exact Hi)) as [rq Hrq].
  destruct (lookup_lt_is_Some_2 (aiocbs m) i
              ltac:(rewrite (pi_cbs _ _ _ _ H); exact Hi)) as [cb Hcb].
  pose proof (pi_listed _ _ _ _ H i true rq Hw Hrq) as Hiff.
  destruct rq as [| |ret].
  - destruct Hiff as [_ Hf]. specialize (Hf eq_refl). discriminate.
  - exists [Complete i], (perform m i cb). split; [reflexivity|].
    split; [cbn; rewrite Hrq, Hcb; reflexivity|].
    destruct (perform_finishes m i cb (lookup_lt_Some _ _ _ Hrq))
      as [Hwl [ret Hfin]].
    apply woken_cell. exists i, ret. rewrite Hwl. done.
  - exists [], m. split; [reflexivity|]. split; [reflexivity|].
    apply woken_cell. exists i, ret. done.
Qed.

Lemma clean_completes (k : nat) (m : machine) :
  Clean m -> (rounds_left B QUEUE_SIZE T m <= k)%nat ->
  exists schedule m',
    in_full schedule = true
    /\ main_loop READ_BLOCK_SIZE QUEUE_SIZE src_fd dst_fd schedule m
       = Some (Running m').
Proof.
  destruct tracked_past as (_ & Hdiv & HT).
  pose proof (proj1 block_size_bounds) as HB.
  revert m. induction k as [|k IH]; intros m C Hle;
    destruct (Z.eqb_spec (num_io_reqs m) 0) as [Hz|Hnz];
    try (exists [], m; split; [reflexivity|]; cbn;
         rewrite (proj2 (Z.eqb_eq _ _) Hz); reflexivity).
  - pose proof (rounds_left_pos B QUEUE_SIZE T m (proj1 C) Hnz). lia.
  - destruct (next_round m (proj1 C) Hnz) as (acts & m1 & Hacts & Hrun & Hwoken).
    pose proof (clean_kernel_run acts m m1 C Hacts Hrun) as C1.
    destruct (rounds_kernel_run B QUEUE_SIZE T acts m m1 (proj1 C) Hrun)
      as [_ Heq].
    destruct (rounds_pass B QUEUE_SIZE src_fd dst_fd T HB Hdiv HT queue_size_bound
                m1 (proj1 C1) Hwoken) as (m2 & Hs & _ & Hlt).
    pose proof (clean_sweep _ m1 m2 C1 Hs) as C2.
    destruct (IH m2 C2 ltac:(lia)) as (schedule & m' & Hclean & Hloop).
    exists (Wakes acts :: schedule), m'. split.
    + cbn. rewrite Hacts. exact Hclean.
    + cbn. destruct (Z.eqb_spec (num_io_reqs m) 0) as [?|_]; [contradiction|].
      rewrite Hrun, Hwoken, Hs. exact Hloop.
Qed.

(** What [close_src_dst_files] leaves when the loop has ended. *)
Lemma clean_result (m : machine) :
  (0 < QUEUE_SIZE)%nat -> Clean m -> num_io_reqs m = 0 ->
  close_src_dst_files (src_size m) (dst_file m)
  = src ++ replicate (Z.to_nat (B - S mod B)) x00.
Proof.
  intros HN C Hz. destruct (clean_end m HN C Hz) as [-> ->].
  rewrite tracked_exact.
  pose proof (Z.div_mod S B ltac:(lia)) as Hdm.
  pose proof (Z.mod_pos_bound S B ltac:(lia)) as Hmod.
  unfold close_src_dst_files, ftruncate.
  rewrite take_ge by lia. f_equal. f_equal. lia.
Qed.

End Copying.

End PosixAioRun.

(** X14.  In every state a run of the POSIX AIO driver passes through, whatever
    the library completes or fails, [num_io_reqs] is the number of entries
    of [wait_list] that are not [NULL] and is at most [QUEUE_SIZE], the
    read cursor is a multiple of the block size that does not pass the
    rounded size, and a look at any cell finds a control block the library
    holds a request for or skips the cell: [aio_error] and [aio_return]
    are never called on a control block without a request. *)
Theorem posix_wait_list_is_counted (B : Z) (N : nat) (src_fd dst_fd : Z)
    (src : file) (S0 : Z) (aiocbs0 : list PosixAioCp.aiocb)
    (mem : list (list byte)) (m : PosixAioCp.machine) :
  0 < B -> (B | 2 ^ 32) -> Z.of_nat N < 2 ^ 64 -> length aiocbs0 = N ->
  PosixAioCp.reachable B N src_fd dst_fd src S0 aiocbs0 mem m ->
  PosixAioCp.num_io_reqs m
  = Z.of_nat (PosixAioCp.listed (PosixAioCp.wait_list m))
  /\ 0 <= PosixAioCp.num_io_reqs m <= Z.of_nat N
  /\ 0 <= PosixAioCp.src_off m <= round_file_size B S0
  /\ (B | PosixAioCp.src_off m)
  /\ forall aio_i, (aio_i < N)%nat ->
       exists m', PosixAioCp.visit B src_fd dst_fd m aio_i = Running m'.
Proof.
  intros HB Hpow HN Hcbs Hreach.
  pose proof (LinuxAioRun.round_file_size_bounds B S0) as Hb.
  pose proof (LinuxAioRun.round_file_size_aligned B S0 HB Hpow) as Hal.
  pose proof (PosixAioRun.pinv_boot B N src_fd dst_fd src S0 aiocbs0 mem
                HB Hpow HN Hcbs) as H0.
  destruct (PosixAioRun.pinv_steps B N src_fd dst_fd _ HB Hal Hb HN _ m H0 Hreach)
    as [H _].
  split; [apply (PosixAioRun.pi_count _ _ _ _ H)|].
  split; [apply (PosixAioRun.pinv_count_le _ _ _ m H)|].
  split; [apply (PosixAioRun.pi_off _ _ _ _ H)|].
  split; [apply (PosixAioRun.pi_aligned _ _ _ _ H)|].
  intros aio_i Hi.
  destruct (PosixAioRun.sweep_runs B N src_fd dst_fd _ HB Hal Hb HN [aio_i] m H)
    as [m' Hs].
  { apply Forall_cons_2; [exact Hi|apply Forall_nil_2]. }
  cbn in Hs. destruct (PosixAioCp.visit B src_fd dst_fd m aio_i) as [m1| |];
    try discriminate. exists m1. reflexivity.
Qed.

Lemma posix_wait_list_is_counted_witness :
  let m := PosixAioCp.boot 4 2 3 4 Samples.src10 10 PosixSamples.zeroed2
             Samples.mem2x4 in
  PosixAioCp.num_io_reqs m
  = Z.of_nat (PosixAioCp.listed (PosixAioCp.wait_list m))
  /\ 0 <= PosixAioCp.num_io_reqs m <= 2.
Proof.
  pose proof (posix_wait_list_is_counted 4 2 3 4 Samples.src10 10
                PosixSamples.zeroed2 Samples.mem2x4
                (PosixAioCp.boot 4 2 3 4 Samples.src10 10 PosixSamples.zeroed2
                   Samples.mem2x4)) as H.
  destruct H as (Hcount & Hle & _);
    [lia|exists (2 ^ 30); reflexivity|cbn; lia|reflexivity|apply rtc_refl|].
  split; [exact Hcount|exact Hle].
Defined.

(** X16.  The [while] loop of the POSIX AIO driver runs at most twice per block
    of the rounded size, whatever the library completes or fails: rounds
    of a schedule after the first [2 * (src_size / READ_BLOCK_SIZE)] are
    never reached. *)
Theorem posix_loop_is_bounded (B : Z) (N : nat) (src_fd dst_fd : Z)
    (src : file) (aiocbs0 : list PosixAioCp.aiocb) (mem : list (list byte))
    (schedule : list PosixAioCp.round) :
  0 < B -> (B | 2 ^ 32) -> Z.of_nat N < 2 ^ 64 -> length aiocbs0 = N ->
  PosixAioCp.main B N src_fd dst_fd src aiocbs0 mem schedule
  = PosixAioCp.main B N src_fd dst_fd src aiocbs0 mem
      (take (2 * Z.to_nat (round_file_size B (open_src_file src) / B)) schedule).
Proof.
  intros HB Hpow HN Hcbs.
  pose proof (LinuxAioRun.round_file_size_bounds B (open_src_file src)) as Hb.
  pose proof (LinuxAioRun.round_file_size_aligned B (open_src_file src) HB Hpow)
    as Hal.
  pose proof (PosixAioRun.pinv_boot B N src_fd dst_fd src (open_src_file src)
                aiocbs0 mem HB Hpow HN Hcbs) as H0.
  pose proof (PosixAioRun.rounds_boot B N src_fd dst_fd src (open_src_file src)
                aiocbs0 mem HB Hpow HN Hcbs) as Hrounds.
  unfold PosixAioCp.main.
  destruct (open_dst_file (open_src_file src)) as [dst0| |]; [|reflexivity..].
  rewrite (PosixAioRun.main_loop_bounded B N src_fd dst_fd _ HB Hal Hb HN
             (2 * Z.to_nat (round_file_size B (open_src_file src) / B))
             schedule _ H0) by lia.
  reflexivity.
Qed.

Lemma posix_loop_is_bounded_witness :
  PosixAioCp.main 4 2 3 4 Samples.src10 PosixSamples.zeroed2 Samples.mem2x4
    (PosixSamples.posix_schedule10 ++ PosixSamples.posix_failing10)
  = PosixAioCp.main 4 2 3 4 Samples.src10 PosixSamples.zeroed2 Samples.mem2x4
      (take (2 * Z.to_nat (round_file_size 4 (open_src_file Samples.src10) / 4))
         (PosixSamples.posix_schedule10 ++ PosixSamples.posix_failing10)).
Proof.
  apply (posix_loop_is_bounded 4 2 3 4 Samples.src10 PosixSamples.zeroed2
           Samples.mem2x4);
    [lia|exists (2 ^ 30); reflexivity|cbn; lia|reflexivity].
Defined.

(** X17.  When the library carries out in full every request it finishes, a
    run of the POSIX AIO driver that ends with [main] returning leaves the
    destination equal to the source followed by
    [READ_BLOCK_SIZE - size mod READ_BLOCK_SIZE] zero bytes: every block
    is copied in place, and [close_src_dst_files] truncates the
    destination to the rounded size, not to the size of the source.  The
    source and one block more fit below 4 GiB, and every part of the
    buffer holds a block. *)
Theorem posix_copy_is_padded (B : Z) (N : nat) (src_fd dst_fd : Z)
    (src : file) (aiocbs0 : list PosixAioCp.aiocb) (mem : list (list byte))
    (schedule : list PosixAioCp.round) (dst : file) :
  0 < B < 2 ^ 31 -> Z.of_nat (length src) + B < 2 ^ 32 ->
  (0 < N)%nat -> Z.of_nat N < 2 ^ 64 ->
  length aiocbs0 = N -> length mem = N ->
  Forall (fun buf => B <= Z.of_nat (length buf)) mem ->
  PosixAioCp.in_full schedule = true ->
  PosixAioCp.main B N src_fd dst_fd src aiocbs0 mem schedule
  = Some (Running dst) ->
  dst = src ++ replicate (Z.to_nat (B - Z.of_nat (length src) mod B)) x00.
Proof.
  intros HB HS HN HN' Hcbs Hmem Hbig Hclean Hmain.
  pose proof (PosixAioRun.pdata_boot B N src_fd dst_fd src HB HS HN'
                aiocbs0 mem Hcbs Hmem Hbig) as C0. cbn zeta in C0.
  unfold PosixAioCp.main in Hmain.
  destruct (open_dst_file _) as [dst0| |]; try discriminate.
  destruct (PosixAioCp.main_loop _ _ _ _ schedule _) as [[m'|code|]|] eqn:Hloop;
    try discriminate.
  injection Hmain as <-.
  destruct (PosixAioRun.clean_main_loop B N src_fd dst_fd src HB HS HN'
              schedule _ m' C0 Hclean Hloop) as [C' Hz].
  apply (PosixAioRun.clean_result B N src_fd dst_fd src HB HS m' HN C' Hz).
Qed.

Lemma posix_copy_is_padded_witness :
  PosixAioCp.main 4 2 3 4 Samples.src10 PosixSamples.zeroed2 Samples.mem2x4
    PosixSamples.posix_schedule10
  = Some (Running (Samples.src10 ++ replicate 2 x00))
  /\ Samples.src10 ++ replicate 2 x00
     = Samples.src10
       ++ replicate (Z.to_nat (4 - Z.of_nat (length Samples.src10) mod 4)) x00.
Proof.
  split; [reflexivity|].
  apply (posix_copy_is_padded 4 2 3 4 Samples.src10 PosixSamples.zeroed2
           Samples.mem2x4 PosixSamples.posix_schedule10);
    [lia|cbn; lia|lia|cbn; lia|reflexivity|reflexivity
    |repeat (apply Forall_cons_2; [cbn; lia|]); apply Forall_nil_2
    |reflexivity|reflexivity].
Defined.

(** X18.  For every source that is not empty the POSIX AIO driver has a run,
    with every request carried out in full, on which [main] returns; the
    destination is then the source followed by
    [READ_BLOCK_SIZE - size mod READ_BLOCK_SIZE] zero bytes.  The source
    and one block more fit below 4 GiB, and every part of the buffer holds
    a block. *)
Theorem posix_copy_completes (B : Z) (N : nat) (src_fd dst_fd : Z)
    (src : file) (aiocbs0 : list PosixAioCp.aiocb) (mem : list (list byte)) :
  0 < B < 2 ^ 31 ->
  (0 < length src)%nat -> Z.of_nat (length src) + B < 2 ^ 32 ->
  (0 < N)%nat -> Z.of_nat N < 2 ^ 64 ->
  length aiocbs0 = N -> length mem = N ->
  Forall (fun buf => B <= Z.of_nat (length buf)) mem ->
  exists schedule,
    PosixAioCp.in_full schedule = true
    /\ PosixAioCp.main B N src_fd dst_fd src aiocbs0 mem schedule
       = Some (Running
                 (src ++ replicate
                           (Z.to_nat (B - Z.of_nat (length src) mod B)) x00)).
Proof.
  intros HB Hsome HS HN HN' Hcbs Hmem Hbig.
  pose proof (PosixAioRun.pdata_boot B N src_fd dst_fd src HB HS HN'
                aiocbs0 mem Hcbs Hmem Hbig) as C0. cbn zeta in C0.
  destruct (PosixAioRun.clean_completes B N src_fd dst_fd src HB HS HN'
              _ _ C0 (Nat.le_refl _)) as (schedule & m' & Hclean & Hloop).
  exists schedule. split; [exact Hclean|].
  destruct (PosixAioRun.clean_main_loop B N src_fd dst_fd src HB HS HN'
              schedule _ m' C0 Hclean Hloop) as [C' Hz].
  unfold PosixAioCp.main.
  rewrite open_dst_file_ok
    by (unfold open_src_file; rewrite wrap_u32_small by lia; lia).
  rewrite Hloop. do 2 f_equal.
  apply (PosixAioRun.clean_result B N src_fd dst_fd src HB HS m' HN C' Hz).
Qed.

Lemma posix_copy_completes_witness :
  exists schedule,
    PosixAioCp.in_full schedule = true
    /\ PosixAioCp.main 4 2 3 4 Samples.src10 PosixSamples.zeroed2
         Samples.mem2x4 schedule
       = Some (Running
                 (Samples.src10
                  ++ replicate
                       (Z.to_nat (4 - Z.of_nat (length Samples.src10) mod 4))
                       x00)).
Proof.
  apply (posix_copy_completes 4 2 3 4 Samples.src10 PosixSamples.zeroed2
           Samples.mem2x4);
    [lia|cbn; lia|cbn; lia|lia|cbn; lia|reflexivity|reflexivity
    |repeat (apply Forall_cons_2; [cbn; lia|]); apply Forall_nil_2].
Defined.

(** ** The Linux AIO driver: how long the loop runs *)

Module LinuxAioLoop.
Import LinuxAio.

(** An outstanding read is two events away from leaving or from starting
    the next block, an outstanding write one. *)
Definition weight (m : machine) (i : nat) : nat :=
  if bool_decide (i ∈ outstanding m) then
    match iocbs (locals m) !! i with
    | Some cb =>
        match aio_lio_opcode cb with
        | IO_CMD_PREAD => 2
        | IO_CMD_PWRITE => 1
        end
    | None => 0
    end
  else 0.

Section Loop.

Variable READ_BLOCK_SIZE : Z.
Variable QUEUE_SIZE : nat.
Variables src_fd dst_fd : Z.
Variable T : Z.

Hypothesis block_size_pos : 0 < READ_BLOCK_SIZE.
Hypothesis tracked_aligned : (READ_BLOCK_SIZE | T).
Hypothesis tracked_bounds : 0 <= T < 2 ^ 32.
Hypothesis queue_size_bound : Z.of_nat QUEUE_SIZE < 2 ^ 64.

#[local] Abbreviation B := READ_BLOCK_SIZE.
#[local] Abbreviation AioInv := (LinuxAioRun.AioInv READ_BLOCK_SIZE QUEUE_SIZE T).
#[local] Abbreviation handle_next := (handle_next READ_BLOCK_SIZE src_fd dst_fd).
#[local] Abbreviation handle_all := (handle_all READ_BLOCK_SIZE src_fd dst_fd).

Definition batches_left (m : machine) : nat :=
  2 * Z.to_nat ((T - src_off (locals m)) / B)
  + sum_list (weight m <$> seq 0 QUEUE_SIZE).

(** The invariant of a run, and the array of control blocks keeps its
    length. *)
Definition Sized (m : machine) : Prop :=
  AioInv m /\ length (iocbs (locals m)) = QUEUE_SIZE.

Lemma weight_outstanding (m : machine) (i : nat) :
  Sized m -> i ∈ outstanding m -> (1 <= weight m i)%nat.
Proof.
  intros [H Hlen] Hi. unfold weight.
  rewrite bool_decide_eq_true_2 by exact Hi.
  pose proof (LinuxAioRun.aio_range _ _ _ _ H i Hi) as Hlt.
  destruct (lookup_lt_is_Some_2 (iocbs (locals m)) i ltac:(lia)) as [cb ->].
  destruct (aio_lio_opcode cb); lia.
Qed.

Lemma batches_left_pos (m : machine) :
  Sized m -> num_io_reqs (locals m) <> 0 -> (0 < batches_left m)%nat.
Proof.
  intros Hs Hnz. pose proof (proj1 Hs) as H.
  rewrite (LinuxAioRun.aio_count _ _ _ _ H) in Hnz.
  destruct (outstanding m) as [|i l] eqn:Hout; [cbn in Hnz; lia|].
  assert (Hi : i ∈ outstanding m) by (rewrite Hout; left).
  pose proof (weight_outstanding m i Hs Hi) as Hw.
  pose proof (LinuxAioRun.aio_range _ _ _ _ H i Hi) as Hlt.
  pose proof (PosixAioRun.sum_list_ge (weight m) 0 QUEUE_SIZE i ltac:(lia)).
  unfold batches_left. lia.
Qed.

(** A batch is awaited: the same control blocks stay outstanding. *)
Lemma wait_same (m m' : machine) (evs : list io_event) :
  Sized m -> events (locals m) = [] ->
  submit_and_get QUEUE_SIZE m evs = Some m' ->
  Sized m' /\ batches_left m' = batches_left m
  /\ events (locals m') = evs /\ evs <> [].
Proof.
  intros [H Hlen] Hev Hget.
  destruct (LinuxAioRun.aio_inv_wait B QUEUE_SIZE T tracked_bounds m m' evs
              H Hev Hget) as [H' Hoff].
  unfold submit_and_get in Hget.
  case_bool_decide as Hok; [|discriminate]. injection Hget as <-.
  destruct Hok as (Hne & _ & _ & Hsub).
  split; [split; [exact H'|exact Hlen]|].
  split; [|split; [reflexivity|exact Hne]].
  unfold batches_left. cbn [locals src_off]. f_equal.
  apply PosixAioRun.sum_list_same. intros j _. unfold weight.
  cbn [locals iocbs].
  assert (Hiff : j ∈ outstanding
                       {| locals := {| src_size := src_size (locals m);
                                       src_off := src_off (locals m);
                                       num_io_reqs := num_io_reqs (locals m);
                                       iocbs := iocbs (locals m);
                                       submit_list := [];
                                       events := evs |};
                          in_kernel :=
                            list_difference
                              (in_kernel m ++ submit_list (locals m))
                              (obj <$> evs) |}
                 <-> j ∈ outstanding m).
  { unfold outstanding. cbn [locals in_kernel submit_list events].
    rewrite Hev. cbn [fmap list_fmap]. rewrite app_nil_r, app_nil_l.
    rewrite elem_of_app, list_elem_of_difference. split.
    - intros [[Hj _]|Hj]; [exact Hj|apply Hsub; exact Hj].
    - intros Hj. destruct (decide (j ∈ obj <$> evs)); [right|left]; done. }
  destruct (decide (j ∈ outstanding m)) as [Hin|Hout].
  - rewrite !bool_decide_eq_true_2; [reflexivity|exact Hin|apply Hiff; exact Hin].
  - rewrite !bool_decide_eq_false_2; [reflexivity|exact Hout|].
    intros Hj. apply Hout, Hiff, Hj.
Qed.

(** An event is handled. *)
Lemma handle_less (m m' : machine) :
  Sized m -> handle_next m = Some m' ->
  Sized m' /\ (batches_left m' < batches_left m)%nat
  /\ exists ev, events (locals m) = ev :: events (locals m').
Proof.
  intros [H Hlen] Hnext.
  destruct (LinuxAioRun.aio_inv_handle B QUEUE_SIZE src_fd dst_fd T
              block_size_pos tracked_aligned tracked_bounds queue_size_bound
              m m' H Hnext) as [H' _].
  pose proof (LinuxAioRun.aio_off _ _ _ _ H) as Hoff.
  pose proof (LinuxAioRun.aio_size _ _ _ _ H) as Hsz.
  pose proof (LinuxAioRun.aio_nodup _ _ _ _ H) as Hnd.
  unfold LinuxAio.handle_next in Hnext.
  destruct (events (locals m)) as [|ev rest] eqn:Hev; [discriminate|].
  assert (Hout : outstanding m
                 = in_kernel m ++ submit_list (locals m) ++ obj ev :: (obj <$> rest)).
  { unfold outstanding. rewrite Hev. reflexivity. }
  assert (Hin : obj ev ∈ outstanding m).
  { rewrite Hout, !elem_of_app, elem_of_cons. tauto. }
  pose proof (LinuxAioRun.aio_range _ _ _ _ H _ Hin) as Hlt.
  assert (Hfresh : obj ev ∉ in_kernel m ++ submit_list (locals m) ++ (obj <$> rest)).
  { rewrite Hout, app_assoc in Hnd. apply NoDup_app in Hnd.
    destruct Hnd as (_ & Hdisj & Hnd2). apply NoDup_cons in Hnd2.
    destruct Hnd2 as [Hno _]. rewrite app_assoc, elem_of_app.
    intros [Hx|Hx]; [apply (Hdisj _ Hx); left|apply Hno, Hx]. }
  unfold handle_event in Hnext. cbn [iocbs locals] in Hnext.
  destruct (iocbs (locals m) !! obj ev) as [cb|] eqn:Hcb; [|discriminate].
  pose proof (lookup_lt_Some _ _ _ Hcb) as Hicb.
  assert (Hold : weight m (obj ev)
                 = match aio_lio_opcode cb with
                   | IO_CMD_PREAD => 2%nat
                   | IO_CMD_PWRITE => 1%nat
                   end).
  { unfold weight. rewrite bool_decide_eq_true_2 by exact Hin.
    rewrite Hcb. reflexivity. }
  (* the event leaves and nothing takes its place *)
  assert (Hretire : forall n,
            let m1 := {| locals := {| src_size := src_size (locals m);
                                      src_off := src_off (locals m);
                                      num_io_reqs := n;
                                      iocbs := iocbs (locals m);
                                      submit_list := submit_list (locals m);
                                      events := rest |};
                         in_kernel := in_kernel m |} in
            (batches_left m1 < batches_left m)%nat).
  { intros n m1. unfold batches_left. cbn [locals src_off m1].
    pose proof (PosixAioRun.sum_list_change (weight m1) (weight m)
                  0 QUEUE_SIZE (obj ev) ltac:(lia)) as Hsum.
    assert (Hnew : weight m1 (obj ev) = 0%nat).
    { unfold weight. rewrite bool_decide_eq_false_2; [reflexivity|].
      unfold outstanding, m1. cbn. exact Hfresh. }
    assert (Hsame : forall j, j <> obj ev -> weight m1 j = weight m j).
    { intros j Hne. unfold weight. cbn [locals iocbs m1].
      assert (Hiff : j ∈ outstanding m1 <-> j ∈ outstanding m).
      { rewrite Hout. unfold outstanding, m1. cbn.
        rewrite !elem_of_app, elem_of_cons. tauto. }
      destruct (decide (j ∈ outstanding m)) as [Hj|Hj].
      - rewrite !bool_decide_eq_true_2; [reflexivity|exact Hj|apply Hiff, Hj].
      - rewrite !bool_decide_eq_false_2; [reflexivity|exact Hj|].
        intros Hj'. apply Hj, Hiff, Hj'. }
    specialize (Hsum Hsame). rewrite Hnew, Hold in Hsum.
    destruct (aio_lio_opcode cb); lia. }
  (* the control block is set up again and listed *)
  assert (Hagain : forall cb' off n,
            let m1 := {| locals := {| src_size := src_size (locals m);
                                      src_off := off;
                                      num_io_reqs := n;
                                      iocbs := <[obj ev := cb']> (iocbs (locals m));
                                      submit_list := submit_list (locals m) ++ [obj ev];
                                      events := rest |};
                         in_kernel := in_kernel m |} in
            (sum_list (weight m1 <$> seq 0 QUEUE_SIZE) + weight m (obj ev)
             = sum_list (weight m <$> seq 0 QUEUE_SIZE)
               + match aio_lio_opcode cb' with
                 | IO_CMD_PREAD => 2
                 | IO_CMD_PWRITE => 1
                 end)%nat).
  { intros cb' off n m1.
    assert (Hnew : weight m1 (obj ev)
                   = match aio_lio_opcode cb' with
                     | IO_CMD_PREAD => 2%nat
                     | IO_CMD_PWRITE => 1%nat
                     end).
    { unfold weight. rewrite bool_decide_eq_true_2.
      - cbn [locals iocbs m1]. rewrite list_lookup_insert_eq by exact Hicb.
        reflexivity.
      - unfold outstanding, m1. cbn. rewrite !elem_of_app, list_elem_of_singleton.
        tauto. }
    rewrite <- Hnew.
    apply PosixAioRun.sum_list_change; [lia|].
    intros j Hne. unfold weight. cbn [locals iocbs m1].
    rewrite list_lookup_insert_ne by (intros Heq; apply Hne; symmetry; exact Heq).
    assert (Hiff : j ∈ outstanding m1 <-> j ∈ outstanding m).
    { rewrite Hout. unfold outstanding, m1. cbn.
      rewrite !elem_of_app, !elem_of_cons, elem_of_nil. tauto. }
    destruct (decide (j ∈ outstanding m)) as [Hj|Hj].
    - rewrite !bool_decide_eq_true_2; [reflexivity|exact Hj|apply Hiff, Hj].
    - rewrite !bool_decide_eq_false_2; [reflexivity|exact Hj|].
      intros Hj'. apply Hj, Hiff, Hj'. }
  destruct (aio_lio_opcode cb) eqn:Hkind.
  - destruct (negb _); injection Hnext as <-.
    + split; [split; [exact H'|cbn; rewrite length_insert; exact Hlen]|].
      split; [|exists ev; reflexivity].
      specialize (Hagain (io_write_setup dst_fd (offset cb) (buf cb)
                            (wrap_u64 (wrap_s32 (res ev))))
                    (src_off (locals m)) (num_io_reqs (locals m))).
      cbn zeta in Hagain. cbn [io_write_setup aio_lio_opcode] in Hagain.
      rewrite Hold in Hagain. unfold batches_left. cbn [locals src_off]. lia.
    + split; [split; [exact H'|exact Hlen]|].
      split; [apply Hretire|exists ev; reflexivity].
  - destruct (negb _ && _) eqn:Hcond; injection Hnext as <-.
    + apply andb_true_iff in Hcond. destruct Hcond as [_ Hlt'].
      cbn [src_off src_size] in Hlt'.
      apply Z.ltb_lt in Hlt'. rewrite Hsz in Hlt'.
      pose proof (LinuxAioRun.aligned_next _ _ _ block_size_pos
                    (LinuxAioRun.aio_aligned _ _ _ _ H) tracked_aligned Hlt')
        as Hnext'.
      split; [split; [exact H'|cbn; rewrite length_insert; exact Hlen]|].
      split; [|exists ev; reflexivity].
      specialize (Hagain (io_read_setup src_fd (src_off (locals m)) (buf cb) B)
                    (src_off (locals m) + B) (num_io_reqs (locals m))).
      cbn zeta in Hagain. cbn [io_read_setup aio_lio_opcode] in Hagain.
      rewrite Hold in Hagain. rewrite wrap_s64_small by lia.
      unfold batches_left. cbn [locals src_off].
      replace (T - (src_off (locals m) + B))
        with (T - src_off (locals m) + (-1) * B) by lia.
      rewrite Z.div_add by lia.
      assert (1 <= (T - src_off (locals m)) / B)
        by (apply Z.div_le_lower_bound; lia).
      cbn [src_off locals] in Hagain. lia.
    + split; [split; [exact H'|exact Hlen]|].
      split; [apply Hretire|exists ev; reflexivity].
Qed.

(** An event of the batch always names a control block of the array. *)
Lemma handle_runs (m : machine) :
  Sized m -> events (locals m) <> [] -> exists m', handle_next m = Some m'.
Proof.
  intros [H Hlen] Hev. unfold LinuxAio.handle_next.
  destruct (events (locals m)) as [|ev rest] eqn:Hevs; [contradiction|].
  assert (Hin : obj ev ∈ outstanding m).
  { unfold outstanding. rewrite Hevs, !elem_of_app. cbn. rewrite elem_of_cons. tauto. }
  pose proof (LinuxAioRun.aio_range _ _ _ _ H _ Hin) as Hlt.
  destruct (lookup_lt_is_Some_2 (iocbs (locals m)) (obj ev) ltac:(lia)) as [cb Hcb].
  unfold handle_event. cbn [iocbs locals]. rewrite Hcb.
  destruct (aio_lio_opcode cb); [destruct (negb _)|destruct (negb _ && _)]; eauto.
Qed.

Lemma handle_all_less (n : nat) (m : machine) :
  Sized m -> length (events (locals m)) = n ->
  exists m', handle_all n m = Some m'
    /\ Sized m' /\ (batches_left m' + n <= batches_left m)%nat
    /\ events (locals m') = [].
Proof.
  revert m. induction n as [|n IH]; intros m Hs Hlen; cbn [LinuxAio.handle_all].
  - exists m. split; [reflexivity|]. split; [exact Hs|]. split; [lia|].
    apply length_zero_iff_nil. exact Hlen.
  - destruct (handle_runs m Hs) as [m1 Hnext].
    { intros Hnil. rewrite Hnil in Hlen. discriminate. }
    rewrite Hnext.
    destruct (handle_less m m1 Hs Hnext) as (Hs1 & Hlt & ev & Hev).
    destruct (IH m1 Hs1) as (m' & Hall & Hs' & Hle & Hnil).
    { rewrite Hev in Hlen. cbn in Hlen. lia. }
    exists m'. split; [exact Hall|]. split; [exact Hs'|]. split; [lia|exact Hnil].
Qed.

Lemma aio_loop_bounded (k : nat) (schedule : list (list io_event)) (m : machine) :
  Sized m -> events (locals m) = [] -> (batches_left m <= k)%nat ->
  main_loop READ_BLOCK_SIZE QUEUE_SIZE src_fd dst_fd schedule m
  = main_loop READ_BLOCK_SIZE QUEUE_SIZE src_fd dst_fd (take k schedule) m.
Proof.
  revert schedule m. induction k as [|k IH]; intros schedule m Hs Hev Hle.
  - destruct (Z.eqb_spec (num_io_reqs (locals m)) 0) as [Hz|Hnz].
    + destruct schedule; cbn; rewrite (proj2 (Z.eqb_eq _ _) Hz); reflexivity.
    + pose proof (batches_left_pos m Hs Hnz). lia.
  - destruct schedule as [|evs schedule]; [reflexivity|].
    cbn [take main_loop].
    destruct (num_io_reqs (locals m) =? 0); [reflexivity|].
    destruct (submit_and_get QUEUE_SIZE m evs) as [m1|] eqn:Hget; [|reflexivity].
    destruct (wait_same m m1 evs Hs Hev Hget) as (Hs1 & Heq & Hevs & Hne).
    destruct (handle_all_less (length evs) m1 Hs1 ltac:(rewrite Hevs; reflexivity))
      as (m2 & Hall & Hs2 & Hle2 & Hnil).
    rewrite Hall. apply IH; [exact Hs2|exact Hnil|].
    destruct evs; [contradiction|]. cbn [length] in Hle2. lia.
Qed.

(** The first reads. *)
Lemma batches_start_reads (n k : nat) (s : state) :
  src_size s = T -> 0 <= src_off s <= T -> (B | src_off s) ->
  submit_list s = seq 0 k -> events s = [] ->
  length (iocbs s) = QUEUE_SIZE ->
  (k + n <= QUEUE_SIZE)%nat ->
  batches_left {| locals := start_reads READ_BLOCK_SIZE src_fd n k s;
                  in_kernel := [] |}
  = batches_left {| locals := s; in_kernel := [] |}
  /\ length (iocbs (start_reads READ_BLOCK_SIZE src_fd n k s)) = QUEUE_SIZE.
Proof.
  revert k s. induction n as [|n IH];
    intros k s Hsz Hoff Hal Hlist Hev Hlen Hk; cbn [start_reads].
  - split; [reflexivity|exact Hlen].
  - destruct (src_off s <? src_size s) eqn:Hlt; [|split; [reflexivity|exact Hlen]].
    apply Z.ltb_lt in Hlt. rewrite Hsz in Hlt.
    pose proof (LinuxAioRun.aligned_next _ _ _ block_size_pos Hal tracked_aligned Hlt)
      as Hnext.
    set (s1 := mkState _ _ _ _ _ _).
    destruct (IH (Datatypes.S k) s1) as [Heq Hlen1];
      [unfold s1; cbn [src_size src_off submit_list events iocbs]..|].
    + exact Hsz.
    + rewrite wrap_s64_small; lia.
    + rewrite wrap_s64_small by lia.
      apply Z.divide_add_r; [exact Hal|apply Z.divide_refl].
    + rewrite Hlist, seq_S. reflexivity.
    + exact Hev.
    + rewrite length_insert. exact Hlen.
    + lia.
    + split; [|exact Hlen1]. rewrite Heq. unfold batches_left.
      cbn [locals]. unfold s1 at 1. cbn [src_off].
      rewrite wrap_s64_small by lia.
      replace (T - (src_off s + B)) with (T - src_off s + (-1) * B) by lia.
      rewrite Z.div_add by lia.
      assert (1 <= (T - src_off s) / B) by (apply Z.div_le_lower_bound; lia).
      set (m1 := {| locals := s1; in_kernel := [] |}).
      set (m0 := {| locals := s; in_kernel := [] |}).
      pose proof (PosixAioRun.sum_list_change (weight m1) (weight m0)
                    0 QUEUE_SIZE k ltac:(lia)) as Hsum.
      assert (Hout0 : outstanding m0 = seq 0 k).
      { unfold outstanding, m0. cbn. rewrite Hlist, Hev. cbn.
        apply app_nil_r. }
      assert (Hout1 : outstanding m1 = seq 0 k ++ [k]).
      { unfold outstanding, m1, s1. cbn. rewrite Hlist, Hev. cbn.
        apply app_nil_r. }
      assert (Hnew : weight m1 k = 2%nat).
      { unfold weight. rewrite bool_decide_eq_true_2.
        - unfold m1, s1. cbn [locals iocbs].
          rewrite list_lookup_insert_eq by lia. reflexivity.
        - rewrite Hout1, elem_of_app, list_elem_of_singleton. tauto. }
      assert (Hold : weight m0 k = 0%nat).
      { unfold weight. rewrite bool_decide_eq_false_2; [reflexivity|].
        rewrite Hout0, elem_of_seq. lia. }
      rewrite Hnew, Hold in Hsum.
      assert (Hsame : forall j, j <> k -> weight m1 j = weight m0 j).
      { intros j Hne.
        assert (Hiff : j ∈ outstanding m1 <-> j ∈ outstanding m0).
        { rewrite Hout0, Hout1, elem_of_app, list_elem_of_singleton. tauto. }
        assert (Hcb : iocbs (locals m1) !! j = iocbs (locals m0) !! j).
        { unfold m1, m0, s1. cbn [locals iocbs]. apply list_lookup_insert_ne.
          intros Heq'. apply Hne. symmetry. exact Heq'. }
        unfold weight. rewrite Hcb.
        destruct (decide (j ∈ outstanding m0)) as [Hj|Hj].
        - rewrite !bool_decide_eq_true_2; [reflexivity|exact Hj|apply Hiff, Hj].
        - rewrite !bool_decide_eq_false_2; [reflexivity|exact Hj|].
          intros Hj'. apply Hj, Hiff, Hj'. }
      specialize (Hsum Hsame). lia.
Qed.

Lemma start_reads_events (n k : nat) (s : state) :
  events (start_reads READ_BLOCK_SIZE src_fd n k s) = events s.
Proof.
  revert k s. induction n as [|n IH]; intros k s; cbn [start_reads]; [reflexivity|].
  destruct (src_off s <? src_size s); [|reflexivity].
  rewrite IH. reflexivity.
Qed.

Lemma sized_steps (m m' : machine) :
  Sized m -> rtc (step READ_BLOCK_SIZE QUEUE_SIZE src_fd dst_fd) m m' -> Sized m'.
Proof.
  intros Hs Hsteps. induction Hsteps as [|m1 m2 m3 Hstep _ IH]; [exact Hs|].
  apply IH. destruct Hstep as [m1 evs m2 Hev _ Hget|m1 m2 Hnext].
  - apply (wait_same m1 m2 evs Hs Hev Hget).
  - apply (handle_less m1 m2 Hs Hnext).
Qed.

End Loop.

End LinuxAioLoop.

Lemma aio_sized_boot (B : Z) (N : nat) (src_fd S0 : Z)
    (iocbs0 : list LinuxAio.iocb) :
  0 < B -> (B | 2 ^ 32) -> Z.of_nat N < 2 ^ 64 -> length iocbs0 = N ->
  let m := {| LinuxAio.locals := LinuxAio.boot B N src_fd S0 iocbs0;
              LinuxAio.in_kernel := [] |} in
  LinuxAioLoop.Sized B N (round_file_size B S0) m
  /\ LinuxAio.events (LinuxAio.locals m) = []
  /\ LinuxAioLoop.batches_left B N (round_file_size B S0) m
     = (2 * Z.to_nat (round_file_size B S0 / B))%nat.
Proof.
  intros HB Hpow HN Hlen. cbn zeta.
  pose proof (LinuxAioRun.round_file_size_bounds B S0) as Hb.
  pose proof (LinuxAioRun.round_file_size_aligned B S0 HB Hpow) as Hal.
  unfold LinuxAio.boot. set (s0 := LinuxAio.mkState _ _ _ _ _ _).
  destruct (LinuxAioLoop.batches_start_reads B N src_fd (round_file_size B S0)
              HB Hal Hb N 0 s0) as [Heq Hlen'];
    [reflexivity|cbn; lia|apply Z.divide_0_r|reflexivity|reflexivity
    |exact Hlen|lia|].
  split; [split; [|exact Hlen']|].
  - apply (LinuxAioRun.aio_inv_boot B N src_fd S0 iocbs0 HB Hpow HN).
  - split; [apply LinuxAioLoop.start_reads_events|].
    cbn [LinuxAio.locals]. rewrite Heq. unfold LinuxAioLoop.batches_left.
    cbn [LinuxAio.locals LinuxAio.src_off s0].
    rewrite PosixAioRun.sum_list_zero; [rewrite Z.sub_0_r; lia|].
    intros j. unfold LinuxAioLoop.weight.
    rewrite bool_decide_eq_false_2; [reflexivity|].
    unfold LinuxAio.outstanding. cbn. apply not_elem_of_nil.
Qed.

(** X19.  The [while] loop of the Linux AIO driver runs at most twice per block
    of the rounded size, whatever results the kernel reports: batches of a
    schedule after the first [2 * (src_size / READ_BLOCK_SIZE)] are never
    reached. *)
Theorem aio_loop_is_bounded (B : Z) (N : nat) (src_fd dst_fd S0 : Z)
    (iocbs0 : list LinuxAio.iocb) (schedule : list (list LinuxAio.io_event)) :
  0 < B -> (B | 2 ^ 32) -> Z.of_nat N < 2 ^ 64 -> length iocbs0 = N ->
  let m := {| LinuxAio.locals := LinuxAio.boot B N src_fd S0 iocbs0;
              LinuxAio.in_kernel := [] |} in
  LinuxAio.main_loop B N src_fd dst_fd schedule m
  = LinuxAio.main_loop B N src_fd dst_fd
      (take (2 * Z.to_nat (round_file_size B S0 / B)) schedule) m.
Proof.
  intros HB Hpow HN Hlen m.
  pose proof (LinuxAioRun.round_file_size_bounds B S0) as Hb.
  pose proof (LinuxAioRun.round_file_size_aligned B S0 HB Hpow) as Hal.
  destruct (aio_sized_boot B N src_fd S0 iocbs0 HB Hpow HN Hlen)
    as (Hs & Hev & Hleft).
  apply (LinuxAioLoop.aio_loop_bounded B N src_fd dst_fd (round_file_size B S0)
           HB Hal Hb HN _ schedule m Hs Hev).
  fold m in Hleft. lia.
Qed.

Lemma aio_loop_is_bounded_witness :
  let m := {| LinuxAio.locals :=
                LinuxAio.boot LinuxAio.READ_BLOCK_SIZE LinuxAio.QUEUE_SIZE 3 100
                  Samples.stale_iocbs;
              LinuxAio.in_kernel := [] |} in
  LinuxAio.main_loop LinuxAio.READ_BLOCK_SIZE LinuxAio.QUEUE_SIZE 3 4
    (Samples.aio_schedule100 ++ Samples.aio_schedule100) m
  = LinuxAio.main_loop LinuxAio.READ_BLOCK_SIZE LinuxAio.QUEUE_SIZE 3 4
      (take (2 * Z.to_nat (round_file_size LinuxAio.READ_BLOCK_SIZE 100
                           / LinuxAio.READ_BLOCK_SIZE))
         (Samples.aio_schedule100 ++ Samples.aio_schedule100)) m.
Proof.
  apply (aio_loop_is_bounded LinuxAio.READ_BLOCK_SIZE LinuxAio.QUEUE_SIZE 3 4 100
           Samples.stale_iocbs);
    [unfold LinuxAio.READ_BLOCK_SIZE; lia|exists (2 ^ 19); reflexivity
    |reflexivity|reflexivity].
Defined.

(** X20.  In every state a run of the Linux AIO driver passes through, the
    control blocks listed for the next [io_submit] are distinct, fewer
    than [QUEUE_SIZE] or as many, inside the array and not held by the
    kernel, so [submit_list] is never written past its end and no control
    block is submitted while it is in flight; and an event of the batch
    names a control block of the array, so handling it is defined. *)
Theorem aio_submit_list_fits (B : Z) (N : nat) (src_fd dst_fd S0 : Z)
    (iocbs0 : list LinuxAio.iocb) (m : LinuxAio.machine) :
  0 < B -> (B | 2 ^ 32) -> Z.of_nat N < 2 ^ 64 -> length iocbs0 = N ->
  LinuxAio.reachable B N src_fd dst_fd S0 iocbs0 m ->
  (length (LinuxAio.submit_list (LinuxAio.locals m)) <= N)%nat
  /\ NoDup (LinuxAio.submit_list (LinuxAio.locals m))
  /\ (forall i, i ∈ LinuxAio.submit_list (LinuxAio.locals m) ->
        (i < N)%nat /\ i ∉ LinuxAio.in_kernel m)
  /\ (LinuxAio.events (LinuxAio.locals m) <> [] ->
      exists m', LinuxAio.handle_next B src_fd dst_fd m = Some m').
Proof.
  intros HB Hpow HN Hlen Hreach.
  pose proof (LinuxAioRun.round_file_size_bounds B S0) as Hb.
  pose proof (LinuxAioRun.round_file_size_aligned B S0 HB Hpow) as Hal.
  destruct (aio_sized_boot B N src_fd S0 iocbs0 HB Hpow HN Hlen) as (Hs0 & _).
  pose proof (LinuxAioLoop.sized_steps B N src_fd dst_fd (round_file_size B S0)
                HB Hal Hb HN _ m Hs0 Hreach) as Hs.
  destruct Hs as [H Hcbs].
  pose proof (LinuxAioRun.aio_nodup _ _ _ _ H) as Hnd.
  pose proof (LinuxAioRun.aio_outstanding_le _ _ _ m H) as Hle.
  unfold LinuxAio.outstanding in Hnd, Hle.
  apply NoDup_app in Hnd. destruct Hnd as (_ & Hdisj & Hnd).
  apply NoDup_app in Hnd. destruct Hnd as (Hnd & _ & _).
  rewrite !length_app in Hle.
  split; [lia|]. split; [exact Hnd|]. split.
  - intros i Hi. split.
    + apply (LinuxAioRun.aio_range _ _ _ _ H). unfold LinuxAio.outstanding.
      rewrite !elem_of_app. tauto.
    + intros Hk. apply (Hdisj i Hk). rewrite elem_of_app. tauto.
  - intros Hev.
    apply (LinuxAioLoop.handle_runs B N src_fd dst_fd (round_file_size B S0) Hb m
             (conj H Hcbs) Hev).
Qed.

Lemma aio_submit_list_fits_witness :
  let m := {| LinuxAio.locals :=
                LinuxAio.boot LinuxAio.READ_BLOCK_SIZE LinuxAio.QUEUE_SIZE 3 100
                  Samples.stale_iocbs;
              LinuxAio.in_kernel := [] |} in
  (length (LinuxAio.submit_list (LinuxAio.locals m)) <= LinuxAio.QUEUE_SIZE)%nat
  /\ NoDup (LinuxAio.submit_list (LinuxAio.locals m)).
Proof.
  pose proof (aio_submit_list_fits LinuxAio.READ_BLOCK_SIZE LinuxAio.QUEUE_SIZE
                3 4 100 Samples.stale_iocbs
                {| LinuxAio.locals :=
                     LinuxAio.boot LinuxAio.READ_BLOCK_SIZE LinuxAio.QUEUE_SIZE
                       3 100 Samples.stale_iocbs;
                   LinuxAio.in_kernel := [] |}) as H.
  destruct H as (Hle & Hnd & _);
    [unfold LinuxAio.READ_BLOCK_SIZE; lia|exists (2 ^ 19); reflexivity
    |reflexivity|reflexivity|apply rtc_refl|].
  split; [exact Hle|exact Hnd].
Defined.

(** X21.  With at least one cell and a buffer of a whole block for each, the
    io_uring driver has, for every source that is not empty and shorter
    than 4 GiB, a run on which [main] returns with the destination equal
    to the source. *)
Theorem io_uring_copy_completes (B : Z) (N : nat) (src_fd dst_fd : Z)
    (src : file) (mem : list (list byte)) :
  0 < B < 2 ^ 31 -> (0 < N)%nat -> Z.of_nat N < 2 ^ 16 ->
  (0 < length src)%nat -> Z.of_nat (length src) < 2 ^ 32 ->
  length mem = N ->
  Forall (fun buf => B <= Z.of_nat (length buf)) mem ->
  exists schedule,
    IoUring.main B N src_fd dst_fd src (open_src_file src) mem schedule
    = Some (Running src).
Proof.
  intros HB HN0 HN Hsome HS Hmem Hbufs.
  replace (open_src_file src) with (Z.of_nat (length src))
    by (unfold open_src_file; rewrite wrap_u32_small; lia).
  apply (IoUringRun.copy_completes B N src_fd dst_fd src mem
           HB HN0 HN ltac:(lia) Hmem Hbufs).
Qed.

Lemma io_uring_copy_completes_witness :
  exists schedule,
    IoUring.main 4 2 3 4 Samples.src10 (open_src_file Samples.src10)
      Samples.mem2x4 schedule
    = Some (Running Samples.src10).
Proof.
  apply (io_uring_copy_completes 4 2 3 4 Samples.src10 Samples.mem2x4);
    [lia|lia|cbn; lia|cbn; lia|cbn; lia|reflexivity
    |repeat (apply Forall_cons_2; [cbn; lia|]); apply Forall_nil_2].
Defined.

(** ** The Linux AIO driver: what the destination holds *)

Module LinuxAioCopy.
Import LinuxAio LinuxAioCp.

Lemma transfer_event (m m' : machine) (c : completion) (ev : io_event) :
  transfer m c = Some (m', ev) -> control m' = control m /\ obj ev = block c.
Proof.
  intros Hc. unfold transfer in Hc. destruct c as [i|i errno].
  - destruct (iocbs (locals (control m)) !! i) as [cb|]; [|discriminate].
    destruct (buffers m !! buf cb) as [b|];
      [|injection Hc as <- <-; done].
    destruct (_ <? _); [injection Hc as <- <-; done|].
    destruct (aio_lio_opcode cb); destruct (_ =? _);
      injection Hc as <- <-; done.
  - injection Hc as <- <-. done.
Qed.

Lemma transfers_events (m m' : machine) (batch : list completion)
    (evs : list io_event) :
  transfers m batch = Some (m', evs) ->
  control m' = control m /\ obj <$> evs = block <$> batch.
Proof.
  revert m evs. induction batch as [|c batch IH]; intros m evs Ht; cbn in Ht.
  - injection Ht as <- <-. done.
  - destruct (transfer m c) as [[m1 ev]|] eqn:Hc; [|discriminate].
    destruct (transfers m1 batch) as [[m2 evs']|] eqn:Hrest; [|discriminate].
    injection Ht as <- <-. destruct (IH m1 evs' Hrest) as [Hctl Hobj].
    destruct (transfer_event m m1 c ev Hc) as [Hctl1 Hobj1].
    split; [congruence|]. cbn. rewrite Hobj1, Hobj. reflexivity.
Qed.

Section Copying.

Variable READ_BLOCK_SIZE : Z.
Variable QUEUE_SIZE : nat.
Variables src_fd dst_fd : Z.
Variable src : file.

#[local] Abbreviation B := READ_BLOCK_SIZE.
#[local] Abbreviation S := (Z.of_nat (length src)).
#[local] Abbreviation T := (round_file_size READ_BLOCK_SIZE (Z.of_nat (length src))).

Hypothesis block_size_bounds : 0 < B < 2 ^ 31.
Hypothesis rounding_fits : S + B < 2 ^ 32.
Hypothesis queue_size_bound : Z.of_nat QUEUE_SIZE < 2 ^ 64.

#[local] Abbreviation block_len := (PosixAioRun.block_len READ_BLOCK_SIZE src).
#[local] Abbreviation block_done := (PosixAioRun.block_done READ_BLOCK_SIZE src).
#[local] Abbreviation buf_holds := (PosixAioRun.buf_holds src).
#[local] Abbreviation Sized := (LinuxAioLoop.Sized READ_BLOCK_SIZE QUEUE_SIZE T).
#[local] Abbreviation handle_next :=
  (LinuxAio.handle_next READ_BLOCK_SIZE src_fd dst_fd).

Lemma aio_tracked : S < T <= S + B /\ (B | T) /\ 0 <= T < 2 ^ 32.
Proof.
  apply (PosixAioRun.tracked_past B QUEUE_SIZE src block_size_bounds rounding_fits).
Qed.

Lemma aio_block_len_range (o : Z) : 0 <= block_len o <= B.
Proof. unfold PosixAioRun.block_len. lia. Qed.

(** An outstanding control block names a block below the cursor; [r] is
    the result reported for it, if it has been reported.  A read that is
    reported has filled the buffer; a write is set up from a filled
    buffer and, once reported, has put the block in place. *)
Definition cell_ok (cursor : Z) (bufs : list (list byte)) (dst : file)
    (i : nat) (cb : iocb) (r : option Z) : Prop :=
  buf cb = i
  /\ 0 <= offset cb /\ (B | offset cb)
  /\ offset cb + B <= cursor
  /\ match aio_lio_opcode cb with
     | IO_CMD_PREAD =>
         aio_fildes cb = src_fd /\ nbytes cb = B
         /\ (r = None
             \/ (r = Some (block_len (offset cb))
                 /\ buf_holds bufs i (offset cb) (block_len (offset cb))))
     | IO_CMD_PWRITE =>
         aio_fildes cb = dst_fd
         /\ nbytes cb = block_len (offset cb)
         /\ 0 < block_len (offset cb)
         /\ buf_holds bufs i (offset cb) (block_len (offset cb))
         /\ (r = None
             \/ (r = Some (block_len (offset cb))
                 /\ block_done dst (offset cb)))
     end.

(** The invariant of a run in which every request is carried out in full;
    [acc] holds the events of the transfers carried out and not yet
    fetched. *)
Record DInv (m : machine) (acc : list io_event) : Prop := {
  di_sized : Sized (control m);
  di_src : src_file m = src;
  di_rd : rd_fd m = src_fd;
  di_wr : wr_fd m = dst_fd;
  di_dst : Z.of_nat (length (dst_file m)) = S;
  di_bufs :
    forall i, (i < QUEUE_SIZE)%nat ->
      exists b, buffers m !! i = Some b /\ B <= Z.of_nat (length b);
  di_pending :
    forall i cb,
      i ∈ in_kernel (control m) ++ submit_list (locals (control m)) ->
      i ∉ obj <$> acc ->
      iocbs (locals (control m)) !! i = Some cb ->
      cell_ok (src_off (locals (control m))) (buffers m) (dst_file m) i cb None;
  di_reported :
    forall ev cb,
      ev ∈ acc ++ events (locals (control m)) ->
      iocbs (locals (control m)) !! obj ev = Some cb ->
      cell_ok (src_off (locals (control m))) (buffers m) (dst_file m)
        (obj ev) cb (Some (res ev));
  di_covered :
    forall o, (B | o) -> 0 <= o < src_off (locals (control m)) ->
      block_done (dst_file m) o
      \/ exists i cb, i ∈ outstanding (control m)
                      /\ iocbs (locals (control m)) !! i = Some cb
                      /\ offset cb = o;
  di_full :
    src_off (locals (control m)) < T ->
    num_io_reqs (locals (control m)) = Z.of_nat QUEUE_SIZE
}.

Lemma cell_ok_mono (cursor cursor' : Z) (bufs bufs' : list (list byte))
    (dst dst' : file) (i : nat) (cb : iocb) (r : option Z) :
  cursor <= cursor' ->
  bufs' !! i = bufs !! i ->
  (forall x : nat, dst !! x = src !! x -> dst' !! x = src !! x) ->
  cell_ok cursor bufs dst i cb r -> cell_ok cursor' bufs' dst' i cb r.
Proof.
  intros Hcur Hbuf Hdst (Hi & Ho & Hal & Hbelow & Hop).
  assert (Hholds : forall o n, buf_holds bufs i o n -> buf_holds bufs' i o n).
  { intros o n (b & Hb & Hok). exists b. rewrite Hbuf. done. }
  split; [exact Hi|]. split; [exact Ho|]. split; [exact Hal|]. split; [lia|].
  destruct (aio_lio_opcode cb).
  - destruct Hop as (Hfd & Hn & [Hrq|[Hrq Hh]]); (split; [exact Hfd|]);
      (split; [exact Hn|]); [left; exact Hrq|right; auto].
  - destruct Hop as (Hfd & Hn & Hpos & Hh & Hrq).
    split; [exact Hfd|]. split; [exact Hn|]. split; [exact Hpos|].
    split; [auto|]. destruct Hrq as [Hrq|[Hrq Hd]]; [left; exact Hrq|].
    right. split; [exact Hrq|]. intros x Hx HxS. apply Hdst, (Hd x Hx HxS).
Qed.

(** The context carries out the transfer of a control block it holds. *)
Lemma dinv_transfer (m m' : machine) (acc : list io_event) (i : nat)
    (ev : io_event) :
  DInv m acc -> events (locals (control m)) = [] ->
  i ∈ in_kernel (control m) ++ submit_list (locals (control m)) ->
  i ∉ obj <$> acc ->
  transfer m (Done i) = Some (m', ev) ->
  DInv m' (acc ++ [ev]).
Proof.
  intros D Hnone Hheld Hfresh Ht. unfold transfer in Ht.
  destruct (iocbs (locals (control m)) !! i) as [cb|] eqn:Hcb; [|discriminate].
  pose proof (di_pending _ _ D i cb Hheld Hfresh Hcb)
    as (Hbuf & Ho & Hal & Hbelow & Hop).
  assert (Hi : (i < QUEUE_SIZE)%nat).
  { apply (LinuxAioRun.aio_range _ _ _ _ (proj1 (di_sized _ _ D))).
    unfold outstanding. rewrite app_assoc, elem_of_app. left. exact Hheld. }
  destruct (di_bufs _ _ D i Hi) as (b & Hb & Hlen).
  pose proof (aio_block_len_range (offset cb)) as Hrange.
  pose proof (lookup_lt_Some _ _ _ Hb) as Hibuf.
  rewrite Hbuf, Hb in Ht.
  assert (Hsplit : forall ev', ev' ∈ (acc ++ [ev]) ++ events (locals (control m)) ->
            ev' ∈ acc ++ events (locals (control m)) \/ ev' = ev).
  { intros ev'. rewrite !elem_of_app, list_elem_of_singleton. tauto. }
  assert (Hleft : forall j, j ∉ obj <$> acc ++ [ev] -> j ∉ obj <$> acc).
  { intros j Hj Hin. apply Hj. rewrite fmap_app, elem_of_app. left. exact Hin. }
  destruct (aio_lio_opcode cb) eqn:Hkind.
  - destruct Hop as (Hfd & Hn & _).
    rewrite Hn, Hfd, (di_rd _ _ D), (di_src _ _ D), Z.eqb_refl in Ht.
    destruct (Z.ltb_spec (Z.of_nat (length b)) B) as [Hshort|_]; [lia|].
    pose proof (pread_length src (offset cb) B Ho ltac:(lia)) as Hgot.
    fold (block_len (offset cb)) in Hgot.
    injection Ht as <- <-.
    destruct D. constructor; cbn; first [assumption|reflexivity|idtac].
    + intros j Hj. destruct (decide (i = j)) as [<-|Hne].
      * rewrite list_lookup_insert_eq by exact Hibuf.
        eexists. split; [reflexivity|].
        unfold fill_buffer. rewrite length_app, length_drop. lia.
      * rewrite list_lookup_insert_ne by exact Hne. apply di_bufs0. exact Hj.
    + intros j cb' Hj Hnot Hcbj.
      assert (Hne : i <> j).
      { intros <-. apply Hnot. rewrite fmap_app, elem_of_app. right. cbn. left. }
      apply (cell_ok_mono (src_off (locals (control m))) _ (buffers m) _ (dst_file m));
        [lia|apply list_lookup_insert_ne; exact Hne|auto|].
      apply di_pending0; [exact Hj|apply Hleft; exact Hnot|exact Hcbj].
    + intros ev' cb' Hin Hcb'. destruct (Hsplit ev' Hin) as [Hold| ->].
      * assert (Hne : i <> obj ev').
        { intros Heq. rewrite Hnone, app_nil_r in Hold. apply Hfresh.
          rewrite Heq. apply list_elem_of_fmap_2. exact Hold. }
        apply (cell_ok_mono (src_off (locals (control m))) _ (buffers m) _
                 (dst_file m));
          [lia|apply list_lookup_insert_ne; exact Hne|auto|].
        apply di_reported0; assumption.
      * cbn in Hcb' |- *. rewrite Hcb in Hcb'. injection Hcb' as <-.
        split; [exact Hbuf|]. split; [exact Ho|]. split; [exact Hal|].
        split; [exact Hbelow|]. rewrite Hkind.
        split; [exact Hfd|]. split; [exact Hn|]. right.
        split; [rewrite Hgot; reflexivity|].
        eexists. split; [apply list_lookup_insert_eq; exact Hibuf|].
        intros k Hk. rewrite fill_buffer_lookup by lia.
        apply pread_lookup. lia.
  - destruct Hop as (Hfd & Hn & Hpos & (b' & Hb' & Hheld') & _).
    rewrite Hb in Hb'. injection Hb' as <-.
    rewrite Hn, Hfd, (di_wr _ _ D), Z.eqb_refl in Ht.
    destruct (Z.ltb_spec (Z.of_nat (length b)) (block_len (offset cb)))
      as [Hshort|_]; [lia|].
    injection Ht as <- <-.
    set (out := take (Z.to_nat (block_len (offset cb))) b).
    assert (Hout : Z.of_nat (length out) = block_len (offset cb)).
    { unfold out. rewrite length_take. lia. }
    assert (Hin : offset cb + block_len (offset cb) <= S).
    { unfold PosixAioRun.block_len in *. lia. }
    assert (Hsrc : forall k : nat, (k < length out)%nat ->
               out !! k = src !! (Z.to_nat (offset cb) + k)%nat).
    { intros k Hk. unfold out. rewrite lookup_take_lt by lia.
      apply Hheld'. lia. }
    assert (Hkeep : forall x : nat, dst_file m !! x = src !! x ->
               pwrite (dst_file m) (offset cb) out !! x = src !! x).
    { intros x Hx. apply ThreadPoolRun.good_write_keeps;
        [rewrite (di_dst _ _ D); lia|exact Hsrc|exact Hx]. }
    destruct D. constructor; cbn; first [assumption|reflexivity|idtac].
    + rewrite pwrite_length by lia. lia.
    + intros j cb' Hj Hnot Hcbj.
      apply (cell_ok_mono (src_off (locals (control m))) _ (buffers m) _ (dst_file m));
        [lia|reflexivity|exact Hkeep|].
      apply di_pending0; [exact Hj|apply Hleft; exact Hnot|exact Hcbj].
    + intros ev' cb' Hin' Hcb'. destruct (Hsplit ev' Hin') as [Hold| ->].
      * apply (cell_ok_mono (src_off (locals (control m))) _ (buffers m) _
                 (dst_file m));
          [lia|reflexivity|exact Hkeep|].
        apply di_reported0; assumption.
      * cbn in Hcb' |- *. rewrite Hcb in Hcb'. injection Hcb' as <-.
        split; [exact Hbuf|]. split; [exact Ho|]. split; [exact Hal|].
        split; [exact Hbelow|]. rewrite Hkind.
        split; [exact Hfd|]. split; [exact Hn|]. split; [exact Hpos|].
        split; [exists b; split; assumption|]. right.
        split; [fold out; rewrite Hout; reflexivity|].
        intros x Hx HxS. apply ThreadPoolRun.good_write_new;
          [lia|exact Hsrc|]. unfold PosixAioRun.block_len in *. lia.
    + intros o Hdiv Hlt. destruct (di_covered0 o Hdiv Hlt) as [Hdone|Hheld2].
      * left. intros x Hx HxS. apply Hkeep, (Hdone x Hx HxS).
      * right. exact Hheld2.
Qed.

Lemma dinv_transfers (batch : list completion) (m m' : machine)
    (acc evs : list io_event) :
  DInv m acc -> events (locals (control m)) = [] ->
  forallb completes batch = true ->
  NoDup ((obj <$> acc) ++ (block <$> batch)) ->
  (forall c, c ∈ batch ->
     block c ∈ in_kernel (control m) ++ submit_list (locals (control m))) ->
  transfers m batch = Some (m', evs) ->
  DInv m' (acc ++ evs).
Proof.
  revert m acc evs. induction batch as [|c batch IH];
    intros m acc evs D Hnone Hclean Hnd Hheld Ht; cbn in Ht.
  - injection Ht as <- <-. rewrite app_nil_r. exact D.
  - destruct (transfer m c) as [[m1 ev]|] eqn:Hc; [|discriminate].
    destruct (transfers m1 batch) as [[m2 evs']|] eqn:Hrest; [|discriminate].
    injection Ht as <- <-.
    cbn in Hclean. apply andb_true_iff in Hclean. destruct Hclean as [Hdone Hclean].
    destruct c as [i|i errno]; [|discriminate].
    destruct (transfer_event _ _ _ _ Hc) as [Hctl Hev]. cbn [block] in Hev.
    cbn [fmap list_fmap block] in Hnd.
    apply NoDup_app in Hnd. destruct Hnd as (Hnd1 & Hdisj & Hnd2).
    apply NoDup_cons in Hnd2. destruct Hnd2 as [Hi Hnd2].
    assert (D1 : DInv m1 (acc ++ [ev])).
    { apply (dinv_transfer m m1 acc i ev D Hnone); [|intros Hin|exact Hc].
      - apply (Hheld (Done i)). left.
      - apply (Hdisj i Hin). left. }
    replace (acc ++ ev :: evs') with ((acc ++ [ev]) ++ evs')
      by (rewrite <- app_assoc; reflexivity).
    apply (IH m1 (acc ++ [ev]) evs' D1); [rewrite Hctl; exact Hnone|exact Hclean| |
                                          |exact Hrest].
    + rewrite fmap_app. cbn [fmap list_fmap]. rewrite Hev.
      apply NoDup_app. split; [|split; [|exact Hnd2]].
      * apply NoDup_app. split; [exact Hnd1|]. split; [|apply NoDup_singleton].
        intros x Hx Hx'. apply list_elem_of_singleton in Hx'. subst x.
        apply (Hdisj i Hx). left.
      * intros x Hx Hx'. apply elem_of_app in Hx. destruct Hx as [Hx|Hx].
        -- apply (Hdisj x Hx). right. exact Hx'.
        -- apply list_elem_of_singleton in Hx. subst x. contradiction.
    + intros c Hcin. rewrite Hctl. apply Hheld. right. exact Hcin.
Qed.

(** The batch is fetched. *)
Lemma dinv_wait (m : machine) (evs : list io_event) (c1 : LinuxAio.machine) :
  DInv m evs -> events (locals (control m)) = [] ->
  submit_and_get QUEUE_SIZE (control m) evs = Some c1 ->
  DInv (set_control m c1) [] /\ events (locals c1) = evs.
Proof.
  intros D Hnone Hget.
  destruct aio_tracked as (_ & Hdiv & HT).
  destruct (LinuxAioLoop.wait_same B QUEUE_SIZE T HT (control m) c1 evs
              (di_sized _ _ D) Hnone Hget) as (Hs1 & _ & Hevs & _).
  split; [|exact Hevs].
  unfold submit_and_get in Hget.
  case_bool_decide as Hok; [|discriminate]. injection Hget as <-.
  destruct Hok as (_ & _ & _ & Hsub).
  destruct D. constructor; cbn; first [assumption|reflexivity|idtac].
  - intros i cb Hi _ Hcb. rewrite app_nil_r in Hi.
    apply list_elem_of_difference in Hi. destruct Hi as [Hi Hnot].
    apply di_pending0; assumption.
  - intros ev cb Hin Hcb. apply di_reported0; [|exact Hcb].
    rewrite Hnone, app_nil_r. exact Hin.
  - intros o Hdo Hlt. destruct (di_covered0 o Hdo Hlt)
      as [Hd|(i & cb & Hi & Hcb & Ho)]; [left; exact Hd|].
    right. exists i, cb. split; [|split; [exact Hcb|exact Ho]].
    unfold outstanding in Hi |- *. cbn. rewrite Hnone in Hi. cbn in Hi.
    rewrite app_nil_r in Hi. rewrite elem_of_app, list_elem_of_difference.
    destruct (decide (i ∈ obj <$> evs)); [right|left]; done.
Qed.

(** An event of the batch is handled. *)
Lemma dinv_handle (m : machine) (c' : LinuxAio.machine) :
  DInv m [] -> handle_next (control m) = Some c' ->
  DInv (set_control m c') [].
Proof.
  intros D Hnext.
  destruct aio_tracked as (_ & Hdiv & HT).
  pose proof (proj1 block_size_bounds) as HB.
  destruct (LinuxAioLoop.handle_less B QUEUE_SIZE src_fd dst_fd T HB Hdiv HT
              queue_size_bound (control m) c' (di_sized _ _ D) Hnext)
    as (Hs' & _ & _).
  pose proof (proj1 (di_sized _ _ D)) as H.
  pose proof (LinuxAioRun.aio_off _ _ _ _ H) as Hoff.
  pose proof (LinuxAioRun.aio_size _ _ _ _ H) as Hsz.
  pose proof (LinuxAioRun.aio_nodup _ _ _ _ H) as Hnd.
  pose proof (LinuxAioRun.aio_aligned _ _ _ _ H) as Hal0.
  unfold LinuxAio.handle_next in Hnext.
  destruct (events (locals (control m))) as [|ev rest] eqn:Hev; [discriminate|].
  assert (Hout : outstanding (control m)
                 = in_kernel (control m) ++ submit_list (locals (control m))
                   ++ obj ev :: (obj <$> rest)).
  { unfold outstanding. rewrite Hev. reflexivity. }
  assert (Hfresh : (obj ev ∉ in_kernel (control m)
                              ++ submit_list (locals (control m)))
                   /\ (obj ev ∉ obj <$> rest)).
  { rewrite Hout, app_assoc in Hnd. apply NoDup_app in Hnd.
    destruct Hnd as (_ & Hdisj & Hnd2). apply NoDup_cons in Hnd2.
    destruct Hnd2 as [Hno _]. split; [|exact Hno].
    intros Hx. apply (Hdisj _ Hx). left. }
  destruct Hfresh as [Hfresh1 Hfresh2].
  unfold handle_event in Hnext. cbn [iocbs locals] in Hnext.
  destruct (iocbs (locals (control m)) !! obj ev) as [cb|] eqn:Hcb; [|discriminate].
  pose proof (lookup_lt_Some _ _ _ Hcb) as Hicb.
  assert (Hrep : forall ev' cb',
            ev' ∈ ev :: rest ->
            iocbs (locals (control m)) !! obj ev' = Some cb' ->
            cell_ok (src_off (locals (control m))) (buffers m) (dst_file m)
              (obj ev') cb' (Some (res ev'))).
  { intros ev' cb' Hin Hcb'. apply (di_reported _ _ D); [|exact Hcb'].
    rewrite Hev. exact Hin. }
  pose proof (Hrep ev cb ltac:(left) Hcb) as (Hbuf & Ho & Hal & Hbelow & Hop).
  pose proof (aio_block_len_range (offset cb)) as Hrange.
  assert (Hrest : forall ev', ev' ∈ rest -> obj ev' <> obj ev).
  { intros ev' Hin Heq. apply Hfresh2. rewrite <- Heq.
    apply list_elem_of_fmap_2. exact Hin. }
  (* the control block leaves *)
  assert (Hretire : forall n,
            Sized {| locals := {| src_size := src_size (locals (control m));
                                  src_off := src_off (locals (control m));
                                  num_io_reqs := n;
                                  iocbs := iocbs (locals (control m));
                                  submit_list := submit_list (locals (control m));
                                  events := rest |};
                     in_kernel := in_kernel (control m) |} ->
            block_done (dst_file m) (offset cb) ->
            src_off (locals (control m)) = T ->
            DInv (set_control m
                    {| locals := {| src_size := src_size (locals (control m));
                                    src_off := src_off (locals (control m));
                                    num_io_reqs := n;
                                    iocbs := iocbs (locals (control m));
                                    submit_list := submit_list (locals (control m));
                                    events := rest |};
                       in_kernel := in_kernel (control m) |}) []).
  { intros n Hsized Hdone Hend.
    destruct D. constructor; cbn; first [assumption|reflexivity|idtac].
    - intros ev' cb' Hin Hcb'. apply Hrep; [right; exact Hin|exact Hcb'].
    - intros o Hdo Hlt. destruct (di_covered0 o Hdo Hlt)
        as [Hd|(j & cb' & Hj & Hcbj & Hoj)]; [left; exact Hd|].
      destruct (decide (j = obj ev)) as [->|Hne].
      + rewrite Hcb in Hcbj. injection Hcbj as <-. subst o. left. exact Hdone.
      + right. exists j, cb'. split; [|split; [exact Hcbj|exact Hoj]].
        rewrite Hout in Hj. unfold outstanding. cbn.
        rewrite !elem_of_app, elem_of_cons in Hj. rewrite !elem_of_app. tauto.
    - intros Hlt. lia. }
  (* the control block is set up again, for the same block or the next *)
  assert (Hagain : forall cb' off,
            Sized {| locals := {| src_size := src_size (locals (control m));
                                  src_off := off;
                                  num_io_reqs := num_io_reqs (locals (control m));
                                  iocbs := <[obj ev := cb']> (iocbs (locals (control m)));
                                  submit_list :=
                                    submit_list (locals (control m)) ++ [obj ev];
                                  events := rest |};
                     in_kernel := in_kernel (control m) |} ->
            src_off (locals (control m)) <= off ->
            cell_ok off (buffers m) (dst_file m) (obj ev) cb' None ->
            (offset cb' = offset cb \/ block_done (dst_file m) (offset cb)) ->
            (forall o, (B | o) -> src_off (locals (control m)) <= o < off ->
               o = offset cb') ->
            (off < T -> src_off (locals (control m)) < T) ->
            DInv (set_control m
                    {| locals := {| src_size := src_size (locals (control m));
                                    src_off := off;
                                    num_io_reqs := num_io_reqs (locals (control m));
                                    iocbs := <[obj ev := cb']> (iocbs (locals (control m)));
                                    submit_list :=
                                      submit_list (locals (control m)) ++ [obj ev];
                                    events := rest |};
                       in_kernel := in_kernel (control m) |}) []).
  { intros cb' off Hsized Hle Hnew Hsame Hnext' Hfull.
    destruct D. constructor; cbn; first [assumption|reflexivity|idtac].
    - intros j cbj Hj _ Hcbj. destruct (decide (j = obj ev)) as [->|Hne].
      + rewrite list_lookup_insert_eq in Hcbj by exact Hicb.
        injection Hcbj as <-. exact Hnew.
      + rewrite list_lookup_insert_ne in Hcbj
          by (intros Heq; apply Hne; symmetry; exact Heq).
        apply (cell_ok_mono (src_off (locals (control m))) _ (buffers m) _
                 (dst_file m)); [exact Hle|reflexivity|auto|].
        apply di_pending0; [|apply not_elem_of_nil|exact Hcbj].
        rewrite app_assoc, elem_of_app, list_elem_of_singleton in Hj. tauto.
    - intros ev' cbj Hin Hcbj.
      rewrite list_lookup_insert_ne in Hcbj
        by (intros Heq; apply (Hrest ev' Hin); symmetry; exact Heq).
      apply (cell_ok_mono (src_off (locals (control m))) _ (buffers m) _
               (dst_file m)); [exact Hle|reflexivity|auto|].
      apply Hrep; [right; exact Hin|exact Hcbj].
    - intros o Hdo Hr.
      assert (Hme : exists i cbi,
                 i ∈ outstanding
                       {| locals := {| src_size := src_size (locals (control m));
                                       src_off := off;
                                       num_io_reqs := num_io_reqs (locals (control m));
                                       iocbs := <[obj ev := cb']>
                                                  (iocbs (locals (control m)));
                                       submit_list :=
                                         submit_list (locals (control m)) ++ [obj ev];
                                       events := rest |};
                          in_kernel := in_kernel (control m) |}
                 /\ <[obj ev := cb']> (iocbs (locals (control m))) !! i = Some cbi
                 /\ offset cbi = offset cb').
      { exists (obj ev), cb'. split; [|split; [|reflexivity]].
        - unfold outstanding. cbn.
          rewrite !elem_of_app, list_elem_of_singleton. tauto.
        - apply list_lookup_insert_eq. exact Hicb. }
      destruct (decide (o < src_off (locals (control m)))) as [Hold|Hnew'].
      + destruct (di_covered0 o Hdo ltac:(lia))
          as [Hd|(j & cbj & Hj & Hcbj & Hoj)]; [left; exact Hd|].
        destruct (decide (j = obj ev)) as [->|Hne].
        * rewrite Hcb in Hcbj. injection Hcbj as <-. subst o.
          destruct Hsame as [Hsame|Hdone]; [|left; exact Hdone].
          right. rewrite <- Hsame. exact Hme.
        * right. exists j, cbj. split; [|split; [|exact Hoj]].
          -- rewrite Hout in Hj. unfold outstanding. cbn.
             rewrite !elem_of_app, elem_of_cons in Hj.
             rewrite !elem_of_app, list_elem_of_singleton. tauto.
          -- rewrite list_lookup_insert_ne
               by (intros Heq; apply Hne; symmetry; exact Heq). exact Hcbj.
      + right. rewrite (Hnext' o Hdo ltac:(lia)). exact Hme.
    - intros Hlt. apply di_full0. apply Hfull. exact Hlt. }
  destruct (aio_lio_opcode cb) eqn:Hkind.
  - destruct Hop as (Hfd & Hn & [Hin|[Hfin Hheld]]); [discriminate|].
    injection Hfin as Hres. rewrite Hres in Hnext.
    rewrite wrap_s32_small in Hnext by lia.
    destruct (Z.eqb_spec (block_len (offset cb)) 0) as [Hz|Hnz];
      cbn [negb] in Hnext; injection Hnext as <-.
    + apply Hretire; [exact Hs'| |].
      * apply (PosixAioRun.block_empty_done B QUEUE_SIZE src block_size_bounds).
        exact Hz.
      * apply (PosixAioRun.block_empty_last B QUEUE_SIZE src block_size_bounds
                 rounding_fits (offset cb)); [assumption..|lia].
    + rewrite wrap_u64_small by lia.
      rewrite wrap_u64_small in Hs' by lia.
      apply Hagain; [exact Hs'|lia| |left; reflexivity|intros o _ Hr; lia|auto].
      unfold cell_ok. cbn.
      repeat (split; [first [assumption|reflexivity|lia]|]).
      left. reflexivity.
  - destruct Hop as (Hfd & Hn & Hpos & Hheld & [Hin|[Hfin Hdone]]); [discriminate|].
    injection Hfin as Hres. rewrite Hres in Hnext.
    rewrite wrap_s32_small in Hnext by lia.
    destruct (Z.eqb_spec (block_len (offset cb)) 0) as [Hz|_]; [lia|].
    cbn [negb andb src_off src_size] in Hnext.
    destruct (Z.ltb_spec (src_off (locals (control m)))
                (src_size (locals (control m)))) as [Hlt|Hge];
      injection Hnext as <-.
    2:{ apply Hretire; [exact Hs'|exact Hdone|lia]. }
    rewrite Hsz in Hlt.
    pose proof (LinuxAioRun.aligned_next B (src_off (locals (control m))) T
                  HB Hal0 Hdiv Hlt) as Hnext'.
    rewrite wrap_s64_small by lia. rewrite wrap_s64_small in Hs' by lia.
    apply Hagain; [exact Hs'|lia| |right; exact Hdone| |intros _; exact Hlt].
    + unfold cell_ok. cbn.
      split; [exact Hbuf|]. split; [lia|]. split; [exact Hal0|]. split; [lia|].
      split; [reflexivity|]. split; [reflexivity|]. left. reflexivity.
    + intros o Hdo Hr. cbn.
      apply (PosixAioRun.aligned_between B QUEUE_SIZE src block_size_bounds);
        assumption.
Qed.

Lemma dinv_handle_all (n : nat) (m : machine) (c' : LinuxAio.machine) :
  DInv m [] ->
  handle_all READ_BLOCK_SIZE src_fd dst_fd n (control m) = Some c' ->
  DInv (set_control m c') [].
Proof.
  revert m. induction n as [|n IH]; intros m D Hall; cbn [handle_all] in Hall.
  - injection Hall as <-. destruct m. exact D.
  - destruct (handle_next (control m)) as [c1|] eqn:Hnext; [|discriminate].
    apply (IH (set_control m c1) (dinv_handle m c1 D Hnext) Hall).
Qed.

(** One pass of the loop. *)
Lemma dinv_round (m m1 : machine) (batch : list completion)
    (evs : list io_event) (c1 c2 : LinuxAio.machine) :
  DInv m [] -> events (locals (control m)) = [] ->
  forallb completes batch = true ->
  transfers m batch = Some (m1, evs) ->
  submit_and_get QUEUE_SIZE (control m1) evs = Some c1 ->
  handle_all READ_BLOCK_SIZE src_fd dst_fd (length evs) c1 = Some c2 ->
  DInv (set_control m1 c2) [] /\ events (locals c2) = []
  /\ (LinuxAioLoop.batches_left B QUEUE_SIZE T c2
      < LinuxAioLoop.batches_left B QUEUE_SIZE T (control m))%nat.
Proof.
  intros D Hnone Hclean Ht Hget Hall.
  destruct aio_tracked as (_ & Hdiv & HT).
  pose proof (proj1 block_size_bounds) as HB.
  destruct (transfers_events m m1 batch evs Ht) as [Hctl Hobj].
  assert (Hok : NoDup (obj <$> evs)
                /\ obj <$> evs ⊆ in_kernel (control m)
                                 ++ submit_list (locals (control m))).
  { unfold submit_and_get in Hget. case_bool_decide as Hok; [|discriminate].
    rewrite Hctl in Hok. tauto. }
  destruct Hok as [Hnd Hsub]. rewrite Hobj in Hnd, Hsub.
  assert (D1 : DInv m1 evs).
  { apply (dinv_transfers batch m m1 [] evs D Hnone Hclean); [exact Hnd| |exact Ht].
    intros c Hc. apply Hsub. apply list_elem_of_fmap_2. exact Hc. }
  assert (Hnone1 : events (locals (control m1)) = []) by (rewrite Hctl; exact Hnone).
  destruct (dinv_wait m1 evs c1 D1 Hnone1 Hget) as [D2 Hevs].
  pose proof (dinv_handle_all (length evs) (set_control m1 c1) c2 D2 Hall) as D3.
  split; [exact D3|].
  destruct (LinuxAioLoop.wait_same B QUEUE_SIZE T HT (control m1) c1 evs
              (di_sized _ _ D1) Hnone1 Hget) as (Hs1 & Heq & _ & Hne).
  destruct (LinuxAioLoop.handle_all_less B QUEUE_SIZE src_fd dst_fd T HB Hdiv HT
              queue_size_bound (length evs) c1 Hs1 ltac:(rewrite Hevs; reflexivity))
    as (c2' & Hall' & _ & Hle & Hnil).
  rewrite Hall in Hall'. injection Hall' as <-.
  split; [exact Hnil|]. rewrite Hctl in Heq.
  destruct evs; [contradiction|]. cbn [length] in Hle. lia.
Qed.

Lemma dinv_main_loop (schedule : list round) (m m' : machine) :
  DInv m [] -> events (locals (control m)) = [] ->
  in_full schedule = true ->
  main_loop READ_BLOCK_SIZE QUEUE_SIZE src_fd dst_fd schedule m
  = Some (Running m') ->
  DInv m' [] /\ num_io_reqs (locals (control m')) = 0.
Proof.
  revert m. induction schedule as [|r schedule IH];
    intros m D Hnone Hclean Hloop; cbn [main_loop] in Hloop;
    destruct (Z.eqb_spec (num_io_reqs (locals (control m))) 0) as [Hz|Hnz];
    try (injection Hloop as <-; split; assumption); [discriminate|].
  cbn in Hclean. apply andb_true_iff in Hclean. destruct Hclean as [Hb Hclean].
  destruct r as [batch| |]; [|discriminate..].
  destruct (transfers m batch) as [[m1 evs]|] eqn:Ht; [|discriminate].
  destruct (submit_and_get QUEUE_SIZE (control m1) evs) as [c1|] eqn:Hget;
    [|discriminate].
  destruct (handle_all READ_BLOCK_SIZE src_fd dst_fd (length evs) c1) as [c2|]
    eqn:Hall; [|discriminate].
  destruct (dinv_round m m1 batch evs c1 c2 D Hnone Hb Ht Hget Hall)
    as (D' & Hnil & _).
  apply (IH (set_control m1 c2) D' Hnil Hclean Hloop).
Qed.

(** When no control block is outstanding any more every block is in
    place. *)
Lemma dinv_end (m : machine) :
  (0 < QUEUE_SIZE)%nat -> DInv m [] ->
  num_io_reqs (locals (control m)) = 0 ->
  finish (control m) (dst_file m)
  = src ++ replicate (Z.to_nat (B - S mod B)) x00.
Proof.
  intros HN D Hz.
  destruct aio_tracked as (Hpast & Hdiv & HT).
  pose proof (proj1 (di_sized _ _ D)) as H.
  pose proof (LinuxAioRun.aio_off _ _ _ _ H) as Hoff.
  assert (Hnone : outstanding (control m) = []).
  { apply length_zero_iff_nil.
    pose proof (LinuxAioRun.aio_count _ _ _ _ H). lia. }
  assert (Hend : src_off (locals (control m)) = T).
  { destruct (decide (src_off (locals (control m)) < T)) as [Hlt|?]; [|lia].
    pose proof (di_full _ _ D Hlt). lia. }
  assert (Hdst : dst_file m = src).
  { apply list_eq. intros x.
    destruct (decide (x < length src)%nat) as [Hx|Hx].
    2:{ rewrite !(proj2 (lookup_ge_None _ _)); [reflexivity|lia|].
        pose proof (di_dst _ _ D). lia. }
    pose proof (Z.div_mod (Z.of_nat x) B ltac:(lia)) as Hdm.
    pose proof (Z.mod_pos_bound (Z.of_nat x) B ltac:(lia)) as Hmod.
    assert (0 <= Z.of_nat x / B) by (apply Z.div_pos; lia).
    destruct (di_covered _ _ D (B * (Z.of_nat x / B)))
      as [Hdone|(j & cb & Hj & _)].
    - exists (Z.of_nat x / B). lia.
    - nia.
    - apply Hdone; lia.
    - rewrite Hnone in Hj. inversion Hj. }
  unfold finish, close_src_dst_files, ftruncate.
  rewrite Hdst, (LinuxAioRun.aio_size _ _ _ _ H).
  rewrite (PosixAioRun.tracked_exact B QUEUE_SIZE src block_size_bounds rounding_fits).
  pose proof (Z.div_mod S B ltac:(lia)) as Hdm.
  pose proof (Z.mod_pos_bound S B ltac:(lia)) as Hmod.
  rewrite take_ge by lia. f_equal. f_equal. lia.
Qed.

(** *** The first reads *)

Definition Started (mem : list (list byte)) (s : state) (k : nat) : Prop :=
  src_size s = T /\ 0 <= src_off s <= T /\ (B | src_off s)
  /\ num_io_reqs s = Z.of_nat k /\ submit_list s = seq 0 k /\ events s = []
  /\ length (iocbs s) = QUEUE_SIZE /\ (k <= QUEUE_SIZE)%nat
  /\ (forall i cb, (i < k)%nat -> iocbs s !! i = Some cb ->
        cell_ok (src_off s) mem (allocated S) i cb None)
  /\ (forall o, (B | o) -> 0 <= o < src_off s ->
        exists i cb, (i < k)%nat /\ iocbs s !! i = Some cb /\ offset cb = o).

Lemma started_start_reads (mem : list (list byte)) (n k : nat) (s : state) :
  Started mem s k -> (k + n)%nat = QUEUE_SIZE ->
  exists k', Started mem (start_reads READ_BLOCK_SIZE src_fd n k s) k'
    /\ (src_off (start_reads READ_BLOCK_SIZE src_fd n k s) < T ->
        k' = QUEUE_SIZE).
Proof.
  destruct aio_tracked as (_ & Hdiv & HT).
  pose proof (proj1 block_size_bounds) as HB.
  revert k s. induction n as [|n IH]; intros k s Hst Hsum; cbn [start_reads].
  - exists k. split; [exact Hst|]. intros _. lia.
  - destruct Hst as (Hsz & Hoff & Hal & Hnum & Hlist & Hev & Hlen & Hk & Hcells & Hcov).
    destruct (Z.ltb_spec (src_off s) (src_size s)) as [Hlt|Hge].
    2:{ exists k. split; [repeat (split; [assumption|]); assumption|].
        intros Hlt. lia. }
    rewrite Hsz in Hlt.
    pose proof (LinuxAioRun.aligned_next B (src_off s) T HB Hal Hdiv Hlt) as Hnext.
    apply (IH (Datatypes.S k)); [|lia].
    unfold Started. cbn [src_size src_off num_io_reqs submit_list events iocbs].
    rewrite wrap_s64_small by lia.
    split; [exact Hsz|]. split; [lia|].
    split; [apply Z.divide_add_r; [exact Hal|apply Z.divide_refl]|].
    split; [rewrite Hnum, wrap_u64_small; lia|].
    split; [rewrite Hlist, seq_S; reflexivity|]. split; [exact Hev|].
    split; [rewrite length_insert; exact Hlen|]. split; [lia|]. split.
    + intros i cb Hi Hcb. destruct (decide (i = k)) as [->|Hne].
      * rewrite list_lookup_insert_eq in Hcb by lia. injection Hcb as <-.
        unfold cell_ok. cbn.
        split; [reflexivity|]. split; [lia|]. split; [exact Hal|]. split; [lia|].
        split; [reflexivity|]. split; [reflexivity|]. left. reflexivity.
      * rewrite list_lookup_insert_ne in Hcb
          by (intros Heq; apply Hne; symmetry; exact Heq).
        apply (cell_ok_mono (src_off s) _ mem _ (allocated S));
          [lia|reflexivity|auto|]. apply Hcells; [lia|exact Hcb].
    + intros o Hdo Hr. destruct (decide (o < src_off s)) as [Hold|Hnew].
      * destruct (Hcov o Hdo ltac:(lia)) as (i & cb & Hi & Hcb & Ho).
        exists i, cb. split; [lia|]. split; [|exact Ho].
        rewrite list_lookup_insert_ne by lia. exact Hcb.
      * eexists k, _. split; [lia|].
        split; [apply list_lookup_insert_eq; lia|]. cbn. symmetry.
        apply (PosixAioRun.aligned_between B QUEUE_SIZE src block_size_bounds);
          [exact Hal|exact Hdo|lia].
Qed.

Lemma dinv_boot (iocbs0 : list iocb) (mem : list (list byte)) :
  length iocbs0 = QUEUE_SIZE ->
  length mem = QUEUE_SIZE ->
  Forall (fun b => B <= Z.of_nat (length b)) mem ->
  let m := boot READ_BLOCK_SIZE QUEUE_SIZE src_fd dst_fd src iocbs0 mem in
  DInv m [] /\ events (locals (control m)) = [].
Proof.
  intros Hcbs Hmem Hbig. cbn zeta.
  destruct aio_tracked as (_ & Hdiv & HT).
  pose proof (proj1 block_size_bounds) as HB.
  assert (Hsize : open_src_file src = S).
  { unfold open_src_file. apply wrap_u32_small. lia. }
  unfold boot, LinuxAio.boot. rewrite Hsize.
  set (s0 := LinuxAio.mkState _ _ _ _ _ _).
  assert (Hst0 : Started mem s0 0).
  { unfold Started, s0. cbn.
    split; [reflexivity|]. split; [lia|]. split; [apply Z.divide_0_r|].
    split; [reflexivity|]. split; [reflexivity|]. split; [reflexivity|].
    split; [exact Hcbs|]. split; [lia|]. split; [intros i cb Hi; lia|].
    intros o _ Ho. lia. }
  destruct (started_start_reads mem QUEUE_SIZE 0 s0 Hst0 eq_refl)
    as (k & Hst & Hfull).
  set (s := start_reads READ_BLOCK_SIZE src_fd QUEUE_SIZE 0 s0) in *.
  destruct Hst as (Hsz & Hoff & Hal & Hnum & Hlist & Hev & Hlen & Hk & Hcells & Hcov).
  split; [|exact Hev].
  assert (Hin : forall i, i ∈ seq 0 k <-> (i < k)%nat).
  { intros i. rewrite elem_of_seq. lia. }
  constructor; cbn; first [reflexivity|idtac].
  - split; [|exact Hlen].
    apply (LinuxAioRun.aio_inv_ready B QUEUE_SIZE T s k); assumption.
  - rewrite allocated_length. lia.
  - intros i Hi. destruct (lookup_lt_is_Some_2 mem i ltac:(lia)) as [b Hb].
    exists b. split; [exact Hb|].
    apply (proj1 (Forall_lookup _ mem) Hbig i b Hb).
  - intros i cb Hi _ Hcb. rewrite Hlist in Hi. apply Hcells; [|exact Hcb].
    apply Hin. exact Hi.
  - intros ev cb Hin'. rewrite Hev in Hin'. inversion Hin'.
  - intros o Hdo Hr. right. destruct (Hcov o Hdo Hr) as (i & cb & Hi & Hcb & Ho).
    exists i, cb. split; [|split; [exact Hcb|exact Ho]].
    unfold outstanding. cbn. rewrite Hlist, Hev. cbn. rewrite app_nil_r.
    apply Hin. exact Hi.
  - intros Hlt. rewrite Hnum, (Hfull Hlt). reflexivity.
Qed.

(** *** A run to the end *)

Lemma dinv_next_round (m : machine) :
  (0 < QUEUE_SIZE)%nat ->
  DInv m [] -> events (locals (control m)) = [] ->
  num_io_reqs (locals (control m)) <> 0 ->
  exists batch m1 evs c1 c2,
    forallb completes batch = true
    /\ transfers m batch = Some (m1, evs)
    /\ submit_and_get QUEUE_SIZE (control m1) evs = Some c1
    /\ handle_all READ_BLOCK_SIZE src_fd dst_fd (length evs) c1 = Some c2.
Proof.
  intros HN D Hnone Hnz.
  destruct aio_tracked as (_ & Hdiv & HT).
  pose proof (proj1 block_size_bounds) as HB.
  destruct (di_sized _ _ D) as [H Hlen].
  assert (Hout : outstanding (control m)
                 = in_kernel (control m) ++ submit_list (locals (control m))).
  { unfold outstanding. rewrite Hnone. cbn. rewrite app_nil_r. reflexivity. }
  destruct (in_kernel (control m) ++ submit_list (locals (control m)))
    as [|i held] eqn:Hheld.
  { pose proof (LinuxAioRun.aio_count _ _ _ _ H) as Hcount.
    rewrite Hout in Hcount. cbn in Hcount. lia. }
  assert (Hi : (i < QUEUE_SIZE)%nat).
  { apply (LinuxAioRun.aio_range _ _ _ _ H). rewrite Hout. left. }
  destruct (lookup_lt_is_Some_2 (iocbs (locals (control m))) i ltac:(lia))
    as [cb Hcb].
  assert (Ht : exists m1 ev, transfer m (Done i) = Some (m1, ev)).
  { unfold transfer. rewrite Hcb.
    destruct (buffers m !! buf cb); [|eauto].
    destruct (_ <? _); [eauto|].
    destruct (aio_lio_opcode cb); destruct (_ =? _); eauto. }
  destruct Ht as (m1 & ev & Ht).
  destruct (transfer_event m m1 (Done i) ev Ht) as [Hctl Hobj]. cbn in Hobj.
  assert (Hget : exists c1, submit_and_get QUEUE_SIZE (control m1) [ev] = Some c1).
  { unfold submit_and_get. rewrite bool_decide_eq_true_2; [eauto|].
    split; [discriminate|]. split; [cbn; lia|]. cbn [fmap list_fmap].
    rewrite Hobj, Hctl, Hheld.
    split; [apply NoDup_singleton|]. intros x Hx.
    apply list_elem_of_singleton in Hx. subst x. left. }
  destruct Hget as [c1 Hget].
  assert (Hs1 : Sized c1 /\ events (locals c1) = [ev]).
  { destruct (LinuxAioLoop.wait_same B QUEUE_SIZE T HT (control m1) c1 [ev])
      as (Hs1 & _ & Hevs & _); [rewrite Hctl; split; assumption
                               |rewrite Hctl; exact Hnone|exact Hget|].
    split; assumption. }
  destruct Hs1 as [Hs1 Hevs].
  destruct (LinuxAioLoop.handle_all_less B QUEUE_SIZE src_fd dst_fd T HB Hdiv HT
              queue_size_bound 1 c1 Hs1 ltac:(rewrite Hevs; reflexivity))
    as (c2 & Hall & _).
  exists [Done i], m1, [ev], c1, c2.
  split; [reflexivity|]. split; [cbn [transfers]; rewrite Ht; reflexivity|].
  split; [exact Hget|exact Hall].
Qed.

Lemma dinv_completes (k : nat) (m : machine) :
  (0 < QUEUE_SIZE)%nat ->
  DInv m [] -> events (locals (control m)) = [] ->
  (LinuxAioLoop.batches_left B QUEUE_SIZE T (control m) <= k)%nat ->
  exists schedule m',
    in_full schedule = true
    /\ main_loop READ_BLOCK_SIZE QUEUE_SIZE src_fd dst_fd schedule m
       = Some (Running m').
Proof.
  intros HN. revert m. induction k as [|k IH]; intros m D Hnone Hle;
    destruct (Z.eqb_spec (num_io_reqs (locals (control m))) 0) as [Hz|Hnz];
    try (exists [], m; split; [reflexivity|]; cbn;
         rewrite (proj2 (Z.eqb_eq _ _) Hz); reflexivity).
  - pose proof (LinuxAioLoop.batches_left_pos B QUEUE_SIZE T (control m)
                  (di_sized _ _ D) Hnz). lia.
  - destruct (dinv_next_round m HN D Hnone Hnz)
      as (batch & m1 & evs & c1 & c2 & Hb & Ht & Hget & Hall).
    destruct (dinv_round m m1 batch evs c1 c2 D Hnone Hb Ht Hget Hall)
      as (D' & Hnil & Hlt).
    assert (Hle' : (LinuxAioLoop.batches_left B QUEUE_SIZE T
                      (control (set_control m1 c2)) <= k)%nat).
    { unfold set_control. cbn [control]. lia. }
    destruct (IH (set_control m1 c2) D' Hnil Hle')
      as (schedule & m' & Hclean & Hloop).
    exists (Batch batch :: schedule), m'. split.
    + cbn. rewrite Hb. exact Hclean.
    + cbn [main_loop].
      destruct (Z.eqb_spec (num_io_reqs (locals (control m))) 0) as [?|_];
        [contradiction|].
      rewrite Ht, Hget, Hall. exact Hloop.
Qed.

End Copying.

End LinuxAioCopy.

(** X22.  When neither [io_submit] nor [io_getevents] fails and the context
    carries out in full every request it reports, a run of the Linux AIO
    driver that ends with [main] returning leaves the destination equal to
    the source followed by [READ_BLOCK_SIZE - size mod READ_BLOCK_SIZE]
    zero bytes: every block is copied in place, and [close_src_dst_files]
    truncates the destination to the rounded size, not to the size of the
    source.  The source and one block more fit below 4 GiB, and every part
    of the buffer holds a block. *)
Theorem aio_copy_is_padded (B : Z) (N : nat) (src_fd dst_fd : Z)
    (src : file) (iocbs0 : list LinuxAio.iocb) (mem : list (list byte))
    (schedule : list LinuxAioCp.round) (dst : file) :
  0 < B < 2 ^ 31 -> Z.of_nat (length src) + B < 2 ^ 32 ->
  (0 < N)%nat -> Z.of_nat N < 2 ^ 64 ->
  length iocbs0 = N -> length mem = N ->
  Forall (fun b => B <= Z.of_nat (length b)) mem ->
  LinuxAioCp.in_full schedule = true ->
  LinuxAioCp.main B N src_fd dst_fd src iocbs0 mem schedule
  = Some (Running dst) ->
  dst = src ++ replicate (Z.to_nat (B - Z.of_nat (length src) mod B)) x00.
Proof.
  intros HB HS HN HN' Hcbs Hmem Hbig Hclean Hmain.
  destruct (LinuxAioCopy.dinv_boot B N src_fd dst_fd src HB HS HN'
              iocbs0 mem Hcbs Hmem Hbig) as [D0 Hnone].
  unfold LinuxAioCp.main in Hmain.
  destruct (open_dst_file _) as [dst0| |]; try discriminate.
  destruct (LinuxAioCp.main_loop _ _ _ _ schedule _) as [[m'|code|]|] eqn:Hloop;
    try discriminate.
  injection Hmain as <-.
  destruct (LinuxAioCopy.dinv_main_loop B N src_fd dst_fd src HB HS HN'
              schedule _ m' D0 Hnone Hclean Hloop) as [D' Hz].
  apply (LinuxAioCopy.dinv_end B N src_fd dst_fd src HB HS m' HN D' Hz).
Qed.

Lemma aio_copy_is_padded_witness :
  LinuxAioCp.main 4 2 3 4 Samples.src10 AioSamples.stale2 Samples.mem2x4
    AioSamples.aio_batches10
  = Some (Running (Samples.src10 ++ replicate 2 x00))
  /\ Samples.src10 ++ replicate 2 x00
     = Samples.src10
       ++ replicate (Z.to_nat (4 - Z.of_nat (length Samples.src10) mod 4)) x00.
Proof.
  split; [reflexivity|].
  apply (aio_copy_is_padded 4 2 3 4 Samples.src10 AioSamples.stale2
           Samples.mem2x4 AioSamples.aio_batches10);
    [lia|cbn; lia|lia|cbn; lia|reflexivity|reflexivity
    |repeat (apply Forall_cons_2; [cbn; lia|]); apply Forall_nil_2
    |reflexivity|reflexivity].
Defined.

(** X23.  For every source that is not empty the Linux AIO driver has a run,
    with neither call failing and every request carried out in full, on
    which [main] returns; the destination is then the source followed by
    [READ_BLOCK_SIZE - size mod READ_BLOCK_SIZE] zero bytes.  The source
    and one block more fit below 4 GiB, and every part of the buffer holds
    a block. *)
Theorem aio_copy_completes (B : Z) (N : nat) (src_fd dst_fd : Z)
    (src : file) (iocbs0 : list LinuxAio.iocb) (mem : list (list byte)) :
  0 < B < 2 ^ 31 ->
  (0 < length src)%nat -> Z.of_nat (length src) + B < 2 ^ 32 ->
  (0 < N)%nat -> Z.of_nat N < 2 ^ 64 ->
  length iocbs0 = N -> length mem = N ->
  Forall (fun b => B <= Z.of_nat (length b)) mem ->
  exists schedule,
    LinuxAioCp.in_full schedule = true
    /\ LinuxAioCp.main B N src_fd dst_fd src iocbs0 mem schedule
       = Some (Running
                 (src ++ replicate
                           (Z.to_nat (B - Z.of_nat (length src) mod B)) x00)).
Proof.
  intros HB Hsome HS HN HN' Hcbs Hmem Hbig.
  destruct (LinuxAioCopy.dinv_boot B N src_fd dst_fd src HB HS HN'
              iocbs0 mem Hcbs Hmem Hbig) as [D0 Hnone].
  destruct (LinuxAioCopy.dinv_completes B N src_fd dst_fd src HB HS HN'
              _ _ HN D0 Hnone (Nat.le_refl _)) as (schedule & m' & Hclean & Hloop).
  exists schedule. split; [exact Hclean|].
  destruct (LinuxAioCopy.dinv_main_loop B N src_fd dst_fd src HB HS HN'
              schedule _ m' D0 Hnone Hclean Hloop) as [D' Hz].
  unfold LinuxAioCp.main.
  rewrite open_dst_file_ok
    by (unfold open_src_file; rewrite wrap_u32_small by lia; lia).
  rewrite Hloop. do 2 f_equal.
  apply (LinuxAioCopy.dinv_end B N src_fd dst_fd src HB HS m' HN D' Hz).
Qed.

Lemma aio_copy_completes_witness :
  exists schedule,
    LinuxAioCp.in_full schedule = true
    /\ LinuxAioCp.main 4 2 3 4 Samples.src10 AioSamples.stale2
         Samples.mem2x4 schedule
       = Some (Running
                 (Samples.src10
                  ++ replicate
                       (Z.to_nat (4 - Z.of_nat (length Samples.src10) mod 4))
                       x00)).
Proof.
  apply (aio_copy_completes 4 2 3 4 Samples.src10 AioSamples.stale2
           Samples.mem2x4);
    [lia|cbn; lia|cbn; lia|lia|cbn; lia|reflexivity|reflexivity
    |repeat (apply Forall_cons_2; [cbn; lia|]); apply Forall_nil_2].
Defined.
